(** * A shallow embedding of the LevelDB excerpt

    The development follows the source files one module at a time:
    [Coding] (varint and fixed-width integers), [Comparators]
    (table/comparator part of src/table/format.cc), [BlockBuilder]
    (table/block_builder.cc), [DBFormat] (db/dbformat.h), [WriteBatch]
    (db/write_batch.cc), [Log] (db/log_writer.cc), [Format] and
    [TableBuilder] (table/format.cc and table/table_builder.cc), [Cache]
    and [HandleTable] (util/cache.cc: a shard, and its hash table with
    the chains), [SkipList] (db/skiplist.h), [MemTable]
    (db/memtable.cc) and [MemTableInserter] (the replay of a batch into
    a memtable, of db/write_batch.cc).

    Conventions.  A byte is a [Z] in [0, 256) (the value of the
    [unsigned char]); a [Slice] or [std::string] is a [list Z] of bytes.
    Fixed-width machine integers are [Z] with the wrap-around written
    out where the source can reach it. *)

From Stdlib Require Import ZArith Lia List Bool String Ascii.
From stdpp Require Import base list gmap sorting.

Open Scope Z_scope.

(** ** Bytes, slices and statuses *)

Definition is_byte (b : Z) : Prop := 0 <= b < 256.

Definition bytes_ok (s : list Z) : Prop := Forall is_byte s.

Definition bytes_okb (s : list Z) : bool :=
  forallb (fun b => (0 <=? b) && (b <? 256)) s.

Lemma bytes_okb_ok s : bytes_okb s = true -> bytes_ok s.
Proof.
  unfold bytes_okb, bytes_ok, is_byte. intros H. apply Forall_forall.
  intros b Hb. rewrite forallb_forall in H. rewrite list_elem_of_In in Hb.
  specialize (H b Hb). apply andb_true_iff in H as [H1 H2].
  apply Z.leb_le in H1. apply Z.ltb_lt in H2. lia.
Qed.

(** The bytes of a string literal. *)
Fixpoint bytes (s : string) : list Z :=
  match s with
  | EmptyString => []
  | String c s' => Z.of_N (N_of_ascii c) :: bytes s'
  end.

(** leveldb::Status, by its code and message. *)
Inductive Status : Type :=
| OK
| NotFound (msg : string)
| Corruption (msg : string)
| InvalidArgument (msg : string)
| IOError (msg : string).

Definition ok (s : Status) : bool :=
  match s with OK => true | _ => false end.

(** [std::string::resize(n)]: truncate, or pad with zero bytes. *)
Definition str_resize (n : nat) (s : list Z) : list Z :=
  take n s ++ replicate (n - length s) 0.

Lemma length_str_resize n s : length (str_resize n s) = n.
Proof.
  unfold str_resize. rewrite length_app, length_take, length_replicate. lia.
Qed.

Lemma str_resize_le n s :
  (length s <= n)%nat -> str_resize n s = s ++ replicate (n - length s) 0.
Proof.
  intros H. unfold str_resize. by rewrite take_ge.
Qed.

Lemma bytes_ok_app a b : bytes_ok a -> bytes_ok b -> bytes_ok (a ++ b).
Proof. unfold bytes_ok. intros. by apply Forall_app. Qed.

(** ** util/coding: varint and fixed-width encodings *)

Module Coding.

(** Modelled from the spec: util/coding.cc is not part of the excerpt.
    Section 3: "Varint: little-endian base-128; each byte has a
    continuation bit (MSB=1 means more bytes follow). 1-5 bytes for
    32-bit values, 1-10 for 64-bit."  [more] bounds the number of
    continuation bytes. *)
Fixpoint EncodeVarint (more : nat) (v : Z) : list Z :=
  match more with
  | O => [v mod 128]
  | S m =>
      if v <? 128 then [v]
      else (v mod 128 + 128) :: EncodeVarint m (v / 128)
  end.

(** Modelled from the spec: the 32-bit varint of a [uint32_t]. *)
Definition EncodeVarint32 (v : Z) : list Z := EncodeVarint 4 (v mod 2 ^ 32).

(** Modelled from the spec: the 64-bit varint of a [uint64_t]. *)
Definition EncodeVarint64 (v : Z) : list Z := EncodeVarint 9 (v mod 2 ^ 64).

Definition PutVarint32 (dst : list Z) (v : Z) : list Z := dst ++ EncodeVarint32 v.

Definition PutVarint64 (dst : list Z) (v : Z) : list Z := dst ++ EncodeVarint64 v.

Definition VarintLength (v : Z) : nat := length (EncodeVarint 9 v).

(** Modelled from the spec: varint decoding, reading at most [fuel]
    bytes; [None] when the input ends or the last permitted byte still
    carries the continuation bit. *)
Fixpoint GetVarint (fuel : nat) (p : list Z) : option (Z * list Z) :=
  match fuel, p with
  | S f, byte :: p' =>
      if 128 <=? byte then
        match GetVarint f p' with
        | Some (v, rest) => Some (byte mod 128 + 128 * v, rest)
        | None => None
        end
      else Some (byte, p')
  | _, _ => None
  end.

(** Modelled from the spec: [GetVarint32Ptr(p, p + 5, &v)] and
    [GetVarint32(&input, &v)]; the value is a [uint32_t]. *)
Definition GetVarint32 (p : list Z) : option (Z * list Z) :=
  match GetVarint 5 p with
  | Some (v, rest) => Some (v mod 2 ^ 32, rest)
  | None => None
  end.

(** Modelled from the spec: [GetLengthPrefixedSlice(Slice* input,
    Slice* result)] of util/coding.cc: a varint32 length followed by
    that many bytes; on success the result and the advanced input. *)
Definition GetLengthPrefixedSlice (input : list Z) : option (list Z * list Z) :=
  match GetVarint32 input with
  | Some (len, rest) =>
      if (len <=? Z.of_nat (length rest))
      then Some (take (Z.to_nat len) rest, drop (Z.to_nat len) rest)
      else None
  | None => None
  end.

Definition PutLengthPrefixedSlice (dst value : list Z) : list Z :=
  PutVarint32 dst (Z.of_nat (length value)) ++ value.

(** Modelled from the spec: "fixed32/fixed64: little-endian
    fixed-width". *)
Fixpoint EncodeFixed (n : nat) (v : Z) : list Z :=
  match n with
  | O => []
  | S n' => v mod 256 :: EncodeFixed n' (v / 256)
  end.

Fixpoint DecodeFixed (n : nat) (p : list Z) : Z :=
  match n, p with
  | S n', b :: p' => b + 256 * DecodeFixed n' p'
  | _, _ => 0
  end.

Definition EncodeFixed32 (v : Z) : list Z := EncodeFixed 4 (v mod 2 ^ 32).
Definition EncodeFixed64 (v : Z) : list Z := EncodeFixed 8 (v mod 2 ^ 64).
Definition PutFixed32 (dst : list Z) (v : Z) : list Z := dst ++ EncodeFixed32 v.
Definition DecodeFixed32 (p : list Z) : Z := DecodeFixed 4 p.
Definition DecodeFixed64 (p : list Z) : Z := DecodeFixed 8 p.

(** *** Facts about the encodings *)

Lemma EncodeVarint_length more v :
  (1 <= length (EncodeVarint more v) <= S more)%nat.
Proof.
  revert v. induction more as [|m IH]; intros v; simpl.
  - lia.
  - destruct (v <? 128); simpl; [lia|]. specialize (IH (v / 128)). lia.
Qed.

Lemma EncodeVarint32_length v : (1 <= length (EncodeVarint32 v) <= 5)%nat.
Proof. apply EncodeVarint_length. Qed.

Lemma EncodeVarint64_length v : (1 <= length (EncodeVarint64 v) <= 10)%nat.
Proof. apply EncodeVarint_length. Qed.

Lemma EncodeVarint_bytes_ok more v : 0 <= v -> bytes_ok (EncodeVarint more v).
Proof.
  revert v. induction more as [|m IH]; intros v Hv; simpl.
  - constructor; [|constructor]. unfold is_byte.
    pose proof (Z.mod_pos_bound v 128). lia.
  - destruct (v <? 128) eqn:E.
    + constructor; [|constructor]. unfold is_byte. lia.
    + constructor.
      * unfold is_byte. pose proof (Z.mod_pos_bound v 128). lia.
      * apply IH. apply Z.div_pos; lia.
Qed.

Lemma GetVarint_cons f b p :
  GetVarint (S f) (b :: p) =
  if 128 <=? b then
    match GetVarint f p with
    | Some (v, rest) => Some (b mod 128 + 128 * v, rest)
    | None => None
    end
  else Some (b, p).
Proof. reflexivity. Qed.

(** Decoding what was encoded gives the value back, whatever follows. *)
Lemma GetVarint_EncodeVarint more v rest :
  0 <= v < 128 ^ Z.of_nat (S more) ->
  GetVarint (S more) (EncodeVarint more v ++ rest) = Some (v, rest).
Proof.
  revert v. induction more as [|m IH]; intros v Hv.
  - simpl in *. rewrite Z.mod_small by lia.
    destruct (128 <=? v) eqn:E; [lia|done].
  - cbn [EncodeVarint]. destruct (v <? 128) eqn:E.
    + cbn [app]. rewrite GetVarint_cons.
      destruct (128 <=? v) eqn:E2; [lia|done].
    + cbn [app]. rewrite GetVarint_cons.
      pose proof (Z.mod_pos_bound v 128 ltac:(lia)) as Hm.
      destruct (128 <=? v mod 128 + 128) eqn:E2; [|lia].
      rewrite IH.
      * f_equal. f_equal.
        replace (v mod 128 + 128) with (v mod 128 + 1 * 128) by lia.
        rewrite Z.mod_add by lia. rewrite Z.mod_mod by lia.
        pose proof (Z.div_mod v 128). lia.
      * split; [apply Z.div_pos; lia|].
        apply Z.div_lt_upper_bound; [lia|].
        replace (Z.of_nat (S (S m))) with (1 + Z.of_nat (S m)) in Hv by lia.
        rewrite Z.pow_add_r in Hv by lia. lia.
Qed.

Lemma GetVarint32_EncodeVarint32 v rest :
  0 <= v < 2 ^ 32 ->
  GetVarint32 (EncodeVarint32 v ++ rest) = Some (v, rest).
Proof.
  intros Hv. unfold GetVarint32, EncodeVarint32.
  rewrite (Z.mod_small v) by lia.
  rewrite GetVarint_EncodeVarint.
  - by rewrite Z.mod_small by lia.
  - change (128 ^ Z.of_nat 5) with 34359738368. lia.
Qed.

Lemma GetLengthPrefixedSlice_Put s rest :
  Z.of_nat (length s) < 2 ^ 32 ->
  GetLengthPrefixedSlice (PutLengthPrefixedSlice [] s ++ rest) = Some (s, rest).
Proof.
  intros Hs. unfold GetLengthPrefixedSlice, PutLengthPrefixedSlice, PutVarint32.
  simpl. rewrite <- app_assoc. rewrite GetVarint32_EncodeVarint32 by lia.
  rewrite length_app.
  rewrite (proj2 (Z.leb_le _ _)) by lia.
  rewrite Nat2Z.id. by rewrite take_app_length, drop_app_length.
Qed.

Lemma length_EncodeFixed n v : length (EncodeFixed n v) = n.
Proof. revert v. induction n; intros; simpl; auto. Qed.

Lemma DecodeFixed_EncodeFixed n v rest :
  DecodeFixed n (EncodeFixed n v ++ rest) = v mod 256 ^ Z.of_nat n.
Proof.
  revert v. induction n as [|n IH]; intros v.
  - simpl. by rewrite Z.mod_1_r.
  - cbn [EncodeFixed app DecodeFixed]. rewrite IH.
    replace (Z.of_nat (S n)) with (1 + Z.of_nat n) by lia.
    rewrite Z.pow_add_r by lia. change (256 ^ 1) with 256.
    rewrite Z.rem_mul_r by lia. lia.
Qed.

(** *** Decoding a varint64 *)

(** Modelled from the spec: [GetVarint64(Slice* input, uint64_t* value)]
    of util/coding.cc, "1-10 [bytes] for 64-bit": the value, a
    [uint64_t], and the advanced input; [None] leaves both as they
    were. *)
Definition GetVarint64 (input : list Z) : option (Z * list Z) :=
  match GetVarint 10 input with
  | Some (v, rest) => Some (v mod 2 ^ 64, rest)
  | None => None
  end.

Lemma GetVarint64_EncodeVarint64 v rest :
  0 <= v < 2 ^ 64 ->
  GetVarint64 (EncodeVarint64 v ++ rest) = Some (v, rest).
Proof.
  intros Hv. unfold GetVarint64, EncodeVarint64.
  rewrite (Z.mod_small v) by lia.
  rewrite GetVarint_EncodeVarint.
  - by rewrite Z.mod_small by lia.
  - change (128 ^ Z.of_nat 10) with 1180591620717411303424. lia.
Qed.

(** A varint that ends before its last byte does not decode. *)
Lemma GetVarint_truncated more v (n : nat) :
  0 <= v -> (n < length (EncodeVarint more v))%nat ->
  GetVarint (S more) (take n (EncodeVarint more v)) = None.
Proof.
  revert v n. induction more as [|m IH]; intros v n Hv Hn.
  - simpl in Hn. assert (n = 0%nat) as -> by lia. done.
  - cbn [EncodeVarint] in *. destruct (v <? 128) eqn:E.
    + simpl in Hn. assert (n = 0%nat) as -> by lia. done.
    + destruct n as [|n]; [done|]. cbn [take]. rewrite GetVarint_cons.
      pose proof (Z.mod_pos_bound v 128 ltac:(lia)).
      rewrite (proj2 (Z.leb_le _ _)) by lia.
      rewrite IH; [done| |simpl in Hn; lia].
      apply Z.div_pos; lia.
Qed.

(** Fixed-width decoding reads the first [n] bytes only. *)
Lemma DecodeFixed_app (n m : nat) (p : list Z) :
  DecodeFixed (n + m) p =
  DecodeFixed n p + 256 ^ Z.of_nat n * DecodeFixed m (drop n p).
Proof.
  revert p. induction n as [|n IH]; intros p.
  - simpl. rewrite drop_0. lia.
  - destruct p as [|b p].
    + rewrite drop_nil. cbn [Nat.add DecodeFixed]. destruct m; simpl; lia.
    + cbn [Nat.add DecodeFixed drop]. rewrite IH.
      replace (Z.of_nat (S n)) with (1 + Z.of_nat n) by lia.
      rewrite Z.pow_add_r by lia. lia.
Qed.

Lemma DecodeFixed_split (p : list Z) :
  DecodeFixed 8 p = DecodeFixed 4 p + 2 ^ 32 * DecodeFixed 4 (drop 4 p).
Proof. apply (DecodeFixed_app 4 4). Qed.

Lemma DecodeFixed_take (n : nat) (p : list Z) :
  DecodeFixed n (take n p) = DecodeFixed n p.
Proof.
  revert p. induction n as [|n IH]; intros p; [by destruct p|].
  destruct p as [|b p]; [done|]. cbn [take DecodeFixed]. by rewrite IH.
Qed.

Lemma DecodeFixed_prefix (n : nat) (l rest : list Z) :
  length l = n -> DecodeFixed n (l ++ rest) = DecodeFixed n l.
Proof.
  intros <-. rewrite <- (DecodeFixed_take (length l) (l ++ rest)).
  by rewrite take_app_length.
Qed.

End Coding.

Module Comparators.

(** Modelled from the spec: [Slice::compare] (include/leveldb/slice.h is
    not part of the excerpt); section 6: "The default is lexicographic
    byte comparison": the bytes are compared as unsigned values over the
    common length, then the shorter slice sorts first. *)
Fixpoint Slice_compare (a b : list Z) : Z :=
  match a, b with
  | [], [] => 0
  | [], _ :: _ => -1
  | _ :: _, [] => 1
  | x :: a', y :: b' =>
      if x <? y then -1 else if y <? x then 1 else Slice_compare a' b'
  end.

(** The interface [leveldb::Comparator]; [addr] stands for the address
    of the object, which [TableBuilder::ChangeOptions] compares. *)
Record Comparator : Type := {
  addr : Z;
  Name : string;
  Compare : list Z -> list Z -> Z;
  FindShortestSeparator : list Z -> list Z -> list Z;
  FindShortSuccessor : list Z -> list Z
}.

(** [s[i]] of a [std::string] or [Slice], within its length. *)
Definition at_ (s : list Z) (i : nat) : Z := s !!! i.

(** The loop of [FindShortestSeparator] that advances [diff_index] over
    the common prefix; it runs at most [min_length] times. *)
Fixpoint diff_loop (fuel : nat) (start limit : list Z)
    (min_length diff_index : nat) : nat :=
  match fuel with
  | O => diff_index
  | S fuel' =>
      if (diff_index <? min_length)%nat && (at_ start diff_index =? at_ limit diff_index)
      then diff_loop fuel' start limit min_length (S diff_index)
      else diff_index
  end.

(** [BytewiseComparatorImpl::FindShortestSeparator(&start, limit)],
    returning the new contents of [*start]. *)
Definition Bytewise_FindShortestSeparator (start limit : list Z) : list Z :=
  let min_length := Nat.min (length start) (length limit) in
  let diff_index := diff_loop min_length start limit min_length 0 in
  if (min_length <=? diff_index)%nat then
    (* Do not shorten if one string is a prefix of the other *)
    start
  else
    let diff_byte := at_ start diff_index in
    if (diff_byte <? 255) && (diff_byte + 1 <? at_ limit diff_index) then
      str_resize (diff_index + 1)%nat (<[diff_index := (diff_byte + 1) mod 256]> start)
    else start.

(** The [for] loop of [FindShortSuccessor], from index [i]. *)
Fixpoint succ_loop (fuel : nat) (key : list Z) (i : nat) : list Z :=
  match fuel with
  | O => key
  | S fuel' =>
      if (i <? length key)%nat then
        let byte := at_ key i in
        if negb (byte =? 255) then
          str_resize (i + 1)%nat (<[i := (byte + 1) mod 256]> key)
        else succ_loop fuel' key (S i)
      else key
  end.

(** [BytewiseComparatorImpl::FindShortSuccessor(&key)]. *)
Definition Bytewise_FindShortSuccessor (key : list Z) : list Z :=
  succ_loop (length key) key 0.

Definition BytewiseComparatorImpl : Comparator := {|
  addr := 0;
  Name := "leveldb.BytewiseComparator";
  Compare := Slice_compare;
  FindShortestSeparator := Bytewise_FindShortestSeparator;
  FindShortSuccessor := Bytewise_FindShortSuccessor
|}.

(** A comparator is a total preorder read through the sign of its
    result: what the skiplist and the memtable rely on. *)
Record TotalPreorder {A : Type} (cmp : A -> A -> Z) : Prop := {
  cmp_sign : forall a b, (cmp a b < 0 <-> cmp b a > 0) /\ (cmp a b = 0 <-> cmp b a = 0);
  cmp_trans : forall a b c, cmp a b <= 0 -> cmp b c <= 0 -> cmp a c <= 0
}.

(** *** The bytewise order *)

Lemma Slice_compare_refl a : Slice_compare a a = 0.
Proof.
  induction a as [|x a IH]; simpl; [done|].
  rewrite Z.ltb_irrefl. done.
Qed.

Lemma Slice_compare_eq a b : Slice_compare a b = 0 <-> a = b.
Proof.
  split; [|intros ->; apply Slice_compare_refl].
  revert b. induction a as [|x a IH]; intros [|y b]; simpl; try done.
  destruct (Z.ltb_spec x y); [done|]. destruct (Z.ltb_spec y x); [done|].
  intros Hc. f_equal; [lia|auto].
Qed.

Lemma Slice_compare_antisym a b : Slice_compare b a = - Slice_compare a b.
Proof.
  revert b. induction a as [|x a IH]; intros [|y b]; simpl; try done.
  destruct (Z.ltb_spec x y); destruct (Z.ltb_spec y x); try lia. apply IH.
Qed.

Lemma Slice_compare_lt_trans a b c :
  Slice_compare a b < 0 -> Slice_compare b c <= 0 -> Slice_compare a c < 0.
Proof.
  revert b c. induction a as [|x a IH]; intros [|y b] [|z c]; simpl; try lia.
  destruct (Z.ltb_spec x y); destruct (Z.ltb_spec y z);
    destruct (Z.ltb_spec x z); try lia;
    destruct (Z.ltb_spec y x); try lia;
    destruct (Z.ltb_spec z y); try lia;
    destruct (Z.ltb_spec z x); try lia.
  apply IH.
Qed.

Lemma Slice_compare_le_trans a b c :
  Slice_compare a b <= 0 -> Slice_compare b c <= 0 -> Slice_compare a c <= 0.
Proof.
  intros H1 H2.
  destruct (Z.eq_dec (Slice_compare a b) 0) as [E|E].
  - apply Slice_compare_eq in E. by subst.
  - pose proof (Slice_compare_lt_trans a b c). lia.
Qed.

Lemma Bytewise_TotalPreorder : TotalPreorder Slice_compare.
Proof.
  split.
  - intros a b. rewrite (Slice_compare_antisym a b). lia.
  - apply Slice_compare_le_trans.
Qed.

Lemma Slice_compare_app p a b :
  Slice_compare (p ++ a) (p ++ b) = Slice_compare a b.
Proof.
  induction p as [|x p IH]; simpl; [done|]. by rewrite Z.ltb_irrefl.
Qed.

(** *** The common-prefix loop *)

Lemma diff_loop_spec start limit min_length fuel i :
  (min_length <= length start)%nat -> (min_length <= length limit)%nat ->
  (i <= min_length)%nat -> (min_length <= fuel + i)%nat ->
  take i start = take i limit ->
  let d := diff_loop fuel start limit min_length i in
  (i <= d <= min_length)%nat /\ take d start = take d limit /\
  ((d < min_length)%nat -> at_ start d <> at_ limit d).
Proof.
  revert i. induction fuel as [|fuel IH]; intros i Hs Hl Hi Hf Hp; simpl.
  - assert (i = min_length) by lia. subst. repeat split; auto; lia.
  - destruct (Nat.ltb_spec i min_length) as [Hlt|Hge]; simpl.
    + destruct (Z.eqb_spec (at_ start i) (at_ limit i)) as [He|Hne].
      * destruct (IH (S i)) as (H1 & H2 & H3); try lia.
        { unfold at_ in He.
          rewrite (take_S_r start i (start !!! i)), (take_S_r limit i (limit !!! i)).
          - by rewrite Hp, He.
          - apply list_lookup_lookup_total_lt. lia.
          - apply list_lookup_lookup_total_lt. lia. }
        repeat split; auto; lia.
      * repeat split; auto; lia.
    + repeat split; auto; lia.
Qed.

Lemma split_at (s : list Z) (i : nat) :
  (i < length s)%nat -> s = take i s ++ at_ s i :: drop (S i) s.
Proof.
  intros H. symmetry. apply take_drop_middle.
  by apply list_lookup_lookup_total_lt.
Qed.

Lemma resize_insert (s : list Z) (i : nat) v :
  (i < length s)%nat ->
  str_resize (i + 1) (<[i := v]> s) = take i s ++ [v].
Proof.
  intros H. unfold str_resize. rewrite length_insert.
  replace (i + 1 - length s)%nat with 0%nat by lia. simpl. rewrite app_nil_r.
  rewrite insert_take_drop by done.
  rewrite take_app_add' by (rewrite length_take; lia). done.
Qed.

(** C6. For byte strings start < limit under the bytewise comparator,
    FindShortestSeparator either replaces start[i] by start[i]+1 and
    truncates to length i+1, where i is the index of the first
    differing byte and start[i]+1 is still below limit[i], or leaves
    start unchanged; in both cases old_start <= new_start < limit. *)
Theorem FindShortestSeparator_post (start limit : list Z) :
  bytes_ok start ->
  Slice_compare start limit < 0 ->
  let new_start := Bytewise_FindShortestSeparator start limit in
  (new_start = start \/
   exists (i : nat) (b l : Z),
     take i start = take i limit /\
     start !! i = Some b /\ limit !! i = Some l /\ b <> l /\
     b + 1 < l /\
     new_start = take i start ++ [b + 1] /\ length new_start = S i) /\
  Slice_compare start new_start <= 0 /\
  Slice_compare new_start limit < 0.
Proof.
  intros Hok Hlt. unfold Bytewise_FindShortestSeparator.
  set (min_length := Nat.min (length start) (length limit)).
  destruct (diff_loop_spec start limit min_length min_length 0)
    as (Hd & Hp & Hne); try (unfold min_length; lia); [done|].
  set (d := diff_loop min_length start limit min_length 0) in *.
  cbv zeta.
  destruct (Nat.leb_spec min_length d) as [Hge|Hlt'].
  { rewrite Slice_compare_refl. split; [by left|lia]. }
  specialize (Hne Hlt').
  destruct (Z.ltb_spec (at_ start d) 255) as [H255|H255]; simpl;
    [|rewrite Slice_compare_refl; split; [by left|lia]].
  destruct (Z.ltb_spec (at_ start d + 1) (at_ limit d)) as [Hb|Hb];
    [|rewrite Slice_compare_refl; split; [by left|lia]].
  assert (Hds : (d < length start)%nat) by (unfold min_length in *; lia).
  assert (Hdl : (d < length limit)%nat) by (unfold min_length in *; lia).
  assert (Hb0 : 0 <= at_ start d).
  { unfold bytes_ok in Hok. rewrite Forall_lookup in Hok.
    apply (Hok d). by apply list_lookup_lookup_total_lt. }
  rewrite Z.mod_small by lia.
  rewrite resize_insert by done.
  split; [right; exists d, (at_ start d), (at_ limit d)|].
  - repeat split; auto; try lia.
    + by apply list_lookup_lookup_total_lt.
    + by apply list_lookup_lookup_total_lt.
    + rewrite length_app, length_take. simpl. lia.
  - split.
    + rewrite (split_at start d Hds) at 1.
      rewrite Slice_compare_app. simpl.
      destruct (Z.ltb_spec (at_ start d) (at_ start d + 1)); lia.
    + rewrite (split_at limit d Hdl), Hp.
      rewrite Slice_compare_app. simpl.
      destruct (Z.ltb_spec (at_ start d + 1) (at_ limit d)); lia.
Qed.

(** The example of the source comment: "abcdef" and "abf" give "abd". *)
Lemma FindShortestSeparator_post_witness :
  Bytewise_FindShortestSeparator (bytes "abcdef") (bytes "abf") = bytes "abd" /\
  Slice_compare (bytes "abcdef") (bytes "abd") <= 0 /\
  Slice_compare (bytes "abd") (bytes "abf") < 0.
Proof.
  pose proof (FindShortestSeparator_post (bytes "abcdef") (bytes "abf")) as H.
  split; [reflexivity|].
  apply H.
  - unfold bytes_ok. repeat constructor; vm_compute; congruence.
  - reflexivity.
Defined.

(** *** The successor loop *)

Lemma succ_loop_spec (key : list Z) : forall fuel i,
  (length key <= fuel + i)%nat ->
  Forall (fun b => b = 255) (take i key) ->
  (Forall (fun b => b = 255) key /\ succ_loop fuel key i = key) \/
  exists (j : nat) (b : Z),
    Forall (fun b => b = 255) (take j key) /\ key !! j = Some b /\ b <> 255 /\
    succ_loop fuel key i = str_resize (j + 1) (<[j := (b + 1) mod 256]> key).
Proof.
  induction fuel as [|fuel IH]; intros i Hfuel Hrun; simpl.
  - left. split; [|done]. by rewrite take_ge in Hrun by lia.
  - destruct (Nat.ltb_spec i (length key)) as [Hlt|Hge].
    + pose proof (list_lookup_lookup_total_lt key i Hlt) as Hi.
      destruct (Z.eqb_spec (at_ key i) 255) as [Heq|Hne]; simpl.
      * apply IH; [lia|]. rewrite (take_S_r key i 255) by (by rewrite Hi, <- Heq).
        apply Forall_app. split; [done|]. by repeat constructor.
      * right. by exists i, (at_ key i).
    + left. split; [|done]. by rewrite take_ge in Hrun by lia.
Qed.

(** X7. For a byte string, [FindShortSuccessor] leaves a run of 0xff
    bytes (the empty string included) as it is, and otherwise keeps the
    bytes before the first one that is not 0xff, adds one to that byte
    and drops the rest; the result is never below the key in the
    bytewise order, never longer than it, and strictly above it when it
    was changed. *)
Theorem FindShortSuccessor_post (key : list Z) :
  bytes_ok key ->
  let new_key := Bytewise_FindShortSuccessor key in
  ((Forall (fun b => b = 255) key /\ new_key = key) \/
   exists (i : nat) (b : Z),
     Forall (fun b => b = 255) (take i key) /\ key !! i = Some b /\ b <> 255 /\
     new_key = take i key ++ [b + 1] /\ Slice_compare key new_key < 0) /\
  Slice_compare key new_key <= 0 /\
  (length new_key <= length key)%nat /\
  bytes_ok new_key.
Proof.
  intros Hok. unfold Bytewise_FindShortSuccessor. cbv zeta.
  destruct (succ_loop_spec key (length key) 0) as [[Hrun ->]|(j & b & Hrun & Hj & Hb & ->)];
    [lia|by rewrite take_0|..].
  { rewrite Slice_compare_refl. split_and!; try done. by left. }
  pose proof (lookup_lt_Some _ _ _ Hj) as Hlt.
  assert (Hbyte : is_byte b).
  { unfold bytes_ok in Hok. rewrite Forall_lookup in Hok. by apply (Hok j). }
  unfold is_byte in Hbyte. rewrite Z.mod_small by lia. rewrite resize_insert by done.
  assert (Hcmp : Slice_compare key (take j key ++ [b + 1]) < 0).
  { rewrite (split_at key j Hlt) at 1. rewrite Slice_compare_app. simpl.
    unfold at_. rewrite (list_lookup_total_correct _ _ _ Hj).
    destruct (Z.ltb_spec b (b + 1)); lia. }
  split_and!.
  - right. by exists j, b.
  - lia.
  - rewrite length_app, length_take. simpl. lia.
  - apply bytes_ok_app; [by apply Forall_take|].
    repeat constructor; lia.
Qed.

(** Two 0xff bytes followed by "abc" become the two bytes followed by
    "b". *)
Lemma FindShortSuccessor_post_witness :
  Bytewise_FindShortSuccessor [255; 255; 97; 98; 99] = [255; 255; 98] /\
  Slice_compare [255; 255; 97; 98; 99] (Bytewise_FindShortSuccessor [255; 255; 97; 98; 99]) <= 0.
Proof.
  split; [reflexivity|].
  apply (FindShortSuccessor_post [255; 255; 97; 98; 99]).
  unfold bytes_ok. repeat constructor; vm_compute; congruence.
Defined.

End Comparators.

(** ** include/leveldb/options.h, as far as the excerpt reads it *)

Inductive CompressionType : Type := kNoCompression | kSnappyCompression.

(** The interface [leveldb::FilterPolicy]. *)
Record FilterPolicy : Type := {
  policy_Name : string;
  CreateFilter : list (list Z) -> list Z
}.

(** [leveldb::Options]: the fields the table and block builders read. *)
Record Options : Type := {
  comparator : Comparators.Comparator;
  block_size : Z;
  block_restart_interval : Z;
  compression : CompressionType;
  filter_policy : option FilterPolicy
}.

Definition set_block_restart_interval (o : Options) (n : Z) : Options :=
  {| comparator := comparator o;
     block_size := block_size o;
     block_restart_interval := n;
     compression := compression o;
     filter_policy := filter_policy o |}.

(** [leveldb::ReadOptions]: the field the block reader reads. *)
Record ReadOptions : Type := { verify_checksums : bool }.

(** ** table/block_builder.cc *)

Module BlockBuilder.

Import Coding.

(** The members of [class BlockBuilder].  [options_] is a pointer to an
    [Options] owned by the caller: every operation that reads it takes
    the pointed-to value as it is at the time of the call. *)
Record BlockBuilder : Type := {
  buffer_ : list Z;
  restarts_ : list Z;
  counter_ : Z;
  finished_ : bool;
  last_key_ : list Z
}.

(** The constructor [BlockBuilder::BlockBuilder]. *)
Definition init : BlockBuilder :=
  {|
  buffer_ := [];
  restarts_ := [0];
  counter_ := 0;
  finished_ := false;
  last_key_ := []
|}.

(** [BlockBuilder::Reset()]. *)
Definition Reset (b : BlockBuilder) : BlockBuilder := init.

Definition empty (b : BlockBuilder) : bool :=
  match buffer_ b with [] => true | _ => false end.

(** [BlockBuilder::CurrentSizeEstimate()]. *)
Definition CurrentSizeEstimate (b : BlockBuilder) : Z :=
  Z.of_nat (length (buffer_ b)) + Z.of_nat (length (restarts_ b)) * 4 + 4.

(** [BlockBuilder::Finish()]: the block contents (the builder keeps
    them in [buffer_]). *)
Definition Finish (b : BlockBuilder) : BlockBuilder :=
  let buf := fold_left (fun buf r => PutFixed32 buf r) (restarts_ b) (buffer_ b) in
  {| buffer_ := PutFixed32 buf (Z.of_nat (length (restarts_ b)));
     restarts_ := restarts_ b;
     counter_ := counter_ b;
     finished_ := true;
     last_key_ := last_key_ b |}.

(** [BlockBuilder::Add(key, value)], with [*options_] as [opts]. *)
Definition Add (opts : Options) (b : BlockBuilder) (key value : list Z) : BlockBuilder :=
  let last_key_piece := last_key_ b in
  let '(shared, restarts, counter) :=
    if counter_ b <? block_restart_interval opts then
      (* See how much sharing to do with previous string *)
      let min_length := Nat.min (length last_key_piece) (length key) in
      (Comparators.diff_loop min_length last_key_piece key min_length 0,
       restarts_ b, counter_ b)
    else
      (* Restart compression *)
      (0%nat, restarts_ b ++ [Z.of_nat (length (buffer_ b)) mod 2 ^ 32], 0)
  in
  let non_shared := (length key - shared)%nat in
  (* Add "<shared><non_shared><value_size>" to buffer_ *)
  let buf := PutVarint32 (buffer_ b) (Z.of_nat shared) in
  let buf := PutVarint32 buf (Z.of_nat non_shared) in
  let buf := PutVarint32 buf (Z.of_nat (length value)) in
  (* Add string delta to buffer_ followed by value *)
  let buf := buf ++ take non_shared (drop shared key) in
  let buf := buf ++ value in
  (* Update state *)
  {| buffer_ := buf;
     restarts_ := restarts;
     counter_ := counter + 1;
     finished_ := finished_ b;
     last_key_ := str_resize shared (last_key_ b) ++ take non_shared (drop shared key) |}.

(** Feeding a list of key/value pairs, in order. *)
Definition AddAll (opts : Options) (b : BlockBuilder) (kvs : list (list Z * list Z)) : BlockBuilder :=
  fold_left (fun b kv => Add opts b (fst kv) (snd kv)) kvs b.

(** *** What a block holds (section 3, "Block entry") *)

(** The length of the longest common prefix of two keys. *)
Fixpoint lcp (a b : list Z) : nat :=
  match a, b with
  | x :: a', y :: b' => if x =? y then S (lcp a' b') else 0%nat
  | _, _ => 0%nat
  end.

(** One entry: varint32(shared), varint32(non_shared),
    varint32(value_size), key_delta, value. *)
Definition entry (shared : nat) (key value : list Z) : list Z :=
  EncodeVarint32 (Z.of_nat shared) ++
  EncodeVarint32 (Z.of_nat (length key - shared)) ++
  EncodeVarint32 (Z.of_nat (length value)) ++
  drop shared key ++ value.

(** The shared length the specification gives entry [i] of a block built with
    restart interval [r]: none at every [r]-th entry, else the common
    prefix with the previous key. *)
Definition shared_at (r : Z) (kvs : list (list Z * list Z)) (i : nat) : nat :=
  if Z.of_nat i mod r =? 0 then 0%nat
  else lcp (fst (kvs !!! (i - 1)%nat)) (fst (kvs !!! i)).

Definition entries (r : Z) (kvs : list (list Z * list Z)) : list (list Z) :=
  imap (fun i kv => entry (shared_at r kvs i) (fst kv) (snd kv)) kvs.

(** The byte offset of entry [i] within the block. *)
Definition entry_offset (r : Z) (kvs : list (list Z * list Z)) (i : nat) : Z :=
  Z.of_nat (length (concat (take i (entries r kvs)))).

(** The restart array: offset 0, then the offset of every later entry
    whose index is a multiple of [r] (as a [uint32_t]). *)
Definition restart_array (r : Z) (kvs : list (list Z * list Z)) : list Z :=
  0 :: omap (fun i => if (0 <? i)%nat && (Z.of_nat i mod r =? 0)
                      then Some (entry_offset r kvs i mod 2 ^ 32) else None)
            (seq 0 (length kvs)).

(** *** The shared-prefix loop computes [lcp] *)

Lemma diff_loop_app (p a b : list Z) (fuel : nat) :
  (Nat.min (length a) (length b) <= fuel)%nat ->
  Comparators.diff_loop fuel (p ++ a) (p ++ b)
    (length p + Nat.min (length a) (length b)) (length p)
  = (length p + lcp a b)%nat.
Proof.
  revert p a b. induction fuel as [|fuel IH]; intros p a b Hf.
  - destruct a, b; simpl in *; lia.
  - destruct a as [|x a], b as [|y b]; simpl;
      try (rewrite Nat.add_0_r, Nat.ltb_irrefl; simpl; lia).
    destruct (Nat.ltb_spec (length p) (length p + S (Nat.min (length a) (length b))));
      [|lia].
    unfold Comparators.at_.
    rewrite !(list_lookup_total_middle p _ _ (length p)) by done. simpl.
    destruct (Z.eqb_spec x y) as [->|Hne]; [|lia].
    specialize (IH (p ++ [y]) a b).
    rewrite <- !app_assoc, length_app in IH. simpl in IH.
    replace (length p + S (Nat.min (length a) (length b)))%nat
      with (length p + 1 + Nat.min (length a) (length b))%nat by lia.
    replace (S (length p)) with (length p + 1)%nat by lia.
    rewrite IH by (simpl in Hf; lia). lia.
Qed.

Lemma diff_loop_lcp (a b : list Z) :
  let m := Nat.min (length a) (length b) in
  Comparators.diff_loop m a b m 0 = lcp a b.
Proof.
  intros m. apply (diff_loop_app [] a b m). lia.
Qed.

Lemma lcp_take (a b : list Z) :
  (lcp a b <= length a)%nat /\ (lcp a b <= length b)%nat /\
  take (lcp a b) a = take (lcp a b) b.
Proof.
  revert b. induction a as [|x a IH]; intros [|y b]; simpl; try (repeat split; lia || done).
  destruct (Z.eqb_spec x y) as [->|Hne]; simpl; [|repeat split; lia || done].
  destruct (IH b) as (H1 & H2 & H3). repeat split; try lia. by rewrite H3.
Qed.

Lemma take_drop_rest (key : list Z) (shared : nat) :
  take (length key - shared) (drop shared key) = drop shared key.
Proof. apply take_ge. rewrite length_drop. lia. Qed.

(** *** The state after any number of [Add]s *)

Lemma AddAll_snoc opts b kvs kv :
  AddAll opts b (kvs ++ [kv]) = Add opts (AddAll opts b kvs) (fst kv) (snd kv).
Proof. unfold AddAll. by rewrite fold_left_app. Qed.

Lemma shared_at_snoc r kvs kv (i : nat) :
  (i < length kvs)%nat -> shared_at r (kvs ++ [kv]) i = shared_at r kvs i.
Proof.
  intros Hi. unfold shared_at.
  destruct (Z.of_nat i mod r =? 0); [done|].
  rewrite !lookup_total_app_l by lia. done.
Qed.

Lemma entries_snoc r kvs kv :
  entries r (kvs ++ [kv]) =
  entries r kvs ++
    [entry (shared_at r (kvs ++ [kv]) (length kvs)) (fst kv) (snd kv)].
Proof.
  unfold entries. rewrite imap_app. simpl. rewrite Nat.add_0_r. f_equal.
  apply imap_ext. intros i x Hx. rewrite shared_at_snoc; [done|].
  by apply lookup_lt_Some in Hx.
Qed.

Lemma length_entries r kvs : length (entries r kvs) = length kvs.
Proof. unfold entries. apply length_imap. Qed.

Lemma entry_offset_snoc r kvs kv (i : nat) :
  (i <= length kvs)%nat -> entry_offset r (kvs ++ [kv]) i = entry_offset r kvs i.
Proof.
  intros Hi. unfold entry_offset. rewrite entries_snoc.
  rewrite take_app_le by (rewrite length_entries; lia). done.
Qed.

Lemma entry_offset_length r kvs :
  entry_offset r kvs (length kvs) = Z.of_nat (length (concat (entries r kvs))).
Proof.
  unfold entry_offset. rewrite take_ge by (rewrite length_entries; lia). done.
Qed.

Lemma omap_ext_in {A B} (f g : A -> option B) (l : list A) :
  (forall x, x ∈ l -> f x = g x) -> omap f l = omap g l.
Proof.
  induction l as [|x l IH]; intros H; [done|].
  assert (E : omap f l = omap g l).
  { apply IH. intros y Hy. apply H. by right. }
  change (omap f (x :: l)) with
    (match f x with Some y => y :: omap f l | None => omap f l end).
  change (omap g (x :: l)) with
    (match g x with Some y => y :: omap g l | None => omap g l end).
  rewrite (H x) by left. by rewrite E.
Qed.

Lemma restart_array_snoc r kvs kv :
  restart_array r (kvs ++ [kv]) =
  restart_array r kvs ++
    (if (0 <? length kvs)%nat && (Z.of_nat (length kvs) mod r =? 0)
     then [Z.of_nat (length (concat (entries r kvs))) mod 2 ^ 32] else []).
Proof.
  unfold restart_array. rewrite length_app. simpl.
  rewrite Nat.add_1_r, seq_S. simpl. rewrite omap_app. simpl.
  rewrite entry_offset_snoc by lia. rewrite entry_offset_length.
  rewrite (omap_ext_in _
    (fun i => if (0 <? i)%nat && (Z.of_nat i mod r =? 0)
              then Some (entry_offset r kvs i mod 2 ^ 32) else None)).
  - by destruct ((0 <? length kvs)%nat && (Z.of_nat (length kvs) mod r =? 0)).
  - intros i Hi. apply elem_of_seq in Hi. rewrite entry_offset_snoc by lia. done.
Qed.

Lemma counter_step (r : Z) (n : nat) :
  1 <= r -> (0 < n)%nat ->
  (Z.of_nat (n - 1) mod r + 1 < r <-> Z.of_nat n mod r <> 0) /\
  Z.of_nat (n - 1) mod r + 1 <= r /\
  (Z.of_nat n mod r <> 0 -> Z.of_nat n mod r = Z.of_nat (n - 1) mod r + 1).
Proof.
  intros Hr Hn.
  pose proof (Z.mod_pos_bound (Z.of_nat (n - 1)) r ltac:(lia)) as Hm.
  pose proof (Z.div_mod (Z.of_nat (n - 1)) r ltac:(lia)) as Hd.
  set (q := Z.of_nat (n - 1) / r) in *. set (m := Z.of_nat (n - 1) mod r) in *.
  assert (Hn' : Z.of_nat n = r * q + (m + 1)) by lia.
  assert (Hsmall : m + 1 < r -> Z.of_nat n mod r = m + 1).
  { intros Hlt. rewrite Hn'. rewrite Z.add_comm, Z.mul_comm, Z.mod_add by lia.
    apply Z.mod_small. lia. }
  assert (Hfull : m + 1 = r -> Z.of_nat n mod r = 0).
  { intros He. replace (Z.of_nat n) with ((q + 1) * r) by lia.
    apply Z.mod_mul. lia. }
  repeat split; lia.
Qed.

(** The builder after feeding [kvs] to a fresh one. *)
Lemma AddAll_state opts kvs :
  1 <= block_restart_interval opts ->
  let r := block_restart_interval opts in
  let b := AddAll opts init kvs in
  let n := length kvs in
  buffer_ b = concat (entries r kvs) /\
  restarts_ b = restart_array r kvs /\
  counter_ b = (if (n =? 0)%nat then 0 else Z.of_nat (n - 1) mod r + 1) /\
  last_key_ b = fst (kvs !!! (n - 1)%nat) /\
  finished_ b = false.
Proof.
  intros Hr. cbv zeta. remember (block_restart_interval opts) as r eqn:Er.
  induction kvs as [|kv kvs IH] using rev_ind.
  { simpl. repeat split; done. }
  destruct IH as (Hbuf & Hrs & Hc & Hlk & Hfin).
  rewrite AddAll_snoc. set (b := AddAll opts init kvs) in *.
  rewrite length_app. simpl length.
  replace (length kvs + 1 - 1)%nat with (length kvs) by lia.
  replace (length kvs + 1 =? 0)%nat with false by (symmetry; apply Nat.eqb_neq; lia).
  rewrite list_lookup_total_middle by done.
  rewrite entries_snoc, restart_array_snoc, concat_app. simpl concat.
  rewrite app_nil_r.
  unfold Add. rewrite <- Er.
  destruct (Nat.eqb_spec (length kvs) 0) as [Hz|Hnz].
  - (* the first entry *)
    assert (kvs = []) as -> by (destruct kvs; [done|simpl in Hz; lia]).
    clear Hz. subst b. simpl. destruct (Z.ltb_spec 0 r); [|exfalso; lia].
    unfold shared_at. simpl. rewrite Z.mod_0_l by lia. simpl.
    rewrite take_drop_rest.
    unfold entry, PutVarint32. simpl.
    rewrite <- !app_assoc. change (Z.of_nat 0) with 0.
    rewrite !Z.mod_0_l by lia. repeat split; done.
  - destruct (counter_step r (length kvs) Hr ltac:(lia)) as (Hiff & Hle & Hnext).
    rewrite Hc.
    replace (0 <? length kvs)%nat with true by (symmetry; apply Nat.ltb_lt; lia).
    simpl andb. unfold shared_at.
    rewrite lookup_total_app_l by lia.
    rewrite list_lookup_total_middle by done.
    destruct (Z.ltb_spec (Z.of_nat (length kvs - 1) mod r + 1) r) as [Hlt|Hge].
    + (* an entry that shares its prefix with the previous key *)
      apply Hiff in Hlt.
      destruct (Z.eqb_spec (Z.of_nat (length kvs) mod r) 0) as [He|_]; [done|].
      rewrite diff_loop_lcp, Hlk.
      set (k0 := fst (kvs !!! (length kvs - 1)%nat)).
      destruct (lcp_take k0 (fst kv)) as (L1 & L2 & L3).
      simpl. rewrite Hbuf, Hrs, Hfin, app_nil_r.
      rewrite take_drop_rest.
      unfold entry, PutVarint32. rewrite <- !app_assoc.
      repeat split; try done.
      * rewrite Hnext by done. lia.
      * unfold str_resize.
        replace (lcp k0 (fst kv) - length k0)%nat with 0%nat by lia. simpl.
        rewrite app_nil_r, L3. apply take_drop.
    + (* a restart point *)
      assert (He : Z.of_nat (length kvs) mod r = 0).
      { destruct (Z.eq_dec (Z.of_nat (length kvs) mod r) 0); [done|].
        apply Hiff in n. lia. }
      rewrite He. simpl.
      rewrite Hbuf, Hrs, Hfin.
      rewrite take_drop_rest.
      unfold entry, PutVarint32. simpl drop.
      rewrite <- !app_assoc. repeat split; try done.
Qed.

(** C5. A block built with restart interval r >= 1 stores entry i with
    shared = 0 when i is a multiple of r, recording its byte offset in
    the restart array (offset 0 for the first entry), and with shared
    equal to the longest common prefix with the previous key otherwise. *)
Theorem Add_restart_layout (opts : Options) (kvs : list (list Z * list Z)) :
  1 <= block_restart_interval opts ->
  let r := block_restart_interval opts in
  let b := AddAll opts init kvs in
  buffer_ b = concat (entries r kvs) /\
  restarts_ b = restart_array r kvs /\
  (forall (i : nat) k v, kvs !! i = Some (k, v) ->
     entries r kvs !! i =
     Some (entry (if Z.of_nat i mod r =? 0 then 0%nat
                  else lcp (fst (kvs !!! (i - 1)%nat)) k) k v)).
Proof.
  intros Hr r b. destruct (AddAll_state opts kvs Hr) as (H1 & H2 & _).
  repeat split; try done.
  intros i k v Hi. unfold entries. rewrite list_lookup_imap, Hi. simpl.
  unfold shared_at. by rewrite (list_lookup_total_correct _ _ _ Hi).
Qed.

(** The block of the source comment: interval 2, keys "Axl", "Axlaa",
    "Axlab", "Axlbb", each with value "vv". *)
Definition example_options : Options := {|
  comparator := Comparators.BytewiseComparatorImpl;
  block_size := 4096;
  block_restart_interval := 2;
  compression := kNoCompression;
  filter_policy := None
|}.

Definition example_kvs : list (list Z * list Z) :=
  [(bytes "Axl", bytes "vv"); (bytes "Axlaa", bytes "vv");
   (bytes "Axlab", bytes "vv"); (bytes "Axlbb", bytes "vv")].

Lemma Add_restart_layout_witness :
  let b := AddAll example_options init example_kvs in
  buffer_ b =
    entry 0 (bytes "Axl") (bytes "vv") ++ entry 3 (bytes "Axlaa") (bytes "vv") ++
    entry 0 (bytes "Axlab") (bytes "vv") ++ entry 3 (bytes "Axlbb") (bytes "vv") /\
  restarts_ b =
    [0; Z.of_nat (length (entry 0 (bytes "Axl") (bytes "vv") ++
                          entry 3 (bytes "Axlaa") (bytes "vv")))].
Proof.
  destruct (Add_restart_layout example_options example_kvs) as (H1 & H2 & _).
  - simpl. lia.
  - cbv zeta. rewrite H1, H2. split; reflexivity.
Defined.

(** *** The finished block *)

Lemma fold_PutFixed32 (rs : list Z) : forall buf,
  fold_left (fun buf r => PutFixed32 buf r) rs buf = buf ++ concat (EncodeFixed32 <$> rs).
Proof.
  induction rs as [|r rs IH]; intros buf; [by rewrite app_nil_r|].
  rewrite fmap_cons, concat_cons. cbn [fold_left]. rewrite IH.
  unfold PutFixed32. by rewrite <- app_assoc.
Qed.

Lemma length_concat_fixed32 (rs : list Z) :
  length (concat (EncodeFixed32 <$> rs)) = (4 * length rs)%nat.
Proof.
  induction rs as [|r rs IH]; [done|].
  rewrite fmap_cons, concat_cons, length_app, IH.
  unfold EncodeFixed32. rewrite length_EncodeFixed. simpl. lia.
Qed.

Lemma Finish_buffer (b : BlockBuilder) :
  buffer_ (Finish b) =
  buffer_ b ++ concat (EncodeFixed32 <$> restarts_ b) ++
  EncodeFixed32 (Z.of_nat (length (restarts_ b))).
Proof.
  unfold Finish. simpl. rewrite fold_PutFixed32. unfold PutFixed32.
  by rewrite <- app_assoc.
Qed.

Lemma DecodeFixed32_EncodeFixed32 (v : Z) (rest : list Z) :
  0 <= v < 2 ^ 32 -> DecodeFixed32 (EncodeFixed32 v ++ rest) = v.
Proof.
  intros Hv. unfold DecodeFixed32, EncodeFixed32. rewrite DecodeFixed_EncodeFixed.
  change (256 ^ Z.of_nat 4) with (2 ^ 32).
  rewrite (Z.mod_small v) by lia. by rewrite Z.mod_small by lia.
Qed.

Lemma drop_concat_fixed32 (rs : list Z) (i : nat) :
  drop (4 * i) (concat (EncodeFixed32 <$> rs)) = concat (EncodeFixed32 <$> drop i rs).
Proof.
  revert i. induction rs as [|r rs IH]; intros i.
  - rewrite drop_nil. cbn. by rewrite drop_nil.
  - destruct i as [|i]; [done|]. rewrite fmap_cons, concat_cons. cbn [drop].
    replace (4 * S i)%nat with (length (EncodeFixed32 r) + 4 * i)%nat
      by (unfold EncodeFixed32; rewrite length_EncodeFixed; lia).
    rewrite drop_app_add'; [|done]. apply IH.
Qed.

(** The restart offsets are [uint32_t]s, and there is at most one more
    of them than entries. *)
Lemma Add_restarts_range opts b key value :
  Forall (fun r => 0 <= r < 2 ^ 32) (restarts_ b) ->
  Forall (fun r => 0 <= r < 2 ^ 32) (restarts_ (Add opts b key value)) /\
  (length (restarts_ (Add opts b key value)) <= S (length (restarts_ b)))%nat.
Proof.
  intros Hr. unfold Add.
  destruct (counter_ b <? block_restart_interval opts); simpl; [split; [done|lia]|].
  split.
  - apply Forall_app. split; [done|]. repeat constructor; apply Z.mod_pos_bound; lia.
  - rewrite length_app. simpl. lia.
Qed.

Lemma AddAll_restarts_range opts kvs :
  Forall (fun r => 0 <= r < 2 ^ 32) (restarts_ (AddAll opts init kvs)) /\
  (length (restarts_ (AddAll opts init kvs)) <= S (length kvs))%nat.
Proof.
  induction kvs as [|kv kvs IH] using rev_ind.
  - simpl. split; [|lia]. repeat constructor; lia.
  - destruct IH as [IH1 IH2]. rewrite AddAll_snoc, length_app. simpl.
    destruct (Add_restarts_range opts (AddAll opts init kvs) (fst kv) (snd kv) IH1). split; [done|lia].
Qed.

(** X8. [CurrentSizeEstimate] is exact: called on any builder, it
    returns the size of the block that [Finish] then returns. *)
Theorem CurrentSizeEstimate_exact (b : BlockBuilder) :
  CurrentSizeEstimate b = Z.of_nat (length (buffer_ (Finish b))).
Proof.
  rewrite Finish_buffer. unfold CurrentSizeEstimate.
  rewrite !length_app, length_concat_fixed32.
  unfold EncodeFixed32. rewrite length_EncodeFixed. lia.
Qed.

(** X9. The block [Finish] returns after any entries have been added
    to a new builder starts with the entries and ends with a trailer
    that reads back: its last four bytes are the number of restart
    points, and the four bytes at position [i] of the array before
    them are restart offset [i], both as little-endian fixed32. *)
Theorem Finish_trailer (opts : Options) (kvs : list (list Z * list Z)) :
  Z.of_nat (length kvs) + 1 < 2 ^ 32 ->
  let b := AddAll opts init kvs in
  let block := buffer_ (Finish b) in
  let n := length (restarts_ b) in
  take (length (buffer_ b)) block = buffer_ b /\
  length block = (length (buffer_ b) + 4 * n + 4)%nat /\
  DecodeFixed32 (drop (length block - 4) block) = Z.of_nat n /\
  forall (i : nat) r, restarts_ b !! i = Some r ->
    DecodeFixed32 (drop (length block - 4 - 4 * n + 4 * i) block) = r.
Proof.
  intros Hlen b block n. subst block n.
  destruct (AddAll_restarts_range opts kvs) as [Hrange Hn]. fold b in Hrange, Hn.
  assert (Hblock : length (buffer_ (Finish b)) =
                   (length (buffer_ b) + 4 * length (restarts_ b) + 4)%nat).
  { rewrite Finish_buffer, !length_app, length_concat_fixed32.
    unfold EncodeFixed32. rewrite length_EncodeFixed. lia. }
  split_and!; [|done|..].
  - rewrite Finish_buffer. by rewrite take_app_length.
  - rewrite Hblock, Finish_buffer.
    replace (length (buffer_ b) + 4 * length (restarts_ b) + 4 - 4)%nat
      with (length (buffer_ b) + 4 * length (restarts_ b))%nat by lia.
    rewrite drop_app_add', drop_app_length'; [| |done].
    + rewrite <- (app_nil_r (EncodeFixed32 _)). apply DecodeFixed32_EncodeFixed32. lia.
    + by rewrite length_concat_fixed32.
  - intros i r Hi. pose proof (lookup_lt_Some _ _ _ Hi) as Hlt.
    rewrite Hblock, Finish_buffer.
    replace (length (buffer_ b) + 4 * length (restarts_ b) + 4 - 4 -
             4 * length (restarts_ b) + 4 * i)%nat
      with (length (buffer_ b) + 4 * i)%nat by lia.
    rewrite drop_app_add'; [|done].
    rewrite drop_app_le by (rewrite length_concat_fixed32; lia).
    rewrite drop_concat_fixed32. rewrite (drop_S _ _ _ Hi).
    rewrite fmap_cons, concat_cons, <- !app_assoc. apply DecodeFixed32_EncodeFixed32.
    rewrite Forall_lookup in Hrange. by apply (Hrange i).
Qed.

Lemma Finish_trailer_witness :
  DecodeFixed32 (drop (length (buffer_ (Finish (AddAll example_options init example_kvs))) - 4)
                   (buffer_ (Finish (AddAll example_options init example_kvs)))) =
  Z.of_nat (length (restarts_ (AddAll example_options init example_kvs))).
Proof.
  apply (Finish_trailer example_options example_kvs). simpl. lia.
Defined.

(** X10. The assertions of [Add] hold: whatever the builder holds,
    after [Add(key, value)] the last key is [key], the entries already
    in the buffer are untouched and followed by at least one byte, so
    the builder is not empty; and the counter is between 1 and the
    restart interval when that is at least 1 and the counter was not
    negative. *)
Theorem Add_postconditions (opts : Options) (b : BlockBuilder) (key value : list Z) :
  let b' := Add opts b key value in
  last_key_ b' = key /\
  (exists e, e <> [] /\ buffer_ b' = buffer_ b ++ e) /\
  empty b' = false /\
  (1 <= block_restart_interval opts -> 0 <= counter_ b ->
   1 <= counter_ b' <= block_restart_interval opts).
Proof.
  intros b'.
  assert (Hbuf : exists e, e <> [] /\ buffer_ b' = buffer_ b ++ e).
  { subst b'. unfold Add.
    destruct (counter_ b <? block_restart_interval opts); simpl;
      unfold PutVarint32; rewrite <- !app_assoc; eexists; (split; [|reflexivity]);
      intros He; apply (f_equal length) in He; rewrite !length_app in He;
      pose proof (EncodeVarint32_length (Z.of_nat 0));
      pose proof (EncodeVarint32_length
        (Z.of_nat (Comparators.diff_loop (Nat.min (length (last_key_ b)) (length key))
                     (last_key_ b) key (Nat.min (length (last_key_ b)) (length key)) 0)));
      simpl in *; lia. }
  split_and!; try done.
  - subst b'. unfold Add.
    destruct (counter_ b <? block_restart_interval opts); simpl.
    + set (m := Nat.min (length (last_key_ b)) (length key)).
      destruct (Comparators.diff_loop_spec (last_key_ b) key m m 0)
        as (Hd & Hp & _); try (unfold m; lia); [done|].
      set (d := Comparators.diff_loop m (last_key_ b) key m 0) in *.
      unfold str_resize. replace (d - length (last_key_ b))%nat with 0%nat by (unfold m in *; lia).
      simpl. rewrite app_nil_r, Hp, take_drop_rest. apply take_drop.
    + rewrite Nat.sub_0_r, drop_0. by apply take_ge.
  - destruct Hbuf as (e & He & Hb). unfold empty. rewrite Hb.
    destruct (buffer_ b), e; done.
  - intros Hr Hc. subst b'. unfold Add.
    destruct (Z.ltb_spec (counter_ b) (block_restart_interval opts)); simpl; lia.
Qed.

Lemma Add_postconditions_witness :
  let b' := Add example_options (AddAll example_options init example_kvs)
              (bytes "Axlc") (bytes "v") in
  last_key_ b' = bytes "Axlc" /\ 1 <= counter_ b' <= 2.
Proof.
  destruct (Add_postconditions example_options (AddAll example_options init example_kvs)
              (bytes "Axlc") (bytes "v")) as (H1 & _ & _ & H4).
  split; [exact H1|]. apply H4; vm_compute; congruence.
Defined.

End BlockBuilder.

(** ** db/dbformat.h, as far as the excerpt reads it *)

Module DBFormat.

(** Modelled from the spec: db/dbformat.h is not part of the excerpt.
    Section 3: "Value type: tag with at least the variants {VALUE,
    DELETION}. Packed with sequence into a 64-bit tag as
    (sequence << 8) | type"; the enumerators are one byte each. *)
Definition kTypeDeletion : Z := 0.
Definition kTypeValue : Z := 1.

(** Modelled from the spec: section 4.11, "value-type-for-seek (a
    sentinel type that sorts before all real entries at sequence S)":
    tags sort in decreasing order, so it is the largest type. *)
Definition kValueTypeForSeek : Z := kTypeValue.

(** Modelled from the spec: "Sequence number: 56-bit". *)
Definition kMaxSequenceNumber : Z := 2 ^ 56 - 1.

(** Modelled from the spec: "Packed with sequence into a 64-bit tag as
    (sequence << 8) | type", in a [uint64_t]. *)
Definition PackSequenceAndType (seq t : Z) : Z :=
  Z.lor (Z.shiftl seq 8 mod 2 ^ 64) t.

(** Modelled from the spec: "Internal key: user_key ‖ tag(8 bytes
    little-endian)": the two parts of an internal key. *)
Definition ExtractUserKey (internal_key : list Z) : list Z :=
  take (length internal_key - 8) internal_key.

Definition ExtractTag (internal_key : list Z) : Z :=
  Coding.DecodeFixed64 (drop (length internal_key - 8) internal_key).

(** Modelled from the spec: [InternalKeyComparator::Compare], "Ordering:
    ascending by user key under the user comparator; for equal user
    keys, descending by the packed tag (so the newest version of a key
    sorts first)". *)
Definition InternalKeyComparator_Compare (user_comparator : list Z -> list Z -> Z)
    (akey bkey : list Z) : Z :=
  let r := user_comparator (ExtractUserKey akey) (ExtractUserKey bkey) in
  if r =? 0 then
    let anum := ExtractTag akey in
    let bnum := ExtractTag bkey in
    if bnum <? anum then -1 else if anum <? bnum then 1 else 0
  else r.

(** Modelled from the spec: "Lookup key: varint32(internal_key_size) ‖
    internal_key", the internal key being "(target, S,
    value-type-for-seek)": [LookupKey(user_key, sequence)] with its
    accessors [memtable_key()] and [user_key()]. *)
Record LookupKey : Type := {
  memtable_key : list Z;
  user_key : list Z
}.

Definition LookupKey_new (k : list Z) (s : Z) : LookupKey :=
  {| memtable_key :=
       Coding.EncodeVarint32 (Z.of_nat (length k) + 8) ++ k ++
       Coding.EncodeFixed64 (PackSequenceAndType s kValueTypeForSeek);
     user_key := k |}.

End DBFormat.

(** ** db/write_batch.cc *)

Module WriteBatch.

Import Coding DBFormat.

(** WriteBatch header has an 8-byte sequence number followed by a
    4-byte count. *)
Definition kHeader : nat := 12.

(** The conversion of a [uint32_t] to [int]. *)
Definition to_int (v : Z) : Z := if v <? 2 ^ 31 then v else v - 2 ^ 32.

(** [WriteBatch::Clear()]: the contents of [rep_]. *)
Definition Clear : list Z := replicate kHeader 0.

(** [WriteBatchInternal::Count(b)]. *)
Definition Count (rep_ : list Z) : Z := to_int (DecodeFixed32 (drop 8 rep_)).

(** [WriteBatchInternal::SetCount(b, n)]. *)
Definition SetCount (rep_ : list Z) (n : Z) : list Z :=
  take 8 rep_ ++ EncodeFixed32 n ++ drop 12 rep_.

(** [WriteBatchInternal::Sequence(b)]. *)
Definition Sequence (rep_ : list Z) : Z := DecodeFixed64 rep_.

(** [WriteBatchInternal::SetSequence(b, seq)]. *)
Definition SetSequence (rep_ : list Z) (seq : Z) : list Z :=
  EncodeFixed64 seq ++ drop 8 rep_.

(** [WriteBatch::Put(key, value)]. *)
Definition Put (rep_ key value : list Z) : list Z :=
  let rep_ := SetCount rep_ (Count rep_ + 1) in
  let rep_ := rep_ ++ [kTypeValue] in
  let rep_ := PutLengthPrefixedSlice rep_ key in
  PutLengthPrefixedSlice rep_ value.

(** [WriteBatch::Delete(key)]. *)
Definition Delete (rep_ key : list Z) : list Z :=
  let rep_ := SetCount rep_ (Count rep_ + 1) in
  let rep_ := rep_ ++ [kTypeDeletion] in
  PutLengthPrefixedSlice rep_ key.

(** [WriteBatchInternal::Append(dst, src)]. *)
Definition Append (dst src : list Z) : list Z :=
  SetCount dst (Count dst + Count src) ++ drop kHeader src.

Section Iterate.

(** [WriteBatch::Handler]: an object with state [H] and its two
    virtual methods. *)
Context {H : Type}.
Variable handler_Put : H -> list Z -> list Z -> H.
Variable handler_Delete : H -> list Z -> H.

(** The [while (!input.empty())] loop of [WriteBatch::Iterate].  Every
    iteration removes at least the tag byte, so [length input]
    iterations suffice.  The result is the status of an early [return]
    if any, [found] and the handler.  [found] is an [int]: it cannot
    overflow while [rep_] is shorter than 2^31 bytes. *)
Fixpoint Iterate_loop (fuel : nat) (input : list Z) (found : Z) (h : H)
    : option Status * Z * H :=
  match fuel, input with
  | S fuel', tag :: input =>
      let found := found + 1 in
      if tag =? kTypeValue then
        match GetLengthPrefixedSlice input with
        | Some (key, input) =>
            match GetLengthPrefixedSlice input with
            | Some (value, input) =>
                Iterate_loop fuel' input found (handler_Put h key value)
            | None => (Some (Corruption "bad WriteBatch Put"), found, h)
            end
        | None => (Some (Corruption "bad WriteBatch Put"), found, h)
        end
      else if tag =? kTypeDeletion then
        match GetLengthPrefixedSlice input with
        | Some (key, input) =>
            Iterate_loop fuel' input found (handler_Delete h key)
        | None => (Some (Corruption "bad WriteBatch Delete"), found, h)
        end
      else (Some (Corruption "unknown WriteBatch tag"), found, h)
  | _, _ => (None, found, h)
  end.

(** [WriteBatch::Iterate(handler)]: the status and the handler after
    the calls made on it. *)
Definition Iterate (rep_ : list Z) (h : H) : Status * H :=
  let input := rep_ in
  if (length input <? kHeader)%nat then
    (Corruption "malformed WriteBatch (too small)", h)
  else
    let input := drop kHeader input in
    match Iterate_loop (length input) input 0 h with
    | (Some s, _, h) => (s, h)
    | (None, found, h) =>
        if negb (found =? Count rep_) then
          (Corruption "WriteBatch has wrong count", h)
        else (OK, h)
    end.

(** *** The representation, as the file comment gives it *)

(** record := kTypeValue varstring varstring | kTypeDeletion varstring *)
Inductive record : Type :=
| RValue (key value : list Z)
| RDeletion (key : list Z).

(** [records input rs]: [input] is exactly the encoding of [rs]. *)
Inductive records : list Z -> list record -> Prop :=
| records_nil : records [] []
| records_value input key input1 value input2 rs :
    GetLengthPrefixedSlice input = Some (key, input1) ->
    GetLengthPrefixedSlice input1 = Some (value, input2) ->
    records input2 rs ->
    records (kTypeValue :: input) (RValue key value :: rs)
| records_deletion input key input1 rs :
    GetLengthPrefixedSlice input = Some (key, input1) ->
    records input1 rs ->
    records (kTypeDeletion :: input) (RDeletion key :: rs).

(** The count stored in the header, a [fixed32]. *)
Definition stored_count (rep_ : list Z) : Z := DecodeFixed32 (drop 8 rep_).

(** A malformed representation: too small for the header, records that
    do not decode (a key or value that fails to decode, an unknown
    tag), or a number of records that differs from the stored count. *)
Definition malformed (rep_ : list Z) : Prop :=
  (length rep_ < kHeader)%nat \/
  (~ exists rs, records (drop kHeader rep_) rs) \/
  (exists rs, records (drop kHeader rep_) rs /\ Z.of_nat (length rs) <> stored_count rep_).

(** One handler call per record. *)
Definition call (h : H) (r : record) : H :=
  match r with
  | RValue key value => handler_Put h key value
  | RDeletion key => handler_Delete h key
  end.

Definition is_Corruption (s : Status) : Prop :=
  match s with Corruption _ => True | _ => False end.

(** *** Decoding consumes input *)

Lemma GetVarint_shorter fuel p v rest :
  GetVarint fuel p = Some (v, rest) -> (length rest < length p)%nat.
Proof.
  revert p v rest. induction fuel as [|fuel IH]; intros p v rest; [done|].
  destruct p as [|b p]; [done|]. rewrite GetVarint_cons.
  destruct (128 <=? b).
  - destruct (GetVarint fuel p) as [[v' rest']|] eqn:E; [|done].
    intros [= <- <-]. apply IH in E. simpl. lia.
  - intros [= <- <-]. simpl. lia.
Qed.

Lemma GetLengthPrefixedSlice_shorter input s rest :
  GetLengthPrefixedSlice input = Some (s, rest) -> (length rest < length input)%nat.
Proof.
  unfold GetLengthPrefixedSlice, GetVarint32.
  destruct (GetVarint 5 input) as [[v r]|] eqn:E; [|done].
  apply GetVarint_shorter in E.
  destruct (v mod 2 ^ 32 <=? Z.of_nat (length r)); [|done].
  intros [= <- <-]. rewrite length_drop. lia.
Qed.

Lemma records_functional input rs rs' :
  records input rs -> records input rs' -> rs = rs'.
Proof.
  intros Hr. revert rs'. induction Hr; intros rs' Hr'; inversion Hr'; subst;
    try done; try (unfold kTypeValue, kTypeDeletion in *; congruence).
  - simplify_eq. f_equal. auto.
  - simplify_eq. f_equal. auto.
Qed.

(** *** The loop follows the grammar *)

Lemma Iterate_loop_spec fuel input found h :
  (length input <= fuel)%nat ->
  (exists rs, records input rs /\
     Iterate_loop fuel input found h =
     (None, found + Z.of_nat (length rs), fold_left call rs h)) \/
  ((~ exists rs, records input rs) /\
   exists msg found' h',
     Iterate_loop fuel input found h = (Some (Corruption msg), found', h')).
Proof.
  revert input found h. induction fuel as [|fuel IH]; intros input found h Hlen.
  { destruct input; [|simpl in Hlen; lia]. left. exists []. split; [constructor|].
    simpl. f_equal. f_equal. lia. }
  destruct input as [|tag input].
  { left. exists []. split; [constructor|]. simpl. f_equal. f_equal. lia. }
  cbn [Iterate_loop]. simpl in Hlen.
  destruct (Z.eqb_spec tag kTypeValue) as [->|Hv].
  - destruct (GetLengthPrefixedSlice input) as [[key input1]|] eqn:E1.
    2:{ right. split; [|eauto]. intros [rs Hrs]. inversion Hrs; congruence. }
    destruct (GetLengthPrefixedSlice input1) as [[value input2]|] eqn:E2.
    2:{ right. split; [|eauto]. intros [rs Hrs]. inversion Hrs; congruence. }
    pose proof (GetLengthPrefixedSlice_shorter _ _ _ E1).
    pose proof (GetLengthPrefixedSlice_shorter _ _ _ E2).
    destruct (IH input2 (found + 1) (handler_Put h key value) ltac:(lia))
      as [(rs & Hrs & Heq)|(Hno & msg & f' & h' & Heq)].
    + left. exists (RValue key value :: rs). split; [econstructor; eauto|].
      rewrite Heq. simpl. f_equal. f_equal. lia.
    + right. split; [|eauto]. intros [rs Hrs]. apply Hno.
      inversion Hrs; subst;
        try (exfalso; unfold kTypeValue, kTypeDeletion in *; congruence).
      simplify_eq. eauto.
  - destruct (Z.eqb_spec tag kTypeDeletion) as [->|Hd].
    + destruct (GetLengthPrefixedSlice input) as [[key input1]|] eqn:E1.
      2:{ right. split; [|eauto]. intros [rs Hrs]. inversion Hrs; congruence. }
      pose proof (GetLengthPrefixedSlice_shorter _ _ _ E1).
      destruct (IH input1 (found + 1) (handler_Delete h key) ltac:(lia))
        as [(rs & Hrs & Heq)|(Hno & msg & f' & h' & Heq)].
      * left. exists (RDeletion key :: rs). split; [econstructor; eauto|].
        rewrite Heq. simpl. f_equal. f_equal. lia.
      * right. split; [|eauto]. intros [rs Hrs]. apply Hno.
        inversion Hrs; subst;
          try (exfalso; unfold kTypeValue, kTypeDeletion in *; congruence).
        simplify_eq. eauto.
    + right. split; [|eauto]. intros [rs Hrs]. inversion Hrs; congruence.
Qed.

Lemma to_int_eq (found c : Z) :
  0 <= found < 2 ^ 31 -> 0 <= c < 2 ^ 32 -> (found = to_int c <-> found = c).
Proof.
  intros Hf Hc. unfold to_int. destruct (Z.ltb_spec c (2 ^ 31)); lia.
Qed.

Lemma DecodeFixed_range n p :
  bytes_ok p -> 0 <= DecodeFixed n p < 256 ^ Z.of_nat n.
Proof.
  revert p. induction n as [|n IH]; intros p Hp.
  - simpl. lia.
  - destruct p as [|b p]; cbn [DecodeFixed].
    + split; [lia|]. apply Z.pow_pos_nonneg; lia.
    + inversion Hp as [|? ? Hb Hp']; subst. specialize (IH p Hp').
      replace (Z.of_nat (S n)) with (1 + Z.of_nat n) by lia.
      rewrite Z.pow_add_r by lia. unfold is_byte in Hb. lia.
Qed.

(** C7. [Iterate] returns a Corruption status exactly when the
    representation is malformed; otherwise it returns OK after calling
    the handler once per record, in record order. *)
Theorem Iterate_corruption_iff_malformed (rep_ : list Z) (h : H) :
  bytes_ok rep_ ->
  Z.of_nat (length rep_) < 2 ^ 31 ->
  (is_Corruption (fst (Iterate rep_ h)) <-> malformed rep_) /\
  (~ malformed rep_ ->
   exists rs, records (drop kHeader rep_) rs /\
     Z.of_nat (length rs) = stored_count rep_ /\
     Iterate rep_ h = (OK, fold_left call rs h)).
Proof.
  intros Hok Hlen. unfold Iterate, malformed.
  destruct (Nat.ltb_spec (length rep_) kHeader) as [Hsmall|Hbig].
  { simpl. split; [tauto|]. intros Hn. exfalso. apply Hn. by left. }
  set (input := drop kHeader rep_).
  assert (Hc : 0 <= stored_count rep_ < 2 ^ 32).
  { unfold stored_count, DecodeFixed32.
    apply (DecodeFixed_range 4). unfold bytes_ok in *. by apply Forall_drop. }
  destruct (Iterate_loop_spec (length input) input 0 h ltac:(lia))
    as [(rs & Hrs & Heq)|(Hno & msg & f' & h' & Heq)]; rewrite Heq.
  - assert (Hrsl : 0 <= Z.of_nat (length rs) < 2 ^ 31).
    { split; [lia|]. clear -Hrs Hlen. 
      assert (length rs <= length input)%nat.
      { induction Hrs as [|? ? ? ? ? ? E1 E2 ? IHr|? ? ? ? E1 ? IHr]; simpl; [lia| |].
        - apply GetLengthPrefixedSlice_shorter in E1, E2. lia.
        - apply GetLengthPrefixedSlice_shorter in E1. lia. }
      subst input. rewrite length_drop in *. lia. }
    unfold Count. fold (stored_count rep_).
    destruct (Z.eqb_spec (0 + Z.of_nat (length rs)) (to_int (stored_count rep_)))
      as [He|Hne]; simpl.
    + rewrite Z.add_0_l in He. apply (proj1 (to_int_eq _ _ Hrsl Hc)) in He.
      split.
      * split; [done|]. intros [?|[Hno|(rs' & Hrs' & Hne)]]; [lia| |].
        -- apply Hno. eauto.
        -- rewrite (records_functional _ _ _ Hrs' Hrs) in Hne. lia.
      * intros _. exists rs. done.
    + rewrite Z.add_0_l in Hne.
      assert (Z.of_nat (length rs) <> stored_count rep_).
      { intros He. apply Hne. by apply (proj2 (to_int_eq _ _ Hrsl Hc)). }
      split.
      * split; [|done]. intros _. right. right. eauto.
      * intros Hn. exfalso. apply Hn. right. right. eauto.
  - simpl. split.
    + split; [|done]. intros _. right. by left.
    + intros Hn. exfalso. apply Hn. right. by left.
Qed.

(** *** Building a batch and replaying it *)

(** The batch after the calls [Put] and [Delete] that [ops] lists, in
    order, on a batch [rep_]. *)
Definition apply_op (rep_ : list Z) (r : record) : list Z :=
  match r with
  | RValue key value => Put rep_ key value
  | RDeletion key => Delete rep_ key
  end.

Definition build (ops : list record) : list Z := fold_left apply_op ops Clear.

(** The bytes of one record. *)
Definition encode_record (r : record) : list Z :=
  match r with
  | RValue key value =>
      kTypeValue :: PutLengthPrefixedSlice [] key ++ PutLengthPrefixedSlice [] value
  | RDeletion key => kTypeDeletion :: PutLengthPrefixedSlice [] key
  end.

(** Keys and values whose sizes fit the varint32 length prefix. *)
Definition record_ok (r : record) : Prop :=
  match r with
  | RValue key value => Z.of_nat (length key) < 2 ^ 32 /\ Z.of_nat (length value) < 2 ^ 32
  | RDeletion key => Z.of_nat (length key) < 2 ^ 32
  end.

Lemma apply_op_eq rep_ r :
  apply_op rep_ r = SetCount rep_ (Count rep_ + 1) ++ encode_record r.
Proof.
  destruct r as [key value|key]; simpl; unfold Put, Delete, PutLengthPrefixedSlice, PutVarint32;
    simpl; by rewrite <- !app_assoc.
Qed.

Lemma Count_header (s : list Z) (n : Z) (body : list Z) :
  length s = 8%nat -> 0 <= n < 2 ^ 31 -> Count (s ++ EncodeFixed32 n ++ body) = n.
Proof.
  intros Hs Hn. unfold Count. rewrite drop_app_length' by done.
  unfold DecodeFixed32, EncodeFixed32. rewrite DecodeFixed_EncodeFixed.
  change (256 ^ Z.of_nat 4) with (2 ^ 32).
  rewrite (Z.mod_small n) by lia. rewrite Z.mod_small by lia.
  unfold to_int. destruct (Z.ltb_spec n (2 ^ 31)); lia.
Qed.

Lemma SetCount_header (s : list Z) (n m : Z) (body : list Z) :
  length s = 8%nat ->
  SetCount (s ++ EncodeFixed32 n ++ body) m = s ++ EncodeFixed32 m ++ body.
Proof.
  intros Hs. unfold SetCount. rewrite take_app_length' by done.
  replace 12%nat with (length s + 4)%nat by lia.
  rewrite drop_app_add. unfold EncodeFixed32 at 2.
  by rewrite drop_app_length' by (by rewrite length_EncodeFixed).
Qed.

Lemma drop_header (s : list Z) (n : Z) (body : list Z) :
  length s = 8%nat -> drop kHeader (s ++ EncodeFixed32 n ++ body) = body.
Proof.
  intros Hs. change kHeader with 12%nat. replace 12%nat with (length s + 4)%nat by lia.
  rewrite drop_app_add. unfold EncodeFixed32.
  by rewrite drop_app_length' by (by rewrite length_EncodeFixed).
Qed.

Lemma build_snoc (ops : list record) (r : record) :
  build (ops ++ [r]) = apply_op (build ops) r.
Proof. unfold build. by rewrite fold_left_app. Qed.

Lemma build_eq (ops : list record) :
  Z.of_nat (length ops) < 2 ^ 31 ->
  build ops = replicate 8 0 ++ EncodeFixed32 (Z.of_nat (length ops)) ++
              concat (encode_record <$> ops).
Proof.
  induction ops as [|r ops IH] using rev_ind; intros Hlen; [done|].
  rewrite length_app in Hlen. cbn [length] in Hlen.
  rewrite build_snoc, IH by lia.
  rewrite apply_op_eq. rewrite Count_header by (done || lia).
  rewrite SetCount_header by done.
  rewrite fmap_app, concat_app, length_app. cbn [fmap list_fmap concat length].
  rewrite app_nil_r, <- !app_assoc.
  by replace (Z.of_nat (length ops + 1)) with (Z.of_nat (length ops) + 1) by lia.
Qed.

Lemma records_encode (ops : list record) :
  Forall record_ok ops -> records (concat (encode_record <$> ops)) ops.
Proof.
  induction 1 as [|r ops Hr _ IH]; [constructor|].
  rewrite fmap_cons, concat_cons.
  destruct r as [key value|key]; simpl in Hr; unfold encode_record.
  - destruct Hr as [Hk Hv]. rewrite <- app_comm_cons, <- app_assoc.
    eapply records_value; [by apply GetLengthPrefixedSlice_Put|
                           by apply GetLengthPrefixedSlice_Put|done].
  - rewrite <- app_comm_cons.
    eapply records_deletion; [by apply GetLengthPrefixedSlice_Put|done].
Qed.

(** Decoding does not look past what it consumes. *)
Lemma GetVarint_app fuel p v rest more :
  GetVarint fuel p = Some (v, rest) -> GetVarint fuel (p ++ more) = Some (v, rest ++ more).
Proof.
  revert p v rest. induction fuel as [|fuel IH]; intros p v rest; [done|].
  destruct p as [|b p]; [done|]. rewrite <- app_comm_cons, !GetVarint_cons.
  destruct (128 <=? b); [|by intros [= <- <-]].
  destruct (GetVarint fuel p) as [[v' rest']|] eqn:E; [|done].
  intros [= <- <-]. by rewrite (IH _ _ _ E).
Qed.

Lemma GetLengthPrefixedSlice_app input s rest more :
  GetLengthPrefixedSlice input = Some (s, rest) ->
  GetLengthPrefixedSlice (input ++ more) = Some (s, rest ++ more).
Proof.
  unfold GetLengthPrefixedSlice, GetVarint32.
  destruct (GetVarint 5 input) as [[v r]|] eqn:E; [|done].
  rewrite (GetVarint_app _ _ _ _ more E).
  destruct (Z.leb_spec (v mod 2 ^ 32) (Z.of_nat (length r))) as [Hle|]; [|done].
  intros [= <- <-]. rewrite length_app.
  rewrite (proj2 (Z.leb_le _ _)) by lia.
  by rewrite take_app_le, drop_app_le by lia.
Qed.

Lemma records_app a b rs1 rs2 :
  records a rs1 -> records b rs2 -> records (a ++ b) (rs1 ++ rs2).
Proof.
  intros Ha Hb. induction Ha as [|? ? ? ? ? ? E1 E2 ? IH|? ? ? ? E1 ? IH]; [done| |].
  - rewrite <- !app_comm_cons. eapply records_value;
      [by apply GetLengthPrefixedSlice_app|by apply GetLengthPrefixedSlice_app|done].
  - rewrite <- !app_comm_cons. eapply records_deletion;
      [by apply GetLengthPrefixedSlice_app|done].
Qed.

Lemma records_length input rs : records input rs -> (length rs <= length input)%nat.
Proof.
  induction 1 as [|? ? ? ? ? ? E1 E2 ? IHr|? ? ? ? E1 ? IHr]; simpl; [lia| |].
  - apply GetLengthPrefixedSlice_shorter in E1, E2. lia.
  - apply GetLengthPrefixedSlice_shorter in E1. lia.
Qed.

(** What a batch that [Iterate] accepts holds. *)
Lemma Iterate_OK_inv rep_ h h' :
  bytes_ok rep_ -> Z.of_nat (length rep_) < 2 ^ 31 ->
  Iterate rep_ h = (OK, h') ->
  (kHeader <= length rep_)%nat /\
  exists rs, records (drop kHeader rep_) rs /\ Count rep_ = Z.of_nat (length rs) /\
             h' = fold_left call rs h.
Proof.
  intros Hok Hlen. unfold Iterate.
  destruct (Nat.ltb_spec (length rep_) kHeader) as [Hsmall|Hbig]; [done|].
  destruct (Iterate_loop_spec (length (drop kHeader rep_)) (drop kHeader rep_) 0 h ltac:(lia))
    as [(rs & Hrs & Heq)|(Hno & msg & f' & h1 & Heq)]; rewrite Heq; [|done].
  destruct (Z.eqb_spec (0 + Z.of_nat (length rs)) (Count rep_)) as [He|Hne]; [|done].
  simpl. intros [= <-]. split; [done|]. exists rs. split_and!; [done|lia|done].
Qed.

(** The replay of a batch with a header and well-formed records. *)
Lemma Iterate_records (s : list Z) (rs : list record) (body : list Z) (h : H) :
  length s = 8%nat -> records body rs -> Z.of_nat (length body) < 2 ^ 31 ->
  Iterate (s ++ EncodeFixed32 (Z.of_nat (length rs)) ++ body) h = (OK, fold_left call rs h).
Proof.
  intros Hs Hrs Hbody. pose proof (records_length _ _ Hrs) as Hn.
  unfold Iterate. rewrite Count_header by (done || lia).
  rewrite drop_header by done.
  destruct (Nat.ltb_spec (length (s ++ EncodeFixed32 (Z.of_nat (length rs)) ++ body)) kHeader)
    as [Hsmall|_].
  { rewrite !length_app in Hsmall. unfold EncodeFixed32 in Hsmall.
    rewrite length_EncodeFixed in Hsmall. unfold kHeader in Hsmall. lia. }
  destruct (Iterate_loop_spec (length body) body 0 h ltac:(lia))
    as [(rs' & Hrs' & Heq)|(Hno & _)].
  - rewrite Heq. rewrite (records_functional _ _ _ Hrs' Hrs).
    by rewrite Z.add_0_l, Z.eqb_refl.
  - destruct Hno. by exists rs.
Qed.

(** X11. A batch built from an empty one by [Put] and [Delete] calls,
    with keys and values shorter than 2^32 bytes and fewer than 2^31
    bytes in all, replays: [Iterate] returns OK after calling the
    handler's [Put] and [Delete] with the same arguments in the same
    order, and [Count] is the number of calls made. *)
Theorem build_Iterate (ops : list record) (h : H) :
  Forall record_ok ops ->
  Z.of_nat (length (build ops)) < 2 ^ 31 ->
  Iterate (build ops) h = (OK, fold_left call ops h) /\
  Count (build ops) = Z.of_nat (length ops) /\
  records (drop kHeader (build ops)) ops.
Proof.
  intros Hops Hlen.
  pose proof (records_encode ops Hops) as Hrs.
  pose proof (records_length _ _ Hrs) as Hn.
  assert (Hsmall : Z.of_nat (length ops) < 2 ^ 31).
  { destruct (Z.lt_ge_cases (Z.of_nat (length ops)) (2 ^ 31)) as [|Hge]; [done|].
    exfalso. clear Hrs Hn Hops. revert Hlen Hge. unfold build.
    generalize Clear. induction ops as [|r ops IH] using rev_ind; intros c Hlen Hge.
    - simpl in Hge. lia.
    - rewrite fold_left_app in Hlen. simpl in Hlen. rewrite apply_op_eq in Hlen.
      rewrite length_app in Hlen, Hge. simpl in Hge.
      assert (Hfold : forall l c, (length l <= length (fold_left apply_op l c))%nat).
      { clear. induction l as [|r l IH] using rev_ind; intros c; [simpl; lia|].
        rewrite fold_left_app. simpl. rewrite apply_op_eq, !length_app.
        specialize (IH c). unfold SetCount. rewrite !length_app.
        unfold EncodeFixed32. rewrite length_EncodeFixed.
        assert (1 <= length (encode_record r))%nat by (destruct r; simpl; lia).
        simpl. pose proof (length_take_le (fold_left apply_op l c) 8).
        rewrite length_take, length_drop. lia. }
      specialize (Hfold ops c). unfold SetCount in Hlen. rewrite !length_app in Hlen.
      rewrite length_take, length_drop in Hlen. unfold EncodeFixed32 in Hlen.
      rewrite length_EncodeFixed in Hlen.
      assert (1 <= length (encode_record r))%nat by (destruct r; simpl; lia). lia. }
  rewrite build_eq in * by done.
  rewrite !length_app in Hlen.
  split_and!.
  - apply Iterate_records; [done|done|lia].
  - apply Count_header; [done|lia].
  - by rewrite drop_header.
Qed.

(** X13. Appending a batch to another composes their replays: when
    [Iterate] accepts [dst] and then [src], it accepts
    [Append(dst, src)] and leaves the handler as the two replays in
    turn leave it; the count is the sum of the counts and the sequence
    number is that of [dst]. *)
Theorem Append_Iterate (dst src : list Z) (h h1 h2 : H) :
  bytes_ok dst -> bytes_ok src ->
  Z.of_nat (length dst + length src) < 2 ^ 31 ->
  Iterate dst h = (OK, h1) -> Iterate src h1 = (OK, h2) ->
  Iterate (Append dst src) h = (OK, h2) /\
  Count (Append dst src) = Count dst + Count src /\
  Sequence (Append dst src) = Sequence dst.
Proof.
  intros Hd Hs Hlen H1 H2.
  apply Iterate_OK_inv in H1 as (Hl1 & rs1 & Hr1 & Hc1 & ->); [|done|lia].
  apply Iterate_OK_inv in H2 as (Hl2 & rs2 & Hr2 & Hc2 & ->); [|done|lia].
  pose proof (records_length _ _ Hr1) as Hn1. pose proof (records_length _ _ Hr2) as Hn2.
  rewrite length_drop in Hn1, Hn2. unfold kHeader in *.
  assert (Happ : Append dst src =
                 take 8 dst ++ EncodeFixed32 (Z.of_nat (length (rs1 ++ rs2))) ++
                 drop 12 dst ++ drop 12 src).
  { unfold Append, SetCount. rewrite Hc1, Hc2, <- !app_assoc, length_app.
    do 2 f_equal. f_equal. lia. }
  assert (Htake : length (take 8 dst) = 8%nat) by (rewrite length_take; lia).
  rewrite Happ. split_and!.
  - rewrite <- fold_left_app. apply Iterate_records; [done|by apply records_app|].
    rewrite length_app, !length_drop. lia.
  - rewrite Count_header; [|done|rewrite length_app; lia].
    rewrite Hc1, Hc2, length_app. lia.
  - unfold Sequence, DecodeFixed64. rewrite DecodeFixed_prefix by done.
    apply DecodeFixed_take.
Qed.

(** X12. Setting the sequence number of a batch that has its header
    stores it, to be read back by [Sequence], and changes neither the
    count nor the replay of the batch. *)
Theorem SetSequence_Iterate (rep_ : list Z) (seq : Z) (h : H) :
  (kHeader <= length rep_)%nat -> 0 <= seq < 2 ^ 64 ->
  Sequence (SetSequence rep_ seq) = seq /\
  Count (SetSequence rep_ seq) = Count rep_ /\
  Iterate (SetSequence rep_ seq) h = Iterate rep_ h.
Proof.
  intros Hlen Hseq. unfold kHeader in Hlen.
  assert (Hl : length (EncodeFixed64 seq) = 8%nat) by apply length_EncodeFixed.
  assert (Hcount : Count (SetSequence rep_ seq) = Count rep_).
  { unfold Count, SetSequence. by rewrite drop_app_length'. }
  split_and!; [|done|].
  - unfold Sequence, SetSequence, DecodeFixed64, EncodeFixed64.
    rewrite DecodeFixed_EncodeFixed. change (256 ^ Z.of_nat 8) with (2 ^ 64).
    rewrite (Z.mod_small seq) by lia. by apply Z.mod_small.
  - unfold Iterate. rewrite Hcount.
    assert (Hdrop : drop kHeader (SetSequence rep_ seq) = drop kHeader rep_).
    { unfold SetSequence. change kHeader with (8 + 4)%nat.
      rewrite drop_app_add' by done. by rewrite drop_drop. }
    assert (Hsize : length (SetSequence rep_ seq) = length rep_).
    { unfold SetSequence. rewrite length_app, Hl, length_drop. lia. }
    by rewrite Hdrop, Hsize.
Qed.

End Iterate.

(** The batch of the file comment: Put("key", "v1") then Delete("key"),
    replayed into a handler that logs its calls. *)
Definition example_batch : list Z :=
  Delete (Put Clear (bytes "key") (bytes "v1")) (bytes "key").

Lemma Iterate_corruption_iff_malformed_witness :
  Iterate (fun h k v => h ++ [RValue k v]) (fun h k => h ++ [RDeletion k])
    example_batch [] =
  (OK, [RValue (bytes "key") (bytes "v1"); RDeletion (bytes "key")]) /\
  ~ malformed example_batch.
Proof.
  pose proof (Iterate_corruption_iff_malformed
    (fun h k v => h ++ [RValue k v]) (fun h k => h ++ [RDeletion k])
    example_batch []) as Hthm.
  assert (bytes_ok example_batch) as Hok.
  { apply bytes_okb_ok. reflexivity. }
  destruct (Hthm Hok ltac:(vm_compute; reflexivity)) as [Hiff _].
  split; [reflexivity|].
  intros Hm. apply Hiff in Hm. vm_compute in Hm. exact Hm.
Defined.

Lemma build_Iterate_witness :
  Iterate (fun h k v => h ++ [RValue k v]) (fun h k => h ++ [RDeletion k])
    (build [RValue (bytes "key") (bytes "v1"); RDeletion (bytes "key")]) [] =
  (OK, [RValue (bytes "key") (bytes "v1"); RDeletion (bytes "key")]).
Proof.
  apply (build_Iterate (fun h k v => h ++ [RValue k v]) (fun h k => h ++ [RDeletion k])
           [RValue (bytes "key") (bytes "v1"); RDeletion (bytes "key")] []).
  - repeat constructor; simpl; lia.
  - vm_compute. reflexivity.
Defined.

Lemma SetSequence_Iterate_witness :
  Sequence (SetSequence example_batch 100) = 100 /\
  Count (SetSequence example_batch 100) = Count example_batch.
Proof.
  destruct (SetSequence_Iterate (fun h k v => h ++ [RValue k v]) (fun h k => h ++ [RDeletion k])
              example_batch 100 []) as (H1 & H2 & _).
  - vm_compute. lia.
  - lia.
  - by split.
Defined.

Lemma Append_Iterate_witness :
  Iterate (fun h k v => h ++ [RValue k v]) (fun h k => h ++ [RDeletion k])
    (Append example_batch (Put Clear (bytes "k2") (bytes "v2"))) [] =
  (OK, [RValue (bytes "key") (bytes "v1"); RDeletion (bytes "key");
        RValue (bytes "k2") (bytes "v2")]).
Proof.
  apply (Append_Iterate (fun h k v => h ++ [RValue k v]) (fun h k => h ++ [RDeletion k])
           example_batch (Put Clear (bytes "k2") (bytes "v2")) []
           [RValue (bytes "key") (bytes "v1"); RDeletion (bytes "key")]).
  - apply bytes_okb_ok. reflexivity.
  - apply bytes_okb_ok. reflexivity.
  - vm_compute. reflexivity.
  - reflexivity.
  - reflexivity.
Defined.

(** A batch holds at least one byte for each of its records. *)
Lemma length_build (ops : list record) : (length ops <= length (build ops))%nat.
Proof.
  induction ops as [|r ops IH] using rev_ind; [simpl; lia|].
  rewrite build_snoc, apply_op_eq, !length_app. unfold SetCount.
  rewrite !length_app, length_take, length_drop.
  unfold EncodeFixed32. rewrite length_EncodeFixed.
  assert (1 <= length (encode_record r))%nat by (destruct r; simpl; lia).
  cbn [length]. lia.
Qed.

End WriteBatch.

(** ** util/crc32c.h *)

(** Modelled from the spec: util/crc32c.h is not part of the excerpt.
    Section 6: "CRC masking: masked = ((crc >> 15) | (crc << 17)) +
    0xA282EAD8 (mod 2^32)". *)
Definition crc32c_Mask (crc : Z) : Z :=
  (Z.lor (Z.shiftr crc 15) (Z.shiftl crc 17 mod 2 ^ 32) + 0xa282ead8) mod 2 ^ 32.

(** Modelled from the spec: section 6, "Unmask inverts": the constant
    is subtracted and the rotation undone. *)
Definition crc32c_Unmask (masked_crc : Z) : Z :=
  let rot := (masked_crc - 0xa282ead8) mod 2 ^ 32 in
  Z.lor (Z.shiftr rot 17) (Z.shiftl rot 15 mod 2 ^ 32).

(** Bits that do not overlap add up. *)
Lemma lor_disjoint (hi lo k : Z) :
  0 <= k -> 0 <= lo < 2 ^ k -> Z.lor (hi * 2 ^ k) lo = hi * 2 ^ k + lo.
Proof.
  intros Hk Hlo.
  assert (Hland : Z.land (hi * 2 ^ k) lo = 0).
  { destruct (Z.eq_dec lo 0) as [->|Hne]; [apply Z.land_0_r|].
    apply Z.bits_inj'. intros n Hn. rewrite Z.land_spec, Z.bits_0.
    destruct (Z.lt_ge_cases n k) as [Hlt|Hge].
    - by rewrite Z.mul_pow2_bits_low by lia.
    - rewrite (Z.bits_above_log2 lo n); [by rewrite andb_false_r|lia|].
      assert (Z.log2 lo < k) by (apply Z.log2_lt_pow2; lia). lia. }
  pose proof (Z.sub_2lor_lxor (hi * 2 ^ k) lo) as H2.
  rewrite (Z.lxor_lor _ _ Hland) in H2. lia.
Qed.

Lemma crc32c_Mask_range (crc : Z) : 0 <= crc32c_Mask crc < 2 ^ 32.
Proof. unfold crc32c_Mask. apply Z.mod_pos_bound. lia. Qed.

Lemma crc32c_Unmask_Mask (crc : Z) :
  0 <= crc < 2 ^ 32 -> crc32c_Unmask (crc32c_Mask crc) = crc.
Proof.
  intros Hcrc. unfold crc32c_Unmask, crc32c_Mask.
  set (hi := crc / 2 ^ 15). set (lo := crc mod 2 ^ 15).
  assert (Hsplit : crc = hi * 2 ^ 15 + lo) by (subst hi lo; pose proof (Z.div_mod crc (2 ^ 15)); lia).
  assert (Hlo : 0 <= lo < 2 ^ 15) by (subst lo; apply Z.mod_pos_bound; lia).
  assert (Hhi : 0 <= hi < 2 ^ 17).
  { subst hi. split; [apply Z.div_pos; lia|]. apply Z.div_lt_upper_bound; lia. }
  assert (Hrot : Z.lor (Z.shiftr crc 15) (Z.shiftl crc 17 mod 2 ^ 32) = lo * 2 ^ 17 + hi).
  { rewrite Z.shiftr_div_pow2, Z.shiftl_mul_pow2 by lia. fold hi.
    replace (crc * 2 ^ 17 mod 2 ^ 32) with (lo * 2 ^ 17).
    - rewrite Z.lor_comm, lor_disjoint by lia. lia.
    - rewrite Hsplit.
      replace ((hi * 2 ^ 15 + lo) * 2 ^ 17) with (lo * 2 ^ 17 + hi * 2 ^ 32) by lia.
      rewrite Z.mod_add by lia. symmetry. apply Z.mod_small. lia. }
  rewrite Hrot. set (rot := lo * 2 ^ 17 + hi).
  assert (Hr : 0 <= rot < 2 ^ 32) by (subst rot; lia).
  replace (((rot + 0xa282ead8) mod 2 ^ 32 - 0xa282ead8) mod 2 ^ 32) with rot.
  2:{ rewrite Zminus_mod_idemp_l. replace (rot + 0xa282ead8 - 0xa282ead8) with rot by lia.
      symmetry. by apply Z.mod_small. }
  rewrite Z.shiftr_div_pow2, Z.shiftl_mul_pow2 by lia.
  replace (rot / 2 ^ 17) with lo.
  2:{ subst rot. rewrite Z.add_comm, Z.div_add by lia. rewrite Z.div_small by lia. lia. }
  replace (rot * 2 ^ 15 mod 2 ^ 32) with (hi * 2 ^ 15).
  2:{ subst rot. replace ((lo * 2 ^ 17 + hi) * 2 ^ 15) with (hi * 2 ^ 15 + lo * 2 ^ 32) by lia.
      rewrite Z.mod_add by lia. symmetry. apply Z.mod_small. lia. }
  rewrite Z.lor_comm, lor_disjoint by lia. lia.
Qed.

(** ** The file abstraction *)

(** Modelled from the spec: include/leveldb/env.h is not part of the
    excerpt.  Section 6: "File abstraction (provided by the outer
    environment, not the core): sequential append with explicit flush".
    An in-memory file that records each appended chunk, in order, and
    whose operations succeed. *)
Record WritableFile : Type := { appended : list (list Z) }.

Definition file_Append (f : WritableFile) (data : list Z) : Status * WritableFile :=
  (OK, {| appended := appended f ++ [data] |}).

Definition file_Flush (f : WritableFile) : Status * WritableFile := (OK, f).

(** The bytes of the file. *)
Definition file_bytes (f : WritableFile) : list Z := concat (appended f).

(** ** db/log_writer.cc *)

Module Log.

Import Coding.

(** Modelled from the spec: db/log_format.h is not part of the excerpt.
    Section 4.3: "File is logically a sequence of 32 KiB blocks ...
    Header size 7. Types: FULL, FIRST, MIDDLE, LAST, plus reserved ZERO
    (padding)". *)
Inductive RecordType : Type :=
| kZeroType | kFullType | kFirstType | kMiddleType | kLastType.

Definition type_code (t : RecordType) : Z :=
  match t with
  | kZeroType => 0 | kFullType => 1 | kFirstType => 2
  | kMiddleType => 3 | kLastType => 4
  end.

Definition kMaxRecordType : Z := type_code kLastType.
Definition kBlockSize : Z := 32768.
Definition kHeaderSize : Z := 4 + 2 + 1.

Section Writer.

(** util/crc32c is outside the excerpt ("checksum-algorithm
    internals"): the checksum functions are parameters. *)
Variable crc32c_Value : list Z -> Z.
Variable crc32c_Extend : Z -> list Z -> Z.

(** The members of [class Writer]. *)
Record Writer : Type := {
  dest_ : WritableFile;
  block_offset_ : Z;
  type_crc_ : list Z
}.

(** [InitTypeCrc(type_crc)]: the crc of each record type byte. *)
Definition InitTypeCrc : list Z :=
  map (fun i => crc32c_Value [Z.of_nat i]) (seq 0 (Z.to_nat (kMaxRecordType + 1))).

(** [Writer::Writer(dest)]. *)
Definition new (dest : WritableFile) : Writer :=
  {| dest_ := dest; block_offset_ := 0; type_crc_ := InitTypeCrc |}.

(** [Writer::Writer(dest, dest_length)]. *)
Definition new_at (dest : WritableFile) (dest_length : Z) : Writer :=
  {| dest_ := dest; block_offset_ := dest_length mod kBlockSize;
     type_crc_ := InitTypeCrc |}.

(** [Writer::EmitPhysicalRecord(t, ptr, n)], with the [n] bytes at
    [ptr] as [data]. *)
Definition EmitPhysicalRecord (w : Writer) (t : RecordType) (data : list Z)
    : Status * Writer :=
  let n := Z.of_nat (length data) in
  (* Format the header *)
  let buf4 := Z.land n 255 in
  let buf5 := Z.shiftr n 8 mod 256 in
  let buf6 := type_code t in
  (* Compute the crc of the record type and the payload. *)
  let crc := crc32c_Extend (type_crc_ w !!! Z.to_nat (type_code t)) data in
  let crc := crc32c_Mask crc in
  let buf := EncodeFixed32 crc ++ [buf4; buf5; buf6] in
  (* Write the header and the payload *)
  let '(s, dest) := file_Append (dest_ w) buf in
  let '(s, dest) :=
    if ok s then
      let '(s, dest) := file_Append dest data in
      if ok s then file_Flush dest else (s, dest)
    else (s, dest) in
  (s, {| dest_ := dest;
         block_offset_ := block_offset_ w + kHeaderSize + n;
         type_crc_ := type_crc_ w |}).

(** The [do ... while (s.ok() && left > 0)] loop of [AddRecord]: [ptr]
    holds the [left] bytes still to write. *)
Fixpoint AddRecord_loop (fuel : nat) (w : Writer) (ptr : list Z) (begin : bool)
    : Status * Writer :=
  match fuel with
  | O => (OK, w)
  | S fuel' =>
      let left := Z.of_nat (length ptr) in
      let leftover := kBlockSize - block_offset_ w in
      let w :=
        if leftover <? kHeaderSize then
          (* Switch to a new block *)
          let dest :=
            if 0 <? leftover
            then snd (file_Append (dest_ w) (replicate (Z.to_nat leftover) 0))
            else dest_ w in
          {| dest_ := dest; block_offset_ := 0; type_crc_ := type_crc_ w |}
        else w in
      let avail := kBlockSize - block_offset_ w - kHeaderSize in
      let fragment_length := if left <? avail then left else avail in
      let end_ := left =? fragment_length in
      let type :=
        if begin && end_ then kFullType
        else if begin then kFirstType
        else if end_ then kLastType
        else kMiddleType in
      let '(s, w) := EmitPhysicalRecord w type (take (Z.to_nat fragment_length) ptr) in
      let ptr := drop (Z.to_nat fragment_length) ptr in
      if ok s && (0 <? Z.of_nat (length ptr))
      then AddRecord_loop fuel' w ptr false
      else (s, w)
  end.

(** [Writer::AddRecord(slice)].  Only the first iteration can emit a
    fragment without payload, so [length slice + 2] iterations suffice. *)
Definition AddRecord (w : Writer) (slice : list Z) : Status * Writer :=
  AddRecord_loop (length slice + 2) w slice true.

(** *** What the log file holds (section 4.3) *)

(** A physical record: the padding written before it, its type and its
    payload. *)
Record fragment : Type := {
  padding : Z;
  rtype : RecordType;
  payload : list Z
}.

(** crc32c_masked(4), length(2, little-endian), type(1). *)
Definition header (t : RecordType) (data : list Z) : list Z :=
  EncodeFixed32 (crc32c_Mask (crc32c_Extend (crc32c_Value [type_code t]) data)) ++
  EncodeFixed 2 (Z.of_nat (length data)) ++ [type_code t].

(** The chunks appended for one fragment. *)
Definition chunks (f : fragment) : list (list Z) :=
  (if 0 <? padding f then [replicate (Z.to_nat (padding f)) 0] else []) ++
  [header (rtype f) (payload f); payload f].

(** [placed off fs]: starting at block offset [off], each fragment of
    [fs] lies within one block: when fewer than 7 bytes are left in the
    block they are padded and the fragment starts the next block; every
    fragment but the last fills its block. *)
Fixpoint placed (off : Z) (fs : list fragment) : Prop :=
  match fs with
  | [] => True
  | f :: rest =>
      let leftover := kBlockSize - off in
      let start := if leftover <? kHeaderSize then 0 else off in
      let stop := start + kHeaderSize + Z.of_nat (length (payload f)) in
      padding f = (if leftover <? kHeaderSize then leftover else 0) /\
      stop <= kBlockSize /\
      (rest <> [] -> stop = kBlockSize) /\
      placed stop rest
  end.

(** MIDDLE..., LAST. *)
Definition tail_types (ts : list RecordType) : Prop :=
  exists k : nat, ts = replicate k kMiddleType ++ [kLastType].

(** FULL alone, or FIRST, MIDDLE..., LAST. *)
Definition record_types (ts : list RecordType) : Prop :=
  ts = [kFullType] \/ exists rest, ts = kFirstType :: rest /\ tail_types rest.

(** A writer between records. *)
Definition valid (w : Writer) : Prop :=
  0 <= block_offset_ w <= kBlockSize /\ type_crc_ w = InitTypeCrc.

(** *** One physical record *)

Lemma type_crc_lookup (t : RecordType) :
  InitTypeCrc !!! Z.to_nat (type_code t) = crc32c_Value [type_code t].
Proof. destruct t; reflexivity. Qed.

Lemma length_bytes_fixed2 (n : Z) :
  0 <= n -> [Z.land n 255; Z.shiftr n 8 mod 256] = EncodeFixed 2 n.
Proof.
  intros Hn. simpl. change 255 with (Z.ones 8).
  rewrite Z.land_ones by lia. rewrite Z.shiftr_div_pow2 by lia. reflexivity.
Qed.

Lemma EmitPhysicalRecord_eq (w : Writer) (t : RecordType) (data : list Z) :
  type_crc_ w = InitTypeCrc ->
  EmitPhysicalRecord w t data =
  (OK, {| dest_ := {| appended := appended (dest_ w) ++ [header t data; data] |};
          block_offset_ := block_offset_ w + kHeaderSize + Z.of_nat (length data);
          type_crc_ := type_crc_ w |}).
Proof.
  intros Hcrc. unfold EmitPhysicalRecord, header. rewrite Hcrc, type_crc_lookup.
  simpl. rewrite <- app_assoc. simpl.
  pose proof (length_bytes_fixed2 (Z.of_nat (length data)) ltac:(lia)) as E.
  simpl in E. injection E as -> ->. reflexivity.
Qed.

(** *** The fragmentation loop *)

Lemma AddRecord_loop_spec (fuel : nat) (w : Writer) (ptr : list Z) (begin : bool) :
  valid w ->
  ((length ptr + 2 <= fuel)%nat \/
   ((length ptr + 1 <= fuel)%nat /\ block_offset_ w <> kBlockSize - kHeaderSize)) ->
  exists (fs : list fragment) (w' : Writer),
    AddRecord_loop fuel w ptr begin = (OK, w') /\
    valid w' /\
    appended (dest_ w') = appended (dest_ w) ++ concat (map chunks fs) /\
    concat (map payload fs) = ptr /\
    placed (block_offset_ w) fs /\
    (if begin then record_types (map rtype fs) else tail_types (map rtype fs)) /\
    (ptr = [] -> exists f, fs = [f]).
Proof.
  revert w ptr begin. induction fuel as [|fuel IH]; intros w ptr begin [Hoff Hcrc] Hfuel.
  { exfalso. lia. }
  cbn [AddRecord_loop].
  set (left := Z.of_nat (length ptr)).
  set (leftover := kBlockSize - block_offset_ w).
  (* the writer at the start of the fragment *)
  set (pad := if leftover <? kHeaderSize then leftover else 0).
  set (start := if leftover <? kHeaderSize then 0 else block_offset_ w).
  set (w1 := if leftover <? kHeaderSize then _ else w).
  assert (Hw1 : block_offset_ w1 = start /\ type_crc_ w1 = InitTypeCrc /\
                appended (dest_ w1) = appended (dest_ w) ++
                  (if 0 <? pad then [replicate (Z.to_nat pad) 0] else [])).
  { subst w1 start pad. destruct (leftover <? kHeaderSize); simpl.
    - repeat split; [done|]. destruct (0 <? leftover); simpl; [done|].
      by rewrite app_nil_r.
    - repeat split; [done|]. by rewrite app_nil_r. }
  destruct Hw1 as (Hs1 & Hc1 & Ha1).
  assert (Hstart : 0 <= start <= kBlockSize - kHeaderSize).
  { subst start leftover. unfold kBlockSize, kHeaderSize in *.
    destruct (Z.ltb_spec (32768 - block_offset_ w) (4 + 2 + 1)); lia. }
  rewrite Hs1.
  set (avail := kBlockSize - start - kHeaderSize).
  set (fragment_length := if left <? avail then left else avail).
  assert (Hfl : 0 <= fragment_length <= left /\ fragment_length <= avail).
  { subst fragment_length avail left. destruct (Z.ltb_spec (Z.of_nat (length ptr))
      (kBlockSize - start - kHeaderSize)); lia. }
  set (data := take (Z.to_nat fragment_length) ptr).
  assert (Hdata : Z.of_nat (length data) = fragment_length).
  { subst data. rewrite length_take. subst left. lia. }
  set (ty := if begin && (left =? fragment_length) then kFullType
             else if begin then kFirstType
             else if left =? fragment_length then kLastType else kMiddleType).
  rewrite (EmitPhysicalRecord_eq w1 ty data Hc1). rewrite Hs1, Hc1, Ha1, Hdata.
  set (w2 := {| dest_ := _; block_offset_ := _; type_crc_ := _ |}).
  set (f := {| padding := pad; rtype := ty; payload := data |}).
  assert (Hchunks : appended (dest_ w2) = appended (dest_ w) ++ chunks f).
  { subst w2 f. unfold chunks. simpl. by rewrite <- app_assoc. }
  assert (Hplace : forall rest stop,
            stop = start + kHeaderSize + fragment_length ->
            (rest <> [] -> stop = kBlockSize) -> placed stop rest ->
            placed (block_offset_ w) (f :: rest)).
  { intros rest stop -> Hfull Hrest. cbn [placed]. subst f. cbn [padding payload].
    fold leftover. fold pad. fold start. rewrite Hdata.
    repeat split; try done. subst avail. lia. }
  assert (Hlen' : Z.of_nat (length (drop (Z.to_nat fragment_length) ptr))
                  = left - fragment_length).
  { rewrite length_drop. subst left. lia. }
  cbn [ok andb]. rewrite Hlen'.
  destruct (Z.ltb_spec 0 (left - fragment_length)) as [Hmore|Hdone].
  - (* more to write: this fragment filled its block *)
    assert (Hfill : fragment_length = avail).
    { subst fragment_length. destruct (Z.ltb_spec left avail); lia. }
    assert (Hne : (left =? fragment_length) = false) by (apply Z.eqb_neq; lia).
    destruct (IH w2 (drop (Z.to_nat fragment_length) ptr) false)
      as (fs & w' & Hrun & Hv' & Happ & Hcat & Hpl & Hty & _).
    { subst w2. split; [|done]. simpl. subst avail. lia. }
    { right. subst w2. simpl. rewrite length_drop.
      split; [|subst avail; unfold kBlockSize, kHeaderSize in *; lia].
      destruct Hfuel as [Hf|[Hf Hnot]]; [lia|].
      assert (0 < avail).
      { subst avail start leftover. unfold kBlockSize, kHeaderSize in *.
        destruct (Z.ltb_spec (32768 - block_offset_ w) (4 + 2 + 1)); lia. }
      lia. }
    exists (f :: fs), w'. rewrite Hrun. split_and!; try done.
    + rewrite Happ, Hchunks. simpl. by rewrite <- app_assoc.
    + simpl. rewrite Hcat. subst f data. simpl. apply take_drop.
    + apply (Hplace fs (block_offset_ w2)); subst w2; simpl; try done.
      intros _. subst avail. lia.
    + subst f ty. simpl. rewrite Hne. destruct begin; simpl.
      * right. eauto.
      * destruct Hty as [k Hk]. exists (S k). simpl. by rewrite Hk.
    + intros ->. exfalso. subst left. simpl in *. lia.
  - (* the last fragment *)
    assert (He : (left =? fragment_length) = true) by (apply Z.eqb_eq; lia).
    exists [f], w2. split_and!; try done.
    + split; [|done]. subst w2. simpl. subst avail. unfold kHeaderSize in *. lia.
    + rewrite Hchunks. simpl. by rewrite app_nil_r.
    + simpl. rewrite app_nil_r. subst f data. simpl. apply take_ge.
      subst left. lia.
    + apply (Hplace [] (start + kHeaderSize + fragment_length)); done.
    + subst f ty. simpl. rewrite He. destruct begin; simpl.
      * by left.
      * by exists 0%nat.
    + eauto.
Qed.

Lemma tail_types_length2 (a b : RecordType) :
  tail_types [a; b] -> a = kMiddleType /\ b = kLastType.
Proof.
  intros [k Hk]. destruct k as [|[|k]]; simpl in Hk; try done.
  - by injection Hk as -> ->.
  - injection Hk as _ _ Hk. by destruct k.
Qed.

(** The fragments of an 80 KiB record written at the start of a block. *)
Lemma placed_80KiB (fs : list fragment) (slice : list Z) :
  Z.of_nat (length slice) = 81920 ->
  placed 0 fs -> record_types (map rtype fs) -> concat (map payload fs) = slice ->
  exists p1 p2 p3,
    fs = [ {| padding := 0; rtype := kFirstType; payload := p1 |};
           {| padding := 0; rtype := kMiddleType; payload := p2 |};
           {| padding := 0; rtype := kLastType; payload := p3 |} ] /\
    Z.of_nat (length p1) = 32761 /\ Z.of_nat (length p2) = 32761 /\
    Z.of_nat (length p3) = 16398.
Proof.
  intros Hlen Hpl Hty Hcat.
  assert (Hl : Z.of_nat (length (concat (map payload fs))) = 81920) by (by rewrite Hcat).
  clear Hcat Hlen.
  destruct fs as [|[pad1 t1 p1] r1].
  { destruct Hty as [Hty|(? & Hty & _)]; done. }
  cbn [placed padding payload] in Hpl. unfold kBlockSize, kHeaderSize in Hpl.
  simpl in Hpl. destruct Hpl as (Hpad1 & Hstop1 & Hfull1 & Hpl).
  destruct r1 as [|[pad2 t2 p2] r2].
  { simpl in Hl. rewrite app_nil_r in Hl. exfalso. lia. }
  rewrite Hfull1 in Hpl by done.
  cbn [placed padding payload] in Hpl. unfold kBlockSize, kHeaderSize in Hpl.
  simpl in Hpl. destruct Hpl as (Hpad2 & Hstop2 & Hfull2 & Hpl).
  assert (Hp1 : Z.of_nat (length p1) = 32761) by (specialize (Hfull1 ltac:(done)); lia).
  destruct r2 as [|[pad3 t3 p3] r3].
  { simpl in Hl. rewrite app_nil_r, length_app in Hl. exfalso. lia. }
  rewrite Hfull2 in Hpl by done.
  cbn [placed padding payload] in Hpl. unfold kBlockSize, kHeaderSize in Hpl.
  simpl in Hpl. destruct Hpl as (Hpad3 & Hstop3 & Hfull3 & Hpl).
  assert (Hp2 : Z.of_nat (length p2) = 32761) by (specialize (Hfull2 ltac:(done)); lia).
  destruct r3 as [|f4 r4].
  2:{ specialize (Hfull3 ltac:(done)). simpl in Hl. rewrite !length_app in Hl.
      exfalso. lia. }
  simpl in Hl. rewrite app_nil_r, !length_app in Hl.
  simpl in Hty. destruct Hty as [Hty|(rest & Hty & Htail)]; [done|].
  injection Hty as -> <-. apply tail_types_length2 in Htail as [-> ->].
  exists p1, p2, p3. subst. split_and!; try done. lia.
Qed.

(** C2. [AddRecord] writes the payload as consecutive physical records,
    each within one 32 KiB block and each filling its block except the
    last; fewer than 7 bytes left in a block are zero-padded before the
    next block starts; a single fragment is FULL, several are FIRST,
    MIDDLE..., LAST; an empty payload gives one FULL fragment without
    payload; an 80 KiB record at the start of a block gives FIRST with
    32761 bytes, MIDDLE with 32761 and LAST with 16398. *)
Theorem AddRecord_fragments (w : Writer) (slice : list Z) :
  valid w ->
  exists (fs : list fragment) (w' : Writer),
    AddRecord w slice = (OK, w') /\
    valid w' /\
    appended (dest_ w') = appended (dest_ w) ++ concat (map chunks fs) /\
    concat (map payload fs) = slice /\
    placed (block_offset_ w) fs /\
    record_types (map rtype fs) /\
    (slice = [] ->
     exists pad, fs = [ {| padding := pad; rtype := kFullType; payload := [] |} ]) /\
    (block_offset_ w = 0 -> Z.of_nat (length slice) = 81920 ->
     exists p1 p2 p3,
       fs = [ {| padding := 0; rtype := kFirstType; payload := p1 |};
              {| padding := 0; rtype := kMiddleType; payload := p2 |};
              {| padding := 0; rtype := kLastType; payload := p3 |} ] /\
       Z.of_nat (length p1) = 32761 /\ Z.of_nat (length p2) = 32761 /\
    Z.of_nat (length p3) = 16398).
Proof.
  intros Hv. unfold AddRecord.
  destruct (AddRecord_loop_spec (length slice + 2) w slice true Hv ltac:(lia))
    as (fs & w' & Hrun & Hv' & Happ & Hcat & Hpl & Hty & Hone).
  exists fs, w'. split_and!; try done.
  - intros ->. destruct (Hone eq_refl) as [[pad t p] ->]. simpl in *.
    rewrite app_nil_r in Hcat. subst p.
    destruct Hty as [[= ->]|(rest & [= -> <-] & [k Hk])]; [eauto|].
    by destruct k.
  - intros H0 Hlen. rewrite H0 in Hpl. by apply (placed_80KiB fs slice).
Qed.

(** *** The block offset and the length of the file *)

(** Writing the records of a list, one after the other. *)
Definition AddRecords (w : Writer) (slices : list (list Z)) : Writer :=
  fold_left (fun w slice => snd (AddRecord w slice)) slices w.

(** [block_offset_] is the offset in its block of the end of the file,
    or [kBlockSize] when the last record filled its block. *)
Definition tracks (w : Writer) : Prop :=
  valid w /\
  exists q : Z, Z.of_nat (length (file_bytes (dest_ w))) = q * kBlockSize + block_offset_ w.

Lemma length_file_bytes_app (f : WritableFile) (cs : list (list Z)) :
  Z.of_nat (length (file_bytes {| appended := appended f ++ cs |})) =
  Z.of_nat (length (file_bytes f)) + Z.of_nat (length (concat cs)).
Proof. unfold file_bytes. simpl. rewrite concat_app, length_app. lia. Qed.

Lemma length_header (t : RecordType) (data : list Z) :
  Z.of_nat (length (header t data)) = kHeaderSize.
Proof.
  unfold header, EncodeFixed32. rewrite !length_app, !length_EncodeFixed. reflexivity.
Qed.

Lemma AddRecord_loop_tracks (fuel : nat) : forall (w : Writer) (ptr : list Z) (begin : bool),
  tracks w -> tracks (snd (AddRecord_loop fuel w ptr begin)).
Proof.
  induction fuel as [|fuel IH]; intros w ptr begin Hw; [done|].
  destruct Hw as ([Hoff Hcrc] & q & Hq).
  cbn [AddRecord_loop].
  set (left := Z.of_nat (length ptr)).
  set (leftover := kBlockSize - block_offset_ w).
  set (w1 := if leftover <? kHeaderSize then _ else w).
  assert (Hw1 : 0 <= block_offset_ w1 <= kBlockSize - kHeaderSize /\
                type_crc_ w1 = InitTypeCrc /\
                exists q1, Z.of_nat (length (file_bytes (dest_ w1))) =
                           q1 * kBlockSize + block_offset_ w1).
  { subst w1 leftover. unfold kBlockSize, kHeaderSize in *.
    destruct (Z.ltb_spec (32768 - block_offset_ w) (4 + 2 + 1)) as [Hsw|Hsw]; simpl.
    - split_and!; [lia|lia|done|]. exists (q + 1).
      destruct (Z.ltb_spec 0 (32768 - block_offset_ w)) as [Hpad|Hpad]; simpl.
      + rewrite length_file_bytes_app. simpl.
        rewrite app_nil_r, length_replicate. lia.
      + lia.
    - split_and!; [lia|lia|done|]. by exists q. }
  destruct Hw1 as (Hoff1 & Hcrc1 & q1 & Hq1).
  set (avail := kBlockSize - block_offset_ w1 - kHeaderSize).
  set (fragment_length := if left <? avail then left else avail).
  assert (Hfl : 0 <= fragment_length <= left /\ fragment_length <= avail).
  { subst fragment_length avail left.
    destruct (Z.ltb_spec (Z.of_nat (length ptr))
                (kBlockSize - block_offset_ w1 - kHeaderSize)); lia. }
  set (data := take (Z.to_nat fragment_length) ptr).
  assert (Hdata : Z.of_nat (length data) = fragment_length).
  { subst data. rewrite length_take. subst left. lia. }
  set (ty := if begin && (left =? fragment_length) then kFullType
             else if begin then kFirstType
             else if left =? fragment_length then kLastType else kMiddleType).
  rewrite (EmitPhysicalRecord_eq w1 ty data Hcrc1).
  set (w2 := {| dest_ := _; block_offset_ := _; type_crc_ := _ |}).
  assert (Hw2 : tracks w2).
  { subst w2. split; [split|]; simpl.
    - subst avail. unfold kHeaderSize in *. lia.
    - done.
    - exists q1. rewrite length_file_bytes_app. cbn [concat].
      rewrite app_nil_r, length_app.
      pose proof (length_header ty data). lia. }
  cbn [ok andb].
  destruct (0 <? Z.of_nat (length (drop (Z.to_nat fragment_length) ptr))); [|done].
  by apply IH.
Qed.

Lemma AddRecords_tracks (slices : list (list Z)) : forall w,
  tracks w -> tracks (AddRecords w slices).
Proof.
  induction slices as [|slice slices IH]; intros w Hw; [done|].
  simpl. apply IH. by apply AddRecord_loop_tracks.
Qed.

(** A writer at the very end of a block behaves as one at the start of
    the next. *)
Lemma AddRecord_loop_block_end (fuel : nat) (w : Writer) (ptr : list Z) (begin : bool) :
  block_offset_ w = kBlockSize ->
  AddRecord_loop (S fuel) w ptr begin =
  AddRecord_loop (S fuel)
    {| dest_ := dest_ w; block_offset_ := 0; type_crc_ := type_crc_ w |} ptr begin.
Proof.
  intros Hoff. cbn [AddRecord_loop]. rewrite Hoff. reflexivity.
Qed.

(** X14. After any records have been written to a log that was empty,
    [block_offset_] is where the file ends within its 32 KiB block (or
    the block size, when the last record filled its block), so a writer
    opened on the file with the file's length writes the next record
    exactly as the writer that wrote the file does. *)
Theorem reopened_writer_continues (slices : list (list Z)) (slice : list Z) :
  let w := AddRecords (new {| appended := [] |}) slices in
  let dest_length := Z.of_nat (length (file_bytes (dest_ w))) in
  0 <= block_offset_ w <= kBlockSize /\
  block_offset_ w mod kBlockSize = dest_length mod kBlockSize /\
  AddRecord (new_at (dest_ w) dest_length) slice = AddRecord w slice.
Proof.
  intros w dest_length.
  assert (Hw : tracks w).
  { apply AddRecords_tracks. split; [split|]; simpl; [unfold kBlockSize; lia|done|].
    exists 0. reflexivity. }
  destruct Hw as ([Hoff Hcrc] & q & Hq). fold dest_length in Hq.
  assert (Hmod : block_offset_ w mod kBlockSize = dest_length mod kBlockSize).
  { rewrite Hq, Z.add_comm, Z.mod_add; [done|unfold kBlockSize; lia]. }
  split_and!; [lia|lia|done|].
  unfold new_at. rewrite <- Hmod, <- Hcrc. unfold AddRecord.
  replace (length slice + 2)%nat with (S (length slice + 1)) by lia.
  destruct (Z.eq_dec (block_offset_ w) kBlockSize) as [Heq|Hne].
  - rewrite (AddRecord_loop_block_end _ w) by done. rewrite Heq. reflexivity.
  - rewrite Z.mod_small by lia. by destruct w.
Qed.

End Writer.

(** A three-byte record written to an empty file, with constant
    checksum functions. *)
Lemma AddRecord_fragments_witness :
  let w := new (fun _ => 0) {| appended := [] |} in
  valid (fun _ => 0) w /\
  exists fs w',
    AddRecord (fun c _ => c) w [1; 2; 3] = (OK, w') /\
    concat (map payload fs) = [1; 2; 3] /\
    record_types (map rtype fs).
Proof.
  assert (Hv : valid (fun _ => 0) (new (fun _ => 0) {| appended := [] |})).
  { split; [|reflexivity]. simpl. unfold kBlockSize. lia. }
  split; [exact Hv|].
  destruct (AddRecord_fragments (fun _ => 0) (fun c _ => c) _ [1; 2; 3] Hv)
    as (fs & w' & H1 & _ & _ & H2 & _ & H3 & _).
  exists fs, w'. done.
Defined.

End Log.

(** ** table/format.cc: block handles and the footer *)

Module Format.

Import Coding.

(** [class BlockHandle]: the offset and size of a block in the file. *)
Record BlockHandle : Type := { offset_ : Z; size_ : Z }.

(** The default constructor leaves both fields at [~uint64_t(0)], the
    value [EncodeTo] asserts against. *)
Definition BlockHandle_new : BlockHandle :=
  {| offset_ := 2 ^ 64 - 1; size_ := 2 ^ 64 - 1 |}.

(** Maximum encoding length of a BlockHandle: two varint64. *)
Definition kMaxEncodedLength : nat := 10 + 10.

(** [BlockHandle::EncodeTo(dst)]. *)
Definition BlockHandle_EncodeTo (h : BlockHandle) (dst : list Z) : list Z :=
  PutVarint64 (PutVarint64 dst (offset_ h)) (size_ h).

(** [class Footer]. *)
Record Footer : Type := {
  metaindex_handle_ : BlockHandle;
  index_handle_ : BlockHandle
}.

(** Encoded length of a Footer: two block handles and a magic number. *)
Definition kEncodedLength : nat := 2 * kMaxEncodedLength + 8.

(** The size of the block trailer: 1-byte type and 32-bit crc. *)
Definition kBlockTrailerSize : Z := 5.

(** [Footer::EncodeTo(dst)]; [magic] is [kTableMagicNumber], declared in
    table/format.h, which is outside the excerpt. *)
Definition Footer_EncodeTo (magic : Z) (f : Footer) (dst : list Z) : list Z :=
  let dst := BlockHandle_EncodeTo (metaindex_handle_ f) dst in
  let dst := BlockHandle_EncodeTo (index_handle_ f) dst in
  let dst := str_resize (2 * kMaxEncodedLength) dst in (* Padding *)
  let dst := PutFixed32 dst (Z.land magic 0xffffffff) in
  PutFixed32 dst (Z.shiftr magic 32).

(** *** The footer is 48 bytes *)

Lemma length_EncodeFixed32 v : length (EncodeFixed32 v) = 4%nat.
Proof. apply length_EncodeFixed. Qed.

Lemma Footer_EncodeTo_length magic f dst :
  length (Footer_EncodeTo magic f dst) = kEncodedLength.
Proof.
  unfold Footer_EncodeTo, PutFixed32.
  rewrite !length_app, !length_EncodeFixed32, length_str_resize. reflexivity.
Qed.

Lemma BlockHandle_EncodeTo_length h :
  (length (BlockHandle_EncodeTo h []) <= kMaxEncodedLength)%nat.
Proof.
  unfold BlockHandle_EncodeTo, PutVarint64. simpl. rewrite length_app.
  pose proof (EncodeVarint64_length (offset_ h)).
  pose proof (EncodeVarint64_length (size_ h)).
  unfold kMaxEncodedLength. lia.
Qed.

Lemma BlockHandle_EncodeTo_app h dst :
  BlockHandle_EncodeTo h dst = dst ++ BlockHandle_EncodeTo h [].
Proof. unfold BlockHandle_EncodeTo, PutVarint64. simpl. by rewrite app_assoc. Qed.

(** The two halves written by [PutFixed32] are the 8-byte little-endian
    encoding of the magic number. *)
Lemma magic_halves magic :
  EncodeFixed32 (Z.land magic 0xffffffff) ++ EncodeFixed32 (Z.shiftr magic 32)
  = EncodeFixed64 magic.
Proof.
  unfold EncodeFixed32, EncodeFixed64.
  change 0xffffffff with (Z.ones 32). rewrite Z.land_ones by lia.
  rewrite Z.shiftr_div_pow2 by lia. rewrite Z.mod_mod by lia.
  set (lo := magic mod 2 ^ 32).
  assert (Hlo : 0 <= lo < 2 ^ 32) by (apply Z.mod_pos_bound; lia).
  assert (Hhi : (magic / 2 ^ 32) mod 2 ^ 32 = (magic mod 2 ^ 64) / 2 ^ 32).
  { change (2 ^ 64) with (2 ^ 32 * 2 ^ 32). rewrite Z.rem_mul_r by lia.
    rewrite Z.mul_comm, Z.div_add by lia. rewrite (Z.div_small (magic mod 2 ^ 32)) by lia.
    lia. }
  assert (Hm : magic mod 2 ^ 64 = lo + 2 ^ 32 * ((magic / 2 ^ 32) mod 2 ^ 32)).
  { change (2 ^ 64) with (2 ^ 32 * 2 ^ 32). rewrite Z.rem_mul_r by lia. done. }
  set (hi := (magic / 2 ^ 32) mod 2 ^ 32) in *.
  assert (Hhi' : 0 <= hi < 2 ^ 32) by (apply Z.mod_pos_bound; lia).
  rewrite Hm. clear Hm Hhi. 
  assert (Hsplit : forall n v w, 0 <= v < 256 ^ Z.of_nat n ->
            EncodeFixed n v ++ EncodeFixed 4 w = EncodeFixed (n + 4) (v + 256 ^ Z.of_nat n * w)).
  { clear. induction n as [|n IH]; intros v w Hv.
    - assert (v = 0) as -> by (simpl in Hv; lia).
      change (Z.of_nat 0) with 0. rewrite Z.pow_0_r.
      replace (0 + 1 * w) with w by lia. reflexivity.
    - replace (Z.of_nat (S n)) with (1 + Z.of_nat n) in * by lia.
      rewrite Z.pow_add_r in * by lia. change (256 ^ 1) with 256 in *.
      cbn [EncodeFixed Nat.add app].
      assert (Hd : (v + 256 * 256 ^ Z.of_nat n * w) / 256 = v / 256 + 256 ^ Z.of_nat n * w).
      { replace (v + 256 * 256 ^ Z.of_nat n * w) with (v + (256 ^ Z.of_nat n * w) * 256) by lia.
        by rewrite Z.div_add by lia. }
      assert (Hmd : (v + 256 * 256 ^ Z.of_nat n * w) mod 256 = v mod 256).
      { replace (v + 256 * 256 ^ Z.of_nat n * w) with (v + (256 ^ Z.of_nat n * w) * 256) by lia.
        by rewrite Z.mod_add by lia. }
      rewrite Hd, Hmd. f_equal. apply IH.
      split; [apply Z.div_pos; lia|]. apply Z.div_lt_upper_bound; lia. }
  apply (Hsplit 4%nat lo hi). exact Hlo.
Qed.

(** *** Decoding *)

(** [BlockHandle::DecodeFrom(input)]: the status, the handle and the
    input afterwards.  A [GetVarint64] that fails stores nothing. *)
Definition BlockHandle_DecodeFrom (h : BlockHandle) (input : list Z)
    : Status * BlockHandle * list Z :=
  match GetVarint64 input with
  | Some (offset, input1) =>
      match GetVarint64 input1 with
      | Some (size, input2) => (OK, {| offset_ := offset; size_ := size |}, input2)
      | None =>
          (Corruption "bad block handle", {| offset_ := offset; size_ := size_ h |}, input1)
      end
  | None => (Corruption "bad block handle", h, input)
  end.

(** [Footer::DecodeFrom(input)]; [magic_number] is [kTableMagicNumber].
    The source reads the magic number at [input->data() + 40] whatever
    the size of the input, which its callers make at least 48. *)
Definition Footer_DecodeFrom (magic_number : Z) (f : Footer) (input : list Z)
    : Status * Footer * list Z :=
  let magic_ptr := drop (kEncodedLength - 8) input in
  let magic_lo := DecodeFixed32 magic_ptr in
  let magic_hi := DecodeFixed32 (drop 4 magic_ptr) in
  let magic := Z.lor (Z.shiftl magic_hi 32 mod 2 ^ 64) magic_lo in
  if negb (magic =? magic_number) then
    (Corruption "not an sstable (bad magic number)", f, input)
  else
    let '(result, metaindex, input1) :=
      BlockHandle_DecodeFrom (metaindex_handle_ f) input in
    let '(result, index, input2) :=
      if ok result then BlockHandle_DecodeFrom (index_handle_ f) input1
      else (result, index_handle_ f, input1) in
    let input3 :=
      if ok result then
        (* We skip over any leftover data (just padding for now) in "input" *)
        drop kEncodedLength input
      else input2 in
    (result, {| metaindex_handle_ := metaindex; index_handle_ := index |}, input3).

(** A handle whose fields are 64-bit values. *)
Definition handle_ok (h : BlockHandle) : Prop :=
  0 <= offset_ h < 2 ^ 64 /\ 0 <= size_ h < 2 ^ 64.

Lemma BlockHandle_DecodeFrom_EncodeTo h h0 rest :
  handle_ok h ->
  BlockHandle_DecodeFrom h0 (BlockHandle_EncodeTo h [] ++ rest) = (OK, h, rest).
Proof.
  intros [Ho Hs]. unfold BlockHandle_DecodeFrom, BlockHandle_EncodeTo, PutVarint64.
  simpl. rewrite <- app_assoc.
  rewrite GetVarint64_EncodeVarint64 by done.
  rewrite GetVarint64_EncodeVarint64 by done. by destruct h.
Qed.

(** The magic number read back from its two halves. *)
Lemma magic_of_halves (p : list Z) :
  bytes_ok p ->
  Z.lor (Z.shiftl (DecodeFixed32 (drop 4 p)) 32 mod 2 ^ 64) (DecodeFixed32 p) =
  DecodeFixed64 p.
Proof.
  intros Hp. unfold DecodeFixed32, DecodeFixed64. rewrite DecodeFixed_split.
  assert (Hlo : 0 <= DecodeFixed 4 p < 2 ^ 32).
  { apply (WriteBatch.DecodeFixed_range 4 p Hp). }
  assert (Hhi : 0 <= DecodeFixed 4 (drop 4 p) < 2 ^ 32).
  { apply (WriteBatch.DecodeFixed_range 4). unfold bytes_ok in *. by apply Forall_drop. }
  rewrite Z.shiftl_mul_pow2 by lia. rewrite Z.mod_small by lia.
  set (lo := DecodeFixed 4 p) in *. set (hi := DecodeFixed 4 (drop 4 p)) in *.
  assert (Hland : Z.land (hi * 2 ^ 32) lo = 0).
  { apply Z.bits_inj'. intros n Hn. rewrite Z.land_spec, Z.bits_0.
    destruct (Z.lt_ge_cases n 32) as [Hlt|Hge].
    - rewrite Z.mul_pow2_bits_low by lia. done.
    - rewrite (Z.bits_above_log2 lo n); [by rewrite andb_false_r|lia|].
      destruct (Z.eq_dec lo 0) as [->|Hne]; [simpl; lia|].
      assert (Z.log2 lo < 32) by (apply Z.log2_lt_pow2; lia). lia. }
  pose proof (Z.sub_2lor_lxor (hi * 2 ^ 32) lo) as H2.
  rewrite (Z.lxor_lor _ _ Hland) in H2. lia.
Qed.

Lemma DecodeFixed64_magic (magic : Z) (rest : list Z) :
  0 <= magic < 2 ^ 64 ->
  Z.lor (Z.shiftl (DecodeFixed32 (drop 4 (EncodeFixed64 magic ++ rest))) 32 mod 2 ^ 64)
    (DecodeFixed32 (EncodeFixed64 magic ++ rest)) = magic.
Proof.
  intros Hm.
  assert (Hlo : DecodeFixed32 (EncodeFixed64 magic ++ rest) = DecodeFixed32 (EncodeFixed64 magic)).
  { unfold DecodeFixed32. rewrite <- (DecodeFixed_take 4 (_ ++ _)), <- (DecodeFixed_take 4 (EncodeFixed64 _)).
    reflexivity. }
  assert (Hhi : DecodeFixed32 (drop 4 (EncodeFixed64 magic ++ rest)) =
                DecodeFixed32 (drop 4 (EncodeFixed64 magic))).
  { unfold DecodeFixed32.
    rewrite <- (DecodeFixed_take 4 (drop 4 (_ ++ _))), <- (DecodeFixed_take 4 (drop 4 (EncodeFixed64 _))).
    reflexivity. }
  rewrite Hlo, Hhi. rewrite magic_of_halves.
  - unfold DecodeFixed64, EncodeFixed64.
    rewrite <- (app_nil_r (EncodeFixed 8 _)), DecodeFixed_EncodeFixed.
    change (256 ^ Z.of_nat 8) with (2 ^ 64). rewrite Z.mod_mod by lia.
    by apply Z.mod_small.
  - unfold EncodeFixed64. generalize (magic mod 2 ^ 64). generalize 8%nat.
    intros n. induction n as [|n IH]; intros v; simpl; [constructor|].
    constructor; [|apply IH]. unfold is_byte. pose proof (Z.mod_pos_bound v 256). lia.
Qed.

Lemma Footer_EncodeTo_layout (magic : Z) (f : Footer) :
  exists pad,
    Footer_EncodeTo magic f [] =
      BlockHandle_EncodeTo (metaindex_handle_ f) [] ++
      BlockHandle_EncodeTo (index_handle_ f) [] ++ pad ++ EncodeFixed64 magic /\
    length (BlockHandle_EncodeTo (metaindex_handle_ f) [] ++
            BlockHandle_EncodeTo (index_handle_ f) [] ++ pad) = (2 * kMaxEncodedLength)%nat.
Proof.
  unfold Footer_EncodeTo, PutFixed32.
  rewrite (BlockHandle_EncodeTo_app (index_handle_ f)).
  pose proof (BlockHandle_EncodeTo_length (metaindex_handle_ f)) as H1.
  pose proof (BlockHandle_EncodeTo_length (index_handle_ f)) as H2.
  set (e1 := BlockHandle_EncodeTo (metaindex_handle_ f) []) in *.
  set (e2 := BlockHandle_EncodeTo (index_handle_ f) []) in *.
  exists (replicate (2 * kMaxEncodedLength - length (e1 ++ e2)) 0).
  rewrite str_resize_le by (rewrite length_app; lia).
  rewrite <- !app_assoc. rewrite magic_halves. split; [done|].
  rewrite !length_app, length_replicate. lia.
Qed.

(** X1. A block handle with 64-bit fields is read back from its
    encoding, whatever follows it, and the input is left just after
    it; an encoding cut short anywhere is refused as a bad block
    handle. *)
Theorem BlockHandle_roundtrip (h h0 : BlockHandle) :
  handle_ok h ->
  (forall rest,
     BlockHandle_DecodeFrom h0 (BlockHandle_EncodeTo h [] ++ rest) = (OK, h, rest)) /\
  (forall n : nat, (n < length (BlockHandle_EncodeTo h []))%nat ->
     (BlockHandle_DecodeFrom h0 (take n (BlockHandle_EncodeTo h []))).1.1 =
     Corruption "bad block handle").
Proof.
  intros Hh. split; [intros rest; by apply BlockHandle_DecodeFrom_EncodeTo|].
  destruct Hh as [Ho Hs]. intros n Hn.
  unfold BlockHandle_EncodeTo, PutVarint64 in *. simpl in *.
  unfold BlockHandle_DecodeFrom.
  destruct (decide (n < length (EncodeVarint64 (offset_ h)))%nat) as [Hlt|Hge].
  - rewrite take_app_le by lia. unfold GetVarint64 at 1, EncodeVarint64.
    rewrite GetVarint_truncated; [done| |done].
    apply Z.mod_pos_bound. lia.
  - rewrite take_app_ge by lia.
    rewrite GetVarint64_EncodeVarint64 by done.
    rewrite length_app in Hn. unfold GetVarint64, EncodeVarint64.
    rewrite GetVarint_truncated; [done| |unfold EncodeVarint64 in *; lia].
    apply Z.mod_pos_bound. lia.
Qed.

Lemma BlockHandle_roundtrip_witness :
  BlockHandle_DecodeFrom BlockHandle_new
    (BlockHandle_EncodeTo {| offset_ := 300; size_ := 70000 |} [] ++ [7]) =
  (OK, {| offset_ := 300; size_ := 70000 |}, [7]).
Proof.
  apply (BlockHandle_roundtrip {| offset_ := 300; size_ := 70000 |} BlockHandle_new).
  unfold handle_ok. simpl. lia.
Defined.

(** X2. A footer whose handles and magic number are 64-bit values is
    read back from its 48-byte encoding, and the input is left just
    after the 48 bytes. *)
Theorem Footer_roundtrip (magic : Z) (f f0 : Footer) (rest : list Z) :
  0 <= magic < 2 ^ 64 ->
  handle_ok (metaindex_handle_ f) -> handle_ok (index_handle_ f) ->
  Footer_DecodeFrom magic f0 (Footer_EncodeTo magic f [] ++ rest) = (OK, f, rest).
Proof.
  intros Hm H1 H2.
  pose proof (Footer_EncodeTo_length magic f []) as Hlen.
  destruct (Footer_EncodeTo_layout magic f) as (pad & Heq & Hpad).
  unfold Footer_DecodeFrom.
  assert (Hdrop : drop (kEncodedLength - 8) (Footer_EncodeTo magic f [] ++ rest) =
                  EncodeFixed64 magic ++ rest).
  { rewrite Heq.
    set (e1 := BlockHandle_EncodeTo (metaindex_handle_ f) []) in *.
    set (e2 := BlockHandle_EncodeTo (index_handle_ f) []) in *.
    replace ((e1 ++ e2 ++ pad ++ EncodeFixed64 magic) ++ rest)
      with ((e1 ++ e2 ++ pad) ++ EncodeFixed64 magic ++ rest)
      by (by rewrite <- !app_assoc).
    change (kEncodedLength - 8)%nat with (2 * kMaxEncodedLength)%nat.
    rewrite <- Hpad. apply drop_app_length. }
  rewrite Hdrop. rewrite DecodeFixed64_magic by done.
  rewrite Z.eqb_refl. cbn [negb].
  rewrite Heq at 1. rewrite <- !app_assoc.
  rewrite BlockHandle_DecodeFrom_EncodeTo by done. cbn [ok].
  rewrite BlockHandle_DecodeFrom_EncodeTo by done. cbn [ok].
  rewrite <- Hlen. rewrite drop_app_length. by destruct f.
Qed.

Lemma Footer_roundtrip_witness :
  Footer_DecodeFrom 77 {| metaindex_handle_ := BlockHandle_new; index_handle_ := BlockHandle_new |}
    (Footer_EncodeTo 77
       {| metaindex_handle_ := {| offset_ := 10; size_ := 200 |};
          index_handle_ := {| offset_ := 215; size_ := 3000 |} |} [] ++ [1; 2]) =
  (OK, {| metaindex_handle_ := {| offset_ := 10; size_ := 200 |};
          index_handle_ := {| offset_ := 215; size_ := 3000 |} |}, [1; 2]).
Proof.
  apply Footer_roundtrip; unfold handle_ok; simpl; lia.
Defined.

(** X3. When the 8 bytes at offset 40 of an input of at least 48 bytes
    are not the magic number in little-endian order,
    [Footer::DecodeFrom] reports "not an sstable (bad magic number)"
    and touches neither the footer nor the input, whatever the handles
    are. *)
Theorem Footer_bad_magic (magic : Z) (f : Footer) (input : list Z) :
  bytes_ok input -> (kEncodedLength <= length input)%nat ->
  DecodeFixed64 (drop (kEncodedLength - 8) input) <> magic ->
  Footer_DecodeFrom magic f input =
  (Corruption "not an sstable (bad magic number)", f, input).
Proof.
  intros Hb _ Hne. unfold Footer_DecodeFrom.
  rewrite magic_of_halves by (unfold bytes_ok in *; by apply Forall_drop).
  destruct (Z.eqb_spec (DecodeFixed64 (drop (kEncodedLength - 8) input)) magic); done.
Qed.

Lemma Footer_bad_magic_witness :
  Footer_DecodeFrom 77 {| metaindex_handle_ := BlockHandle_new; index_handle_ := BlockHandle_new |}
    (replicate 48 0) =
  (Corruption "not an sstable (bad magic number)",
   {| metaindex_handle_ := BlockHandle_new; index_handle_ := BlockHandle_new |},
   replicate 48 0).
Proof.
  apply Footer_bad_magic.
  - unfold bytes_ok. apply Forall_replicate. unfold is_byte. lia.
  - rewrite length_replicate. reflexivity.
  - vm_compute. discriminate.
Defined.

(** *** Reading a block back *)

(** Modelled from the spec: include/leveldb/env.h is not part of the
    excerpt.  Section 6: "random-access read (offset, length) -> bytes".
    [Read(offset, n, &result, scratch)] gives a status and the bytes of
    [result], and the model records whether [result] points into
    [scratch], which [ReadBlock] tests. *)
Record RandomAccessFile : Type := {
  Read : Z -> Z -> Status * list Z * bool
}.

(** A file held in memory: a read gives the bytes that exist in the
    range asked for; [in_scratch] tells whether the file copies them
    into the caller's buffer or hands out its own memory. *)
Definition mem_file (contents : list Z) (in_scratch : bool) : RandomAccessFile :=
  {| Read := fun offset n =>
       (OK, take (Z.to_nat n) (drop (Z.to_nat offset) contents), in_scratch) |}.

(** [struct BlockContents] of table/format.h, by the fields [ReadBlock]
    stores. *)
Record BlockContents : Type := {
  data : list Z;
  cachable : bool;
  heap_allocated : bool
}.

Section ReadBlock.

(** util/crc32c and port/port.h are outside the excerpt: the checksum
    and the decompressor are parameters, as is the byte that stands for
    a [CompressionType].  [Snappy_Uncompress] gives the bytes written
    to the output buffer, which on success are as many as
    [Snappy_GetUncompressedLength] announced. *)
Variable crc32c_Value : list Z -> Z.
Variable Snappy_GetUncompressedLength : list Z -> option nat.
Variable Snappy_Uncompress : list Z -> option (list Z).
Variable compression_code : CompressionType -> Z.

(** [ReadBlock(file, options, handle, result)]: the status and
    [*result].  The size of the read is a [size_t]. *)
Definition ReadBlock (file : RandomAccessFile) (options : ReadOptions)
    (handle : BlockHandle) : Status * BlockContents :=
  let result := {| data := []; cachable := false; heap_allocated := false |} in
  (* Read the block contents as well as the type/crc footer. *)
  let n := size_ handle in
  let size := (n + kBlockTrailerSize) mod 2 ^ 64 in
  let '(s, contents, in_buf) := Read file (offset_ handle) size in
  if negb (ok s) then (s, result)
  else if negb (Z.of_nat (length contents) =? size) then
    (Corruption "truncated block read", result)
  else
    (* Check the crc of the type and the block contents *)
    let data := contents in
    let mismatch :=
      if verify_checksums options then
        let crc := crc32c_Unmask (DecodeFixed32 (drop (Z.to_nat n + 1) data)) in
        let actual := crc32c_Value (take (Z.to_nat n + 1) data) in
        negb (actual =? crc)
      else false in
    if mismatch then (Corruption "block checksum mismatch", result)
    else
      let type := data !!! Z.to_nat n in
      if type =? compression_code kNoCompression then
        if negb in_buf then
          (* File implementation gave us pointer to some other data. *)
          (OK, {| data := take (Z.to_nat n) data; cachable := false; (* Do not double-cache *)
                  heap_allocated := false |})
        else
          (OK, {| data := take (Z.to_nat n) data; cachable := true;
                  heap_allocated := true |})
      else if type =? compression_code kSnappyCompression then
        match Snappy_GetUncompressedLength (take (Z.to_nat n) data) with
        | None => (Corruption "corrupted compressed block contents", result)
        | Some ulength =>
            match Snappy_Uncompress (take (Z.to_nat n) data) with
            | None => (Corruption "corrupted compressed block contents", result)
            | Some ubuf =>
                (OK, {| data := ubuf; cachable := true; heap_allocated := true |})
            end
        end
      else (Corruption "bad block type", result).

(** X17. [ReadBlock] hands out data only with the status OK: on every
    error the result is empty, neither cachable nor heap-allocated.  A
    handle that reaches beyond the end of a file held in memory is
    refused as a truncated block read. *)
Theorem ReadBlock_errors (file : RandomAccessFile) (options : ReadOptions)
    (handle : BlockHandle) :
  (ok (fst (ReadBlock file options handle)) = false ->
   snd (ReadBlock file options handle) =
   {| data := []; cachable := false; heap_allocated := false |}) /\
  (forall contents in_scratch,
     file = mem_file contents in_scratch ->
     0 <= offset_ handle -> 0 <= size_ handle < 2 ^ 64 - kBlockTrailerSize ->
     Z.of_nat (length contents) < offset_ handle + size_ handle + kBlockTrailerSize ->
     ReadBlock file options handle =
     (Corruption "truncated block read",
      {| data := []; cachable := false; heap_allocated := false |})).
Proof.
  split.
  - unfold ReadBlock.
    destruct (Read file (offset_ handle) ((size_ handle + kBlockTrailerSize) mod 2 ^ 64))
      as [[s contents] in_buf].
    destruct (ok s) eqn:Hs; simpl; [|done].
    destruct (_ =? _); simpl; [|done].
    destruct (if verify_checksums options then _ else _); [done|].
    destruct (_ =? compression_code kNoCompression); [by destruct in_buf|].
    destruct (_ =? compression_code kSnappyCompression); [|done].
    destruct (Snappy_GetUncompressedLength _); [|done].
    by destruct (Snappy_Uncompress _).
  - intros contents in_scratch -> Ho Hn Hlen. unfold ReadBlock, mem_file. cbn [Read ok negb].
    unfold kBlockTrailerSize in *. rewrite (Z.mod_small (size_ handle + 5)) by lia.
    destruct (Z.eqb_spec
      (Z.of_nat (length (take (Z.to_nat (size_ handle + 5))
                           (drop (Z.to_nat (offset_ handle)) contents))))
      (size_ handle + 5)) as [Heq|Hne]; [|done].
    exfalso. rewrite length_take, length_drop in Heq. lia.
Qed.

End ReadBlock.

Lemma ReadBlock_errors_witness :
  ReadBlock (fun _ => 0) (fun _ => None) (fun _ => None)
    (fun t => match t with kNoCompression => 0 | kSnappyCompression => 1 end)
    (mem_file [1; 2; 3] true) {| verify_checksums := true |}
    {| offset_ := 0; size_ := 10 |} =
  (Corruption "truncated block read",
   {| data := []; cachable := false; heap_allocated := false |}).
Proof.
  apply (ReadBlock_errors (fun _ => 0) (fun _ => None) (fun _ => None)
           (fun t => match t with kNoCompression => 0 | kSnappyCompression => 1 end)
           (mem_file [1; 2; 3] true) {| verify_checksums := true |}
           {| offset_ := 0; size_ := 10 |}) with (contents := [1; 2; 3]) (in_scratch := true);
    [reflexivity|simpl; lia|unfold kBlockTrailerSize; simpl; lia|
     unfold kBlockTrailerSize; simpl; lia].
Defined.

End Format.

(** ** table/table_builder.cc *)

Module TableBuilder.

Import Coding Format.

Section Builder.

(** util/crc32c and port/port.h are outside the excerpt: the checksum
    and the compressor are parameters, as are the byte that stands for
    a [CompressionType] (include/leveldb/options.h) and the magic
    number (table/format.h). *)
Variable crc32c_Value : list Z -> Z.
Variable crc32c_Extend : Z -> list Z -> Z.
Variable Snappy_Compress : list Z -> option (list Z).
Variable compression_code : CompressionType -> Z.
Variable kTableMagicNumber : Z.

(** [class FilterBlockBuilder]: table/filter_block.cc is outside the
    excerpt (only its header is in it), so the builder is an abstract
    object with the four operations of the header. *)
Variable FilterBlockBuilder : Type.
Variable FilterBlockBuilder_new : FilterPolicy -> FilterBlockBuilder.
Variable StartBlock : FilterBlockBuilder -> Z -> FilterBlockBuilder.
Variable AddKey : FilterBlockBuilder -> list Z -> FilterBlockBuilder.
Variable FilterBlock_Finish : FilterBlockBuilder -> list Z.

(** [struct TableBuilder::Rep].  The two block builders point to
    [options] and [index_block_options] of the same [Rep]: they read
    them as they are when [Add] is called. *)
Record Rep : Type := {
  options : Options;
  index_block_options : Options;
  file : WritableFile;
  offset : Z;
  status : Status;
  data_block : BlockBuilder.BlockBuilder;
  index_block : BlockBuilder.BlockBuilder;
  last_key : list Z;
  num_entries : Z;
  closed : bool;
  filter_block : option FilterBlockBuilder;
  pending_index_entry : bool;
  pending_handle : BlockHandle;
  compressed_output : list Z
}.

Definition set_options (r : Rep) (o io : Options) : Rep :=
  {| options := o; index_block_options := io; file := file r; offset := offset r;
     status := status r; data_block := data_block r; index_block := index_block r;
     last_key := last_key r; num_entries := num_entries r; closed := closed r;
     filter_block := filter_block r; pending_index_entry := pending_index_entry r;
     pending_handle := pending_handle r; compressed_output := compressed_output r |}.

Definition set_file (r : Rep) (f : WritableFile) (s : Status) (off : Z) : Rep :=
  {| options := options r; index_block_options := index_block_options r;
     file := f; offset := off; status := s;
     data_block := data_block r; index_block := index_block r;
     last_key := last_key r; num_entries := num_entries r; closed := closed r;
     filter_block := filter_block r; pending_index_entry := pending_index_entry r;
     pending_handle := pending_handle r; compressed_output := compressed_output r |}.

Definition set_data_block (r : Rep) (b : BlockBuilder.BlockBuilder) : Rep :=
  {| options := options r; index_block_options := index_block_options r;
     file := file r; offset := offset r; status := status r;
     data_block := b; index_block := index_block r;
     last_key := last_key r; num_entries := num_entries r; closed := closed r;
     filter_block := filter_block r; pending_index_entry := pending_index_entry r;
     pending_handle := pending_handle r; compressed_output := compressed_output r |}.

Definition set_index_block (r : Rep) (b : BlockBuilder.BlockBuilder) : Rep :=
  {| options := options r; index_block_options := index_block_options r;
     file := file r; offset := offset r; status := status r;
     data_block := data_block r; index_block := b;
     last_key := last_key r; num_entries := num_entries r; closed := closed r;
     filter_block := filter_block r; pending_index_entry := pending_index_entry r;
     pending_handle := pending_handle r; compressed_output := compressed_output r |}.

Definition set_last_key (r : Rep) (k : list Z) (n : Z) : Rep :=
  {| options := options r; index_block_options := index_block_options r;
     file := file r; offset := offset r; status := status r;
     data_block := data_block r; index_block := index_block r;
     last_key := k; num_entries := n; closed := closed r;
     filter_block := filter_block r; pending_index_entry := pending_index_entry r;
     pending_handle := pending_handle r; compressed_output := compressed_output r |}.

Definition set_closed (r : Rep) (c : bool) : Rep :=
  {| options := options r; index_block_options := index_block_options r;
     file := file r; offset := offset r; status := status r;
     data_block := data_block r; index_block := index_block r;
     last_key := last_key r; num_entries := num_entries r; closed := c;
     filter_block := filter_block r; pending_index_entry := pending_index_entry r;
     pending_handle := pending_handle r; compressed_output := compressed_output r |}.

Definition set_filter_block (r : Rep) (fb : option FilterBlockBuilder) : Rep :=
  {| options := options r; index_block_options := index_block_options r;
     file := file r; offset := offset r; status := status r;
     data_block := data_block r; index_block := index_block r;
     last_key := last_key r; num_entries := num_entries r; closed := closed r;
     filter_block := fb; pending_index_entry := pending_index_entry r;
     pending_handle := pending_handle r; compressed_output := compressed_output r |}.

Definition set_pending (r : Rep) (p : bool) (h : BlockHandle) : Rep :=
  {| options := options r; index_block_options := index_block_options r;
     file := file r; offset := offset r; status := status r;
     data_block := data_block r; index_block := index_block r;
     last_key := last_key r; num_entries := num_entries r; closed := closed r;
     filter_block := filter_block r; pending_index_entry := p;
     pending_handle := h; compressed_output := compressed_output r |}.

Definition set_compressed_output (r : Rep) (c : list Z) : Rep :=
  {| options := options r; index_block_options := index_block_options r;
     file := file r; offset := offset r; status := status r;
     data_block := data_block r; index_block := index_block r;
     last_key := last_key r; num_entries := num_entries r; closed := closed r;
     filter_block := filter_block r; pending_index_entry := pending_index_entry r;
     pending_handle := pending_handle r; compressed_output := c |}.

(** [Rep::Rep(opt, f)] followed by the body of
    [TableBuilder::TableBuilder(options, file)]. *)
Definition new (opt : Options) (f : WritableFile) : Rep :=
  let r :=
    {| options := opt;
       index_block_options := set_block_restart_interval opt 1;
       file := f;
       offset := 0;
       status := OK;
       data_block := BlockBuilder.init;
       index_block := BlockBuilder.init;
       last_key := [];
       num_entries := 0;
       closed := false;
       filter_block :=
         match filter_policy opt with
         | None => None
         | Some p => Some (FilterBlockBuilder_new p)
         end;
       pending_index_entry := false;
       pending_handle := BlockHandle_new;
       compressed_output := [] |} in
  match filter_block r with
  | Some fb => set_filter_block r (Some (StartBlock fb 0))
  | None => r
  end.

(** [TableBuilder::ChangeOptions(options)]. *)
Definition ChangeOptions (r : Rep) (opts : Options) : Status * Rep :=
  if negb (Comparators.addr (comparator opts) =? Comparators.addr (comparator (options r)))
  then (InvalidArgument "changing comparator while building table", r)
  else (OK, set_options r opts (set_block_restart_interval opts 1)).

(** [TableBuilder::WriteRawBlock(block_contents, type, handle)]: the
    builder and the handle it fills in. *)
Definition WriteRawBlock (r : Rep) (block_contents : list Z) (type : CompressionType)
    : Rep * BlockHandle :=
  let handle := {| offset_ := offset r; size_ := Z.of_nat (length block_contents) |} in
  let '(s, f) := file_Append (file r) block_contents in
  let r := set_file r f s (offset r) in
  let r :=
    if ok (status r) then
      let trailer0 := compression_code type in
      let crc := crc32c_Value block_contents in
      let crc := crc32c_Extend crc [trailer0] in (* Extend crc to cover block type *)
      let trailer := trailer0 :: EncodeFixed32 (crc32c_Mask crc) in
      let '(s, f) := file_Append (file r) trailer in
      let r := set_file r f s (offset r) in
      if ok (status r) then
        set_file r (file r) (status r)
          ((offset r + Z.of_nat (length block_contents) + kBlockTrailerSize) mod 2 ^ 64)
      else r
    else r in
  (r, handle).

(** The [switch (type)] of [WriteBlock]: the contents to store, their
    type, and what the compressor left in [compressed_output], if it
    ran. *)
Definition compress_block (opts : Options) (raw : list Z)
    : list Z * CompressionType * option (list Z) :=
  match compression opts with
  | kNoCompression => (raw, kNoCompression, None)
  | kSnappyCompression =>
      match Snappy_Compress raw with
      | Some compressed =>
          if Z.of_nat (length compressed) <?
             Z.of_nat (length raw) - Z.of_nat (length raw) / 8
          then (compressed, kSnappyCompression, Some compressed)
          else (* compressed less than 12.5%, so just store uncompressed form *)
            (raw, kNoCompression, Some compressed)
      | None => (* Snappy not supported *)
          (raw, kNoCompression, None)
      end
  end.

(** [TableBuilder::WriteBlock(block, handle)]: the builder, the block
    after its [Reset] and the handle. *)
Definition WriteBlock (r : Rep) (block : BlockBuilder.BlockBuilder)
    : Rep * BlockBuilder.BlockBuilder * BlockHandle :=
  let raw := BlockBuilder.buffer_ (BlockBuilder.Finish block) in
  let '(block_contents, type, out) := compress_block (options r) raw in
  let r := match out with
           | Some c => set_compressed_output r c
           | None => r
           end in
  let '(r, handle) := WriteRawBlock r block_contents type in
  let r := set_compressed_output r [] in
  (r, BlockBuilder.Reset block, handle).

(** [TableBuilder::Flush()]. *)
Definition Flush (r : Rep) : Rep :=
  if negb (ok (status r)) then r
  else if BlockBuilder.empty (data_block r) then r
  else
    let '(r, block, handle) := WriteBlock r (data_block r) in
    let r := set_pending (set_data_block r block) (pending_index_entry r) handle in
    let r :=
      if ok (status r) then
        let r := set_pending r true (pending_handle r) in
        let '(s, f) := file_Flush (file r) in
        set_file r f s (offset r)
      else r in
    match filter_block r with
    | Some fb => set_filter_block r (Some (StartBlock fb (offset r)))
    | None => r
    end.

(** [TableBuilder::Add(key, value)]. *)
Definition Add (r : Rep) (key value : list Z) : Rep :=
  if negb (ok (status r)) then r
  else
    let r :=
      if pending_index_entry r then
        let k := Comparators.FindShortestSeparator (comparator (options r)) (last_key r) key in
        let r := set_last_key r k (num_entries r) in
        let handle_encoding := BlockHandle_EncodeTo (pending_handle r) [] in
        let r := set_index_block r
                   (BlockBuilder.Add (index_block_options r) (index_block r)
                      (last_key r) handle_encoding) in
        set_pending r false (pending_handle r)
      else r in
    let r :=
      match filter_block r with
      | Some fb => set_filter_block r (Some (AddKey fb key))
      | None => r
      end in
    let r := set_last_key r key (num_entries r + 1) in
    let r := set_data_block r (BlockBuilder.Add (options r) (data_block r) key value) in
    let estimated_block_size := BlockBuilder.CurrentSizeEstimate (data_block r) in
    if estimated_block_size >=? block_size (options r) then Flush r else r.

(** The metaindex key of the filter block: "filter." followed by the
    policy's name. *)
Definition filter_key (policy : FilterPolicy) : list Z :=
  bytes "filter." ++ bytes (policy_Name policy).

(** [TableBuilder::Finish()].  A builder that has a filter block reads
    the name of the policy through [r->options.filter_policy], which
    [ChangeOptions] may have set to NULL since the constructor made the
    filter block: the call [filter_policy->Name()] then goes through a
    null pointer and the result is [None]. *)
Definition Finish (r : Rep) : option (Status * Rep) :=
  let r := Flush r in
  let r := set_closed r true in
  (* Write filter block *)
  let '(r, filter_block_handle) :=
    match filter_block r with
    | Some fb =>
        if ok (status r)
        then WriteRawBlock r (FilterBlock_Finish fb) kNoCompression
        else (r, BlockHandle_new)
    | None => (r, BlockHandle_new)
    end in
  (* Write metaindex block *)
  match
    (if ok (status r) then
       let meta_index_block := BlockBuilder.init in
       match
         (match filter_block r with
          | Some _ =>
              (* Add mapping from "filter.Name" to location of filter data *)
              match filter_policy (options r) with
              | Some policy =>
                  let key := filter_key policy in
                  let handle_encoding := BlockHandle_EncodeTo filter_block_handle [] in
                  Some (BlockBuilder.Add (options r) meta_index_block key handle_encoding)
              | None => None
              end
          | None => Some meta_index_block
          end)
       with
       | Some meta_index_block =>
           let '(r, _, h) := WriteBlock r meta_index_block in Some (r, h)
       | None => None
       end
     else Some (r, BlockHandle_new))
  with
  | None => None
  | Some (r, metaindex_block_handle) =>
      (* Write index block *)
      let '(r, index_block_handle) :=
        if ok (status r) then
          let r :=
            if pending_index_entry r then
              let k := Comparators.FindShortSuccessor (comparator (options r)) (last_key r) in
              let r := set_last_key r k (num_entries r) in
              let handle_encoding := BlockHandle_EncodeTo (pending_handle r) [] in
              let r := set_index_block r
                         (BlockBuilder.Add (index_block_options r) (index_block r)
                            (last_key r) handle_encoding) in
              set_pending r false (pending_handle r)
            else r in
          let '(r, block, h) := WriteBlock r (index_block r) in
          (set_index_block r block, h)
        else (r, BlockHandle_new) in
      (* Write footer *)
      let r :=
        if ok (status r) then
          let footer := {| metaindex_handle_ := metaindex_block_handle;
                           index_handle_ := index_block_handle |} in
          let footer_encoding := Footer_EncodeTo kTableMagicNumber footer [] in
          let '(s, f) := file_Append (file r) footer_encoding in
          let r := set_file r f s (offset r) in
          if ok (status r)
          then set_file r (file r) (status r)
                 ((offset r + Z.of_nat (length footer_encoding)) mod 2 ^ 64)
          else r
        else r in
      Some (status r, r)
  end.

(** [TableBuilder::Abandon()]. *)
Definition Abandon (r : Rep) : Rep := set_closed r true.

(** *** What the table file holds (section 3, "Table file") *)

(** The block trailer: compression_type(1), crc32c_masked(4), the crc
    covering the block bytes and the type byte. *)
Definition trailer (t : CompressionType) (contents : list Z) : list Z :=
  compression_code t ::
  EncodeFixed32 (crc32c_Mask
    (crc32c_Extend (crc32c_Value contents) [compression_code t])).

(** The file offset after a block and its trailer. *)
Definition after_block (off : Z) (contents : list Z) : Z :=
  (off + Z.of_nat (length contents) + kBlockTrailerSize) mod 2 ^ 64.

(** The handle of a block written at [off]. *)
Definition handle_at (off : Z) (contents : list Z) : BlockHandle :=
  {| offset_ := off; size_ := Z.of_nat (length contents) |}.

(** The contents of a block as stored: compressed as the options say. *)
Definition stored (opts : Options) (block : BlockBuilder.BlockBuilder) : list Z :=
  fst (fst (compress_block opts (BlockBuilder.buffer_ (BlockBuilder.Finish block)))).

Definition stored_type (opts : Options) (block : BlockBuilder.BlockBuilder)
    : CompressionType :=
  snd (fst (compress_block opts (BlockBuilder.buffer_ (BlockBuilder.Finish block)))).

(** The footer: the two handles, zero padding up to 40 bytes, and the
    magic number as 8 little-endian bytes. *)
Definition footer_bytes (metaindex index : BlockHandle) : list Z :=
  let handles := BlockHandle_EncodeTo metaindex [] ++ BlockHandle_EncodeTo index [] in
  handles ++ replicate (40 - length handles) 0 ++ EncodeFixed64 kTableMagicNumber.

Lemma WriteRawBlock_eq r c t :
  WriteRawBlock r c t =
  (set_file r {| appended := appended (file r) ++ [c; trailer t c] |} OK
     (after_block (offset r) c),
   handle_at (offset r) c).
Proof.
  unfold WriteRawBlock, set_file, trailer, after_block, handle_at. simpl.
  by rewrite <- app_assoc.
Qed.

Lemma WriteBlock_eq r b :
  WriteBlock r b =
  (set_compressed_output
     (set_file r
        {| appended := appended (file r) ++
             [stored (options r) b; trailer (stored_type (options r) b) (stored (options r) b)] |}
        OK (after_block (offset r) (stored (options r) b))) [],
   BlockBuilder.init,
   handle_at (offset r) (stored (options r) b)).
Proof.
  unfold WriteBlock, stored, stored_type.
  destruct (compress_block _ _) as [[c t] [out|]]; rewrite WriteRawBlock_eq; done.
Qed.

Lemma Footer_EncodeTo_eq (metaindex index : BlockHandle) :
  Footer_EncodeTo kTableMagicNumber
    {| metaindex_handle_ := metaindex; index_handle_ := index |} []
  = footer_bytes metaindex index.
Proof.
  unfold Footer_EncodeTo, footer_bytes, PutFixed32. cbn [metaindex_handle_ index_handle_].
  rewrite (BlockHandle_EncodeTo_app index).
  pose proof (BlockHandle_EncodeTo_length metaindex).
  pose proof (BlockHandle_EncodeTo_length index).
  unfold kMaxEncodedLength in *.
  rewrite str_resize_le by (rewrite length_app; lia).
  rewrite <- !app_assoc. by rewrite magic_halves.
Qed.

Lemma footer_bytes_length (metaindex index : BlockHandle) :
  length (footer_bytes metaindex index) = 48%nat.
Proof. rewrite <- Footer_EncodeTo_eq. apply Footer_EncodeTo_length. Qed.

Lemma Flush_props (r : Rep) :
  status r = OK ->
  status (Flush r) = OK /\ options (Flush r) = options r /\
  index_block_options (Flush r) = index_block_options r /\
  (is_Some (filter_block r) -> is_Some (filter_block (Flush r))) /\
  (filter_block r = None -> filter_block (Flush r) = None) /\
  appended (file (Flush r)) =
    appended (file r) ++
    (if BlockBuilder.empty (data_block r) then []
     else [stored (options r) (data_block r);
           trailer (stored_type (options r) (data_block r))
                   (stored (options r) (data_block r))]).
Proof.
  intros Hok. unfold Flush. rewrite Hok. simpl.
  destruct (BlockBuilder.empty (data_block r)).
  { rewrite app_nil_r. split_and!; done. }
  rewrite WriteBlock_eq. simpl.
  destruct (filter_block r) as [fb|] eqn:Efb; simpl; rewrite ?Efb; simpl;
    split_and!; try done;
    try (intros [? ?]; done); try (intros _; by eexists).
Qed.

(** *** A builder driven by any sequence of calls *)

Inductive call : Type :=
| CallAdd (key value : list Z)
| CallFlush
| CallChangeOptions (opts : Options)
| CallFinish
| CallAbandon.

(** One call; [None] when the call has no defined behaviour. *)
Definition step (r : Rep) (c : call) : option Rep :=
  match c with
  | CallAdd key value => Some (Add r key value)
  | CallFlush => Some (Flush r)
  | CallChangeOptions opts => Some (snd (ChangeOptions r opts))
  | CallFinish => snd <$> Finish r
  | CallAbandon => Some (Abandon r)
  end.

Fixpoint run (cs : list call) (r : Rep) : option Rep :=
  match cs with
  | [] => Some r
  | c :: cs' =>
      match step r c with
      | Some r' => run cs' r'
      | None => None
      end
  end.

(** *** What [Finish] does to a builder whose status is OK *)

Local Arguments BlockBuilder.Add : simpl never.
Local Arguments stored : simpl never.
Local Arguments stored_type : simpl never.
Local Arguments trailer : simpl never.
Local Arguments after_block : simpl never.
Local Arguments handle_at : simpl never.
Local Arguments BlockHandle_EncodeTo : simpl never.
Local Arguments Footer_EncodeTo : simpl never.
Local Arguments footer_bytes : simpl never.
Local Arguments WriteBlock : simpl never.
Local Arguments WriteRawBlock : simpl never.
Local Arguments filter_key : simpl never.

(** The filter block as written, and the offset after it. *)
Definition filter_chunks (r1 : Rep) : list (list Z) :=
  match filter_block r1 with
  | Some fb => [FilterBlock_Finish fb; trailer kNoCompression (FilterBlock_Finish fb)]
  | None => []
  end.

Definition after_filter (r1 : Rep) : Z :=
  match filter_block r1 with
  | Some fb => after_block (offset r1) (FilterBlock_Finish fb)
  | None => offset r1
  end.

(** The builder of the metaindex block, when the policy can be named. *)
Definition metaindex_builder (r1 : Rep) : option BlockBuilder.BlockBuilder :=
  match filter_block r1 with
  | Some fb =>
      match filter_policy (options r1) with
      | Some policy =>
          Some (BlockBuilder.Add (options r1) BlockBuilder.init (filter_key policy)
                  (BlockHandle_EncodeTo (handle_at (offset r1) (FilterBlock_Finish fb)) []))
      | None => None
      end
  | None => Some BlockBuilder.init
  end.

(** The index block once a pending entry is closed. *)
Definition closed_index (r1 : Rep) : BlockBuilder.BlockBuilder :=
  if pending_index_entry r1 then
    BlockBuilder.Add (index_block_options r1) (index_block r1)
      (Comparators.FindShortSuccessor (comparator (options r1)) (last_key r1))
      (BlockHandle_EncodeTo (pending_handle r1) [])
  else index_block r1.

(** The builder [Finish] leaves, from the builder [r1] that its
    [Flush] left and the metaindex builder [mb]. *)
Definition finished (r1 : Rep) (mb : BlockBuilder.BlockBuilder) : Rep :=
  let opts := options r1 in
  let metaindex := stored opts mb in
  let off3 := after_block (after_filter r1) metaindex in
  let index := stored opts (closed_index r1) in
  let off4 := after_block off3 index in
  {| options := opts; index_block_options := index_block_options r1;
     file := {| appended := appended (file r1) ++ filter_chunks r1 ++
                  [ metaindex; trailer (stored_type opts mb) metaindex;
                    index; trailer (stored_type opts (closed_index r1)) index;
                    footer_bytes (handle_at (after_filter r1) metaindex)
                                 (handle_at off3 index) ] |};
     offset := (off4 + 48) mod 2 ^ 64;
     status := OK;
     data_block := data_block r1;
     index_block := BlockBuilder.init;
     last_key := if pending_index_entry r1
                 then Comparators.FindShortSuccessor (comparator opts) (last_key r1)
                 else last_key r1;
     num_entries := num_entries r1;
     closed := true;
     filter_block := filter_block r1;
     pending_index_entry := false;
     pending_handle := pending_handle r1;
     compressed_output := [] |}.

Lemma Rep_ext (a b : Rep) :
  options a = options b -> index_block_options a = index_block_options b ->
  file a = file b -> offset a = offset b -> status a = status b ->
  data_block a = data_block b -> index_block a = index_block b ->
  last_key a = last_key b -> num_entries a = num_entries b -> closed a = closed b ->
  filter_block a = filter_block b -> pending_index_entry a = pending_index_entry b ->
  pending_handle a = pending_handle b -> compressed_output a = compressed_output b ->
  a = b.
Proof. destruct a, b; cbn; intros; subst; done. Qed.

Lemma Finish_eq (r : Rep) :
  status r = OK ->
  Finish r =
  match metaindex_builder (Flush r) with
  | Some mb => Some (OK, finished (Flush r) mb)
  | None => None
  end.
Proof.
  intros Hok. destruct (Flush_props r Hok) as (Hok1 & _).
  unfold Finish. set (r1 := Flush r) in *. clearbody r1.
  unfold metaindex_builder.
  destruct (filter_block r1) as [fb|] eqn:Hfb; cbn; rewrite ?Hfb, ?Hok1; cbn;
    rewrite ?Hfb, ?Hok1; cbn.
  - rewrite WriteRawBlock_eq. cbn. rewrite Hfb.
    destruct (filter_policy (options r1)) as [policy|]; [|done].
    rewrite WriteBlock_eq. cbn.
    destruct (pending_index_entry r1) eqn:Hp; cbn;
      rewrite WriteBlock_eq; cbn; rewrite Footer_EncodeTo_eq, footer_bytes_length;
      (f_equal; f_equal; apply Rep_ext;
       unfold finished, filter_chunks, after_filter, closed_index;
       cbn; rewrite ?Hfb, ?Hp, <- ?app_assoc; done).
  - rewrite WriteBlock_eq. cbn.
    destruct (pending_index_entry r1) eqn:Hp; cbn;
      rewrite WriteBlock_eq; cbn; rewrite Footer_EncodeTo_eq, footer_bytes_length;
      (f_equal; f_equal; apply Rep_ext;
       unfold finished, filter_chunks, after_filter, closed_index;
       cbn; rewrite ?Hfb, ?Hp, <- ?app_assoc; done).
Qed.

Lemma ok_OK (s : Status) : ok s = true -> s = OK.
Proof. by destruct s. Qed.

Lemma Finish_not_ok (r : Rep) :
  ok (status r) = false -> Finish r = Some (status r, set_closed r true).
Proof.
  intros Hs.
  assert (HF : Flush r = r) by (unfold Flush; by rewrite Hs).
  unfold Finish. rewrite HF.
  change (status r) with (status (set_closed r true)) in Hs |- *.
  generalize dependent (set_closed r true). intros r1 Hs1.
  destruct (filter_block r1); rewrite ?Hs1; cbn iota beta; rewrite ?Hs1;
    cbn iota beta; by rewrite ?Hs1.
Qed.

(** The filter block is there or not as the constructor left it, and
    only [ChangeOptions] changes the options. *)
Lemma Flush_filter_block (r : Rep) :
  (is_Some (filter_block (Flush r)) <-> is_Some (filter_block r)) /\
  options (Flush r) = options r.
Proof.
  unfold Flush. destruct (ok (status r)); cbn; [|done].
  destruct (BlockBuilder.empty (data_block r)); [done|].
  rewrite WriteBlock_eq. cbn.
  destruct (filter_block r) as [fb|] eqn:Efb; cbn; rewrite ?Efb; cbn; split; try done;
    split; intros _; by eexists.
Qed.

Lemma Add_filter_block (r : Rep) (key value : list Z) :
  (is_Some (filter_block (Add r key value)) <-> is_Some (filter_block r)) /\
  options (Add r key value) = options r.
Proof.
  unfold Add. destruct (ok (status r)); cbn; [|done].
  set (r1 := if pending_index_entry r then _ else r).
  assert (H1 : filter_block r1 = filter_block r /\ options r1 = options r).
  { subst r1. by destruct (pending_index_entry r). }
  destruct H1 as [H1 H1'].
  set (r2 := match filter_block r1 with Some _ => _ | None => r1 end).
  assert (H2 : (is_Some (filter_block r2) <-> is_Some (filter_block r)) /\
               options r2 = options r).
  { subst r2. rewrite <- H1, <- H1'. destruct (filter_block r1) as [fb|] eqn:E; cbn.
    - split; [|done]. split; intros _; by eexists.
    - by rewrite E. }
  set (r3 := set_data_block _ _).
  assert (H3 : (is_Some (filter_block r3) <-> is_Some (filter_block r)) /\
               options r3 = options r) by exact H2.
  destruct (_ >=? _); [|done].
  destruct (Flush_filter_block r3) as [E1 E2]. rewrite E1, E2. done.
Qed.

Lemma metaindex_builder_None (r1 : Rep) :
  metaindex_builder r1 = None <->
  is_Some (filter_block r1) /\ filter_policy (options r1) = None.
Proof.
  unfold metaindex_builder. destruct (filter_block r1) as [fb|].
  - destruct (filter_policy (options r1)); split; try done; try (by intros [_ ?]).
  - split; [done|]. by intros [[? ?] _].
Qed.

(** [Finish] goes through the null pointer exactly when the builder
    writes (its status is OK), has a filter block and finds no filter
    policy in its options. *)
Lemma Finish_None (r : Rep) :
  Finish r = None <->
  status r = OK /\ is_Some (filter_block r) /\ filter_policy (options r) = None.
Proof.
  destruct (Flush_filter_block r) as [Hfb Hopt].
  destruct (ok (status r)) eqn:Hs.
  - apply ok_OK in Hs. rewrite (Finish_eq r Hs).
    destruct (metaindex_builder (Flush r)) as [mb|] eqn:Hmb.
    + split; [done|]. intros (_ & H1 & H2).
      assert (Hn : metaindex_builder (Flush r) = None).
      { apply metaindex_builder_None. by rewrite Hfb, Hopt. }
      congruence.
    + apply metaindex_builder_None in Hmb. rewrite Hfb, Hopt in Hmb. tauto.
  - rewrite (Finish_not_ok r Hs). split; [done|]. intros (H1 & _).
    rewrite H1 in Hs. done.
Qed.

(** The builder that [Finish] returns. *)
Lemma Finish_Some (r : Rep) (st : Status) (r' : Rep) :
  Finish r = Some (st, r') ->
  (status r = OK /\ st = OK /\
   exists mb, metaindex_builder (Flush r) = Some mb /\ r' = finished (Flush r) mb) \/
  (ok (status r) = false /\ st = status r /\ r' = set_closed r true).
Proof.
  destruct (ok (status r)) eqn:Hs.
  - apply ok_OK in Hs. rewrite (Finish_eq r Hs).
    destruct (metaindex_builder (Flush r)) as [mb|]; [|done].
    intros [= <- <-]. left. split_and!; try done. by exists mb.
  - rewrite (Finish_not_ok r Hs). intros [= <- <-]. by right.
Qed.

(** The index block holds entries fed to a builder that reads
    [index_block_options], whose restart interval is 1. *)
Definition index_inv (r : Rep) : Prop :=
  block_restart_interval (index_block_options r) = 1 /\
  exists kvs, index_block r =
    BlockBuilder.AddAll (index_block_options r) BlockBuilder.init kvs.

(** [BlockBuilder::Add] reads nothing of the options but the restart
    interval. *)
Lemma BlockBuilder_Add_ext (o o' : Options) b key value :
  block_restart_interval o = block_restart_interval o' ->
  BlockBuilder.Add o b key value = BlockBuilder.Add o' b key value.
Proof. intros E. unfold BlockBuilder.Add. by rewrite E. Qed.

Lemma BlockBuilder_AddAll_ext (o o' : Options) b kvs :
  block_restart_interval o = block_restart_interval o' ->
  BlockBuilder.AddAll o b kvs = BlockBuilder.AddAll o' b kvs.
Proof.
  intros E. revert b. induction kvs as [|kv kvs IH]; intros b; [done|].
  simpl. rewrite (BlockBuilder_Add_ext o o') by done. apply IH.
Qed.

Lemma index_inv_ext (r r' : Rep) :
  index_block_options r' = index_block_options r ->
  index_block r' = index_block r ->
  index_inv r -> index_inv r'.
Proof. unfold index_inv. intros -> ->. done. Qed.

Lemma WriteBlock_index r b :
  index_block_options (fst (fst (WriteBlock r b))) = index_block_options r /\
  index_block (fst (fst (WriteBlock r b))) = index_block r /\
  snd (fst (WriteBlock r b)) = BlockBuilder.init.
Proof.
  unfold WriteBlock. destruct (compress_block _ _) as [[c t] [out|]]; simpl; done.
Qed.

Lemma Flush_index r :
  index_block_options (Flush r) = index_block_options r /\
  index_block (Flush r) = index_block r.
Proof.
  unfold Flush. destruct (ok (status r)); simpl; [|done].
  destruct (BlockBuilder.empty (data_block r)); [done|].
  pose proof (WriteBlock_index r (data_block r)) as (H1 & H2 & _).
  destruct (WriteBlock r (data_block r)) as [[r1 blk] h]. simpl in *.
  destruct (ok (status r1)); simpl; destruct (filter_block r1); simpl; done.
Qed.

Lemma Add_index_inv r key value : index_inv r -> index_inv (Add r key value).
Proof.
  intros Hinv. unfold Add. destruct (ok (status r)); simpl; [|done].
  set (r1 := if pending_index_entry r then _ else r).
  assert (H1 : index_inv r1).
  { subst r1. destruct (pending_index_entry r); [|done].
    destruct Hinv as [Hi [kvs Hk]]. split; [done|]. simpl.
    eexists (kvs ++ [(_, _)]). by rewrite BlockBuilder.AddAll_snoc, <- Hk. }
  set (r2 := match filter_block r1 with Some _ => _ | None => r1 end).
  assert (H2 : index_inv r2).
  { subst r2. destruct (filter_block r1); [|done].
    eapply index_inv_ext; [| |exact H1]; done. }
  set (r3 := set_data_block _ _).
  assert (H3 : index_inv r3).
  { eapply index_inv_ext; [| |exact H2]; done. }
  destruct (_ >=? _); [|done].
  destruct (Flush_index r3) as [E1 E2].
  eapply index_inv_ext; [exact E1|exact E2|exact H3].
Qed.

Lemma ChangeOptions_index_inv r opts :
  index_inv r -> index_inv (snd (ChangeOptions r opts)).
Proof.
  intros [H1 [kvs H2]]. unfold ChangeOptions.
  destruct (negb _); [simpl; split; eauto|]. simpl. split; [done|]. exists kvs.
  simpl. rewrite H2. apply BlockBuilder_AddAll_ext. by rewrite H1.
Qed.

Lemma Finish_index_inv r st r' :
  index_inv r -> Finish r = Some (st, r') -> index_inv r'.
Proof.
  intros Hinv HF. destruct (Flush_index r) as [E1 E2].
  destruct (Finish_Some r st r' HF) as [(_ & _ & mb & _ & ->)|(_ & _ & ->)].
  - split; [cbn; rewrite E1; apply Hinv|]. by exists [].
  - eapply index_inv_ext; [| |exact Hinv]; done.
Qed.

Lemma new_index_inv opt f : index_inv (new opt f).
Proof.
  unfold new. simpl. destruct (filter_policy opt); simpl; (split; [done|by exists []]).
Qed.

Lemma step_index_inv r c r' : index_inv r -> step r c = Some r' -> index_inv r'.
Proof.
  intros Hinv. destruct c; cbn.
  - intros [= <-]. by apply Add_index_inv.
  - intros [= <-]. destruct (Flush_index r) as [E1 E2]. eapply index_inv_ext; eauto.
  - intros [= <-]. by apply ChangeOptions_index_inv.
  - destruct (Finish r) as [[st r1]|] eqn:HF; [|done]. cbn. intros [= <-].
    by apply (Finish_index_inv r st r1).
  - intros [= <-]. eapply index_inv_ext; [| |exact Hinv]; done.
Qed.

Lemma run_index_inv cs : forall r r', index_inv r -> run cs r = Some r' -> index_inv r'.
Proof.
  induction cs as [|c cs IH]; intros r r' Hinv; cbn; [by intros [= <-]|].
  destruct (step r c) as [r1|] eqn:Hstep; [|done].
  apply IH. by apply (step_index_inv r c).
Qed.

(** *** A block built with restart interval 1 *)

Lemma entries_one (kvs : list (list Z * list Z)) :
  BlockBuilder.entries 1 kvs =
  map (fun kv => BlockBuilder.entry 0 (fst kv) (snd kv)) kvs.
Proof.
  unfold BlockBuilder.entries.
  rewrite (imap_ext _ (fun _ kv => BlockBuilder.entry 0 (fst kv) (snd kv))).
  - apply imap_const.
  - intros i x _. unfold BlockBuilder.shared_at. by rewrite Z.mod_1_r.
Qed.

Lemma omap_all_Some {A B} (f : A -> option B) (g : A -> B) (l : list A) :
  (forall x, x ∈ l -> f x = Some (g x)) -> omap f l = g <$> l.
Proof.
  induction l as [|x l IH]; intros Hf; [done|].
  assert (E : omap f l = g <$> l).
  { apply IH. intros y Hy. apply Hf. by right. }
  change (omap f (x :: l)) with
    (match f x with Some y => y :: omap f l | None => omap f l end).
  rewrite (Hf x) by left. simpl. by rewrite E.
Qed.

(** The entries of an index block: each is stored whole, with
    shared = 0, and the restart array lists the offset of every one of
    them (of offset 0 when there is none). *)
Definition index_entries (kvs : list (list Z * list Z)) : list Z :=
  concat (map (fun kv => BlockBuilder.entry 0 (fst kv) (snd kv)) kvs).

Definition index_restarts (kvs : list (list Z * list Z)) : list Z :=
  (fun i => Z.of_nat (length (index_entries (take i kvs))) mod 2 ^ 32) <$>
  seq 0 (Nat.max 1 (length kvs)).

Definition holds_entries (b : BlockBuilder.BlockBuilder)
    (kvs : list (list Z * list Z)) : Prop :=
  BlockBuilder.buffer_ b = index_entries kvs /\
  BlockBuilder.restarts_ b = index_restarts kvs.

(** The bytes of the index block: the entries, the restart array and
    its length, as [BlockBuilder::Finish] lays them out. *)
Definition index_block_bytes (kvs : list (list Z * list Z)) : list Z :=
  index_entries kvs ++ concat (EncodeFixed32 <$> index_restarts kvs) ++
  EncodeFixed32 (Z.of_nat (length (index_restarts kvs))).

Lemma restart_array_one_eq (kvs : list (list Z * list Z)) :
  BlockBuilder.restart_array 1 kvs = index_restarts kvs.
Proof.
  unfold BlockBuilder.restart_array, index_restarts.
  destruct (length kvs) as [|m] eqn:El; [done|].
  cbn [seq Nat.max]. replace (Nat.max 1 (S m)) with (S m) by lia. cbn [seq].
  change (omap ?f (0%nat :: ?l)) with (omap f l). rewrite fmap_cons.
  f_equal.
  rewrite (omap_all_Some _
    (fun i => Z.of_nat (length (index_entries (take i kvs))) mod 2 ^ 32)); [done|].
  intros x Hx. apply elem_of_seq in Hx. rewrite Z.mod_1_r.
  replace (0 <? x)%nat with true by (symmetry; apply Nat.ltb_lt; lia). cbn.
  unfold BlockBuilder.entry_offset, index_entries. rewrite entries_one.
  change (map ?g ?l) with (g <$> l). by rewrite fmap_take.
Qed.

Lemma AddAll_holds_entries (o : Options) (kvs : list (list Z * list Z)) :
  block_restart_interval o = 1 ->
  holds_entries (BlockBuilder.AddAll o BlockBuilder.init kvs) kvs.
Proof.
  intros H1. destruct (BlockBuilder.AddAll_state o kvs) as (Hbuf & Hrs & _); [lia|].
  rewrite H1 in Hbuf, Hrs. rewrite entries_one in Hbuf. rewrite restart_array_one_eq in Hrs.
  by split.
Qed.

Lemma Finish_index_block_bytes (b : BlockBuilder.BlockBuilder) kvs :
  holds_entries b kvs ->
  BlockBuilder.buffer_ (BlockBuilder.Finish b) = index_block_bytes kvs.
Proof.
  intros [Hb Hr]. rewrite BlockBuilder.Finish_buffer, Hb, Hr. done.
Qed.

Lemma Add_index_block (r : Rep) (key value : list Z) :
  status r = OK ->
  index_block (Add r key value) =
  if pending_index_entry r then
    BlockBuilder.Add (index_block_options r) (index_block r)
      (Comparators.FindShortestSeparator (comparator (options r)) (last_key r) key)
      (BlockHandle_EncodeTo (pending_handle r) [])
  else index_block r.
Proof.
  intros Hok. unfold Add. rewrite Hok. cbn.
  set (r1 := if pending_index_entry r then _ else r).
  set (r2 := match filter_block r1 with Some _ => _ | None => r1 end).
  set (r3 := set_data_block _ _).
  assert (H3 : index_block r3 = index_block r1).
  { subst r3 r2. by destruct (filter_block r1). }
  assert (H1 : index_block r1 = if pending_index_entry r then
      BlockBuilder.Add (index_block_options r) (index_block r)
        (Comparators.FindShortestSeparator (comparator (options r)) (last_key r) key)
        (BlockHandle_EncodeTo (pending_handle r) [])
    else index_block r).
  { subst r1. by destruct (pending_index_entry r). }
  destruct (_ >=? _); [|congruence].
  destruct (Flush_index r3) as [_ E]. congruence.
Qed.

(** *** The file size, the entry count and the status *)

Definition is_add (c : call) : bool :=
  match c with CallAdd _ _ => true | _ => false end.

(** From [r] to [r'] the builder appended to the file, advanced
    [offset] by the number of bytes appended, counted [d] more entries
    and kept the status OK. *)
Definition grows (d : Z) (r r' : Rep) : Prop :=
  status r' = OK /\ num_entries r' = num_entries r + d /\
  exists more, appended (file r') = appended (file r) ++ more /\
    offset r' = (offset r + Z.of_nat (length (concat more))) mod 2 ^ 64.

Lemma grows_refl r : status r = OK -> 0 <= offset r < 2 ^ 64 -> grows 0 r r.
Proof.
  intros Hs Ho. split_and!; [done|lia|]. exists []. rewrite app_nil_r. simpl.
  split; [done|]. rewrite Z.add_0_r. by rewrite Z.mod_small.
Qed.

Lemma grows_trans d1 d2 r1 r2 r3 :
  grows d1 r1 r2 -> grows d2 r2 r3 -> grows (d1 + d2) r1 r3.
Proof.
  intros (_ & Hn1 & m1 & Hf1 & Ho1) (Hs & Hn2 & m2 & Hf2 & Ho2).
  split_and!; [done|lia|]. exists (m1 ++ m2). split.
  - by rewrite Hf2, Hf1, app_assoc.
  - rewrite Ho2, Ho1, concat_app, length_app, Z.add_mod_idemp_l by lia.
    f_equal. lia.
Qed.

Lemma grows_ext d r r1 r2 :
  status r2 = status r1 -> file r2 = file r1 -> offset r2 = offset r1 ->
  num_entries r2 = num_entries r1 -> grows d r r1 -> grows d r r2.
Proof.
  intros E1 E2 E3 E4 (Hs & Hn & m & Hf & Ho).
  split_and!; [congruence|congruence|]. exists m. split; congruence.
Qed.

Lemma grows_range d r r' : grows d r r' -> 0 <= offset r' < 2 ^ 64.
Proof. intros (_ & _ & m & _ & ->). apply Z.mod_pos_bound. lia. Qed.

Lemma length_trailer t c : length (trailer t c) = 5%nat.
Proof. unfold trailer. cbn [length]. by rewrite length_EncodeFixed32. Qed.

Lemma grows_set_file r (cs : list (list Z)) (off : Z) :
  off = (offset r + Z.of_nat (length (concat cs))) mod 2 ^ 64 ->
  grows 0 r (set_file r {| appended := appended (file r) ++ cs |} OK off).
Proof. intros ->. split_and!; [done|simpl; lia|]. by exists cs. Qed.

Lemma length_block_chunks t c :
  Z.of_nat (length (concat [c; trailer t c])) = Z.of_nat (length c) + kBlockTrailerSize.
Proof.
  cbn [concat]. rewrite app_nil_r, length_app, length_trailer.
  unfold kBlockTrailerSize. lia.
Qed.

Lemma WriteBlock_grows r b : grows 0 r (fst (fst (WriteBlock r b))).
Proof.
  rewrite WriteBlock_eq. cbn [fst].
  eapply grows_ext; [| | | |apply grows_set_file]; try done.
  rewrite length_block_chunks. unfold after_block. f_equal. lia.
Qed.

Lemma Flush_grows r : status r = OK -> 0 <= offset r < 2 ^ 64 -> grows 0 r (Flush r).
Proof.
  intros Hs Ho. unfold Flush. rewrite Hs. simpl.
  destruct (BlockBuilder.empty (data_block r)); [by apply grows_refl|].
  pose proof (WriteBlock_grows r (data_block r)) as Hw.
  destruct (WriteBlock r (data_block r)) as [[r1 blk] h]. simpl in Hw.
  destruct Hw as (Hs1 & Hn1 & Hm1). simpl. rewrite Hs1. simpl.
  destruct (filter_block r1); (split_and!; [done|done|exact Hm1]).
Qed.

Lemma Add_grows r key value :
  status r = OK -> 0 <= offset r < 2 ^ 64 -> grows 1 r (Add r key value).
Proof.
  intros Hs Ho. unfold Add. rewrite Hs. simpl.
  set (r1 := if pending_index_entry r then _ else r).
  assert (H1 : grows 0 r r1).
  { subst r1. destruct (pending_index_entry r); [|by apply grows_refl].
    eapply grows_ext; [| | | |by apply grows_refl]; done. }
  set (r2 := match filter_block r1 with Some _ => _ | None => r1 end).
  assert (H2 : grows 0 r r2).
  { subst r2. destruct (filter_block r1); [|done].
    eapply grows_ext; [| | | |exact H1]; done. }
  set (r3 := set_data_block _ _).
  assert (H3 : grows 1 r r3).
  { destruct H2 as (Hs2 & Hn2 & Hm2). split_and!; [done|simpl; lia|exact Hm2]. }
  destruct (_ >=? _); [|done].
  change 1 with (1 + 0). eapply grows_trans; [exact H3|].
  apply Flush_grows; [apply H3|by apply (grows_range _ _ _ H3)].
Qed.

Lemma after_block_add (off : Z) (c : list Z) (k : Z) :
  (after_block off c + k) mod 2 ^ 64 = (off + (Z.of_nat (length c) + 5 + k)) mod 2 ^ 64.
Proof.
  unfold after_block, kBlockTrailerSize. rewrite Z.add_mod_idemp_l by lia. f_equal. lia.
Qed.

Lemma finished_grows (r1 : Rep) (mb : BlockBuilder.BlockBuilder) :
  grows 0 r1 (finished r1 mb).
Proof.
  split_and!; [done|cbn; lia|]. eexists. split; [reflexivity|].
  cbn [finished offset]. rewrite !after_block_add.
  unfold after_filter, filter_chunks.
  destruct (filter_block r1) as [fb|].
  - rewrite after_block_add. f_equal.
    cbn [app concat]. rewrite !length_app, !length_trailer, footer_bytes_length. cbn [length].
    lia.
  - f_equal. cbn [app concat]. rewrite !length_app, !length_trailer, footer_bytes_length.
    cbn [length]. lia.
Qed.

Lemma Finish_grows r st r' :
  status r = OK -> 0 <= offset r < 2 ^ 64 -> Finish r = Some (st, r') -> grows 0 r r'.
Proof.
  intros Hs Ho HF.
  destruct (Finish_Some r st r' HF) as [(_ & _ & mb & _ & ->)|(Hno & _)];
    [|by rewrite Hs in Hno].
  change 0 with (0 + 0). eapply grows_trans; [by apply Flush_grows|apply finished_grows].
Qed.

Lemma step_grows r c r' :
  status r = OK -> 0 <= offset r < 2 ^ 64 -> step r c = Some r' ->
  grows (if is_add c then 1 else 0) r r'.
Proof.
  intros Hs Ho. destruct c; cbn.
  - intros [= <-]. by apply Add_grows.
  - intros [= <-]. by apply Flush_grows.
  - intros [= <-]. unfold ChangeOptions. destruct (negb _); cbn; [by apply grows_refl|].
    eapply grows_ext; [| | | |by apply grows_refl]; done.
  - destruct (Finish r) as [[st r1]|] eqn:HF; [|done]. cbn. intros [= <-].
    by apply (Finish_grows r st r1).
  - intros [= <-]. eapply grows_ext; [| | | |by apply grows_refl]; done.
Qed.

Lemma run_grows cs : forall r r',
  status r = OK -> 0 <= offset r < 2 ^ 64 -> run cs r = Some r' ->
  grows (Z.of_nat (length (filter (fun c => is_add c = true) cs))) r r'.
Proof.
  induction cs as [|c cs IH]; intros r r' Hs Ho; cbn [run].
  { intros [= <-]. by apply grows_refl. }
  destruct (step r c) as [r1|] eqn:Hst; [|done]. intros Hrun.
  pose proof (step_grows r c r1 Hs Ho Hst) as Hstep.
  specialize (IH r1 r' (proj1 Hstep) (grows_range _ _ _ Hstep) Hrun).
  rewrite filter_cons.
  destruct (decide (is_add c = true)) as [Hc|Hc].
  - rewrite Hc in Hstep. cbn [length]. rewrite Nat2Z.inj_succ, <- Z.add_1_l.
    eapply grows_trans; [exact Hstep|exact IH].
  - apply not_true_is_false in Hc. rewrite Hc in Hstep.
    rewrite <- (Z.add_0_l (Z.of_nat _)).
    eapply grows_trans; [exact Hstep|exact IH].
Qed.

Lemma new_fields (opt : Options) (f : WritableFile) :
  status (new opt f) = OK /\ offset (new opt f) = 0 /\
  num_entries (new opt f) = 0 /\ file (new opt f) = f /\ options (new opt f) = opt /\
  (is_Some (filter_block (new opt f)) <-> is_Some (filter_policy opt)).
Proof.
  unfold new. cbn. destruct (filter_policy opt) as [p|]; cbn; split_and!; try done;
    split; intros _; by eexists.
Qed.

Lemma run_status_OK cs opt f r : run cs (new opt f) = Some r -> status r = OK.
Proof.
  intros Hrun. destruct (new_fields opt f) as (Hs & Ho & _).
  by destruct (run_grows cs (new opt f) r Hs ltac:(lia) Hrun) as (? & _).
Qed.

(** *** Which calls return *)






(** A builder has a filter block exactly when the options it was
    constructed with have a filter policy. *)
Lemma step_filter_block (r : Rep) (c : call) (r' : Rep) :
  step r c = Some r' -> (is_Some (filter_block r') <-> is_Some (filter_block r)).
Proof.
  destruct c; cbn.
  - intros [= <-]. apply Add_filter_block.
  - intros [= <-]. apply Flush_filter_block.
  - intros [= <-]. unfold ChangeOptions. by destruct (negb _).
  - destruct (Finish r) as [[st r1]|] eqn:HF; [|done]. cbn. intros [= <-].
    destruct (Finish_Some r st r1 HF) as [(_ & _ & mb & _ & ->)|(_ & _ & ->)]; [|done].
    apply Flush_filter_block.
  - by intros [= <-].
Qed.

Lemma run_filter_block (cs : list call) (opt : Options) (f : WritableFile) (r : Rep) :
  run cs (new opt f) = Some r ->
  (is_Some (filter_block r) <-> is_Some (filter_policy opt)).
Proof.
  destruct (new_fields opt f) as (_ & _ & _ & _ & _ & Hnew). rewrite <- Hnew.
  generalize (new opt f). induction cs as [|c cs IH]; intros r0; cbn [run].
  - by intros [= <-].
  - destruct (step r0 c) as [r1|] eqn:Hstep; [|done]. intros Hrun.
    rewrite (IH r1 Hrun). by apply (step_filter_block r0 c).
Qed.

(** C9. Whatever options a TableBuilder is constructed with and
    whatever calls follow (ChangeOptions included), the options its
    index block reads have restart interval 1, and every index entry
    is stored whole, with shared = 0, its offset in the restart array:
    so it is for the entries the index block holds, for the entry
    [Add] puts in to close a data block, and for the index block that
    [Finish] writes to the file after closing the last data block. *)
Theorem index_block_restart_interval_forced
    (opt : Options) (f : WritableFile) (cs : list call) (r : Rep) :
  run cs (new opt f) = Some r ->
  block_restart_interval (index_block_options (new opt f)) = 1 /\
  block_restart_interval (index_block_options r) = 1 /\
  (forall opts, block_restart_interval
                  (index_block_options (snd (ChangeOptions r opts))) = 1) /\
  exists kvs : list (list Z * list Z),
    holds_entries (index_block r) kvs /\
    (forall key value,
       let closing :=
         if pending_index_entry r
         then [(Comparators.FindShortestSeparator (comparator (options r)) (last_key r) key,
                BlockHandle_EncodeTo (pending_handle r) [])]
         else [] in
       holds_entries (index_block (Add r key value)) (kvs ++ closing)) /\
    (forall st r', Finish r = Some (st, r') ->
       let r1 := Flush r in
       let closing :=
         if pending_index_entry r1
         then [(Comparators.FindShortSuccessor (comparator (options r)) (last_key r1),
                BlockHandle_EncodeTo (pending_handle r1) [])]
         else [] in
       let raw := index_block_bytes (kvs ++ closing) in
       let index := fst (fst (compress_block (options r) raw)) in
       let type := snd (fst (compress_block (options r) raw)) in
       exists before footer,
         appended (file r') = before ++ [index; trailer type index; footer] /\
         length footer = 48%nat).
Proof.
  intros Hrun.
  pose proof (new_index_inv opt f) as Hnew.
  pose proof (run_index_inv cs _ _ Hnew Hrun) as Hinv.
  pose proof (run_status_OK cs opt f r Hrun) as Hok.
  split; [apply Hnew|]. split; [apply Hinv|]. split.
  { intros opts. by apply ChangeOptions_index_inv. }
  destruct Hinv as [H1 [kvs Hk]]. exists kvs.
  assert (Hclose : forall key value,
            holds_entries
              (BlockBuilder.Add (index_block_options r) (index_block r) key value)
              (kvs ++ [(key, value)])).
  { intros key value. rewrite Hk.
    change (BlockBuilder.Add ?o (BlockBuilder.AddAll ?o BlockBuilder.init kvs) key value)
      with (BlockBuilder.Add o (BlockBuilder.AddAll o BlockBuilder.init kvs)
              (fst (key, value)) (snd (key, value))).
    rewrite <- BlockBuilder.AddAll_snoc. by apply AddAll_holds_entries. }
  assert (Hheld : holds_entries (index_block r) kvs).
  { rewrite Hk. by apply AddAll_holds_entries. }
  split_and!; [done| |].
  - intros key value. cbv zeta. rewrite (Add_index_block r key value Hok).
    destruct (pending_index_entry r); [apply Hclose|by rewrite app_nil_r].
  - intros st r' HF. cbv zeta.
    destruct (Flush_index r) as [E1 E2]. destruct (Flush_filter_block r) as [_ E3].
    destruct (Finish_Some r st r' HF) as [(_ & _ & mb & _ & ->)|(Hno & _)];
      [|by rewrite Hok in Hno].
    set (r1 := Flush r) in *.
    assert (Hci : holds_entries (closed_index r1)
              (kvs ++ if pending_index_entry r1
                      then [(Comparators.FindShortSuccessor (comparator (options r))
                               (last_key r1),
                             BlockHandle_EncodeTo (pending_handle r1) [])]
                      else [])).
    { unfold closed_index. rewrite E1, E2, E3.
      destruct (pending_index_entry r1); [apply Hclose|by rewrite app_nil_r]. }
    apply Finish_index_block_bytes in Hci. rewrite <- Hci, <- E3.
    eexists (appended (file r1) ++ filter_chunks r1 ++ [_; _]), _.
    split; [|apply footer_bytes_length].
    cbn [finished file appended]. rewrite <- !app_assoc. done.
Qed.

Lemma drop_footer_bytes (mh ih : BlockHandle) :
  drop 40 (footer_bytes mh ih) = EncodeFixed64 kTableMagicNumber.
Proof.
  unfold footer_bytes. rewrite app_assoc. rewrite drop_app_length'; [done|].
  rewrite length_app, length_replicate.
  pose proof (BlockHandle_EncodeTo_length mh).
  pose proof (BlockHandle_EncodeTo_length ih).
  rewrite length_app. unfold kMaxEncodedLength in *. lia.
Qed.

(** C4, as the code has it.  With the builder's status OK, [Finish]
    flushes the pending data block and then appends exactly: the
    filter block, uncompressed, when the builder has one (the
    constructor makes it from the filter policy of its options); the
    metaindex block, whose one entry maps "filter.<policy name>" to
    the filter block's handle when there is a filter block, and which
    has no entry otherwise (before compression its bytes are one
    restart point, 0, and the count 1); the index block, after closing
    a pending entry with the short successor of the last key; and the
    48-byte footer, which holds the metaindex and index handles padded
    to 40 bytes, then the magic number as 8 little-endian bytes.  A
    builder that has a filter block must still find a filter policy in
    its options: without one [Finish] goes through a null pointer. *)
Theorem Finish_layout (r : Rep) :
  status r = OK ->
  let r1 := Flush r in
  let opts := options r1 in
  (* filter block *)
  let filter := FilterBlock_Finish <$> filter_block r1 in
  let filter_written :=
    match filter with
    | Some c => [c; trailer kNoCompression c]
    | None => []
    end in
  let off2 :=
    match filter with
    | Some c => after_block (offset r1) c
    | None => offset r1
    end in
  (* metaindex block *)
  let metaindex_block :=
    match filter, filter_policy opts with
    | Some c, Some policy =>
        BlockBuilder.Add opts BlockBuilder.init
          (bytes "filter." ++ bytes (policy_Name policy))
          (BlockHandle_EncodeTo (handle_at (offset r1) c) [])
    | _, _ => BlockBuilder.init
    end in
  let metaindex := stored opts metaindex_block in
  let metaindex_handle := handle_at off2 metaindex in
  let off3 := after_block off2 metaindex in
  (* index block *)
  let index_builder :=
    if pending_index_entry r1 then
      BlockBuilder.Add (index_block_options r1) (index_block r1)
        (Comparators.FindShortSuccessor (comparator opts) (last_key r1))
        (BlockHandle_EncodeTo (pending_handle r1) [])
    else index_block r1 in
  let index := stored opts index_builder in
  let index_handle := handle_at off3 index in
  let off4 := after_block off3 index in
  (* footer *)
  let footer := footer_bytes metaindex_handle index_handle in
  (is_Some (filter_block r) -> filter_policy (options r) = None -> Finish r = None) /\
  ((is_Some (filter_block r) -> is_Some (filter_policy (options r))) ->
   exists r',
    Finish r = Some (OK, r') /\ status r' = OK /\ closed r' = true /\
    (is_Some (filter_block r1) <-> is_Some (filter_block r)) /\
    (filter_block r = None ->
     BlockBuilder.buffer_ (BlockBuilder.Finish metaindex_block) =
       EncodeFixed32 0 ++ EncodeFixed32 1) /\
    appended (file r1) =
      appended (file r) ++
      (if BlockBuilder.empty (data_block r) then []
       else [stored (options r) (data_block r);
             trailer (stored_type (options r) (data_block r))
                     (stored (options r) (data_block r))]) /\
    appended (file r') =
      appended (file r1) ++ filter_written ++
      [ metaindex; trailer (stored_type opts metaindex_block) metaindex;
        index; trailer (stored_type opts index_builder) index;
        footer ] /\
    length footer = 48%nat /\
    drop 40 footer = EncodeFixed64 kTableMagicNumber /\
    offset r' = (off4 + 48) mod 2 ^ 64).
Proof.
  intros Hok r1. cbv zeta. split; [intros Hfb Hp; by apply Finish_None|]. intros Hpol.
  destruct (Flush_props r Hok) as (Hok1 & Hopt1 & _ & _ & _ & Hfile1).
  destruct (Flush_filter_block r) as [Hfb1 _].
  fold r1 in Hok1, Hopt1, Hfb1, Hfile1.
  rewrite <- Hfb1, <- Hopt1 in Hpol.
  cbv zeta. rewrite (Finish_eq r Hok). fold r1.
  unfold metaindex_builder. fold (filter_key).
  destruct (filter_block r1) as [fb|] eqn:Hfb.
  - destruct Hpol as [policy Hp]; [by eexists|]. rewrite Hp.
    eexists. split; [reflexivity|].
    cbn [fmap option_fmap option_map].
    split_and!; try done.
    + intros Hn. rewrite Hn in Hfb1. by destruct (proj1 Hfb1 ltac:(by eexists)).
    + unfold finished, filter_chunks, after_filter, closed_index. cbn. by rewrite Hfb.
    + apply footer_bytes_length.
    + apply drop_footer_bytes.
    + unfold finished, filter_chunks, after_filter, closed_index. cbn. by rewrite Hfb.
  - eexists. split; [reflexivity|].
    cbn [fmap option_fmap option_map].
    split_and!; try done.
    + unfold finished, filter_chunks, after_filter, closed_index. cbn. by rewrite Hfb.
    + apply footer_bytes_length.
    + apply drop_footer_bytes.
    + unfold finished, filter_chunks, after_filter, closed_index. cbn. by rewrite Hfb.
Qed.


(** X16. Once the status is not OK, [Add] and [Flush] change nothing,
    and [Finish] appends nothing to the file, leaves the file size as
    it is and returns that status. *)
Theorem not_ok_writes_nothing (r : Rep) (key value : list Z) :
  ok (status r) = false ->
  Add r key value = r /\ Flush r = r /\
  exists r', Finish r = Some (status r, r') /\
    file r' = file r /\ offset r' = offset r /\
    num_entries r' = num_entries r /\ closed r' = true.
Proof.
  intros Hs. split_and!.
  - unfold Add. by rewrite Hs.
  - unfold Flush. by rewrite Hs.
  - exists (set_closed r true). by rewrite (Finish_not_ok r Hs).
Qed.

(** *** Blocks read back *)

Variable Snappy_GetUncompressedLength : list Z -> option nat.
Variable Snappy_Uncompress : list Z -> option (list Z).

(** What reading back takes from the parts outside the excerpt: a crc
    is a [uint32_t], extending the crc of a string gives the crc of
    the longer string, the two compression types have different bytes,
    and Snappy uncompresses what it compressed. *)
Hypothesis crc_range : forall a b, 0 <= crc32c_Extend (crc32c_Value a) b < 2 ^ 32.
Hypothesis crc_extend : forall a b,
  crc32c_Value (a ++ b) = crc32c_Extend (crc32c_Value a) b.
Hypothesis codes_distinct :
  compression_code kNoCompression <> compression_code kSnappyCompression.
Hypothesis snappy_inverse : forall raw c,
  Snappy_Compress raw = Some c ->
  Snappy_GetUncompressedLength c = Some (length raw) /\ Snappy_Uncompress c = Some raw.

(** What the [switch] of [ReadBlock] gives for contents [c] of type
    [t]. *)
Definition decoded (t : CompressionType) (c : list Z) (in_scratch : bool)
    : Status * BlockContents :=
  let result := {| data := []; cachable := false; heap_allocated := false |} in
  match t with
  | kNoCompression =>
      (OK, {| data := c; cachable := in_scratch; heap_allocated := in_scratch |})
  | kSnappyCompression =>
      match Snappy_GetUncompressedLength c with
      | None => (Corruption "corrupted compressed block contents", result)
      | Some ulength =>
          match Snappy_Uncompress c with
          | None => (Corruption "corrupted compressed block contents", result)
          | Some ubuf => (OK, {| data := ubuf; cachable := true; heap_allocated := true |})
          end
      end
  end.

(** A block and its trailer, wherever they lie in a file, pass the
    checks of [ReadBlock]. *)
Lemma ReadBlock_written (pre c more : list Z) (t : CompressionType)
    (in_scratch : bool) (ropts : ReadOptions) :
  Z.of_nat (length pre) + Z.of_nat (length c) + kBlockTrailerSize < 2 ^ 64 ->
  ReadBlock crc32c_Value Snappy_GetUncompressedLength Snappy_Uncompress compression_code
    (mem_file (pre ++ c ++ trailer t c ++ more) in_scratch) ropts
    (handle_at (Z.of_nat (length pre)) c) = decoded t c in_scratch.
Proof.
  intros Hlen. unfold ReadBlock, mem_file, handle_at. cbn [Read offset_ size_ ok negb].
  unfold kBlockTrailerSize in *. rewrite Z.mod_small by lia.
  rewrite !Nat2Z.id, drop_app_length.
  replace (Z.to_nat (Z.of_nat (length c) + 5)) with (length (c ++ trailer t c))
    by (rewrite length_app, length_trailer; lia).
  rewrite (app_assoc c), take_app_length.
  rewrite length_app, length_trailer.
  replace (Z.of_nat (length c + 5) =? Z.of_nat (length c) + 5) with true
    by (symmetry; apply Z.eqb_eq; lia).
  cbn [negb].
  assert (Hcrc : (if verify_checksums ropts
                  then negb (crc32c_Value (take (length c + 1) (c ++ trailer t c)) =?
                             crc32c_Unmask (DecodeFixed32 (drop (length c + 1) (c ++ trailer t c))))
                  else false) = false).
  { destruct (verify_checksums ropts); [|done].
    unfold trailer. rewrite (cons_middle (compression_code t)), app_assoc.
    rewrite take_app_length', drop_app_length' by (rewrite length_app; simpl; lia).
    rewrite crc_extend.
    unfold DecodeFixed32, EncodeFixed32.
    rewrite <- (app_nil_r (EncodeFixed 4 _)), DecodeFixed_EncodeFixed.
    change (256 ^ Z.of_nat 4) with (2 ^ 32). rewrite Z.mod_mod by lia.
    rewrite (Z.mod_small (crc32c_Mask _)) by apply crc32c_Mask_range.
    rewrite crc32c_Unmask_Mask by apply crc_range.
    by rewrite Z.eqb_refl. }
  rewrite Hcrc.
  assert (Htype : (c ++ trailer t c) !!! length c = compression_code t).
  { unfold trailer. by rewrite list_lookup_total_middle. }
  rewrite Htype, take_app_length.
  unfold decoded. destruct t.
  - rewrite Z.eqb_refl. by destruct in_scratch.
  - destruct (Z.eqb_spec (compression_code kSnappyCompression)
                (compression_code kNoCompression)) as [Heq|_];
      [by destruct codes_distinct|].
    by rewrite Z.eqb_refl.
Qed.

(** The contents [WriteBlock] stores and their type. *)
Lemma stored_cases (opts : Options) (b : BlockBuilder.BlockBuilder) :
  let raw := BlockBuilder.buffer_ (BlockBuilder.Finish b) in
  (stored_type opts b = kNoCompression /\ stored opts b = raw) \/
  (stored_type opts b = kSnappyCompression /\
   Snappy_Compress raw = Some (stored opts b)).
Proof.
  unfold stored, stored_type, compress_block. cbv zeta.
  destruct (compression opts); [by left|].
  destruct (Snappy_Compress _) as [compressed|]; [|by left].
  destruct (_ <? _); [by right|by left].
Qed.

(** X18. A block that [WriteBlock] writes, after any calls on a new
    builder over an empty file, is read back by [ReadBlock] through the
    handle [WriteBlock] filled in, from the file as it then is or as it
    is after more has been appended, with or without checksum
    verification: the status is OK and the data are the bytes
    [BlockBuilder::Finish] produced, whichever compression was chosen. *)
Theorem WriteBlock_ReadBlock (opt : Options) (cs : list call) (r : Rep)
    (block : BlockBuilder.BlockBuilder) (ropts : ReadOptions)
    (more : list Z) (in_scratch : bool) :
  run cs (new opt {| appended := [] |}) = Some r ->
  let r' := fst (fst (WriteBlock r block)) in
  let handle := snd (WriteBlock r block) in
  Z.of_nat (length (file_bytes (file r'))) < 2 ^ 64 ->
  exists c,
    ReadBlock crc32c_Value Snappy_GetUncompressedLength Snappy_Uncompress compression_code
      (mem_file (file_bytes (file r') ++ more) in_scratch) ropts handle = (OK, c) /\
    data c = BlockBuilder.buffer_ (BlockBuilder.Finish block).
Proof.
  intros Hrun r' handle Hsize. subst r' handle. revert Hsize.
  rewrite WriteBlock_eq. cbn [fst snd].
  destruct (new_fields opt {| appended := [] |}) as (Hs & Ho & _ & Hf & _).
  destruct (run_grows cs (new opt {| appended := [] |}) r Hs ltac:(lia) Hrun)
    as (_ & _ & written & Hf' & Ho').
  rewrite Hf in Hf'. rewrite Ho in Ho'. simpl in Hf', Ho'.
  unfold file_bytes. cbn [file set_compressed_output set_file appended].
  rewrite Hf', concat_app. cbn [concat]. rewrite app_nil_r, !length_app, length_trailer.
  intros Hsize. rewrite Z.mod_small in Ho' by lia. rewrite Ho'.
  rewrite <- !app_assoc.
  rewrite ReadBlock_written by (unfold kBlockTrailerSize; lia).
  unfold decoded.
  destruct (stored_cases (options r) block) as [[-> ->]|[-> Hc]].
  - by eexists.
  - destruct (snappy_inverse _ _ Hc) as [-> ->]. by eexists.
Qed.

End Builder.

Arguments options {_} _.
Arguments status {_} _.
Arguments file {_} _.
Arguments filter_block {_} _.
Arguments index_block_options {_} _.
Arguments index_block {_} _.
Arguments pending_index_entry {_} _.
Arguments num_entries {_} _.
Arguments offset {_} _.

(** *** Two concrete builders *)

(** Stand-ins for the parts outside the excerpt: constant checksums, no
    Snappy, the type bytes 0 and 1, a filter builder that keeps the
    keys it is given and emits them back to back. *)
Definition toy_code (t : CompressionType) : Z :=
  match t with kNoCompression => 0 | kSnappyCompression => 1 end.

Definition toy_magic : Z := 0xdb4775248b80fb57.

Definition toy_new (opt : Options) : Rep (list (list Z)) :=
  new (list (list Z)) (fun _ => []) (fun fb _ => fb) opt {| appended := [] |}.

Definition toy_Add : Rep (list (list Z)) -> list Z -> list Z -> Rep (list (list Z)) :=
  Add (fun _ => 0) (fun c _ => c) (fun _ => None) toy_code
    (list (list Z)) (fun fb _ => fb) (fun fb k => fb ++ [k]).

Definition toy_Flush : Rep (list (list Z)) -> Rep (list (list Z)) :=
  Flush (fun _ => 0) (fun c _ => c) (fun _ => None) toy_code
    (list (list Z)) (fun fb _ => fb).

Definition toy_Finish : Rep (list (list Z)) -> option (Status * Rep (list (list Z))) :=
  Finish (fun _ => 0) (fun c _ => c) (fun _ => None) toy_code toy_magic
    (list (list Z)) (fun fb _ => fb) (fun fb => concat fb).

Definition toy_run : list call -> Rep (list (list Z)) -> option (Rep (list (list Z))) :=
  run (fun _ => 0) (fun c _ => c) (fun _ => None) toy_code toy_magic
    (list (list Z)) (fun fb _ => fb) (fun fb k => fb ++ [k]) (fun fb => concat fb).

Definition toy_policy : FilterPolicy :=
  {| policy_Name := "toy"; CreateFilter := fun keys => concat keys |}.

Definition options_with_filter : Options :=
  {| comparator := Comparators.BytewiseComparatorImpl;
     block_size := 4096;
     block_restart_interval := 16;
     compression := kNoCompression;
     filter_policy := Some toy_policy |}.

Lemma Finish_layout_witness :
  let r := toy_Add (toy_new options_with_filter) (bytes "a") (bytes "v") in
  status r = OK /\ is_Some (filter_policy (options r)) /\
  exists r', toy_Finish r = Some (OK, r') /\ length (appended (file r')) = 9%nat.
Proof.
  set (r := toy_Add (toy_new options_with_filter) (bytes "a") (bytes "v")).
  assert (H1 : status r = OK) by reflexivity.
  assert (H2 : is_Some (filter_policy (options r))) by (by eexists).
  destruct (Finish_layout (fun _ => 0) (fun c _ => c) (fun _ => None) toy_code
              toy_magic (list (list Z)) (fun fb _ => fb) (fun fb => concat fb)
              r H1) as [_ Hlayout].
  destruct (Hlayout (fun _ => H2)) as (r' & HF & _ & _ & _ & _ & Hf1 & Hf & _).
  split_and!; [exact H1|exact H2|]. exists r'. split; [exact HF|].
  rewrite Hf, Hf1. reflexivity.
Defined.

(** Without a filter policy (the default options) [Finish] writes no
    filter block: after the data block come the metaindex block, which
    is empty (no entry, one restart point), the index block and the
    footer. *)
Lemma Finish_without_filter_policy :
  let r := toy_Add (toy_new BlockBuilder.example_options) (bytes "a") (bytes "v") in
  let before := appended (file (toy_Flush r)) in
  let after := from_option (fun p => appended (file (snd p))) [] (toy_Finish r) in
  filter_policy (options r) = None /\
  fst <$> toy_Finish r = Some OK /\
  take (length before) after = before /\
  length (drop (length before) after) = 5%nat /\
  drop (length before) after !! 0%nat = Some [0; 0; 0; 0; 1; 0; 0; 0] /\
  length <$> drop (length before) after !! 4%nat = Some 48%nat.
Proof. vm_compute. split_and!; reflexivity. Qed.

(** A builder made with a filter policy whose options have lost it:
    [Finish] has no defined result. *)
Lemma Finish_after_policy_removed :
  toy_run [CallAdd (bytes "a") (bytes "v");
           CallChangeOptions BlockBuilder.example_options;
           CallFinish] (toy_new options_with_filter) = None.
Proof. vm_compute. reflexivity. Qed.

(** A builder of restart interval 2 that has written two data blocks,
    its options changed in between: the index block holds the entry of
    the first block, and the entry of the second is pending. *)
Definition example_calls : list call :=
  [CallAdd (bytes "a") (bytes "v"); CallFlush;
   CallChangeOptions options_with_filter;
   CallAdd (bytes "b") (bytes "w"); CallFlush].

Lemma index_block_restart_interval_forced_witness :
  let r := default (toy_new BlockBuilder.example_options)
             (toy_run example_calls (toy_new BlockBuilder.example_options)) in
  toy_run example_calls (toy_new BlockBuilder.example_options) = Some r /\
  block_restart_interval (options r) = 16 /\
  block_restart_interval (index_block_options r) = 1 /\
  pending_index_entry r = true.
Proof.
  set (r := default _ _).
  assert (Hrun : toy_run example_calls (toy_new BlockBuilder.example_options) = Some r)
    by (vm_compute; reflexivity).
  destruct (index_block_restart_interval_forced (fun _ => 0) (fun c _ => c) (fun _ => None)
              toy_code toy_magic (list (list Z)) (fun _ => []) (fun fb _ => fb)
              (fun fb k => fb ++ [k]) (fun fb => concat fb)
              BlockBuilder.example_options {| appended := [] |} example_calls r Hrun)
    as (_ & H1 & _).
  split; [exact Hrun|]. split; [vm_compute; reflexivity|]. split; [exact H1|].
  vm_compute; reflexivity.
Defined.


(** A builder whose file has failed. *)
Definition failed_builder : Rep (list (list Z)) :=
  set_file (list (list Z)) (toy_new BlockBuilder.example_options)
    {| appended := [] |} (IOError "disk full") 0.

Lemma not_ok_writes_nothing_witness :
  toy_Add failed_builder (bytes "a") (bytes "v") = failed_builder /\
  fst <$> toy_Finish failed_builder = Some (IOError "disk full").
Proof.
  destruct (not_ok_writes_nothing (fun _ => 0) (fun c _ => c) (fun _ => None) toy_code
              toy_magic (list (list Z)) (fun fb _ => fb) (fun fb k => fb ++ [k])
              (fun fb => concat fb) failed_builder (bytes "a") (bytes "v") eq_refl)
    as (H1 & _ & r' & H3 & _).
  split; [exact H1|]. unfold toy_Finish. rewrite H3. reflexivity.
Defined.

(** The data block of a builder holding one entry, written and read
    back with the stand-ins above. *)
Lemma WriteBlock_ReadBlock_witness :
  let r := toy_Add (toy_new options_with_filter) (bytes "a") (bytes "v") in
  let w := WriteBlock (fun _ => 0) (fun c _ => c) (fun _ => None) toy_code
             (list (list Z)) r (data_block _ r) in
  toy_run [CallAdd (bytes "a") (bytes "v")] (toy_new options_with_filter) = Some r /\
  exists c,
    ReadBlock (fun _ => 0) (fun _ => None) (fun _ => None) toy_code
      (mem_file (file_bytes (file (fst (fst w))) ++ [7; 7]) true)
      {| verify_checksums := true |} (snd w) = (OK, c) /\
    data c = BlockBuilder.buffer_ (BlockBuilder.Finish (data_block _ r)).
Proof.
  split; [reflexivity|].
  apply (WriteBlock_ReadBlock (fun _ => 0) (fun c _ => c) (fun _ => None) toy_code toy_magic
           (list (list Z)) (fun _ => []) (fun fb _ => fb) (fun fb k => fb ++ [k])
           (fun fb => concat fb) (fun _ => None) (fun _ => None))
    with (opt := options_with_filter) (cs := [CallAdd (bytes "a") (bytes "v")]).
  - intros a b. simpl. lia.
  - reflexivity.
  - intros Heq. discriminate Heq.
  - intros raw c Hc. discriminate Hc.
  - reflexivity.
  - vm_compute. reflexivity.
Defined.

End TableBuilder.

(** ** util/cache.cc: one shard of the LRU cache *)

Module Cache.

(** [struct LRUHandle], without its link fields: [next_hash] is the
    hash table's chaining and [next]/[prev] the list membership, both
    kept in the shard below.  [value] and [deleter] are pointers, which
    the cache only stores and passes on. *)
Record LRUHandle : Type := {
  value : Z;
  deleter : Z;
  charge : Z;
  key : list Z;
  in_cache : bool;
  refs : Z;
  hash : Z
}.

Definition set_refs (e : LRUHandle) (n : Z) : LRUHandle :=
  {| value := value e; deleter := deleter e; charge := charge e; key := key e;
     in_cache := in_cache e; refs := n; hash := hash e |}.

Definition set_in_cache (e : LRUHandle) (b : bool) : LRUHandle :=
  {| value := value e; deleter := deleter e; charge := charge e; key := key e;
     in_cache := b; refs := refs e; hash := hash e |}.

(** A handle is the address of an [LRUHandle]; [malloc] returns a fresh
    one. *)
Definition Handle : Type := nat.

(** [class LRUCache].  The two circular lists with dummy heads [lru_]
    and [in_use_] are the sequences of their entries, from [head.next]
    (oldest) to [head.prev] (newest).  [table_] is the [HandleTable]: a
    chained hash table that holds at most one entry per (hash, key),
    which [FindPointer] locates by comparing both.  [heap] holds the
    allocated entries, and [deleted] records, in order, the entries
    whose deleter has been called on their key and value. *)
Record LRUCache : Type := {
  capacity_ : Z;
  usage_ : Z;
  lru_ : list Handle;
  in_use_ : list Handle;
  table_ : gmap (Z * list Z) Handle;
  heap : gmap Handle LRUHandle;
  next_handle : Handle;
  deleted : list (Handle * LRUHandle)
}.

Definition set_usage (s : LRUCache) (u : Z) : LRUCache :=
  {| capacity_ := capacity_ s; usage_ := u; lru_ := lru_ s; in_use_ := in_use_ s;
     table_ := table_ s; heap := heap s; next_handle := next_handle s;
     deleted := deleted s |}.

Definition set_lists (s : LRUCache) (lru in_use : list Handle) : LRUCache :=
  {| capacity_ := capacity_ s; usage_ := usage_ s; lru_ := lru; in_use_ := in_use;
     table_ := table_ s; heap := heap s; next_handle := next_handle s;
     deleted := deleted s |}.

Definition set_table (s : LRUCache) (t : gmap (Z * list Z) Handle) : LRUCache :=
  {| capacity_ := capacity_ s; usage_ := usage_ s; lru_ := lru_ s; in_use_ := in_use_ s;
     table_ := t; heap := heap s; next_handle := next_handle s;
     deleted := deleted s |}.

Definition set_heap (s : LRUCache) (h : gmap Handle LRUHandle) : LRUCache :=
  {| capacity_ := capacity_ s; usage_ := usage_ s; lru_ := lru_ s; in_use_ := in_use_ s;
     table_ := table_ s; heap := h; next_handle := next_handle s;
     deleted := deleted s |}.

(** [LRUCache::LRUCache()] followed by [SetCapacity(capacity)]. *)
Definition new (capacity : Z) : LRUCache :=
  {| capacity_ := capacity; usage_ := 0; lru_ := []; in_use_ := [];
     table_ := ∅; heap := ∅; next_handle := 0%nat; deleted := [] |}.

(** [HandleTable::Lookup(key, hash)]. *)
Definition table_Lookup (t : gmap (Z * list Z) Handle) (k : list Z) (h : Z)
    : option Handle :=
  t !! (h, k).

(** [HandleTable::Insert(h)]: the entry it replaces, and the table. *)
Definition table_Insert (t : gmap (Z * list Z) Handle) (e : Handle) (k : list Z) (h : Z)
    : option Handle * gmap (Z * list Z) Handle :=
  (t !! (h, k), <[(h, k) := e]> t).

(** [HandleTable::Remove(key, hash)]: the entry removed, and the table. *)
Definition table_Remove (t : gmap (Z * list Z) Handle) (k : list Z) (h : Z)
    : option Handle * gmap (Z * list Z) Handle :=
  (t !! (h, k), delete (h, k) t).

(** [LRUCache::LRU_Remove(e)]: unlink [e] from the list it is on. *)
Definition LRU_Remove (s : LRUCache) (e : Handle) : LRUCache :=
  set_lists s (filter (fun x => x <> e) (lru_ s)) (filter (fun x => x <> e) (in_use_ s)).

(** [LRUCache::LRU_Append(&lru_, e)] and [LRU_Append(&in_use_, e)]:
    make [e] the newest entry of the list. *)
Definition LRU_Append_lru (s : LRUCache) (e : Handle) : LRUCache :=
  set_lists s (lru_ s ++ [e]) (in_use_ s).

Definition LRU_Append_in_use (s : LRUCache) (e : Handle) : LRUCache :=
  set_lists s (lru_ s) (in_use_ s ++ [e]).

(** [refs] is a [uint32_t]. *)
Definition u32 (n : Z) : Z := n mod 2 ^ 32.

(** [usage_] is a [size_t]. *)
Definition usize (n : Z) : Z := n mod 2 ^ 64.

(** [LRUCache::Ref(e)].  A handle that is not allocated is outside
    what the source defines; the model leaves the shard as it is. *)
Definition Ref (s : LRUCache) (e : Handle) : LRUCache :=
  match heap s !! e with
  | None => s
  | Some h =>
      let s :=
        if (refs h =? 1) && in_cache h
        then LRU_Append_in_use (LRU_Remove s e) e
        else s in
      set_heap s (<[e := set_refs h (u32 (refs h + 1))]> (heap s))
  end.

(** [LRUCache::Unref(e)]. *)
Definition Unref (s : LRUCache) (e : Handle) : LRUCache :=
  match heap s !! e with
  | None => s
  | Some h =>
      let h := set_refs h (u32 (refs h - 1)) in
      let s := set_heap s (<[e := h]> (heap s)) in
      if refs h =? 0 then
        (* Deallocate. *)
        {| capacity_ := capacity_ s; usage_ := usage_ s; lru_ := lru_ s;
           in_use_ := in_use_ s; table_ := table_ s;
           heap := delete e (heap s); next_handle := next_handle s;
           deleted := deleted s ++ [(e, h)] |}
      else if in_cache h && (refs h =? 1) then
        (* No longer in use; move to lru_ list. *)
        LRU_Append_lru (LRU_Remove s e) e
      else s
  end.

(** [LRUCache::FinishErase(e)]: [e] has already been removed from the
    hash table. *)
Definition FinishErase (s : LRUCache) (e : option Handle) : bool * LRUCache :=
  match e with
  | Some e =>
      let s := LRU_Remove s e in
      let s :=
        match heap s !! e with
        | Some h =>
            set_usage (set_heap s (<[e := set_in_cache h false]> (heap s)))
              (usize (usage_ s - charge h))
        | None => s
        end in
      (true, Unref s e)
  | None => (false, s)
  end.

(** [LRUCache::Lookup(key, hash)]. *)
Definition Lookup (s : LRUCache) (k : list Z) (h : Z) : option Handle * LRUCache :=
  match table_Lookup (table_ s) k h with
  | Some e => (Some e, Ref s e)
  | None => (None, s)
  end.

(** [LRUCache::Release(handle)]. *)
Definition Release (s : LRUCache) (handle : Handle) : LRUCache := Unref s handle.

(** The eviction loop of [Insert]:
    [while (usage_ > capacity_ && lru_.next != &lru_)].  Each iteration
    that erases an entry takes it off [lru_], so [length lru_]
    iterations suffice. *)
Fixpoint evict_loop (fuel : nat) (s : LRUCache) : LRUCache :=
  match fuel with
  | O => s
  | S fuel' =>
      match lru_ s with
      | old :: _ =>
          if capacity_ s <? usage_ s then
            match heap s !! old with
            | Some h =>
                let '(e, t) := table_Remove (table_ s) (key h) (hash h) in
                evict_loop fuel' (snd (FinishErase (set_table s t) e))
            | None => s
            end
          else s
      | [] => s
      end
  end.

(** [LRUCache::Insert(key, hash, value, charge, deleter)]: the handle
    returned and the shard. *)
Definition Insert (s : LRUCache) (k : list Z) (h : Z) (v : Z) (c : Z) (d : Z)
    : Handle * LRUCache :=
  let e := next_handle s in
  let entry := {| value := v; deleter := d; charge := c; key := k;
                  in_cache := false; refs := 1; hash := h |} in
  let s := {| capacity_ := capacity_ s; usage_ := usage_ s; lru_ := lru_ s;
              in_use_ := in_use_ s; table_ := table_ s;
              heap := <[e := entry]> (heap s); next_handle := S e;
              deleted := deleted s |} in
  let s :=
    if 0 <? capacity_ s then
      let entry := set_in_cache (set_refs entry (u32 (refs entry + 1))) true in
      let s := set_heap s (<[e := entry]> (heap s)) in
      let s := LRU_Append_in_use s e in
      let s := set_usage s (usize (usage_ s + c)) in
      let '(old, t) := table_Insert (table_ s) e k h in
      snd (FinishErase (set_table s t) old)
    else (* don't cache. (capacity_==0 is supported and turns off caching.) *)
      s in
  (e, evict_loop (length (lru_ s)) s).

(** [LRUCache::Erase(key, hash)]. *)
Definition Erase (s : LRUCache) (k : list Z) (h : Z) : LRUCache :=
  let '(e, t) := table_Remove (table_ s) k h in
  snd (FinishErase (set_table s t) e).

(** [LRUCache::Prune()]: [while (lru_.next != &lru_)]. *)
Fixpoint prune_loop (fuel : nat) (s : LRUCache) : LRUCache :=
  match fuel with
  | O => s
  | S fuel' =>
      match lru_ s with
      | e :: _ =>
          match heap s !! e with
          | Some h =>
              let '(x, t) := table_Remove (table_ s) (key h) (hash h) in
              prune_loop fuel' (snd (FinishErase (set_table s t) x))
          | None => s
          end
      | [] => s
      end
  end.

Definition Prune (s : LRUCache) : LRUCache := prune_loop (length (lru_ s)) s.

(** *** A shard driven by any sequence of calls *)

Inductive call : Type :=
| CallInsert (k : list Z) (h v c d : Z)
| CallLookup (k : list Z) (h : Z)
| CallRelease (handle : Handle)
| CallErase (k : list Z) (h : Z)
| CallPrune.

Definition step (s : LRUCache) (c : call) : LRUCache :=
  match c with
  | CallInsert k h v c d => snd (Insert s k h v c d)
  | CallLookup k h => snd (Lookup s k h)
  | CallRelease handle => Release s handle
  | CallErase k h => Erase s k h
  | CallPrune => Prune s
  end.

Definition run (cs : list call) (s : LRUCache) : LRUCache := fold_left step cs s.

(** *** Capacity 0 *)

(** A shard of capacity 0 holds nothing; the entries handed out are
    not in the cache and have the one reference of their handle. *)
Definition uncached (e : LRUHandle) : Prop := in_cache e = false /\ refs e = 1.

Definition zero_inv (s : LRUCache) : Prop :=
  capacity_ s = 0 /\ usage_ s = 0 /\ lru_ s = [] /\ in_use_ s = [] /\
  table_ s = ∅ /\
  (forall h e, heap s !! h = Some e -> uncached e /\ (h < next_handle s)%nat) /\
  (forall h, h ∈ (fst <$> deleted s) -> (h < next_handle s)%nat).

Lemma new_zero_inv : zero_inv (new 0).
Proof.
  unfold zero_inv, new; simpl. split_and!; try done. intros h Hh. inversion Hh.
Qed.

Lemma Insert_zero (s : LRUCache) k h v c d :
  zero_inv s ->
  Insert s k h v c d =
  (next_handle s,
   {| capacity_ := capacity_ s; usage_ := usage_ s; lru_ := lru_ s;
      in_use_ := in_use_ s; table_ := table_ s;
      heap := <[next_handle s :=
                {| value := v; deleter := d; charge := c; key := k;
                   in_cache := false; refs := 1; hash := h |}]> (heap s);
      next_handle := S (next_handle s); deleted := deleted s |}).
Proof.
  intros (Hc & Hu & Hl & Hi & Ht & Hh & Hd). unfold Insert. simpl.
  rewrite Hc, Hl. simpl. done.
Qed.

Lemma Unref_uncached (s : LRUCache) (e : Handle) (h : LRUHandle) :
  heap s !! e = Some h -> uncached h ->
  Unref s e =
  {| capacity_ := capacity_ s; usage_ := usage_ s; lru_ := lru_ s;
     in_use_ := in_use_ s; table_ := table_ s;
     heap := delete e (heap s); next_handle := next_handle s;
     deleted := deleted s ++ [(e, set_refs h 0)] |}.
Proof.
  intros He [Hin Hr]. unfold Unref. rewrite He. simpl. rewrite Hr. simpl.
  by rewrite delete_insert_eq.
Qed.

Lemma step_zero_inv (s : LRUCache) (c : call) : zero_inv s -> zero_inv (step s c).
Proof.
  intros Hinv. pose proof Hinv as (Hc & Hu & Hl & Hi & Ht & Hh & Hd).
  destruct c as [k h v c d|k h|e|k h|]; cbn [step].
  - rewrite Insert_zero by done. unfold zero_inv; simpl. split_and!; try done.
    + intros h' e'. rewrite lookup_insert. case_decide as Hdec.
      * intros [= <-]. subst. split; [done|lia].
      * intros He. destruct (Hh _ _ He). split; [done|lia].
    + intros h' Hh'. specialize (Hd _ Hh'). lia.
  - unfold Lookup, table_Lookup. rewrite Ht, lookup_empty. done.
  - unfold Release. destruct (heap s !! e) as [h|] eqn:He.
    + destruct (Hh _ _ He) as [Hun Hlt]. rewrite (Unref_uncached s e h He Hun).
      unfold zero_inv; simpl. split_and!; try done.
      * intros h' e'. rewrite lookup_delete. case_decide; [done|]. apply Hh.
      * intros h'. rewrite fmap_app, elem_of_app. simpl.
        rewrite list_elem_of_singleton. intros [?| ->]; [by apply Hd|done].
    + unfold Unref. by rewrite He.
  - unfold Erase, table_Remove. rewrite Ht, lookup_empty. simpl.
    unfold zero_inv; simpl. rewrite delete_empty. split_and!; done.
  - unfold Prune. rewrite Hl. done.
Qed.

Lemma run_zero_inv (cs : list call) (s : LRUCache) : zero_inv s -> zero_inv (run cs s).
Proof.
  revert s. induction cs as [|c cs IH]; intros s Hinv; [done|].
  simpl. apply IH. by apply step_zero_inv.
Qed.

(** Calls other than [Release e] leave the entry of [e] alone. *)
Lemma step_zero_keeps (s : LRUCache) (c : call) (e : Handle) (h : LRUHandle) :
  zero_inv s -> heap s !! e = Some h -> c <> CallRelease e ->
  heap (step s c) !! e = Some h /\
  (deleted (step s c) = deleted s \/
   exists e' h', e' <> e /\ deleted (step s c) = deleted s ++ [(e', h')]).
Proof.
  intros Hinv He Hne. pose proof Hinv as (Hc & Hu & Hl & Hi & Ht & Hh & Hd).
  destruct c as [k hh v c d|k hh|e'|k hh|]; cbn [step].
  - rewrite Insert_zero by done. simpl. split; [|by left].
    rewrite lookup_insert_ne; [done|]. destruct (Hh _ _ He). lia.
  - unfold Lookup, table_Lookup. rewrite Ht, lookup_empty. split; [done|by left].
  - unfold Release. destruct (heap s !! e') as [h'|] eqn:He'.
    + destruct (Hh _ _ He') as [Hun Hlt].
      rewrite (Unref_uncached s e' h' He' Hun). simpl.
      assert (e' <> e) by congruence.
      split; [by rewrite lookup_delete_ne|]. right. eauto.
    + unfold Unref. rewrite He'. split; [done|by left].
  - unfold Erase, table_Remove. rewrite Ht, lookup_empty. simpl.
    split; [done|by left].
  - unfold Prune. rewrite Hl. simpl. split; [done|by left].
Qed.

Lemma run_zero_keeps (cs : list call) (s : LRUCache) (e : Handle) (h : LRUHandle) :
  zero_inv s -> heap s !! e = Some h -> CallRelease e ∉ cs ->
  e ∉ (fst <$> deleted s) ->
  heap (run cs s) !! e = Some h /\ e ∉ (fst <$> deleted (run cs s)).
Proof.
  revert s. induction cs as [|c cs IH]; intros s Hinv He Hnot Hdel; [done|].
  simpl. apply not_elem_of_cons in Hnot as [Hc Hcs].
  assert (Hc' : c <> CallRelease e) by congruence.
  destruct (step_zero_keeps s c e h Hinv He Hc') as [H1 H2].
  apply IH; [by apply step_zero_inv|done|done|].
  destruct H2 as [H2|(e' & h' & Hne & H2)]; rewrite H2; [done|].
  rewrite fmap_app. simpl. rewrite elem_of_app, list_elem_of_singleton.
  intros [?|?]; [done|congruence].
Qed.

(** C10. [Insert] into a shard whose capacity is 0 caches nothing: the
    entry gets refs = 1 and in_cache = false, the hash table, both
    lists and the usage stay as they were, a [Lookup] of the key
    returns null, no call other than the release of the returned handle
    invokes the entry's deleter, and that release invokes it. *)
Theorem Insert_capacity_zero
    (cs : list call) (k : list Z) (h v c d : Z) :
  let s := run cs (new 0) in
  let e := fst (Insert s k h v c d) in
  let s1 := snd (Insert s k h v c d) in
  let entry := {| value := v; deleter := d; charge := c; key := k;
                  in_cache := false; refs := 1; hash := h |} in
  heap s1 !! e = Some entry /\ heap s !! e = None /\
  table_ s1 = table_ s /\ table_ s1 = ∅ /\
  lru_ s1 = lru_ s /\ lru_ s1 = [] /\ in_use_ s1 = in_use_ s /\ in_use_ s1 = [] /\
  usage_ s1 = usage_ s /\ deleted s1 = deleted s /\
  (e ∉ (fst <$> deleted s1)) /\
  Lookup s1 k h = (None, s1) /\
  (forall cs' : list call, CallRelease e ∉ cs' ->
     let s2 := run cs' s1 in
     heap s2 !! e = Some entry /\ (e ∉ (fst <$> deleted s2)) /\
     Lookup s2 k h = (None, s2) /\
     deleted (Release s2 e) = deleted s2 ++ [(e, set_refs entry 0)] /\
     heap (Release s2 e) !! e = None).
Proof.
  intros s e s1 entry.
  assert (Hinv : zero_inv s) by apply run_zero_inv, new_zero_inv.
  assert (Hinv1 : zero_inv s1) by apply (step_zero_inv s (CallInsert k h v c d) Hinv).
  pose proof Hinv as (Hc & Hu & Hl & Hi & Ht & Hh & Hd).
  assert (Hfresh : heap s !! next_handle s = None).
  { destruct (heap s !! next_handle s) as [x|] eqn:E; [|done].
    destruct (Hh _ _ E). lia. }
  assert (Hdel : next_handle s ∉ (fst <$> deleted s)).
  { intros Hin. specialize (Hd _ Hin). lia. }
  assert (Hlook : forall s0, zero_inv s0 -> Lookup s0 k h = (None, s0)).
  { intros s0 (_ & _ & _ & _ & Ht0 & _). unfold Lookup, table_Lookup.
    by rewrite Ht0, lookup_empty. }
  assert (Hs1 : s1 = snd (Insert s k h v c d)) by done.
  assert (Hee : e = next_handle s).
  { unfold e. by rewrite (Insert_zero s k h v c d Hinv). }
  rewrite (Insert_zero s k h v c d Hinv) in Hs1. simpl in Hs1.
  clearbody s1 e. subst s1 e. simpl.
  assert (He1 : (<[next_handle s := entry]> (heap s)) !! next_handle s = Some entry) by apply lookup_insert_eq.
  split_and!; try done; try (by apply Hlook).
  - intros cs' Hnot.
    match goal with |- context [run cs' ?x] => set (s2 := run cs' x) in * end.
    assert (Hinv2 : zero_inv s2) by (by apply run_zero_inv).
    destruct (run_zero_keeps cs' _ _ entry Hinv1 He1 Hnot) as [H1 H2]; [done|].
    fold s2 in H1, H2. split_and!; try done.
    + by apply Hlook.
    + unfold Release. by rewrite (Unref_uncached s2 _ entry H1).
    + unfold Release. rewrite (Unref_uncached s2 _ entry H1) by done.
      simpl. by rewrite lookup_delete_eq.
Qed.

(** *** Inserts that are released at once *)

(** Removing a handle from a list. *)
Lemma filter_ne_notin (x : Handle) (l : list Handle) :
  x ∉ l -> filter (fun y => y <> x) l = l.
Proof.
  induction l as [|y l IH]; intros Hx; [done|].
  apply not_elem_of_cons in Hx as [Hne Hx].
  rewrite filter_cons_True by done. by rewrite IH.
Qed.

Lemma filter_ne_length (x : Handle) (l : list Handle) :
  NoDup l -> x ∈ l -> S (length (filter (fun y => y <> x) l)) = length l.
Proof.
  induction l as [|y l IH]; intros Hnd Hx; [by apply elem_of_nil in Hx|].
  apply NoDup_cons in Hnd as [Hy Hnd].
  destruct (decide (y = x)) as [->|Hne].
  - rewrite filter_cons_False by (intros H; by apply H).
    by rewrite filter_ne_notin.
  - rewrite filter_cons_True by done. simpl. f_equal. apply IH; [done|].
    apply elem_of_cons in Hx as [?|?]; [congruence|done].
Qed.

(** How many times the deleter of the entry [x] has been called. *)
Definition deleter_calls (s : LRUCache) (x : Handle) : nat :=
  length (filter (fun p => p.1 = x) (deleted s)).

Lemma calls_notin (x : Handle) (l : list (Handle * LRUHandle)) :
  x ∉ (fst <$> l) -> length (filter (fun p => p.1 = x) l) = 0%nat.
Proof.
  induction l as [|[y e] l IH]; intros Hx; [done|].
  rewrite fmap_cons in Hx. apply not_elem_of_cons in Hx as [Hne Hx].
  rewrite filter_cons_False by (simpl in *; congruence). by apply IH.
Qed.

Lemma calls_nodup (x : Handle) (l : list (Handle * LRUHandle)) :
  NoDup (fst <$> l) -> x ∈ (fst <$> l) -> length (filter (fun p => p.1 = x) l) = 1%nat.
Proof.
  induction l as [|[y e] l IH]; intros Hnd Hx; [by apply elem_of_nil in Hx|].
  rewrite fmap_cons in Hnd, Hx. apply NoDup_cons in Hnd as [Hy Hnd].
  destruct (decide (y = x)) as [->|Hne].
  - rewrite filter_cons_True by done. simpl. f_equal. by apply calls_notin.
  - rewrite filter_cons_False by (simpl; congruence). apply IH; [done|].
    apply elem_of_cons in Hx as [?|?]; [simpl in *; congruence|done].
Qed.

(** [FinishErase] on an entry of [lru_] that only the cache refers to. *)
Lemma FinishErase_lru (s : LRUCache) (x : Handle) (e : LRUHandle) :
  heap s !! x = Some e -> refs e = 1 -> x ∉ in_use_ s ->
  0 <= usage_ s - charge e < 2 ^ 64 ->
  snd (FinishErase s (Some x)) =
  {| capacity_ := capacity_ s; usage_ := usage_ s - charge e;
     lru_ := filter (fun y => y <> x) (lru_ s); in_use_ := in_use_ s;
     table_ := table_ s; heap := delete x (heap s);
     next_handle := next_handle s;
     deleted := deleted s ++ [(x, set_refs (set_in_cache e false) 0)] |}.
Proof.
  intros He Hrefs Hx Hu.
  unfold FinishErase, LRU_Remove. simpl. rewrite He. simpl.
  unfold Unref. simpl. rewrite lookup_insert_eq. simpl. rewrite Hrefs.
  change (u32 (1 - 1)) with 0. simpl.
  f_equal.
  - unfold usize. apply Z.mod_small. lia.
  - by apply filter_ne_notin.
  - by rewrite !delete_insert_eq.
Qed.

(** [Release] of the only outside reference to a cached entry. *)
Lemma Release_in_use (s : LRUCache) (x : Handle) (e : LRUHandle) :
  heap s !! x = Some e -> refs e = 2 -> in_cache e = true ->
  x ∉ lru_ s -> in_use_ s = [x] ->
  Release s x =
  {| capacity_ := capacity_ s; usage_ := usage_ s;
     lru_ := lru_ s ++ [x]; in_use_ := [];
     table_ := table_ s; heap := <[x := set_refs e 1]> (heap s);
     next_handle := next_handle s; deleted := deleted s |}.
Proof.
  intros He Hrefs Hc Hx Hiu.
  unfold Release, Unref. rewrite He. simpl. rewrite Hrefs, Hc.
  change (u32 (2 - 1)) with 1. simpl.
  unfold LRU_Append_lru, LRU_Remove, set_lists. simpl.
  rewrite Hiu, filter_ne_notin by done.
  f_equal. rewrite filter_cons_False, filter_nil; [done|]. intros H. by apply H.
Qed.

Section Workload.

(** The capacity of the shard and the charge of every entry. *)
Variable C : Z.
Variable c : Z.
Hypothesis C_pos : 0 < C.
Hypothesis c_fits : 0 <= c <= C.
Hypothesis no_wrap : C + c < 2 ^ 64.

(** An insert: key, hash, value and deleter. *)
Definition item : Type := (list Z * Z * Z * Z)%type.

(** [Release(Insert(key, hash, value, c, deleter))]. *)
Definition insert_release (s : LRUCache) (it : item) : LRUCache :=
  let '(k, h, v, d) := it in
  let '(e, s) := Insert s k h v c d in
  Release s e.

Definition described (it : item) (e : LRUHandle) : Prop :=
  it = (key e, hash e, value e, deleter e).

(** The entries on the two lists. *)
Definition live (s : LRUCache) : list Handle := lru_ s ++ in_use_ s.

(** The shard after the inserts [items], with the handles on [in_use_]
    still held. *)
Record inv (items : list item) (s : LRUCache) : Prop := {
  inv_capacity : capacity_ s = C;
  inv_next : next_handle s = length items;
  inv_nodup : NoDup (live s);
  inv_usage : usage_ s = c * Z.of_nat (length (live s));
  inv_bound : usage_ s <= C + c;
  inv_heap : forall x e, heap s !! x = Some e ->
    x ∈ live s /\ in_cache e = true /\ charge e = c /\
    refs e = (if bool_decide (x ∈ in_use_ s) then 2 else 1) /\
    table_ s !! (hash e, key e) = Some x /\
    (exists it, items !! x = Some it /\ described it e);
  inv_live : forall x, x ∈ live s -> is_Some (heap s !! x);
  inv_table : forall kk x, table_ s !! kk = Some x ->
    exists e, heap s !! x = Some e /\ kk = (hash e, key e);
  inv_deleted_nodup : NoDup (fst <$> deleted s);
  inv_deleted : forall x, (x < length items)%nat ->
    (x ∈ live s <-> x ∉ (fst <$> deleted s));
  inv_deleted_items : forall x e, (x, e) ∈ deleted s ->
    exists it, items !! x = Some it /\ described it e
}.

Lemma new_inv : inv [] (new C).
Proof.
  split; simpl; try done.
  - unfold live. simpl. constructor.
  - unfold live. simpl. lia.
  - lia.
  - intros x Hx. by apply elem_of_nil in Hx.
  - constructor.
  - intros x Hx. lia.
  - intros x e Hx. by apply elem_of_nil in Hx.
Qed.

Lemma inv_live_lt items s x : inv items s -> x ∈ live s -> (x < length items)%nat.
Proof.
  intros Hinv Hx. destruct (inv_live _ _ Hinv x Hx) as [e He].
  destruct (inv_heap _ _ Hinv x e He) as (_ & _ & _ & _ & _ & it & Hit & _).
  by apply lookup_lt_Some in Hit.
Qed.

(** The shard once the entry [x] of [lru_] has been erased. *)
Definition erased (s : LRUCache) (x : Handle) (e : LRUHandle) : LRUCache :=
  {| capacity_ := capacity_ s; usage_ := usage_ s - charge e;
     lru_ := filter (fun y => y <> x) (lru_ s); in_use_ := in_use_ s;
     table_ := delete (hash e, key e) (table_ s);
     heap := delete x (heap s); next_handle := next_handle s;
     deleted := deleted s ++ [(x, set_refs (set_in_cache e false) 0)] |}.

Lemma erased_inv items s x e :
  inv items s -> x ∈ lru_ s -> heap s !! x = Some e -> inv items (erased s x e).
Proof.
  intros Hinv Hx He.
  destruct (inv_heap _ _ Hinv x e He) as (Hlive & Hin & Hch & Hrefs & Htab & it & Hit & Hdesc).
  pose proof (inv_nodup _ _ Hinv) as Hnd.
  assert (Hnotin : x ∉ in_use_ s).
  { unfold live in Hnd. apply NoDup_app in Hnd as (_ & Hdis & _). by apply Hdis. }
  assert (Hlive' : live (erased s x e) = filter (fun y => y <> x) (live s)).
  { unfold live, erased. simpl. rewrite filter_app.
    by rewrite (filter_ne_notin x (in_use_ s)). }
  pose proof (filter_ne_length x (live s) Hnd Hlive) as Hlen.
  assert (Hmem : forall y, y ∈ live (erased s x e) <-> y <> x /\ y ∈ live s).
  { intros y. rewrite Hlive'. by rewrite list_elem_of_filter. }
  split.
  - apply (inv_capacity _ _ Hinv).
  - apply (inv_next _ _ Hinv).
  - rewrite Hlive'. by apply NoDup_filter.
  - rewrite Hlive'. simpl. rewrite (inv_usage _ _ Hinv), Hch. lia.
  - simpl. pose proof (inv_bound _ _ Hinv). rewrite Hch. lia.
  - intros y ey. simpl. destruct (decide (x = y)) as [->|Hne].
    { by rewrite lookup_delete_eq. }
    rewrite lookup_delete_ne by done.
    intros Hy. destruct (inv_heap _ _ Hinv y ey Hy) as (H1 & H2 & H3 & H4 & H5 & H6).
    split_and!; try done.
    + apply Hmem. split; [congruence|done].
    + rewrite lookup_delete_ne; [done|]. intros Heq. rewrite Heq in Htab. congruence.
  - intros y Hy. apply Hmem in Hy as [Hne Hy]. simpl.
    rewrite lookup_delete_ne by done. by apply (inv_live _ _ Hinv).
  - intros kk y. simpl. destruct (decide ((hash e, key e) = kk)) as [<-|Hne].
    { by rewrite lookup_delete_eq. }
    rewrite lookup_delete_ne by done.
    intros Hy. destruct (inv_table _ _ Hinv kk y Hy) as (ey & Hey & Hkk).
    exists ey. split; [|done]. rewrite lookup_delete_ne; [done|].
    intros <-. rewrite He in Hey. congruence.
  - simpl. rewrite fmap_app. simpl. apply NoDup_app. split_and!.
    + apply (inv_deleted_nodup _ _ Hinv).
    + intros y Hy Hy'. apply list_elem_of_singleton in Hy'. subst y.
      apply (inv_deleted _ _ Hinv x); [|done|done].
      by apply (inv_live_lt items s).
    + apply NoDup_singleton.
  - intros y Hy. rewrite Hmem. simpl. rewrite fmap_app. simpl.
    rewrite elem_of_app, list_elem_of_singleton.
    pose proof (inv_deleted _ _ Hinv y Hy) as Hiff.
    destruct (decide (y = x)) as [->|Hne]; [tauto|]. tauto.
  - intros y ey. simpl. rewrite elem_of_app, list_elem_of_singleton.
    intros [Hy|[= -> ->]]; [by apply (inv_deleted_items _ _ Hinv)|].
    exists it. split; [done|]. exact Hdesc.
Qed.

(** The shard once a new entry has been installed for [k], [h]. *)
Definition added (s : LRUCache) (k : list Z) (h v d : Z) : LRUCache :=
  {| capacity_ := capacity_ s; usage_ := usage_ s + c;
     lru_ := lru_ s; in_use_ := in_use_ s ++ [next_handle s];
     table_ := <[(h, k) := next_handle s]> (table_ s);
     heap := <[next_handle s :=
               {| value := v; deleter := d; charge := c; key := k;
                  in_cache := true; refs := 2; hash := h |}]> (heap s);
     next_handle := S (next_handle s); deleted := deleted s |}.

Lemma added_inv items s k h v d :
  inv items s -> in_use_ s = [] -> usage_ s <= C -> table_ s !! (h, k) = None ->
  inv (items ++ [(k, h, v, d)]) (added s k h v d).
Proof.
  intros Hinv Hiu Hu Hnone.
  assert (Hfresh : next_handle s ∉ live s).
  { intros Hin. apply (inv_live_lt items s) in Hin; [|done].
    rewrite (inv_next _ _ Hinv) in Hin. lia. }
  assert (Hlive' : live (added s k h v d) = live s ++ [next_handle s]).
  { unfold live, added. simpl. by rewrite app_assoc. }
  assert (Hheapnone : heap s !! next_handle s = None).
  { destruct (heap s !! next_handle s) as [e|] eqn:E; [|done].
    destruct (inv_heap _ _ Hinv _ _ E) as (Hin & _). done. }
  split.
  - apply (inv_capacity _ _ Hinv).
  - simpl. rewrite length_app, (inv_next _ _ Hinv). simpl. lia.
  - rewrite Hlive'. apply NoDup_app. split_and!.
    + apply (inv_nodup _ _ Hinv).
    + intros y Hy Hy'. apply list_elem_of_singleton in Hy'. by subst.
    + apply NoDup_singleton.
  - rewrite Hlive', length_app. simpl. rewrite (inv_usage _ _ Hinv). lia.
  - simpl. lia.
  - intros y ey. simpl. rewrite Hiu. simpl.
    destruct (decide (next_handle s = y)) as [<-|Hne].
    + rewrite lookup_insert_eq. intros [= <-]. simpl.
      split_and!; try done.
      * rewrite Hlive'. apply elem_of_app. right. by apply list_elem_of_singleton.
      * rewrite bool_decide_eq_true_2; [done|]. by apply list_elem_of_singleton.
      * by rewrite lookup_insert_eq.
      * exists (k, h, v, d). split; [|done].
        rewrite (inv_next _ _ Hinv). by rewrite lookup_app_r, Nat.sub_diag.
    + rewrite lookup_insert_ne by done. intros Hy.
      destruct (inv_heap _ _ Hinv y ey Hy) as (H1 & H2 & H3 & H4 & H5 & it & H6 & H7).
      split_and!; try done.
      * rewrite Hlive'. apply elem_of_app. by left.
      * rewrite H4, Hiu. rewrite bool_decide_eq_false_2 by apply not_elem_of_nil.
        rewrite bool_decide_eq_false_2; [done|].
        rewrite list_elem_of_singleton. congruence.
      * rewrite lookup_insert_ne; [done|]. intros Heq. rewrite <- Heq in H5. congruence.
      * exists it. split; [|done]. apply lookup_app_l_Some. done.
  - intros y. rewrite Hlive', elem_of_app, list_elem_of_singleton. simpl.
    intros [Hy| ->].
    + rewrite lookup_insert_ne; [by apply (inv_live _ _ Hinv)|]. congruence.
    + rewrite lookup_insert_eq. eauto.
  - intros kk y. simpl. destruct (decide ((h, k) = kk)) as [<-|Hne].
    + rewrite lookup_insert_eq. intros [= <-]. rewrite lookup_insert_eq. eauto.
    + rewrite lookup_insert_ne by done. intros Hy.
      destruct (inv_table _ _ Hinv kk y Hy) as (ey & Hey & Hkk).
      exists ey. split; [|done]. rewrite lookup_insert_ne; [done|]. congruence.
  - apply (inv_deleted_nodup _ _ Hinv).
  - intros y. rewrite length_app. simpl. intros Hy.
    rewrite Hlive', elem_of_app, list_elem_of_singleton. simpl.
    destruct (decide (y = next_handle s)) as [->|Hne].
    + split; [|tauto]. intros _ Hd.
      apply list_elem_of_fmap in Hd as ([y' e'] & Hy' & Hd). simpl in Hy'. subst y'.
      destruct (inv_deleted_items _ _ Hinv _ _ Hd) as (it & Hit & _).
      apply lookup_lt_Some in Hit. rewrite (inv_next _ _ Hinv) in Hit. lia.
    + assert (Hne' : y <> length items) by (rewrite <- (inv_next _ _ Hinv); done).
      pose proof (inv_deleted _ _ Hinv y ltac:(lia)) as Hd.
      split; [intros [Hl|Hl]; [by apply Hd|done]|intros Hl; left; by apply Hd].
  - intros y ey. simpl. intros Hy.
    destruct (inv_deleted_items _ _ Hinv _ _ Hy) as (it & Hit & Hd).
    exists it. split; [|done]. by apply lookup_app_l_Some.
Qed.

(** The shard once the handle of the entry [e0] on [in_use_] has been
    released. *)
Definition released (s : LRUCache) (e0 : Handle) (e : LRUHandle) : LRUCache :=
  {| capacity_ := capacity_ s; usage_ := usage_ s;
     lru_ := lru_ s ++ [e0]; in_use_ := [];
     table_ := table_ s; heap := <[e0 := set_refs e 1]> (heap s);
     next_handle := next_handle s; deleted := deleted s |}.

Lemma released_inv items s e0 e :
  inv items s -> in_use_ s = [e0] -> heap s !! e0 = Some e ->
  inv items (released s e0 e).
Proof.
  intros Hinv Hiu He.
  assert (Hlive' : live (released s e0 e) = live s).
  { unfold live, released. simpl. by rewrite Hiu, app_nil_r. }
  split; try (rewrite ?Hlive'; by apply Hinv).
  - intros y ey. simpl. destruct (decide (e0 = y)) as [<-|Hne].
    + rewrite lookup_insert_eq. intros [= <-].
      destruct (inv_heap _ _ Hinv _ _ He) as (H1 & H2 & H3 & H4 & H5 & H6).
      rewrite Hlive'. split_and!; try done.
    + rewrite lookup_insert_ne by done. intros Hy.
      destruct (inv_heap _ _ Hinv _ _ Hy) as (H1 & H2 & H3 & H4 & H5 & H6).
      rewrite Hlive'. split_and!; try done.
      rewrite H4, Hiu. rewrite bool_decide_eq_false_2; [done|].
      rewrite list_elem_of_singleton. congruence.
  - intros y. rewrite Hlive'. simpl. intros Hy.
    destruct (decide (e0 = y)) as [<-|Hne].
    + rewrite lookup_insert_eq. eauto.
    + rewrite lookup_insert_ne by done. by apply (inv_live _ _ Hinv).
  - intros kk y. simpl. intros Hy.
    destruct (inv_table _ _ Hinv kk y Hy) as (ey & Hey & Hkk).
    destruct (decide (e0 = y)) as [<-|Hne].
    + rewrite lookup_insert_eq. rewrite He in Hey. injection Hey as <-. eauto.
    + rewrite lookup_insert_ne by done. eauto.
Qed.

(** One iteration of the eviction loop. *)
Lemma evict_step items s x rest e fuel :
  inv items s -> lru_ s = x :: rest -> heap s !! x = Some e -> C < usage_ s ->
  evict_loop (S fuel) s = evict_loop fuel (erased s x e).
Proof.
  intros Hinv Hlru He Hu.
  destruct (inv_heap _ _ Hinv _ _ He) as (H1 & H2 & H3 & H4 & H5 & H6).
  assert (Hx : x ∈ lru_ s) by (rewrite Hlru; apply elem_of_cons; by left).
  assert (Hni : x ∉ in_use_ s).
  { pose proof (inv_nodup _ _ Hinv) as Hnd. unfold live in Hnd.
    apply NoDup_app in Hnd as (_ & Hnd & _). by apply Hnd. }
  simpl. rewrite Hlru, (inv_capacity _ _ Hinv).
  rewrite (proj2 (Z.ltb_lt _ _) Hu), He.
  unfold table_Remove. rewrite H5.
  rewrite (FinishErase_lru _ x e); simpl; try done.
  - rewrite H4. by rewrite bool_decide_eq_false_2.
  - pose proof (inv_bound _ _ Hinv). lia.
Qed.

Lemma evict_loop_inv items e0 fuel : forall s,
  inv items s -> (length (lru_ s) <= fuel)%nat -> in_use_ s = [e0] ->
  inv items (evict_loop fuel s) /\ in_use_ (evict_loop fuel s) = [e0] /\
  usage_ (evict_loop fuel s) <= C.
Proof.
  induction fuel as [|fuel IH]; intros s Hinv Hlen Hiu.
  - simpl. split_and!; try done.
    rewrite (inv_usage _ _ Hinv). unfold live. rewrite Hiu.
    destruct (lru_ s); simpl in *; lia.
  - destruct (lru_ s) as [|x rest] eqn:Hlru.
    + simpl. rewrite Hlru. split_and!; try done.
      rewrite (inv_usage _ _ Hinv). unfold live. rewrite Hiu, Hlru. simpl. lia.
    + destruct (Z.ltb_spec C (usage_ s)) as [Hu|Hu].
      * assert (Hx : x ∈ lru_ s) by (rewrite Hlru; apply elem_of_cons; by left).
        assert (Hxl : x ∈ live s) by (apply elem_of_app; by left).
        destruct (inv_live _ _ Hinv x Hxl) as [e He].
        rewrite (evict_step items s x rest e) by done.
        apply IH.
        -- by apply erased_inv.
        -- simpl. pose proof (inv_nodup _ _ Hinv) as Hnd. unfold live in Hnd.
           apply NoDup_app in Hnd as (Hnd & _).
           pose proof (filter_ne_length x (lru_ s) Hnd Hx) as Hl.
           rewrite <- Hlru in Hlen. lia.
        -- done.
      * simpl. rewrite Hlru, (inv_capacity _ _ Hinv).
        rewrite (proj2 (Z.ltb_ge _ _) Hu). done.
Qed.

(** [Insert] up to its eviction loop. *)
Lemma Insert_eq items s k h v d :
  inv items s -> in_use_ s = [] -> usage_ s <= C ->
  exists pre,
    inv (items ++ [(k, h, v, d)]) pre /\ in_use_ pre = [length items] /\
    Insert s k h v c d = (length items, evict_loop (length (lru_ pre)) pre).
Proof.
  intros Hinv Hiu Hu.
  assert (Hu0 : 0 <= usage_ s).
  { rewrite (inv_usage _ _ Hinv). lia. }
  unfold Insert. simpl. rewrite (inv_capacity _ _ Hinv).
  rewrite (proj2 (Z.ltb_lt _ _) C_pos).
  change (u32 (1 + 1)) with 2.
  unfold table_Insert. simpl.
  destruct (table_ s !! (h, k)) as [x|] eqn:Hold.
  - destruct (inv_table _ _ Hinv _ _ Hold) as (e & He & Hkk).
    destruct (inv_heap _ _ Hinv _ _ He) as (H1 & H2 & H3 & H4 & H5 & H6).
    assert (Hx : x ∈ lru_ s).
    { unfold live in H1. by rewrite Hiu, app_nil_r in H1. }
    assert (Hlt : (x < next_handle s)%nat).
    { rewrite (inv_next _ _ Hinv). by apply (inv_live_lt items s). }
    exists (added (erased s x e) k h v d). split_and!.
    + apply added_inv; simpl; try done.
      * by apply erased_inv.
      * rewrite H3. lia.
      * rewrite <- Hkk. apply lookup_delete_eq.
    + simpl. by rewrite Hiu, (inv_next _ _ Hinv).
    + f_equal; [by rewrite (inv_next _ _ Hinv)|].
      rewrite (FinishErase_lru _ x e); simpl.
      * f_equal. unfold added, erased. simpl. rewrite Hiu. simpl.
        f_equal.
        -- by rewrite (inv_capacity _ _ Hinv).
        -- unfold usize. rewrite Z.mod_small by lia. lia.
        -- rewrite <- Hkk. by rewrite insert_delete_eq.
        -- rewrite insert_insert_eq. apply delete_insert_ne. lia.
      * rewrite lookup_insert_ne by lia. by rewrite lookup_insert_ne by lia.
      * rewrite H4, Hiu. done.
      * rewrite Hiu. simpl. rewrite list_elem_of_singleton. lia.
      * unfold usize. rewrite Z.mod_small by lia. lia.
  - exists (added s k h v d). split_and!.
    + by apply added_inv.
    + simpl. by rewrite Hiu, (inv_next _ _ Hinv).
    + f_equal; [by rewrite (inv_next _ _ Hinv)|].
      simpl. unfold added, set_table, set_usage, LRU_Append_in_use, set_lists, set_heap.
      simpl. rewrite Hiu. simpl. f_equal. f_equal.
      * by rewrite (inv_capacity _ _ Hinv).
      * unfold usize. rewrite Z.mod_small by lia. done.
      * by rewrite insert_insert_eq.
Qed.

(** The shard between two inserts: no handle is held. *)
Definition steady (items : list item) (s : LRUCache) : Prop :=
  inv items s /\ in_use_ s = [] /\ usage_ s <= C.

Lemma insert_release_steady items s it :
  steady items s -> steady (items ++ [it]) (insert_release s it).
Proof.
  intros (Hinv & Hiu & Hu). destruct it as [[[k h] v] d].
  destruct (Insert_eq items s k h v d Hinv Hiu Hu) as (pre & Hpre & Hpiu & Heq).
  unfold insert_release. rewrite Heq.
  destruct (evict_loop_inv _ (length items) (length (lru_ pre)) pre Hpre
              ltac:(lia) Hpiu) as (Hinv' & Hiu' & Hu').
  set (s' := evict_loop (length (lru_ pre)) pre) in *.
  assert (Hin : length items ∈ live s').
  { unfold live. rewrite Hiu'. apply elem_of_app. right. by apply list_elem_of_singleton. }
  destruct (inv_live _ _ Hinv' _ Hin) as [e He].
  destruct (inv_heap _ _ Hinv' _ _ He) as (H1 & H2 & H3 & H4 & H5 & H6).
  assert (Hnl : length items ∉ lru_ s').
  { pose proof (inv_nodup _ _ Hinv') as Hnd. unfold live in Hnd.
    apply NoDup_app in Hnd as (_ & Hnd & _). intros Hl. apply (Hnd _ Hl).
    rewrite Hiu'. by apply list_elem_of_singleton. }
  rewrite (Release_in_use s' (length items) e); try done.
  - split_and!; try done. by apply (released_inv _ s' (length items) e).
  - rewrite H4, Hiu'. rewrite bool_decide_eq_true_2; [done|].
    by apply list_elem_of_singleton.
Qed.

Lemma fold_insert_release_steady items : forall done_ s,
  steady done_ s -> steady (done_ ++ items) (fold_left insert_release items s).
Proof.
  induction items as [|it items IH]; intros done_ s Hs.
  - simpl. by rewrite app_nil_r.
  - simpl. replace (done_ ++ it :: items) with ((done_ ++ [it]) ++ items)
      by (by rewrite <- app_assoc).
    apply IH. by apply insert_release_steady.
Qed.

(** C3, with every handle released: in a shard of capacity [C > 0],
    after any sequence of [Release(Insert(key, hash, value, c, deleter))]
    with one charge [0 <= c <= C] for every entry ([usage_ + c] not
    wrapping around), [usage_] is at most [C], and every inserted entry,
    the [i]-th being the one with handle [i], is either still the entry
    the table holds for its key, on [lru_] and with its deleter never
    called, or it is out of the table and freed and its deleter has been
    called exactly once, on its key and value. *)
Theorem insert_release_usage_bounded (items : list item) :
  let s := fold_left insert_release items (new C) in
  usage_ s <= C /\
  forall i k h v d, items !! i = Some (k, h, v, d) ->
    (exists e, heap s !! i = Some e /\ described (k, h, v, d) e /\
               in_cache e = true /\ i ∈ lru_ s /\
               table_Lookup (table_ s) k h = Some i /\
               deleter_calls s i = 0%nat) \/
    (exists e, (i, e) ∈ deleted s /\ described (k, h, v, d) e /\
               heap s !! i = None /\ table_Lookup (table_ s) k h <> Some i /\
               deleter_calls s i = 1%nat).
Proof.
  intros s.
  assert (Hs : steady items s).
  { apply (fold_insert_release_steady items [] (new C)).
    split_and!; [apply new_inv|done|simpl; lia]. }
  destruct Hs as (Hinv & Hiu & Hu). split; [done|].
  intros i k h v d Hi.
  assert (Hlt : (i < length items)%nat) by (by apply lookup_lt_Some in Hi).
  pose proof (inv_deleted _ _ Hinv i Hlt) as Hd.
  destruct (decide (i ∈ (fst <$> deleted s))) as [Hin|Hnin].
  - right. apply list_elem_of_fmap in Hin as Hin'. destruct Hin' as ([i' e] & Hi' & Hie).
    simpl in Hi'. subst i'.
    destruct (inv_deleted_items _ _ Hinv _ _ Hie) as (it & Hit & Hdesc).
    pose proof (eq_trans (eq_sym Hit) Hi) as Heq. injection Heq as ->.
    assert (Hnl : i ∉ live s) by (intros Hl; by apply Hd in Hl).
    exists e. split_and!; try done.
    + destruct (heap s !! i) as [e'|] eqn:He'; [|done].
      destruct (inv_heap _ _ Hinv _ _ He') as (Hl & _). done.
    + unfold table_Lookup. intros Ht.
      destruct (inv_table _ _ Hinv _ _ Ht) as (e' & He' & _).
      destruct (inv_heap _ _ Hinv _ _ He') as (Hl & _). done.
    + apply calls_nodup; [apply (inv_deleted_nodup _ _ Hinv)|done].
  - left. apply Hd in Hnin as Hl.
    destruct (inv_live _ _ Hinv _ Hl) as [e He].
    destruct (inv_heap _ _ Hinv _ _ He) as (H1 & H2 & H3 & H4 & H5 & it & Hit & Hdesc).
    pose proof (eq_trans (eq_sym Hit) Hi) as Heq. injection Heq as ->.
    exists e. split_and!; try done.
    + unfold live in Hl. by rewrite Hiu, app_nil_r in Hl.
    + unfold table_Lookup. unfold described in Hdesc. by injection Hdesc as -> -> _ _.
    + by apply calls_notin.
Qed.

End Workload.

(** A shard of capacity 2 and five entries of charge 1, the fourth
    replacing the second: the entries 0, 1 and 2 have been deleted. *)
Definition example_items : list item :=
  [([1], 1, 10, 0); ([2], 2, 20, 0); ([3], 3, 30, 0); ([2], 2, 21, 0); ([4], 4, 40, 0)].

Lemma insert_release_usage_bounded_witness :
  usage_ (fold_left (insert_release 1) example_items (new 2)) <= 2.
Proof.
  apply (insert_release_usage_bounded 2 1 ltac:(lia) ltac:(lia) ltac:(lia) example_items).
Defined.

(** Two inserts of charge 1 into a shard of capacity 1 whose handles
    are still held: neither entry can be evicted and [usage_] is 2. *)
Lemma Insert_only_usage_exceeds :
  let s := run [CallInsert [1] 1 10 1 0; CallInsert [2] 2 20 1 0] (new 1) in
  capacity_ s = 1 /\ usage_ s = 2 /\ in_use_ s = [0%nat; 1%nat] /\ lru_ s = [] /\
  deleted s = [].
Proof. vm_compute. done. Qed.

(** *** A shard and the handles its clients hold *)

(** [H x] counts the handles to the entry [x] that [Insert] and
    [Lookup] have returned and [Release] has not yet been given. *)
Definition acquire (H : Handle -> nat) (x : Handle) : Handle -> nat :=
  fun y => if decide (y = x) then S (H y) else H y.

Definition release (H : Handle -> nat) (x : Handle) : Handle -> nat :=
  fun y => if decide (y = x) then Nat.pred (H y) else H y.

Definition charge_of (s : LRUCache) (x : Handle) : Z :=
  match heap s !! x with Some e => charge e | None => 0 end.

Definition sumZ (l : list Z) : Z := foldr Z.add 0 l.

(** The charges of the entries on the two lists. *)
Definition total_charge (s : LRUCache) : Z := sumZ (charge_of s <$> live s).

(** An allocated entry: [refs] counts the handles, and one more when
    the entry is in the cache; a cached entry is on [lru_] when it has
    no handle and on [in_use_] when it has, and the table has it at its
    key. *)
Record entry_ok (H : Handle -> nat) (s : LRUCache) (x : Handle) (e : LRUHandle) : Prop := {
  ok_refs : refs e = Z.of_nat (H x) + Z.b2z (in_cache e);
  ok_pos : 0 < refs e < 2 ^ 32;
  ok_lru : x ∈ lru_ s <-> in_cache e = true /\ H x = 0%nat;
  ok_in_use : x ∈ in_use_ s <-> in_cache e = true /\ H x <> 0%nat;
  ok_table : in_cache e = true -> table_ s !! (hash e, key e) = Some x;
  ok_fresh : (x < next_handle s)%nat
}.

Record cinv (H : Handle -> nat) (s : LRUCache) : Prop := {
  cinv_lru : NoDup (lru_ s);
  cinv_in_use : NoDup (in_use_ s);
  cinv_heap : forall (x : Handle) e, heap s !! x = Some e -> entry_ok H s x e;
  cinv_free : forall x : Handle, heap s !! x = None ->
    (x ∉ lru_ s) /\ (x ∉ in_use_ s) /\ H x = 0%nat;
  cinv_table : forall kk (x : Handle), table_ s !! kk = Some x ->
    exists e, heap s !! x = Some e /\ in_cache e = true /\ kk = (hash e, key e);
  cinv_usage : usage_ s = usize (total_charge s);
  cinv_deleted : NoDup (fst <$> deleted s);
  cinv_deleted_free : forall (x : Handle) e, (x, e) ∈ deleted s ->
    heap s !! x = None /\ (x < next_handle s)%nat /\ refs e = 0 /\ in_cache e = false;
  cinv_freed : forall x : Handle, (x < next_handle s)%nat -> heap s !! x = None ->
    x ∈ (fst <$> deleted s)
}.

Lemma new_cinv capacity : cinv (fun _ => 0%nat) (new capacity).
Proof.
  split; simpl; try done.
  - constructor.
  - constructor.
  - intros x _. split_and!; [intros Hx; by apply elem_of_nil in Hx..|done].
  - constructor.
  - intros x e Hx. by apply elem_of_nil in Hx.
  - intros x Hx. lia.
Qed.

Lemma sumZ_app l1 l2 : sumZ (l1 ++ l2) = sumZ l1 + sumZ l2.
Proof. induction l1 as [|a l1 IH]; simpl; [done|]. rewrite IH. lia. Qed.

Lemma sumZ_Permutation l1 l2 : l1 ≡ₚ l2 -> sumZ l1 = sumZ l2.
Proof. induction 1; simpl; lia. Qed.

Lemma sumZ_cons a l : sumZ (a :: l) = a + sumZ l.
Proof. done. Qed.

Lemma sumZ_ext {A} (f g : A -> Z) (l : list A) :
  (forall y, y ∈ l -> f y = g y) -> sumZ (f <$> l) = sumZ (g <$> l).
Proof.
  induction l as [|a l IH]; intros Hfg; [done|]. rewrite !fmap_cons, !sumZ_cons.
  rewrite (Hfg a) by (by left). rewrite IH; [done|]. intros y Hy. apply Hfg. by right.
Qed.

Lemma filter_ne_Permutation (x : Handle) (l : list Handle) :
  NoDup l -> x ∈ l -> l ≡ₚ x :: filter (fun y => y <> x) l.
Proof.
  induction l as [|y l IH]; intros Hnd Hx; [by apply elem_of_nil in Hx|].
  apply NoDup_cons in Hnd as [Hy Hnd].
  destruct (decide (y = x)) as [->|Hne].
  - rewrite filter_cons_False by (intros H; by apply H).
    by rewrite filter_ne_notin.
  - rewrite filter_cons_True by done.
    apply elem_of_cons in Hx as [?|Hx]; [congruence|].
    rewrite (IH Hnd Hx) at 1. apply Permutation_swap.
Qed.

Lemma filter_ne_elem (x y : Handle) (l : list Handle) :
  y ∈ filter (fun z => z <> x) l <-> y ∈ l /\ y <> x.
Proof. rewrite list_elem_of_filter. tauto. Qed.

Lemma usize_add a b : usize (usize a + b) = usize (a + b).
Proof. unfold usize. by rewrite Zplus_mod_idemp_l. Qed.

Lemma usize_sub a b : usize (usize a - b) = usize (a - b).
Proof. unfold usize. by rewrite Zminus_mod_idemp_l. Qed.

(** A step that changes one entry, [x], and the table at its key. *)
Lemma cinv_change (H : Handle -> nat) (s : LRUCache) (H' : Handle -> nat) (s' : LRUCache)
    (x : Handle) :
  cinv H s ->
  (forall y : Handle, y <> x ->
     heap s' !! y = heap s !! y /\ H' y = H y /\
     (y ∈ lru_ s' <-> y ∈ lru_ s) /\ (y ∈ in_use_ s' <-> y ∈ in_use_ s) /\
     ((y < next_handle s')%nat -> (y < next_handle s)%nat)) ->
  (next_handle s <= next_handle s')%nat ->
  NoDup (lru_ s') -> NoDup (in_use_ s') ->
  (forall kk z, z <> x -> table_ s' !! kk = Some z <-> table_ s !! kk = Some z) ->
  (forall kk, table_ s' !! kk = Some x ->
     exists e', heap s' !! x = Some e' /\ in_cache e' = true /\ kk = (hash e', key e')) ->
  (forall e', heap s' !! x = Some e' -> entry_ok H' s' x e') ->
  (heap s' !! x = None -> (x ∉ lru_ s') /\ (x ∉ in_use_ s') /\ H' x = 0%nat) ->
  usage_ s' = usize (total_charge s') ->
  (deleted s' = deleted s \/
   exists e0, deleted s' = deleted s ++ [(x, e0)] /\ is_Some (heap s !! x) /\
     heap s' !! x = None /\ refs e0 = 0 /\ in_cache e0 = false) ->
  ((x < next_handle s')%nat -> heap s' !! x = None -> x ∈ (fst <$> deleted s')) ->
  (heap s !! x = None -> is_Some (heap s' !! x) -> (next_handle s <= x)%nat) ->
  cinv H' s'.
Proof.
  intros Hinv Hframe Hnext Hnd1 Hnd2 Htab Htabx Hx Hxfree Husage Hdel Hfreed Halloc.
  assert (Hdel_sub : forall p, p ∈ deleted s -> p ∈ deleted s').
  { intros p Hp. destruct Hdel as [->|(e0 & -> & _)]; [done|].
    apply elem_of_app. by left. }
  split; try done.
  - intros y e Hy. destruct (decide (y = x)) as [->|Hne]; [by apply Hx|].
    destruct (Hframe y Hne) as (Hh & HH & Hl & Hi & _). rewrite Hh in Hy.
    pose proof (cinv_heap _ _ Hinv y e Hy) as Hok. split.
    + rewrite HH. apply (ok_refs _ _ _ _ Hok).
    + apply (ok_pos _ _ _ _ Hok).
    + rewrite Hl, HH. apply (ok_lru _ _ _ _ Hok).
    + rewrite Hi, HH. apply (ok_in_use _ _ _ _ Hok).
    + intros Hc. apply Htab; [done|]. by apply (ok_table _ _ _ _ Hok).
    + pose proof (ok_fresh _ _ _ _ Hok). lia.
  - intros y Hy. destruct (decide (y = x)) as [->|Hne]; [by apply Hxfree|].
    destruct (Hframe y Hne) as (Hh & HH & Hl & Hi & _). rewrite Hh in Hy.
    rewrite Hl, Hi, HH. by apply (cinv_free _ _ Hinv).
  - intros kk z Hz. destruct (decide (z = x)) as [->|Hne]; [by apply Htabx|].
    apply Htab in Hz; [|done].
    destruct (cinv_table _ _ Hinv kk z Hz) as (e & He & Hc & Hkk).
    exists e. split; [|done]. destruct (Hframe z Hne) as (Hh & _). by rewrite Hh.
  - destruct Hdel as [->|(e0 & -> & [e Hsome] & Hnone & _)]; [apply (cinv_deleted _ _ Hinv)|].
    rewrite fmap_app. apply NoDup_app. split_and!.
    + apply (cinv_deleted _ _ Hinv).
    + intros y Hy Hy'. simpl in Hy'. apply list_elem_of_singleton in Hy'.
      apply list_elem_of_fmap in Hy as ([y' e1] & Heq & Hy). simpl in Heq. subst y' y.
      destruct (cinv_deleted_free _ _ Hinv _ _ Hy) as (Hnone' & _).
      congruence.
    + apply NoDup_singleton.
  - intros y e Hy.
    assert (Hcases : (y, e) ∈ deleted s \/
              (y = x /\ heap s' !! x = None /\ refs e = 0 /\ in_cache e = false /\
               is_Some (heap s !! x))).
    { destruct Hdel as [Heq|(e0 & Heq & Hsome & Hnone & Hr & Hc)]; rewrite Heq in Hy;
        [by left|].
      apply elem_of_app in Hy as [Hy|Hy]; [by left|].
      apply list_elem_of_singleton in Hy as [= -> ->]. by right. }
    destruct Hcases as [Hold|(-> & Hnone & Hr & Hc & [e1 Hsome])].
    + destruct (cinv_deleted_free _ _ Hinv y e Hold) as (Hnone & Hlt & Hr & Hc).
      split_and!; [|lia|done|done].
      destruct (decide (y = x)) as [->|Hne].
      * destruct (heap s' !! x) as [e'|] eqn:E; [|done]. exfalso.
        pose proof (Halloc Hnone ltac:(by eexists)). lia.
      * destruct (Hframe y Hne) as (Hh & _). by rewrite Hh.
    + split_and!; try done.
      pose proof (ok_fresh _ _ _ _ (cinv_heap _ _ Hinv x e1 Hsome)). lia.
  - intros y Hlt Hy. destruct (decide (y = x)) as [->|Hne]; [by apply Hfreed|].
    destruct (Hframe y Hne) as (Hh & _ & _ & _ & Hlt'). rewrite Hh in Hy.
    apply list_elem_of_fmap.
    pose proof (cinv_freed _ _ Hinv y (Hlt' Hlt) Hy) as Hin.
    apply list_elem_of_fmap in Hin as (p & -> & Hp). exists p. split; [done|].
    by apply Hdel_sub.
Qed.

Lemma cinv_lists (H : Handle -> nat) (s : LRUCache) (x : Handle) :
  cinv H s -> x ∈ lru_ s \/ x ∈ in_use_ s ->
  exists e, heap s !! x = Some e /\ in_cache e = true.
Proof.
  intros Hinv Hx. destruct (heap s !! x) as [e|] eqn:He.
  - exists e. split; [done|]. pose proof (cinv_heap _ _ Hinv x e He) as Hok.
    destruct Hx as [Hx|Hx].
    + pose proof (proj1 (ok_lru _ _ _ _ Hok) Hx). tauto.
    + pose proof (proj1 (ok_in_use _ _ _ _ Hok) Hx). tauto.
  - destruct (cinv_free _ _ Hinv x He) as (H1 & H2 & _). by destruct Hx.
Qed.

Lemma cinv_live_nodup (H : Handle -> nat) (s : LRUCache) : cinv H s -> NoDup (live s).
Proof.
  intros Hinv. unfold live. apply NoDup_app. split_and!.
  - apply (cinv_lru _ _ Hinv).
  - intros x Hx Hx'. destruct (cinv_lists H s x Hinv (or_introl Hx)) as (e & He & _).
    pose proof (cinv_heap _ _ Hinv x e He) as Hok.
    apply (ok_lru _ _ _ _ Hok) in Hx as [_ Hz].
    by apply (ok_in_use _ _ _ _ Hok) in Hx' as [_ Hnz].
  - apply (cinv_in_use _ _ Hinv).
Qed.

Lemma charge_of_insert (s s' : LRUCache) (x : Handle) (e e' : LRUHandle) :
  heap s !! x = Some e -> heap s' = <[x := e']> (heap s) -> charge e' = charge e ->
  forall y, charge_of s' y = charge_of s y.
Proof.
  intros He Hh Hc y. unfold charge_of. rewrite Hh.
  destruct (decide (x = y)) as [<-|Hne].
  - by rewrite lookup_insert_eq, He.
  - by rewrite lookup_insert_ne.
Qed.

Lemma total_charge_eq (s s' : LRUCache) :
  live s' ≡ₚ live s -> (forall y, y ∈ live s -> charge_of s' y = charge_of s y) ->
  total_charge s' = total_charge s.
Proof.
  intros Hperm Hc. unfold total_charge.
  rewrite (sumZ_Permutation _ _ (fmap_Permutation (charge_of s') _ _ Hperm)).
  by apply sumZ_ext.
Qed.

Lemma total_charge_remove (s s' : LRUCache) (x : Handle) :
  live s ≡ₚ x :: live s' -> (forall y, y ∈ live s' -> charge_of s' y = charge_of s y) ->
  total_charge s' = total_charge s - charge_of s x.
Proof.
  intros Hperm Hc. unfold total_charge.
  rewrite (sumZ_Permutation _ _ (fmap_Permutation (charge_of s) _ _ Hperm)).
  rewrite fmap_cons, sumZ_cons. rewrite (sumZ_ext _ _ _ Hc). lia.
Qed.

Lemma total_charge_add (s s' : LRUCache) (x : Handle) :
  live s' ≡ₚ x :: live s -> (forall y, y ∈ live s -> charge_of s' y = charge_of s y) ->
  total_charge s' = total_charge s + charge_of s' x.
Proof.
  intros Hperm Hc. unfold total_charge.
  rewrite (sumZ_Permutation _ _ (fmap_Permutation (charge_of s') _ _ Hperm)).
  rewrite fmap_cons, sumZ_cons. rewrite (sumZ_ext _ _ _ Hc). lia.
Qed.

Lemma acquire_eq H x : acquire H x x = S (H x).
Proof. unfold acquire. by rewrite decide_True. Qed.

Lemma acquire_ne H x y : y <> x -> acquire H x y = H y.
Proof. intros Hne. unfold acquire. by rewrite decide_False. Qed.

Lemma release_eq H x : release H x x = Nat.pred (H x).
Proof. unfold release. by rewrite decide_True. Qed.

Lemma release_ne H x y : y <> x -> release H x y = H y.
Proof. intros Hne. unfold release. by rewrite decide_False. Qed.

(** [Ref] of a cached entry, for a new handle. *)
Lemma Ref_idle (s : LRUCache) (x : Handle) (e : LRUHandle) :
  heap s !! x = Some e -> refs e = 1 -> in_cache e = true ->
  Ref s x =
  {| capacity_ := capacity_ s; usage_ := usage_ s;
     lru_ := filter (fun y => y <> x) (lru_ s);
     in_use_ := filter (fun y => y <> x) (in_use_ s) ++ [x];
     table_ := table_ s; heap := <[x := set_refs e 2]> (heap s);
     next_handle := next_handle s; deleted := deleted s |}.
Proof.
  intros He Hr Hc. unfold Ref. rewrite He, Hr, Hc. simpl. done.
Qed.

Lemma Ref_used (s : LRUCache) (x : Handle) (e : LRUHandle) :
  heap s !! x = Some e -> refs e <> 1 -> 0 <= refs e + 1 < 2 ^ 32 ->
  Ref s x = set_heap s (<[x := set_refs e (refs e + 1)]> (heap s)).
Proof.
  intros He Hr Hb. unfold Ref. rewrite He.
  destruct (Z.eqb_spec (refs e) 1) as [?|_]; [done|]. simpl.
  unfold u32. by rewrite Z.mod_small.
Qed.

Lemma Ref_cinv (H : Handle -> nat) (s : LRUCache) (x : Handle) (e : LRUHandle) :
  cinv H s -> heap s !! x = Some e -> in_cache e = true ->
  Z.of_nat (H x) + 2 < 2 ^ 32 ->
  cinv (acquire H x) (Ref s x).
Proof.
  intros Hinv He Hc Hb.
  pose proof (cinv_heap _ _ Hinv x e He) as Hok.
  pose proof (ok_refs _ _ _ _ Hok) as Hrefs. rewrite Hc in Hrefs. simpl in Hrefs.
  pose proof (cinv_live_nodup H s Hinv) as Hnd.
  destruct (decide (H x = 0%nat)) as [Hz|Hz].
  - assert (Hlru : x ∈ lru_ s) by (by apply (ok_lru _ _ _ _ Hok)).
    assert (Hnotin : x ∉ in_use_ s).
    { intros Hin. by apply (ok_in_use _ _ _ _ Hok) in Hin as [_ ?]. }
    rewrite (Ref_idle s x e He) by (done || lia).
    rewrite (filter_ne_notin x (in_use_ s)) by done.
    apply (cinv_change H s _ _ x Hinv); simpl.
    + intros y Hne. rewrite lookup_insert_ne by done. rewrite acquire_ne by done.
      rewrite filter_ne_elem, elem_of_app, list_elem_of_singleton. tauto.
    + done.
    + apply NoDup_filter, (cinv_lru _ _ Hinv).
    + apply NoDup_app. split_and!; [apply (cinv_in_use _ _ Hinv)| |apply NoDup_singleton].
      intros y Hy Hy'. apply list_elem_of_singleton in Hy' as ->. done.
    + done.
    + intros kk Hkk. rewrite lookup_insert_eq.
      destruct (cinv_table _ _ Hinv kk x Hkk) as (e' & He' & Hc' & Hkk').
      rewrite He in He'. injection He' as <-. by eexists.
    + intros e'. rewrite lookup_insert_eq. intros [= <-]. split; simpl.
      * rewrite acquire_eq, Hc. simpl. lia.
      * lia.
      * rewrite filter_ne_elem, acquire_eq. split; [by intros [_ ?]|by intros [_ ?]].
      * rewrite elem_of_app, list_elem_of_singleton, acquire_eq. split; [done|by right].
      * intros _. by apply (ok_table _ _ _ _ Hok).
      * apply (ok_fresh _ _ _ _ Hok).
    + by rewrite lookup_insert_eq.
    + rewrite (cinv_usage _ _ Hinv). f_equal. symmetry. apply total_charge_eq.
      * unfold live. simpl.
        rewrite (filter_ne_Permutation x (lru_ s) (cinv_lru _ _ Hinv) Hlru) at 2.
        rewrite app_assoc. by rewrite <- Permutation_cons_append.
      * intros y _. by apply (charge_of_insert s _ x e (set_refs e 2)).
    + by left.
    + by rewrite lookup_insert_eq.
    + by rewrite He.
  - pose proof (ok_pos _ _ _ _ Hok).
    rewrite (Ref_used s x e He) by lia.
    apply (cinv_change H s _ _ x Hinv); simpl.
    + intros y Hne. rewrite lookup_insert_ne by done. by rewrite acquire_ne by done.
    + done.
    + apply (cinv_lru _ _ Hinv).
    + apply (cinv_in_use _ _ Hinv).
    + done.
    + intros kk Hkk. rewrite lookup_insert_eq.
      destruct (cinv_table _ _ Hinv kk x Hkk) as (e' & He' & Hc' & Hkk').
      rewrite He in He'. injection He' as <-. by eexists.
    + intros e'. rewrite lookup_insert_eq. intros [= <-]. split; simpl.
      * rewrite acquire_eq, Hc. simpl. lia.
      * lia.
      * rewrite (ok_lru _ _ _ _ Hok), acquire_eq. split; [by intros [_ ?]|by intros [_ ?]].
      * rewrite (ok_in_use _ _ _ _ Hok), acquire_eq. split; [done|by intros [? _]].
      * intros _. by apply (ok_table _ _ _ _ Hok).
      * apply (ok_fresh _ _ _ _ Hok).
    + by rewrite lookup_insert_eq.
    + rewrite (cinv_usage _ _ Hinv). f_equal. symmetry. apply total_charge_eq; [done|].
      intros y _. by apply (charge_of_insert s _ x e (set_refs e (refs e + 1))).
    + by left.
    + by rewrite lookup_insert_eq.
    + by rewrite He.
Qed.

(** [Unref] of an entry that a client holds. *)
Lemma Unref_to_lru (s : LRUCache) (x : Handle) (e : LRUHandle) :
  heap s !! x = Some e -> refs e = 2 -> in_cache e = true ->
  Unref s x =
  {| capacity_ := capacity_ s; usage_ := usage_ s;
     lru_ := filter (fun y => y <> x) (lru_ s) ++ [x];
     in_use_ := filter (fun y => y <> x) (in_use_ s);
     table_ := table_ s; heap := <[x := set_refs e 1]> (heap s);
     next_handle := next_handle s; deleted := deleted s |}.
Proof.
  intros He Hr Hc. unfold Unref. rewrite He. simpl. rewrite Hr, Hc. done.
Qed.

Lemma Unref_keep (s : LRUCache) (x : Handle) (e : LRUHandle) :
  heap s !! x = Some e -> 2 <= refs e < 2 ^ 32 -> (in_cache e = true -> refs e <> 2) ->
  Unref s x = set_heap s (<[x := set_refs e (refs e - 1)]> (heap s)).
Proof.
  intros He Hr Hc. unfold Unref. rewrite He.
  assert (Hu : u32 (refs e - 1) = refs e - 1) by (unfold u32; apply Z.mod_small; lia).
  rewrite Hu. cbn [refs set_refs in_cache].
  destruct (Z.eqb_spec (refs e - 1) 0) as [?|_]; [lia|].
  destruct (in_cache e); [|done]. simpl.
  destruct (Z.eqb_spec (refs e - 1) 1) as [?|_]; [|done].
  exfalso. apply Hc; [done|lia].
Qed.

Lemma Unref_cinv (H : Handle -> nat) (s : LRUCache) (x : Handle) :
  cinv H s -> H x <> 0%nat -> cinv (release H x) (Unref s x).
Proof.
  intros Hinv Hheld.
  destruct (heap s !! x) as [e|] eqn:He;
    [|by destruct (cinv_free _ _ Hinv x He) as (_ & _ & ?)].
  pose proof (cinv_heap _ _ Hinv x e He) as Hok.
  pose proof (ok_refs _ _ _ _ Hok) as Hrefs.
  pose proof (ok_pos _ _ _ _ Hok) as Hpos.
  assert (Htabx : forall kk, table_ s !! kk = Some x ->
            in_cache e = true /\ kk = (hash e, key e)).
  { intros kk Hkk. destruct (cinv_table _ _ Hinv kk x Hkk) as (e' & He' & Hc' & Hkk').
    rewrite He in He'. by injection He' as <-. }
  destruct (in_cache e) eqn:Hc; simpl in Hrefs.
  - assert (Hin : x ∈ in_use_ s) by (by apply (ok_in_use _ _ _ _ Hok)).
    assert (Hnotin : x ∉ lru_ s).
    { intros Hl. by apply (ok_lru _ _ _ _ Hok) in Hl as [_ ?]. }
    destruct (decide (H x = 1%nat)) as [H1|H1].
    + rewrite (Unref_to_lru s x e He) by (done || lia).
      rewrite (filter_ne_notin x (lru_ s)) by done.
      apply (cinv_change H s _ _ x Hinv); simpl.
      * intros y Hne. rewrite lookup_insert_ne by done. rewrite release_ne by done.
        rewrite filter_ne_elem, elem_of_app, list_elem_of_singleton. tauto.
      * done.
      * apply NoDup_app. split_and!; [apply (cinv_lru _ _ Hinv)| |apply NoDup_singleton].
        intros y Hy Hy'. apply list_elem_of_singleton in Hy' as ->. done.
      * apply NoDup_filter, (cinv_in_use _ _ Hinv).
      * done.
      * intros kk Hkk. rewrite lookup_insert_eq. destruct (Htabx kk Hkk) as [_ ->].
        by eexists.
      * intros e'. rewrite lookup_insert_eq. intros [= <-]. split; simpl.
        -- rewrite release_eq, Hc, H1. done.
        -- lia.
        -- rewrite elem_of_app, list_elem_of_singleton, release_eq, H1.
           split; [done|by right].
        -- rewrite filter_ne_elem, release_eq, H1. split; [by intros [_ ?]|by intros [_ ?]].
        -- intros _. apply (ok_table _ _ _ _ Hok). by rewrite Hc.
        -- apply (ok_fresh _ _ _ _ Hok).
      * by rewrite lookup_insert_eq.
      * rewrite (cinv_usage _ _ Hinv). f_equal. symmetry. apply total_charge_eq.
        -- unfold live. simpl.
           rewrite (filter_ne_Permutation x (in_use_ s) (cinv_in_use _ _ Hinv) Hin) at 2.
           rewrite <- app_assoc. simpl. by rewrite <- Permutation_middle.
        -- intros y _. by apply (charge_of_insert s _ x e (set_refs e 1)).
      * by left.
      * by rewrite lookup_insert_eq.
      * by rewrite He.
    + rewrite (Unref_keep s x e He) by lia.
      apply (cinv_change H s _ _ x Hinv); simpl.
      * intros y Hne. rewrite lookup_insert_ne by done. by rewrite release_ne by done.
      * done.
      * apply (cinv_lru _ _ Hinv).
      * apply (cinv_in_use _ _ Hinv).
      * done.
      * intros kk Hkk. rewrite lookup_insert_eq. destruct (Htabx kk Hkk) as [_ ->].
        by eexists.
      * intros e'. rewrite lookup_insert_eq. intros [= <-]. split; simpl.
        -- rewrite release_eq, Hc. simpl. lia.
        -- lia.
        -- rewrite (ok_lru _ _ _ _ Hok), release_eq, Hc. split; intros [_ ?]; lia.
        -- rewrite (ok_in_use _ _ _ _ Hok), release_eq, Hc. split; intros [_ ?]; split; lia.
        -- intros _. apply (ok_table _ _ _ _ Hok). by rewrite Hc.
        -- apply (ok_fresh _ _ _ _ Hok).
      * by rewrite lookup_insert_eq.
      * rewrite (cinv_usage _ _ Hinv). f_equal. symmetry. apply total_charge_eq; [done|].
        intros y _. by apply (charge_of_insert s _ x e (set_refs e (refs e - 1))).
      * by left.
      * by rewrite lookup_insert_eq.
      * by rewrite He.
  - assert (Hnl : x ∉ lru_ s).
    { intros Hl. apply (ok_lru _ _ _ _ Hok) in Hl as [? _]. congruence. }
    assert (Hni : x ∉ in_use_ s).
    { intros Hl. apply (ok_in_use _ _ _ _ Hok) in Hl as [? _]. congruence. }
    assert (Hnt : forall kk, table_ s !! kk <> Some x).
    { intros kk Hkk. by destruct (Htabx kk Hkk). }
    destruct (decide (H x = 1%nat)) as [H1|H1].
    + rewrite (Unref_uncached s x e He) by (split; [done|lia]).
      apply (cinv_change H s _ _ x Hinv); simpl.
      * intros y Hne. by rewrite lookup_delete_ne, release_ne by done.
      * done.
      * apply (cinv_lru _ _ Hinv).
      * apply (cinv_in_use _ _ Hinv).
      * done.
      * intros kk Hkk. by destruct (Hnt kk).
      * intros e'. by rewrite lookup_delete_eq.
      * intros _. by rewrite release_eq, H1.
      * rewrite (cinv_usage _ _ Hinv). f_equal. symmetry. apply total_charge_eq; [done|].
        intros y Hy. unfold charge_of. simpl. rewrite lookup_delete_ne; [done|].
        intros <-. unfold live in Hy. apply elem_of_app in Hy as [?|?]; done.
      * right. exists (set_refs e 0). split_and!; try done. by rewrite lookup_delete_eq.
      * intros _ _. rewrite fmap_app, elem_of_app. right. simpl.
        by apply list_elem_of_singleton.
      * by rewrite He.
    + rewrite (Unref_keep s x e He) by first [lia | intros; congruence].
      apply (cinv_change H s _ _ x Hinv); simpl.
      * intros y Hne. rewrite lookup_insert_ne by done. by rewrite release_ne by done.
      * done.
      * apply (cinv_lru _ _ Hinv).
      * apply (cinv_in_use _ _ Hinv).
      * done.
      * intros kk Hkk. by destruct (Hnt kk).
      * intros e'. rewrite lookup_insert_eq. intros [= <-]. split; simpl.
        -- rewrite release_eq, Hc. simpl. lia.
        -- lia.
        -- rewrite Hc. split; [done|by intros [? _]].
        -- rewrite Hc. split; [done|by intros [? _]].
        -- by rewrite Hc.
        -- apply (ok_fresh _ _ _ _ Hok).
      * by rewrite lookup_insert_eq.
      * rewrite (cinv_usage _ _ Hinv). f_equal. symmetry. apply total_charge_eq; [done|].
        intros y _. by apply (charge_of_insert s _ x e (set_refs e (refs e - 1))).
      * by left.
      * by rewrite lookup_insert_eq.
      * by rewrite He.
Qed.

(** Taking the cached entry [x] out of the cache: the table gives it
    up at its key and [FinishErase] does the rest. *)
Definition uncache (s : LRUCache) (x : Handle) (e : LRUHandle) : LRUCache :=
  snd (FinishErase (set_table s (delete (hash e, key e) (table_ s))) (Some x)).

Lemma uncache_free (s : LRUCache) (x : Handle) (e : LRUHandle) :
  heap s !! x = Some e -> refs e = 1 ->
  uncache s x e =
  {| capacity_ := capacity_ s; usage_ := usize (usage_ s - charge e);
     lru_ := filter (fun y => y <> x) (lru_ s);
     in_use_ := filter (fun y => y <> x) (in_use_ s);
     table_ := delete (hash e, key e) (table_ s); heap := delete x (heap s);
     next_handle := next_handle s;
     deleted := deleted s ++ [(x, set_refs (set_in_cache e false) 0)] |}.
Proof.
  intros He Hr. unfold uncache, FinishErase, LRU_Remove. simpl. rewrite He. simpl.
  unfold Unref. simpl. rewrite lookup_insert_eq. simpl. rewrite Hr.
  change (u32 (1 - 1)) with 0. simpl. f_equal. by rewrite !delete_insert_eq.
Qed.

Lemma uncache_held (s : LRUCache) (x : Handle) (e : LRUHandle) :
  heap s !! x = Some e -> 2 <= refs e < 2 ^ 32 ->
  uncache s x e =
  {| capacity_ := capacity_ s; usage_ := usize (usage_ s - charge e);
     lru_ := filter (fun y => y <> x) (lru_ s);
     in_use_ := filter (fun y => y <> x) (in_use_ s);
     table_ := delete (hash e, key e) (table_ s);
     heap := <[x := set_refs (set_in_cache e false) (refs e - 1)]> (heap s);
     next_handle := next_handle s; deleted := deleted s |}.
Proof.
  intros He Hr. unfold uncache, FinishErase, LRU_Remove. simpl. rewrite He. simpl.
  unfold Unref. simpl. rewrite lookup_insert_eq. simpl.
  assert (Hu : u32 (refs e - 1) = refs e - 1) by (unfold u32; apply Z.mod_small; lia).
  rewrite Hu. destruct (Z.eqb_spec (refs e - 1) 0) as [?|_]; [lia|].
  unfold set_heap. simpl. f_equal. by rewrite insert_insert_eq.
Qed.

Lemma uncache_cinv (H : Handle -> nat) (s : LRUCache) (x : Handle) (e : LRUHandle) :
  cinv H s -> heap s !! x = Some e -> in_cache e = true -> cinv H (uncache s x e).
Proof.
  intros Hinv He Hc.
  pose proof (cinv_heap _ _ Hinv x e He) as Hok.
  pose proof (ok_refs _ _ _ _ Hok) as Hrefs. rewrite Hc in Hrefs. simpl in Hrefs.
  pose proof (ok_pos _ _ _ _ Hok) as Hpos.
  pose proof (ok_table _ _ _ _ Hok Hc) as Htx.
  pose proof (cinv_live_nodup H s Hinv) as Hnd.
  assert (Hlive : x ∈ live s).
  { unfold live. apply elem_of_app. destruct (decide (H x = 0%nat)).
    - left. by apply (ok_lru _ _ _ _ Hok).
    - right. by apply (ok_in_use _ _ _ _ Hok). }
  assert (Htab : forall kk z, z <> x ->
            delete (hash e, key e) (table_ s) !! kk = Some z <-> table_ s !! kk = Some z).
  { intros kk z Hne. rewrite lookup_delete_Some. split; [by intros [_ ?]|].
    intros Hz. split; [|done]. intros <-. rewrite Htx in Hz. congruence. }
  assert (Htabx : forall kk, delete (hash e, key e) (table_ s) !! kk <> Some x).
  { intros kk Hkk. apply lookup_delete_Some in Hkk as [Hne Hkk].
    destruct (cinv_table _ _ Hinv kk x Hkk) as (e' & He' & _ & ->).
    rewrite He in He'. injection He' as <-. done. }
  assert (Hframe : forall s', lru_ s' = filter (fun y => y <> x) (lru_ s) ->
            in_use_ s' = filter (fun y => y <> x) (in_use_ s) ->
            (forall y, y <> x -> heap s' !! y = heap s !! y) ->
            total_charge s' = total_charge s - charge e).
  { intros s' Hl Hi Hh.
    replace (charge e) with (charge_of s x) by (unfold charge_of; by rewrite He).
    apply total_charge_remove.
    - assert (Hl' : live s' = filter (fun y => y <> x) (live s)).
      { unfold live. by rewrite Hl, Hi, filter_app. }
      rewrite Hl'. by apply filter_ne_Permutation.
    - intros y Hy. unfold charge_of. rewrite Hh; [done|]. intros ->.
      unfold live in Hy. rewrite Hl, Hi, <- filter_app in Hy.
      by apply filter_ne_elem in Hy as [_ ?]. }
  destruct (decide (H x = 0%nat)) as [Hz|Hz].
  - rewrite (uncache_free s x e He) by lia.
    apply (cinv_change H s _ _ x Hinv); simpl.
    + intros y Hne. rewrite lookup_delete_ne by done. rewrite !filter_ne_elem. tauto.
    + done.
    + apply NoDup_filter, (cinv_lru _ _ Hinv).
    + apply NoDup_filter, (cinv_in_use _ _ Hinv).
    + done.
    + intros kk Hkk. by destruct (Htabx kk).
    + intros e'. by rewrite lookup_delete_eq.
    + intros _. rewrite !filter_ne_elem. split_and!; [by intros [_ ?]|by intros [_ ?]|done].
    + rewrite (cinv_usage _ _ Hinv), usize_sub. f_equal. symmetry. apply Hframe; try done.
      intros y Hne. simpl. by rewrite lookup_delete_ne.
    + right. eexists. split_and!; try done. by rewrite lookup_delete_eq.
    + intros _ _. rewrite fmap_app, elem_of_app. right. simpl.
      by apply list_elem_of_singleton.
    + by rewrite He.
  - rewrite (uncache_held s x e He) by lia.
    apply (cinv_change H s _ _ x Hinv); simpl.
    + intros y Hne. rewrite lookup_insert_ne by done. rewrite !filter_ne_elem. tauto.
    + done.
    + apply NoDup_filter, (cinv_lru _ _ Hinv).
    + apply NoDup_filter, (cinv_in_use _ _ Hinv).
    + done.
    + intros kk Hkk. by destruct (Htabx kk).
    + intros e'. rewrite lookup_insert_eq. intros [= <-]. split; simpl.
      * lia.
      * lia.
      * rewrite filter_ne_elem. split; [by intros [_ ?]|by intros [? _]].
      * rewrite filter_ne_elem. split; [by intros [_ ?]|by intros [? _]].
      * done.
      * apply (ok_fresh _ _ _ _ Hok).
    + by rewrite lookup_insert_eq.
    + rewrite (cinv_usage _ _ Hinv), usize_sub. f_equal. symmetry. apply Hframe; try done.
      intros y Hne. simpl. by rewrite lookup_insert_ne.
    + by left.
    + by rewrite lookup_insert_eq.
    + by rewrite He.
Qed.

(** The shard once [Insert] has put its new entry in the cache, and
    once it has only handed it out. *)
Definition installed (s : LRUCache) (k : list Z) (h v c d : Z) : LRUCache :=
  {| capacity_ := capacity_ s; usage_ := usize (usage_ s + c);
     lru_ := lru_ s; in_use_ := in_use_ s ++ [next_handle s];
     table_ := <[(h, k) := next_handle s]> (table_ s);
     heap := <[next_handle s :=
               {| value := v; deleter := d; charge := c; key := k;
                  in_cache := true; refs := 2; hash := h |}]> (heap s);
     next_handle := S (next_handle s); deleted := deleted s |}.

Definition handed (s : LRUCache) (k : list Z) (h v c d : Z) : LRUCache :=
  {| capacity_ := capacity_ s; usage_ := usage_ s;
     lru_ := lru_ s; in_use_ := in_use_ s; table_ := table_ s;
     heap := <[next_handle s :=
               {| value := v; deleter := d; charge := c; key := k;
                  in_cache := false; refs := 1; hash := h |}]> (heap s);
     next_handle := S (next_handle s); deleted := deleted s |}.

Lemma cinv_fresh (H : Handle -> nat) (s : LRUCache) :
  cinv H s ->
  heap s !! next_handle s = None /\ (next_handle s ∉ lru_ s) /\
  (next_handle s ∉ in_use_ s) /\ H (next_handle s) = 0%nat /\
  forall kk, table_ s !! kk <> Some (next_handle s).
Proof.
  intros Hinv.
  assert (Hnone : heap s !! next_handle s = None).
  { destruct (heap s !! next_handle s) as [e|] eqn:He; [|done].
    pose proof (ok_fresh _ _ _ _ (cinv_heap _ _ Hinv _ e He)). lia. }
  destruct (cinv_free _ _ Hinv _ Hnone) as (H1 & H2 & H3).
  split_and!; try done.
  intros kk Hkk. destruct (cinv_table _ _ Hinv kk _ Hkk) as (e & He & _). congruence.
Qed.

Lemma installed_cinv (H : Handle -> nat) (s : LRUCache) k h v c d :
  cinv H s -> table_ s !! (h, k) = None ->
  cinv (acquire H (next_handle s)) (installed s k h v c d).
Proof.
  intros Hinv Hnone.
  destruct (cinv_fresh H s Hinv) as (Hheap & Hnl & Hni & Hz & Hnt).
  apply (cinv_change H s _ _ (next_handle s) Hinv); simpl.
  - intros y Hne. rewrite lookup_insert_ne by done. rewrite acquire_ne by done.
    rewrite elem_of_app, list_elem_of_singleton. split_and!; try done; [tauto|lia].
  - lia.
  - apply (cinv_lru _ _ Hinv).
  - apply NoDup_app. split_and!; [apply (cinv_in_use _ _ Hinv)| |apply NoDup_singleton].
    intros y Hy Hy'. apply list_elem_of_singleton in Hy' as ->. done.
  - intros kk z Hne. rewrite lookup_insert_Some. split.
    + intros [[_ ?]|[_ ?]]; [congruence|done].
    + intros Hz'. right. split; [|done]. intros <-. congruence.
  - intros kk Hkk. rewrite lookup_insert_eq. eexists. split; [done|]. simpl.
    split; [done|]. apply lookup_insert_Some in Hkk as [[<- _]|[_ Hkk]]; [done|].
    by destruct (Hnt kk).
  - intros e'. rewrite lookup_insert_eq. intros [= <-]. split; simpl.
    + rewrite acquire_eq, Hz. done.
    + lia.
    + rewrite acquire_eq. split; [done|by intros [_ ?]].
    + rewrite elem_of_app, list_elem_of_singleton, acquire_eq. split; [done|by right].
    + intros _. by rewrite lookup_insert_eq.
    + lia.
  - by rewrite lookup_insert_eq.
  - rewrite (cinv_usage _ _ Hinv), usize_add. f_equal.
    rewrite (total_charge_add s (installed s k h v c d) (next_handle s)).
    + unfold charge_of. simpl. by rewrite lookup_insert_eq.
    + unfold live. simpl. rewrite app_assoc. by rewrite <- Permutation_cons_append.
    + intros y Hy. unfold charge_of. simpl. rewrite lookup_insert_ne; [done|].
      intros <-. unfold live in Hy. apply elem_of_app in Hy as [?|?]; done.
  - by left.
  - by rewrite lookup_insert_eq.
  - lia.
Qed.

Lemma handed_cinv (H : Handle -> nat) (s : LRUCache) k h v c d :
  cinv H s -> cinv (acquire H (next_handle s)) (handed s k h v c d).
Proof.
  intros Hinv.
  destruct (cinv_fresh H s Hinv) as (Hheap & Hnl & Hni & Hz & Hnt).
  apply (cinv_change H s _ _ (next_handle s) Hinv); simpl.
  - intros y Hne. rewrite lookup_insert_ne by done. rewrite acquire_ne by done.
    split_and!; try done. lia.
  - lia.
  - apply (cinv_lru _ _ Hinv).
  - apply (cinv_in_use _ _ Hinv).
  - done.
  - intros kk Hkk. by destruct (Hnt kk).
  - intros e'. rewrite lookup_insert_eq. intros [= <-]. split; simpl.
    + rewrite acquire_eq, Hz. done.
    + lia.
    + split; [done|by intros [? _]].
    + split; [done|by intros [? _]].
    + done.
    + lia.
  - by rewrite lookup_insert_eq.
  - rewrite (cinv_usage _ _ Hinv). f_equal. symmetry. apply total_charge_eq; [done|].
    intros y Hy. unfold charge_of. simpl. rewrite lookup_insert_ne; [done|].
    intros <-. unfold live in Hy. apply elem_of_app in Hy as [?|?]; done.
  - by left.
  - by rewrite lookup_insert_eq.
  - lia.
Qed.

(** *** The operations of a shard *)

(** What a step leaves alone: the capacity, the entries that clients
    hold and the table at their keys. *)
Record keeps (H : Handle -> nat) (s s' : LRUCache) : Prop := {
  keeps_capacity : capacity_ s' = capacity_ s;
  keeps_next : next_handle s' = next_handle s;
  keeps_in_use : in_use_ s' = in_use_ s;
  keeps_heap : forall y : Handle, H y <> 0%nat -> heap s' !! y = heap s !! y;
  keeps_table : forall kk (z : Handle), H z <> 0%nat ->
    table_ s !! kk = Some z -> table_ s' !! kk = Some z;
  keeps_lru : exists evicted, lru_ s = evicted ++ lru_ s'
}.

Lemma keeps_refl H s : keeps H s s.
Proof. split; try done. by exists []. Qed.

Lemma keeps_trans H s1 s2 s3 : keeps H s1 s2 -> keeps H s2 s3 -> keeps H s1 s3.
Proof.
  intros [A1 A2 A3 A4 A5 [ev1 A6]] [B1 B2 B3 B4 B5 [ev2 B6]]. split.
  - by rewrite B1.
  - by rewrite B2.
  - by rewrite B3.
  - intros y Hy. by rewrite B4, A4.
  - intros kk z Hz Hkk. by apply B5, A5.
  - exists (ev1 ++ ev2). by rewrite A6, B6, app_assoc.
Qed.

(** Evicting the oldest entry of [lru_]. *)
Lemma uncache_oldest (H : Handle -> nat) (s : LRUCache) (old : Handle) (rest : list Handle) :
  cinv H s -> lru_ s = old :: rest ->
  exists ho,
    heap s !! old = Some ho /\ table_ s !! (hash ho, key ho) = Some old /\
    cinv H (uncache s old ho) /\ keeps H s (uncache s old ho) /\
    lru_ (uncache s old ho) = rest /\
    usage_ (uncache s old ho) = usize (usage_ s - charge ho).
Proof.
  intros Hinv Hl.
  assert (Hin : old ∈ lru_ s) by (rewrite Hl; by left).
  destruct (cinv_lists H s old Hinv (or_introl Hin)) as (ho & Hho & Hc).
  pose proof (cinv_heap _ _ Hinv old ho Hho) as Hok.
  pose proof (ok_table _ _ _ _ Hok Hc) as Htab.
  pose proof (proj1 (ok_lru _ _ _ _ Hok) Hin) as [_ Hz].
  pose proof (ok_refs _ _ _ _ Hok) as Hrefs. rewrite Hc, Hz in Hrefs. simpl in Hrefs.
  assert (Hni : old ∉ in_use_ s).
  { intros Hi. by apply (ok_in_use _ _ _ _ Hok) in Hi as [_ ?]. }
  exists ho. split_and!; try done.
  - by apply uncache_cinv.
  - rewrite (uncache_free s old ho Hho Hrefs). split; simpl; try done.
    + by apply filter_ne_notin.
    + intros y Hy. rewrite lookup_delete_ne; [done|]. intros <-. done.
    + intros kk z Hy Hkk. rewrite lookup_delete_ne; [done|]. intros <-.
      rewrite Htab in Hkk. injection Hkk as <-. done.
    + exists [old]. rewrite Hl. simpl. f_equal.
      pose proof (cinv_lru _ _ Hinv) as Hnd. rewrite Hl in Hnd.
      apply NoDup_cons in Hnd as [Hnot _].
      rewrite filter_cons_False by (intros Hne; by apply Hne).
      by rewrite filter_ne_notin.
  - rewrite (uncache_free s old ho Hho Hrefs). simpl. rewrite Hl.
    pose proof (cinv_lru _ _ Hinv) as Hnd. rewrite Hl in Hnd.
    apply NoDup_cons in Hnd as [Hnot _].
    rewrite filter_cons_False by (intros Hne; by apply Hne).
    by rewrite filter_ne_notin.
  - by rewrite (uncache_free s old ho Hho Hrefs).
Qed.

Lemma evict_loop_cinv (H : Handle -> nat) : forall fuel s,
  cinv H s ->
  cinv H (evict_loop fuel s) /\ keeps H s (evict_loop fuel s) /\
  ((length (lru_ s) <= fuel)%nat ->
   usage_ (evict_loop fuel s) <= capacity_ s \/ lru_ (evict_loop fuel s) = []).
Proof.
  induction fuel as [|fuel IH]; intros s Hinv.
  - simpl. split_and!; [done|apply keeps_refl|].
    intros Hlen. right. destruct (lru_ s); [done|simpl in Hlen; lia].
  - cbn [evict_loop]. destruct (lru_ s) as [|old rest] eqn:Hl.
    { split_and!; [done|apply keeps_refl|]. intros _. by right. }
    destruct (Z.ltb_spec (capacity_ s) (usage_ s)) as [Hover|Hfits]; cycle 1.
    { split_and!; [done|apply keeps_refl|]. intros _. by left. }
    destruct (uncache_oldest H s old rest Hinv Hl)
      as (ho & Hho & Htab & Hinv' & Hkeeps & Hl' & _).
    rewrite Hho. unfold table_Remove. rewrite Htab. fold (uncache s old ho).
    destruct (IH (uncache s old ho) Hinv') as (Hinv'' & Hkeeps' & Hpost).
    split_and!; [done|by apply (keeps_trans H s (uncache s old ho))|].
    intros Hlen. rewrite <- (keeps_capacity _ _ _ Hkeeps). apply Hpost.
    rewrite Hl'. simpl in Hlen. lia.
Qed.

Lemma prune_loop_cinv (H : Handle -> nat) : forall fuel s,
  cinv H s ->
  cinv H (prune_loop fuel s) /\ keeps H s (prune_loop fuel s) /\
  ((length (lru_ s) <= fuel)%nat -> lru_ (prune_loop fuel s) = []).
Proof.
  induction fuel as [|fuel IH]; intros s Hinv.
  - simpl. split_and!; [done|apply keeps_refl|].
    intros Hlen. destruct (lru_ s); [done|simpl in Hlen; lia].
  - cbn [prune_loop]. destruct (lru_ s) as [|old rest] eqn:Hl.
    { split_and!; [done|apply keeps_refl|]. done. }
    destruct (uncache_oldest H s old rest Hinv Hl)
      as (ho & Hho & Htab & Hinv' & Hkeeps & Hl' & _).
    rewrite Hho. unfold table_Remove. rewrite Htab. fold (uncache s old ho).
    destruct (IH (uncache s old ho) Hinv') as (Hinv'' & Hkeeps' & Hpost).
    split_and!; [done|by apply (keeps_trans H s (uncache s old ho))|].
    intros Hlen. apply Hpost. rewrite Hl'. simpl in Hlen. lia.
Qed.

(** [Insert] first takes the entry with the same key and hash, if
    there is one, out of the cache. *)
Definition replaced (s : LRUCache) (k : list Z) (h : Z) : LRUCache :=
  match table_ s !! (h, k) with
  | Some x => match heap s !! x with Some ex => uncache s x ex | None => s end
  | None => s
  end.

Lemma Insert_phases (s : LRUCache) k h v c d :
  0 < capacity_ s ->
  Insert s k h v c d =
  (next_handle s,
   evict_loop
     (length (lru_ (snd (FinishErase (installed s k h v c d) (table_ s !! (h, k))))))
     (snd (FinishErase (installed s k h v c d) (table_ s !! (h, k))))).
Proof.
  intros Hcap. unfold Insert. cbn [capacity_].
  destruct (Z.ltb_spec 0 (capacity_ s)) as [_|?]; [|lia].
  unfold table_Insert, set_table, set_usage, LRU_Append_in_use, set_lists, set_heap,
    set_in_cache, set_refs, installed.
  cbn [capacity_ usage_ lru_ in_use_ table_ heap next_handle deleted
       value deleter charge key in_cache refs hash].
  rewrite insert_insert_eq. change (u32 (1 + 1)) with 2. done.
Qed.

Lemma filter_ne_snoc (x e : Handle) (l : list Handle) :
  e <> x -> filter (fun y => y <> x) (l ++ [e]) = filter (fun y => y <> x) l ++ [e].
Proof. intros Hne. rewrite filter_app. f_equal. by rewrite filter_cons_True. Qed.

Lemma FinishErase_installed (H : Handle -> nat) (s : LRUCache) k h v c d
    (x : Handle) (ex : LRUHandle) :
  cinv H s -> table_ s !! (h, k) = Some x -> heap s !! x = Some ex ->
  snd (FinishErase (installed s k h v c d) (Some x)) =
  installed (uncache s x ex) k h v c d.
Proof.
  intros Hinv Htab Hx.
  destruct (cinv_table _ _ Hinv _ _ Htab) as (ex' & Hx' & Hc & Hkey).
  rewrite Hx in Hx'. injection Hx' as <-. injection Hkey as -> ->.
  pose proof (cinv_heap _ _ Hinv x ex Hx) as Hok.
  pose proof (ok_pos _ _ _ _ Hok) as Hpos.
  destruct (cinv_fresh H s Hinv) as (Hheap & _).
  assert (Hne : next_handle s <> x) by (intros Heq; rewrite Heq in Hheap; congruence).
  assert (Hu : usize (usize (usage_ s + c) - charge ex) =
               usize (usize (usage_ s - charge ex) + c)).
  { rewrite usize_sub, usize_add. f_equal. lia. }
  destruct (decide (refs ex = 1)) as [Hr|Hr].
  - rewrite (uncache_free s x ex Hx Hr).
    unfold FinishErase, LRU_Remove, installed, set_lists, set_heap, set_usage.
    cbn [capacity_ usage_ lru_ in_use_ table_ heap next_handle deleted snd].
    rewrite lookup_insert_ne by done. rewrite Hx.
    unfold Unref. cbn [capacity_ usage_ lru_ in_use_ table_ heap next_handle deleted].
    rewrite lookup_insert_eq. cbn [refs set_refs set_in_cache]. rewrite Hr.
    change (u32 (1 - 1)) with 0. cbn [Z.eqb].
    unfold set_heap. cbn [capacity_ usage_ lru_ in_use_ table_ heap next_handle deleted].
    rewrite filter_ne_snoc by done. rewrite Hu, insert_delete_eq.
    rewrite !delete_insert_eq. rewrite delete_insert_ne by done. done.
  - rewrite (uncache_held s x ex Hx) by lia.
    unfold FinishErase, LRU_Remove, installed, set_lists, set_heap, set_usage.
    cbn [capacity_ usage_ lru_ in_use_ table_ heap next_handle deleted snd].
    rewrite lookup_insert_ne by done. rewrite Hx.
    unfold Unref. cbn [capacity_ usage_ lru_ in_use_ table_ heap next_handle deleted].
    rewrite lookup_insert_eq. cbn [refs set_refs set_in_cache in_cache].
    assert (Hu32 : u32 (refs ex - 1) = refs ex - 1) by (unfold u32; apply Z.mod_small; lia).
    rewrite Hu32. destruct (Z.eqb_spec (refs ex - 1) 0) as [?|_]; [lia|].
    cbn [andb]. unfold set_heap.
    cbn [capacity_ usage_ lru_ in_use_ table_ heap next_handle deleted].
    rewrite filter_ne_snoc by done. rewrite Hu, insert_delete_eq.
    rewrite insert_insert_eq. rewrite (insert_insert_ne _ x (next_handle s)) by done. done.
Qed.

Lemma replaced_cinv (H : Handle -> nat) (s : LRUCache) k h :
  cinv H s ->
  cinv H (replaced s k h) /\ table_ (replaced s k h) !! (h, k) = None /\
  capacity_ (replaced s k h) = capacity_ s /\
  next_handle (replaced s k h) = next_handle s.
Proof.
  intros Hinv. unfold replaced. destruct (table_ s !! (h, k)) as [x|] eqn:Htab; [|done].
  destruct (cinv_table _ _ Hinv _ _ Htab) as (ex & Hx & Hc & Hkey).
  rewrite Hx. split; [by apply uncache_cinv|].
  injection Hkey as -> ->.
  pose proof (cinv_heap _ _ Hinv x ex Hx) as Hok.
  pose proof (ok_pos _ _ _ _ Hok) as Hpos.
  destruct (decide (refs ex = 1)) as [Hr|Hr].
  - rewrite (uncache_free s x ex Hx Hr). simpl. by rewrite lookup_delete_eq.
  - rewrite (uncache_held s x ex Hx) by lia. simpl. by rewrite lookup_delete_eq.
Qed.

Lemma Insert_cached (H : Handle -> nat) (s : LRUCache) k h v c d :
  cinv H s -> 0 < capacity_ s ->
  Insert s k h v c d =
  (next_handle s,
   evict_loop (length (lru_ (installed (replaced s k h) k h v c d)))
     (installed (replaced s k h) k h v c d)).
Proof.
  intros Hinv Hcap. rewrite (Insert_phases s k h v c d Hcap).
  assert (Heq : snd (FinishErase (installed s k h v c d) (table_ s !! (h, k))) =
                installed (replaced s k h) k h v c d).
  { unfold replaced. destruct (table_ s !! (h, k)) as [x|] eqn:Htab; [|done].
    destruct (cinv_table _ _ Hinv _ _ Htab) as (ex & Hx & _).
    rewrite Hx. by apply (FinishErase_installed H). }
  by rewrite Heq.
Qed.

Lemma Insert_uncached (s : LRUCache) k h v c d :
  capacity_ s <= 0 ->
  Insert s k h v c d =
  (next_handle s, evict_loop (length (lru_ s)) (handed s k h v c d)).
Proof.
  intros Hcap. unfold Insert. cbn [capacity_].
  destruct (Z.ltb_spec 0 (capacity_ s)) as [?|_]; [lia|]. done.
Qed.

Lemma Insert_cinv (H : Handle -> nat) (s : LRUCache) k h v c d :
  cinv H s ->
  cinv (acquire H (next_handle s)) (Insert s k h v c d).2 /\
  capacity_ (Insert s k h v c d).2 = capacity_ s.
Proof.
  intros Hinv. destruct (decide (0 < capacity_ s)) as [Hcap|Hcap].
  - rewrite (Insert_cached H s k h v c d Hinv Hcap). cbn [snd].
    destruct (replaced_cinv H s k h Hinv) as (Hinv1 & Hnone & Hcap1 & Hnext1).
    pose proof (installed_cinv H _ k h v c d Hinv1 Hnone) as Hinv2.
    rewrite Hnext1 in Hinv2.
    destruct (evict_loop_cinv _ (length (lru_ (installed (replaced s k h) k h v c d))) _ Hinv2)
      as (Hinv3 & Hkeeps & _).
    split; [done|]. by rewrite (keeps_capacity _ _ _ Hkeeps).
  - rewrite (Insert_uncached s k h v c d) by lia. cbn [snd].
    pose proof (handed_cinv H s k h v c d Hinv) as Hinv2.
    destruct (evict_loop_cinv _ (length (lru_ s)) _ Hinv2) as (Hinv3 & Hkeeps & _).
    split; [done|]. by rewrite (keeps_capacity _ _ _ Hkeeps).
Qed.

Lemma Lookup_cinv (H : Handle -> nat) (s : LRUCache) k h (e : Handle) :
  cinv H s -> (Lookup s k h).1 = Some e -> Z.of_nat (H e) + 2 < 2 ^ 32 ->
  cinv (acquire H e) (Lookup s k h).2 /\ capacity_ (Lookup s k h).2 = capacity_ s.
Proof.
  intros Hinv. unfold Lookup, table_Lookup.
  destruct (table_ s !! (h, k)) as [x|] eqn:Htab; [|done]. cbn [fst snd].
  intros [= ->] Hb. destruct (cinv_table _ _ Hinv _ _ Htab) as (ex & Hx & Hc & _).
  split; [by apply (Ref_cinv H s e ex)|].
  unfold Ref. rewrite Hx. by destruct ((refs ex =? 1) && in_cache ex).
Qed.

Lemma Unref_capacity (s : LRUCache) (x : Handle) : capacity_ (Unref s x) = capacity_ s.
Proof.
  unfold Unref. destruct (heap s !! x) as [e|]; [|done]. cbn zeta.
  destruct (refs (set_refs e (u32 (refs e - 1))) =? 0); [done|].
  by destruct (in_cache (set_refs e (u32 (refs e - 1))) && _).
Qed.

Lemma Unref_table (s : LRUCache) (x : Handle) : table_ (Unref s x) = table_ s.
Proof.
  unfold Unref. destruct (heap s !! x) as [e|]; [|done]. cbn zeta.
  destruct (refs (set_refs e (u32 (refs e - 1))) =? 0); [done|].
  by destruct (in_cache (set_refs e (u32 (refs e - 1))) && _).
Qed.

Lemma FinishErase_table (s : LRUCache) (oe : option Handle) :
  table_ (FinishErase s oe).2 = table_ s.
Proof.
  destruct oe as [x|]; [|done]. unfold FinishErase. cbn [snd]. rewrite Unref_table.
  cbn zeta. by destruct (heap (LRU_Remove s x) !! x).
Qed.

Lemma FinishErase_capacity (s : LRUCache) (oe : option Handle) :
  capacity_ (FinishErase s oe).2 = capacity_ s.
Proof.
  destruct oe as [x|]; [|done]. unfold FinishErase. cbn [snd]. rewrite Unref_capacity.
  cbn zeta. by destruct (heap (LRU_Remove s x) !! x).
Qed.

Lemma Erase_table (s : LRUCache) k h : table_ (Erase s k h) = delete (h, k) (table_ s).
Proof. unfold Erase, table_Remove. by rewrite FinishErase_table. Qed.

Lemma set_table_id (s : LRUCache) : set_table s (table_ s) = s.
Proof. by destruct s. Qed.

Lemma Erase_cinv (H : Handle -> nat) (s : LRUCache) k h :
  cinv H s -> cinv H (Erase s k h) /\ capacity_ (Erase s k h) = capacity_ s.
Proof.
  intros Hinv. split; [|unfold Erase, table_Remove; by rewrite FinishErase_capacity].
  unfold Erase, table_Remove. destruct (table_ s !! (h, k)) as [x|] eqn:Htab.
  - destruct (cinv_table _ _ Hinv _ _ Htab) as (ex & Hx & Hc & [= -> ->]).
    by apply (uncache_cinv H s x ex).
  - cbn [FinishErase snd]. by rewrite delete_id, set_table_id.
Qed.

Lemma Prune_cinv (H : Handle -> nat) (s : LRUCache) :
  cinv H s -> cinv H (Prune s) /\ keeps H s (Prune s) /\ lru_ (Prune s) = [].
Proof.
  intros Hinv. destruct (prune_loop_cinv H (length (lru_ s)) s Hinv) as (H1 & H2 & H3).
  split_and!; [done|done|by apply H3].
Qed.

(** The states of a shard of capacity [C] whose clients give
    [Release] only handles that [Insert] or [Lookup] returned, each
    once, and take fewer than [2^32 - 2] handles to one entry; [H]
    counts the handles they hold. *)
Inductive serving (C : Z) : (Handle -> nat) -> LRUCache -> Prop :=
| serving_new : serving C (fun _ => 0%nat) (new C)
| serving_Insert H s k h v c d :
    serving C H s -> serving C (acquire H (next_handle s)) (Insert s k h v c d).2
| serving_Lookup H s k h e :
    serving C H s -> (Lookup s k h).1 = Some e -> Z.of_nat (H e) + 2 < 2 ^ 32 ->
    serving C (acquire H e) (Lookup s k h).2
| serving_Release H s x :
    serving C H s -> H x <> 0%nat -> serving C (release H x) (Release s x)
| serving_Erase H s k h : serving C H s -> serving C H (Erase s k h)
| serving_Prune H s : serving C H s -> serving C H (Prune s).

Lemma serving_cinv C H s : serving C H s -> cinv H s /\ capacity_ s = C.
Proof.
  induction 1 as [|H s k h v c d _ [IH IHc]|H s k h e _ [IH IHc] He Hb
                 |H s x _ [IH IHc] Hx|H s k h _ [IH IHc]|H s _ [IH IHc]].
  - split; [apply new_cinv|done].
  - destruct (Insert_cinv H s k h v c d IH) as [H1 H2]. split; [done|congruence].
  - destruct (Lookup_cinv H s k h e IH He Hb) as [H1 H2]. split; [done|congruence].
  - split; [by apply Unref_cinv|]. unfold Release. by rewrite Unref_capacity.
  - destruct (Erase_cinv H s k h IH) as [H1 H2]. split; [done|congruence].
  - destruct (Prune_cinv H s IH) as (H1 & H2 & _). split; [done|].
    by rewrite (keeps_capacity _ _ _ H2).
Qed.

Lemma Erase_replaced (H : Handle -> nat) (s : LRUCache) k h :
  cinv H s -> Erase s k h = replaced s k h.
Proof.
  intros Hinv. unfold Erase, table_Remove, replaced.
  destruct (table_ s !! (h, k)) as [x|] eqn:Htab.
  - destruct (cinv_table _ _ Hinv _ _ Htab) as (ex & Hx & Hc & [= -> ->]). by rewrite Hx.
  - cbn [FinishErase snd]. by rewrite delete_id, set_table_id.
Qed.

Lemma deleter_calls_spec (H : Handle -> nat) (s : LRUCache) (x : Handle) :
  cinv H s ->
  deleter_calls s x =
    if bool_decide ((x < next_handle s)%nat /\ heap s !! x = None) then 1%nat else 0%nat.
Proof.
  intros Hinv. unfold deleter_calls. destruct (bool_decide_reflect
    ((x < next_handle s)%nat /\ heap s !! x = None)) as [[Hlt Hnone]|Hno].
  - apply calls_nodup; [apply (cinv_deleted _ _ Hinv)|by apply (cinv_freed _ _ Hinv)].
  - apply calls_notin. intros Hin. apply Hno.
    apply list_elem_of_fmap in Hin as ([y e] & -> & Hin).
    destruct (cinv_deleted_free _ _ Hinv _ _ Hin) as (? & ? & _). done.
Qed.

(** X27: in every state of a shard whose clients release only the
    handles they were given: the two lists have no entry twice or in
    common; [lru_] holds the cached entries that only the cache refers
    to and [in_use_] those that clients hold; the table has exactly
    the cached entries, each at its key and hash; [usage_] is the sum
    of the charges of the cached entries, as a [size_t]; [refs] is the
    number of handles held, plus one for a cached entry; an entry that
    is held is allocated; and the deleter has been called once for
    every entry that was freed and for no other. *)
Theorem serving_invariants C H s :
  serving C H s ->
  capacity_ s = C /\
  NoDup (lru_ s ++ in_use_ s) /\
  (forall x, x ∈ lru_ s <->
     exists e, heap s !! x = Some e /\ in_cache e = true /\ refs e = 1) /\
  (forall x, x ∈ in_use_ s <->
     exists e, heap s !! x = Some e /\ in_cache e = true /\ 2 <= refs e) /\
  (forall k h x, table_ s !! (h, k) = Some x <->
     exists e, heap s !! x = Some e /\ in_cache e = true /\ hash e = h /\ key e = k) /\
  usage_ s = usize (total_charge s) /\
  (forall x e, heap s !! x = Some e ->
     refs e = Z.of_nat (H x) + Z.b2z (in_cache e) /\ 0 < refs e < 2 ^ 32) /\
  (forall x, H x <> 0%nat -> is_Some (heap s !! x)) /\
  (forall x, deleter_calls s x =
     if bool_decide ((x < next_handle s)%nat /\ heap s !! x = None) then 1%nat else 0%nat).
Proof.
  intros Hs. destruct (serving_cinv C H s Hs) as [Hinv Hcap].
  split_and!; try done.
  - apply (cinv_live_nodup H s Hinv).
  - intros x. split.
    + intros Hx. destruct (cinv_lists H s x Hinv (or_introl Hx)) as (e & He & Hc).
      exists e. split_and!; try done.
      pose proof (cinv_heap _ _ Hinv x e He) as Hok.
      pose proof (proj1 (ok_lru _ _ _ _ Hok) Hx) as [_ Hz].
      rewrite (ok_refs _ _ _ _ Hok), Hc, Hz. done.
    + intros (e & He & Hc & Hr). pose proof (cinv_heap _ _ Hinv x e He) as Hok.
      apply (ok_lru _ _ _ _ Hok). split; [done|].
      pose proof (ok_refs _ _ _ _ Hok) as Hrefs. rewrite Hc in Hrefs. simpl in Hrefs. lia.
  - intros x. split.
    + intros Hx. destruct (cinv_lists H s x Hinv (or_intror Hx)) as (e & He & Hc).
      exists e. split_and!; try done.
      pose proof (cinv_heap _ _ Hinv x e He) as Hok.
      pose proof (proj1 (ok_in_use _ _ _ _ Hok) Hx) as [_ Hz].
      rewrite (ok_refs _ _ _ _ Hok), Hc. simpl. lia.
    + intros (e & He & Hc & Hr). pose proof (cinv_heap _ _ Hinv x e He) as Hok.
      apply (ok_in_use _ _ _ _ Hok). split; [done|].
      pose proof (ok_refs _ _ _ _ Hok) as Hrefs. rewrite Hc in Hrefs. simpl in Hrefs. lia.
  - intros k h x. split.
    + intros Hx. destruct (cinv_table _ _ Hinv _ _ Hx) as (e & He & Hc & [= -> ->]).
      by exists e.
    + intros (e & He & Hc & <- & <-). by apply (ok_table _ _ _ _ (cinv_heap _ _ Hinv x e He)).
  - apply (cinv_usage _ _ Hinv).
  - intros x e He. pose proof (cinv_heap _ _ Hinv x e He) as Hok.
    split; [apply (ok_refs _ _ _ _ Hok)|apply (ok_pos _ _ _ _ Hok)].
  - intros x Hx. destruct (heap s !! x) as [e|] eqn:He; [by eexists|].
    by destruct (cinv_free _ _ Hinv x He) as (_ & _ & ?).
  - intros x. by apply (deleter_calls_spec H).
Qed.

(** The entry [x] as its deleter is given it: out of the cache, with
    no reference left. *)
Definition freed (s : LRUCache) (x : Handle) : option (Handle * LRUHandle) :=
  match heap s !! x with
  | Some e => Some (x, set_refs (set_in_cache e false) 0)
  | None => None
  end.

Lemma usize_usage (H : Handle -> nat) (s : LRUCache) :
  cinv H s -> usize (usage_ s) = usage_ s.
Proof.
  intros Hinv. rewrite (cinv_usage _ _ Hinv). unfold usize. apply Z.mod_mod. lia.
Qed.

(** The eviction loop takes the oldest entries of [lru_], one by one,
    as long as the usage is above the capacity. *)
Lemma evict_loop_exact (H : Handle -> nat) : forall fuel s,
  cinv H s -> (length (lru_ s) <= fuel)%nat ->
  exists evicted rest,
    lru_ s = evicted ++ rest /\
    lru_ (evict_loop fuel s) = rest /\
    in_use_ (evict_loop fuel s) = in_use_ s /\
    capacity_ (evict_loop fuel s) = capacity_ s /\
    next_handle (evict_loop fuel s) = next_handle s /\
    usage_ (evict_loop fuel s) = usize (usage_ s - sumZ (charge_of s <$> evicted)) /\
    (forall kk, table_ (evict_loop fuel s) !! kk =
       match table_ s !! kk with
       | Some x => if decide (x ∈ evicted) then None else Some x
       | None => None
       end) /\
    (forall y : Handle, heap (evict_loop fuel s) !! y =
       if decide (y ∈ evicted) then None else heap s !! y) /\
    deleted (evict_loop fuel s) = deleted s ++ omap (freed s) evicted /\
    (usage_ (evict_loop fuel s) <= capacity_ s \/ rest = []) /\
    (forall p x q, evicted = p ++ x :: q ->
       capacity_ s < usize (usage_ s - sumZ (charge_of s <$> p))).
Proof.
  assert (Hstay : forall s, cinv H s ->
            (usage_ s <= capacity_ s \/ lru_ s = []) ->
            exists evicted rest,
              lru_ s = evicted ++ rest /\ lru_ s = rest /\ in_use_ s = in_use_ s /\
              capacity_ s = capacity_ s /\ next_handle s = next_handle s /\
              usage_ s = usize (usage_ s - sumZ (charge_of s <$> evicted)) /\
              (forall kk, table_ s !! kk =
                 match table_ s !! kk with
                 | Some x => if decide (x ∈ evicted) then None else Some x
                 | None => None
                 end) /\
              (forall y : Handle, heap s !! y =
                 if decide (y ∈ evicted) then None else heap s !! y) /\
              deleted s = deleted s ++ omap (freed s) evicted /\
              (usage_ s <= capacity_ s \/ rest = []) /\
              (forall p x q, evicted = p ++ x :: q ->
                 capacity_ s < usize (usage_ s - sumZ (charge_of s <$> p)))).
  { intros s Hinv Hstop. exists [], (lru_ s). split_and!; try done.
    - cbn. by rewrite Z.sub_0_r, (usize_usage H s Hinv).
    - intros kk. destruct (table_ s !! kk); [|done].
      by rewrite decide_False by apply not_elem_of_nil.
    - cbn. by rewrite app_nil_r.
    - intros p x q Hp. by destruct p. }
  induction fuel as [|fuel IH]; intros s Hinv Hlen.
  { cbn [evict_loop]. apply Hstay; [done|]. right.
    destruct (lru_ s); [done|cbn in Hlen; lia]. }
  destruct (lru_ s) as [|old rest0] eqn:Hl.
  { assert (Heq : evict_loop (S fuel) s = s) by (cbn [evict_loop]; by rewrite Hl).
    pose proof (Hstay s Hinv (or_intror Hl)) as Hs. rewrite Hl in Hs.
    rewrite Heq, ?Hl. exact Hs. }
  destruct (Z.ltb_spec (capacity_ s) (usage_ s)) as [Hover|Hfits]; cycle 1.
  { assert (Heq : evict_loop (S fuel) s = s).
    { cbn [evict_loop]. rewrite Hl.
      by destruct (Z.ltb_spec (capacity_ s) (usage_ s)) as [?|_]; [lia|]. }
    pose proof (Hstay s Hinv (or_introl Hfits)) as Hs. rewrite Hl in Hs.
    rewrite Heq, ?Hl. exact Hs. }
  destruct (uncache_oldest H s old rest0 Hinv Hl)
    as (ho & Hho & Htab & Hinv' & Hkeeps & Hl' & Hu').
  assert (Hstep : evict_loop (S fuel) s = evict_loop fuel (uncache s old ho)).
  { cbn [evict_loop]. rewrite Hl.
    destruct (Z.ltb_spec (capacity_ s) (usage_ s)) as [_|?]; [|lia].
    rewrite Hho. unfold table_Remove. by rewrite Htab. }
  rewrite Hstep. clear Hstep.
  (* the entry evicted has no reference but the cache's *)
  assert (Hin : old ∈ lru_ s) by (rewrite Hl; by left).
  pose proof (cinv_heap _ _ Hinv old ho Hho) as Hok.
  pose proof (proj1 (ok_lru _ _ _ _ Hok) Hin) as [Hc Hz].
  pose proof (ok_refs _ _ _ _ Hok) as Hrefs. rewrite Hc, Hz in Hrefs. cbn in Hrefs.
  pose proof (uncache_free s old ho Hho Hrefs) as Heq.
  set (s2 := uncache s old ho) in *.
  assert (Hfields : table_ s2 = delete (hash ho, key ho) (table_ s) /\
                    heap s2 = delete old (heap s) /\
                    deleted s2 = deleted s ++ [(old, set_refs (set_in_cache ho false) 0)] /\
                    in_use_ s2 = in_use_ s /\ capacity_ s2 = capacity_ s /\
                    next_handle s2 = next_handle s).
  { rewrite Heq. cbn. split_and!; try done.
    apply filter_ne_notin. intros Hi.
    by apply (ok_in_use _ _ _ _ Hok) in Hi as [_ ?]. }
  destruct Hfields as (Ht2 & Hh2 & Hd2 & Hi2 & Hc2 & Hn2).
  pose proof (cinv_lru _ _ Hinv) as Hnd. rewrite Hl in Hnd.
  apply NoDup_cons in Hnd as [Hnot _].
  destruct (IH s2 Hinv') as (ev & rest & Hsplit & Hlru & Hiu & Hcap & Hnext & Husage &
                                Htable & Hheap & Hdel & Hstop & Hmin).
  { rewrite Hl'. cbn in Hlen. lia. }
  rewrite Hl' in Hsplit.
  assert (Hnotev : old ∉ ev).
  { intros Hev. apply Hnot. rewrite Hsplit. apply elem_of_app. by left. }
  assert (Hcharge : forall l : list Handle, old ∉ l ->
            sumZ (charge_of s2 <$> l) = sumZ (charge_of s <$> l)).
  { intros l Hl2. apply sumZ_ext. intros y Hy. unfold charge_of. rewrite Hh2.
    rewrite lookup_delete_ne; [done|]. intros <-. done. }
  exists (old :: ev), rest. split_and!.
  - by rewrite Hsplit.
  - done.
  - congruence.
  - congruence.
  - congruence.
  - rewrite Husage, Hu', usize_sub, (Hcharge ev Hnotev). f_equal.
    rewrite fmap_cons, sumZ_cons. unfold charge_of at 2. rewrite Hho. lia.
  - intros kk. rewrite Htable, Ht2.
    destruct (decide (kk = (hash ho, key ho))) as [->|Hne].
    + rewrite lookup_delete_eq, Htab. rewrite decide_True by left. done.
    + rewrite lookup_delete_ne by done.
      destruct (table_ s !! kk) as [x|] eqn:Hx; [|done].
      assert (Hxo : x <> old).
      { intros ->. destruct (cinv_table _ _ Hinv _ _ Hx) as (e' & He' & _ & Hk).
        rewrite Hho in He'. injection He' as <-. done. }
      destruct (decide (x ∈ ev)) as [Hev|Hev].
      * rewrite decide_True by (by right). done.
      * rewrite decide_False; [done|]. intros Hx'. apply elem_of_cons in Hx' as [?|?]; done.
  - intros y. rewrite Hheap, Hh2.
    destruct (decide (y = old)) as [->|Hne].
    + rewrite lookup_delete_eq. rewrite (decide_True (P := old ∈ old :: ev)) by left.
      by destruct (decide (old ∈ ev)).
    + rewrite lookup_delete_ne by done.
      destruct (decide (y ∈ ev)) as [Hev|Hev].
      * rewrite decide_True by (by right). done.
      * rewrite decide_False; [done|]. intros Hx'. apply elem_of_cons in Hx' as [?|?]; done.
  - rewrite Hdel, Hd2, <- app_assoc. f_equal.
    change (omap (freed s) (old :: ev)) with
      (match freed s old with Some y => y :: omap (freed s) ev | None => omap (freed s) ev end).
    unfold freed at 2. rewrite Hho. cbn [app]. f_equal.
    apply BlockBuilder.omap_ext_in. intros y Hy. unfold freed. rewrite Hh2.
    rewrite lookup_delete_ne; [done|]. intros <-. done.
  - rewrite <- Hc2. done.
  - intros p x q Hp. destruct p as [|p0 p].
    + cbn. rewrite Z.sub_0_r, (usize_usage H s Hinv). done.
    + cbn in Hp. injection Hp as <- Hp.
      specialize (Hmin p x q Hp). rewrite Hc2, Hu', usize_sub in Hmin.
      rewrite (Hcharge p) in Hmin.
      * rewrite fmap_cons, sumZ_cons. unfold charge_of at 1. rewrite Hho.
        replace (usage_ s - (charge ho + sumZ (charge_of s <$> p)))
          with (usage_ s - charge ho - sumZ (charge_of s <$> p)) by lia. done.
      * intros Hop. apply Hnotev. rewrite Hp. apply elem_of_app. by left.
Qed.

(** X28: [Insert] into a shard of capacity above 0 returns a new
    handle to the entry it allocates, and a [Lookup] of the key then
    finds that entry.  The shard is the one [Erase] of the key leaves,
    with the new entry (two references, in the cache) in the table and
    at the end of [in_use_], its charge added to [usage_], and the
    oldest entries of [lru_] evicted one by one as long as [usage_] is
    above the capacity: each is taken out of the table and the heap,
    its charge subtracted and its deleter called, in order.  No entry
    that a client holds is evicted. *)
Theorem Insert_result C H s k h v c d :
  serving C H s -> 0 < C ->
  let e := (Insert s k h v c d).1 in
  let s' := (Insert s k h v c d).2 in
  let s0 := Erase s k h in
  e = next_handle s /\ heap s !! e = None /\
  (Lookup s' k h).1 = Some e /\
  exists evicted,
    lru_ s0 = evicted ++ lru_ s' /\
    (usage_ s' <= C \/ lru_ s' = []) /\
    (forall p x q, evicted = p ++ x :: q ->
       C < usize (usage_ s0 + c - sumZ (charge_of s0 <$> p))) /\
    (forall y, y ∈ evicted -> H y = 0%nat) /\
    capacity_ s' = C /\ next_handle s' = S e /\
    in_use_ s' = in_use_ s0 ++ [e] /\
    usage_ s' = usize (usage_ s0 + c - sumZ (charge_of s0 <$> evicted)) /\
    (forall kk, table_ s' !! kk =
       if decide (kk = (h, k)) then Some e
       else match table_ s0 !! kk with
            | Some x => if decide (x ∈ evicted) then None else Some x
            | None => None
            end) /\
    (forall y : Handle, heap s' !! y =
       if decide (y = e)
       then Some {| value := v; deleter := d; charge := c; key := k;
                    in_cache := true; refs := 2; hash := h |}
       else if decide (y ∈ evicted) then None else heap s0 !! y) /\
    deleted s' = deleted s0 ++ omap (freed s0) evicted.
Proof.
  intros Hs Hpos. destruct (serving_cinv C H s Hs) as [Hinv Hcap].
  rewrite (Erase_replaced H s k h Hinv).
  rewrite (Insert_cached H s k h v c d Hinv) by lia. cbn [fst snd]. cbn zeta.
  destruct (replaced_cinv H s k h Hinv) as (Hinv1 & Hnone & Hcap1 & Hnext1).
  pose proof (installed_cinv H _ k h v c d Hinv1 Hnone) as Hinv2.
  destruct (cinv_fresh H s Hinv) as (Hheap & _).
  destruct (cinv_fresh H _ Hinv1) as (Hheap1 & Hnl1 & _).
  set (s0 := replaced s k h) in *. set (s1 := installed s0 k h v c d) in *.
  destruct (evict_loop_exact _ (length (lru_ s1)) s1 Hinv2 ltac:(lia))
    as (evicted & rest & Hsplit & Hlru & Hiu & Hcapl & Hnext & Husage & Htable & Hhp &
        Hdel & Hstop & Hmin).
  set (s' := evict_loop (length (lru_ s1)) s1) in *.
  change (lru_ s1) with (lru_ s0) in Hsplit.
  rewrite Hnext1 in Hheap1, Hnl1.
  assert (Hne : forall y : Handle, y ∈ evicted -> y <> next_handle s).
  { intros y Hy ->. apply Hnl1. rewrite Hsplit. apply elem_of_app. by left. }
  assert (Hnotin : next_handle s ∉ evicted) by (intros Hy; by apply (Hne _ Hy)).
  assert (Hch : forall l : list Handle, (forall y, y ∈ l -> y ∈ evicted) ->
            sumZ (charge_of s1 <$> l) = sumZ (charge_of s0 <$> l)).
  { intros l Hl. apply sumZ_ext. intros y Hy. unfold charge_of, s1, installed. cbn [heap].
    rewrite Hnext1. rewrite lookup_insert_ne; [done|]. intros Heq. by apply (Hne y (Hl y Hy)). }
  assert (Ht1 : forall kk, table_ s1 !! kk =
            if decide (kk = (h, k)) then Some (next_handle s) else table_ s0 !! kk).
  { intros kk. unfold s1, installed. cbn [table_]. rewrite Hnext1.
    destruct (decide (kk = (h, k))) as [->|Hk]; [by rewrite lookup_insert_eq|].
    by rewrite lookup_insert_ne. }
  split_and!; try done.
  - unfold Lookup, table_Lookup. rewrite Htable, Ht1.
    rewrite decide_True by done. by rewrite decide_False.
  - exists evicted. split_and!.
    + by rewrite Hlru.
    + rewrite <- Hcap, <- Hcap1, Hlru. exact Hstop.
    + intros p x q Hp. specialize (Hmin p x q Hp).
      change (capacity_ s1) with (capacity_ s0) in Hmin.
      change (usage_ s1) with (usize (usage_ s0 + c)) in Hmin.
      rewrite usize_sub, Hch in Hmin; [by rewrite <- Hcap, <- Hcap1|].
      intros y Hy. rewrite Hp. apply elem_of_app. by left.
    + intros y Hy.
      assert (Hin : y ∈ lru_ s0) by (rewrite Hsplit; apply elem_of_app; by left).
      destruct (cinv_lists H s0 y Hinv1 (or_introl Hin)) as (ey & Hey & _).
      by apply (proj1 (ok_lru _ _ _ _ (cinv_heap _ _ Hinv1 y ey Hey)) Hin).
    + rewrite Hcapl. change (capacity_ s1) with (capacity_ s0). congruence.
    + rewrite Hnext. unfold s1, installed. cbn [next_handle]. by rewrite Hnext1.
    + rewrite Hiu. unfold s1, installed. cbn [in_use_]. by rewrite Hnext1.
    + rewrite Husage. change (usage_ s1) with (usize (usage_ s0 + c)).
      rewrite usize_sub, Hch; done.
    + intros kk. rewrite Htable, Ht1.
      destruct (decide (kk = (h, k))); [by rewrite decide_False|done].
    + intros y. rewrite Hhp. unfold s1, installed. cbn [heap]. rewrite Hnext1.
      destruct (decide (y = next_handle s)) as [->|Hy].
      * rewrite decide_False by done. by rewrite lookup_insert_eq.
      * by rewrite lookup_insert_ne.
    + rewrite Hdel. change (deleted s1) with (deleted s0). f_equal.
      apply BlockBuilder.omap_ext_in. intros y Hy. unfold freed, s1, installed. cbn [heap].
      rewrite Hnext1. rewrite lookup_insert_ne; [done|]. intros Heq. by apply (Hne y Hy).
Qed.

(** X29: after [Erase] a [Lookup] of the key misses; the entry that
    was erased is freed at once when no client holds it and otherwise
    stays allocated, out of the cache, with one reference for each
    handle.  [Prune] frees every entry of [lru_] and leaves [lru_]
    empty; the entries that clients hold, [in_use_] and their charges
    in [usage_] stay. *)
Theorem Erase_Prune_result C H s :
  serving C H s ->
  (forall k h,
     (Lookup (Erase s k h) k h).1 = None /\
     forall x, table_ s !! (h, k) = Some x ->
       if decide (H x = 0%nat) then heap (Erase s k h) !! x = None
       else exists e, heap (Erase s k h) !! x = Some e /\ in_cache e = false /\
                      refs e = Z.of_nat (H x)) /\
  lru_ (Prune s) = [] /\ in_use_ (Prune s) = in_use_ s /\
  (forall y, y ∈ lru_ s -> heap (Prune s) !! y = None) /\
  (forall y, H y <> 0%nat -> heap (Prune s) !! y = heap s !! y) /\
  usage_ (Prune s) = usize (sumZ (charge_of s <$> in_use_ s)).
Proof.
  intros Hs. destruct (serving_cinv C H s Hs) as [Hinv Hcap].
  destruct (Prune_cinv H s Hinv) as (Hinv' & Hkeeps & Hlru).
  split_and!.
  - intros k h. split.
    + unfold Lookup, table_Lookup. by rewrite Erase_table, lookup_delete_eq.
    + intros x Htab. destruct (Erase_cinv H s k h Hinv) as [HinvE _].
      destruct (heap (Erase s k h) !! x) as [e|] eqn:He.
      * pose proof (cinv_heap _ _ HinvE x e He) as Hok.
        assert (Hc : in_cache e = false).
        { destruct (in_cache e) eqn:Hc; [|done]. exfalso.
          pose proof (ok_table _ _ _ _ Hok Hc) as Ht. rewrite Erase_table in Ht.
          apply lookup_delete_Some in Ht as [Hne Ht].
          destruct (cinv_table _ _ Hinv _ _ Htab) as (e0 & He0 & _ & Hk0).
          destruct (cinv_table _ _ Hinv _ _ Ht) as (e1 & He1 & _ & Hk1).
          rewrite He0 in He1. injection He1 as <-. congruence. }
        pose proof (ok_refs _ _ _ _ Hok) as Hrefs. rewrite Hc in Hrefs. simpl in Hrefs.
        pose proof (ok_pos _ _ _ _ Hok). destruct (decide (H x = 0%nat)); [lia|].
        exists e. split_and!; [done|done|lia].
      * destruct (cinv_free _ _ HinvE x He) as (_ & _ & Hz). by rewrite decide_True.
  - done.
  - apply (keeps_in_use _ _ _ Hkeeps).
  - intros y Hy. destruct (heap (Prune s) !! y) as [e|] eqn:He; [exfalso|done].
    destruct (cinv_lists H s y Hinv (or_introl Hy)) as (e0 & He0 & Hc0).
    pose proof (proj1 (ok_lru _ _ _ _ (cinv_heap _ _ Hinv y e0 He0)) Hy) as [_ Hz].
    pose proof (cinv_heap _ _ Hinv' y e He) as Hok.
    pose proof (ok_refs _ _ _ _ Hok) as Hrefs. pose proof (ok_pos _ _ _ _ Hok).
    destruct (in_cache e) eqn:Hc; simpl in Hrefs; [|lia].
    assert (Hin : y ∈ lru_ (Prune s)) by (by apply (ok_lru _ _ _ _ Hok)).
    rewrite Hlru in Hin. by apply elem_of_nil in Hin.
  - apply (keeps_heap _ _ _ Hkeeps).
  - rewrite (cinv_usage _ _ Hinv'). f_equal. unfold total_charge, live.
    rewrite Hlru, (keeps_in_use _ _ _ Hkeeps). simpl. apply sumZ_ext.
    intros y Hy. unfold charge_of. rewrite (keeps_heap _ _ _ Hkeeps); [done|].
    destruct (cinv_lists H s y Hinv (or_intror Hy)) as (e0 & He0 & Hc0).
    by apply (proj1 (ok_in_use _ _ _ _ (cinv_heap _ _ Hinv y e0 He0)) Hy).
Qed.

(** A shard of capacity 10 after one [Insert], of the key [[1]] with
    hash 5, value 7 and charge 4, whose handle the client holds. *)
Definition example_shard : LRUCache := (Insert (new 10) [1] 5 7 4 0).2.

Definition example_handles : Handle -> nat := acquire (fun _ => 0%nat) 0%nat.

Lemma example_serving : serving 10 example_handles example_shard.
Proof. apply (serving_Insert 10 (fun _ => 0%nat) (new 10)), serving_new. Qed.

Lemma serving_invariants_witness :
  serving 10 example_handles example_shard /\
  capacity_ example_shard = 10 /\
  NoDup (lru_ example_shard ++ in_use_ example_shard) /\
  (forall x, x ∈ lru_ example_shard <->
     exists e, heap example_shard !! x = Some e /\ in_cache e = true /\ refs e = 1) /\
  (forall x, x ∈ in_use_ example_shard <->
     exists e, heap example_shard !! x = Some e /\ in_cache e = true /\ 2 <= refs e) /\
  (forall k h x, table_ example_shard !! (h, k) = Some x <->
     exists e, heap example_shard !! x = Some e /\ in_cache e = true /\
       hash e = h /\ key e = k) /\
  usage_ example_shard = usize (total_charge example_shard) /\
  (forall x e, heap example_shard !! x = Some e ->
     refs e = Z.of_nat (example_handles x) + Z.b2z (in_cache e) /\ 0 < refs e < 2 ^ 32) /\
  (forall x, example_handles x <> 0%nat -> is_Some (heap example_shard !! x)) /\
  (forall x, deleter_calls example_shard x =
     if bool_decide ((x < next_handle example_shard)%nat /\ heap example_shard !! x = None)
     then 1%nat else 0%nat).
Proof.
  split; [apply example_serving|].
  apply (serving_invariants 10 example_handles example_shard example_serving).
Defined.

(** The shard of the example once its client has released the handle:
    the entry, of charge 4, is on [lru_].  An [Insert] of charge 7
    then evicts it. *)
Definition example_released : LRUCache := Release example_shard 0%nat.

Lemma example_released_serving :
  serving 10 (release example_handles 0%nat) example_released.
Proof. apply serving_Release; [apply example_serving|done]. Qed.

Example Insert_evicts_example :
  let s' := (Insert example_released [2] 6 8 7 0).2 in
  lru_ example_released = [0%nat] /\ usage_ example_released = 4 /\
  lru_ s' = [] /\ in_use_ s' = [1%nat] /\ usage_ s' = 7 /\
  heap s' !! 0%nat = None /\ fst <$> deleted s' = [0%nat].
Proof. vm_compute. split_and!; reflexivity. Qed.

Lemma Insert_result_witness :
  serving 10 (release example_handles 0%nat) example_released /\ 0 < 10 /\
  let e := (Insert example_released [2] 6 8 7 0).1 in
  let s' := (Insert example_released [2] 6 8 7 0).2 in
  e = next_handle example_released /\ (Lookup s' [2] 6).1 = Some e /\
  exists evicted,
    lru_ (Erase example_released [2] 6) = evicted ++ lru_ s' /\
    (usage_ s' <= 10 \/ lru_ s' = []).
Proof.
  assert (Hpos : 0 < 10) by lia.
  split; [apply example_released_serving|]. split; [done|].
  destruct (Insert_result 10 _ example_released [2] 6 8 7 0 example_released_serving Hpos)
    as (H1 & _ & H3 & ev & H4 & H5 & _).
  cbv zeta. split_and!; [exact H1|exact H3|]. exists ev. by split.
Defined.

Lemma Erase_Prune_result_witness :
  serving 10 example_handles example_shard /\
  (forall k h,
     (Lookup (Erase example_shard k h) k h).1 = None /\
     forall x, table_ example_shard !! (h, k) = Some x ->
       if decide (example_handles x = 0%nat) then heap (Erase example_shard k h) !! x = None
       else exists e, heap (Erase example_shard k h) !! x = Some e /\ in_cache e = false /\
                      refs e = Z.of_nat (example_handles x)) /\
  lru_ (Prune example_shard) = [] /\ in_use_ (Prune example_shard) = in_use_ example_shard /\
  (forall y, y ∈ lru_ example_shard -> heap (Prune example_shard) !! y = None) /\
  (forall y, example_handles y <> 0%nat ->
     heap (Prune example_shard) !! y = heap example_shard !! y) /\
  usage_ (Prune example_shard) = usize (sumZ (charge_of example_shard <$> in_use_ example_shard)).
Proof.
  split; [apply example_serving|].
  apply (Erase_Prune_result 10 example_handles example_shard example_serving).
Defined.

End Cache.

(** ** util/cache.cc: the hash table of a shard *)

Module HandleTable.

(** An [LRUHandle*] is the address of the entry. *)
Definition Handle : Type := nat.

(** The fields of [struct LRUHandle] that the table reads and writes:
    the key, its hash and the chaining pointer [next_hash]. *)
Record Node : Type := {
  key : list Z;
  hash : Z;
  next_hash : option Handle
}.

Definition set_next_hash (n : Node) (v : option Handle) : Node :=
  {| key := key n; hash := hash n; next_hash := v |}.

(** [class HandleTable]: [list_] is the array of [length_] buckets,
    each the head of a chain of entries linked by [next_hash]. *)
Record HandleTable : Type := {
  length_ : Z;
  elems_ : Z;
  list_ : list (option Handle)
}.

(** An [LRUHandle**]: the address of a bucket of [list_] or of the
    [next_hash] field of an entry. *)
Inductive Ptr : Type :=
| Bucket (i : nat)
| NextHash (h : Handle).

(** [*ptr], and [*ptr = v]; [None] when [ptr] points to no bucket and
    no entry. *)
Definition load (t : HandleTable) (m : gmap Handle Node) (ptr : Ptr) : option (option Handle) :=
  match ptr with
  | Bucket i => list_ t !! i
  | NextHash h => n ← m !! h; Some (next_hash n)
  end.

Definition store (t : HandleTable) (m : gmap Handle Node) (ptr : Ptr) (v : option Handle)
    : option (HandleTable * gmap Handle Node) :=
  match ptr with
  | Bucket i =>
      if decide (i < length (list_ t))%nat
      then Some ({| length_ := length_ t; elems_ := elems_ t;
                    list_ := <[i := v]> (list_ t) |}, m)
      else None
  | NextHash h => n ← m !! h; Some (t, <[h := set_next_hash n v]> m)
  end.

(** [length_], [elems_], [count] and the hashes are [uint32_t]s. *)
Definition u32 (n : Z) : Z := n mod 2 ^ 32.

(** [hash & (length - 1)]. *)
Definition bucket_of (length hash : Z) : nat :=
  Z.to_nat (Z.land hash (u32 (length - 1))).

(** [FindPointer(key, hash)]: the loop follows one chain, which holds
    at most [elems_] entries. *)
Fixpoint FindPointer_loop (fuel : nat) (t : HandleTable) (m : gmap Handle Node)
    (k : list Z) (h : Z) (ptr : Ptr) : option Ptr :=
  match fuel with
  | O => None
  | S fuel' =>
      cur ← load t m ptr;
      match cur with
      | None => Some ptr
      | Some x =>
          n ← m !! x;
          if negb (hash n =? h) || negb (bool_decide (k = key n))
          then FindPointer_loop fuel' t m k h (NextHash x)
          else Some ptr
      end
  end.

Definition FindPointer (t : HandleTable) (m : gmap Handle Node) (k : list Z) (h : Z) : option Ptr :=
  FindPointer_loop (S (Z.to_nat (elems_ t))) t m k h (Bucket (bucket_of (length_ t) h)).

(** [Lookup(key, hash)]. *)
Definition Lookup (t : HandleTable) (m : gmap Handle Node) (k : list Z) (h : Z)
    : option (option Handle) :=
  ptr ← FindPointer t m k h; load t m ptr.

(** The first loop of [Resize]: [while (new_length < elems_)
    new_length *= 2].  After 32 doublings [new_length] is 0 and the
    loop no longer ends. *)
Fixpoint grow (fuel : nat) (new_length elems : Z) : option Z :=
  match fuel with
  | O => None
  | S fuel' =>
      if new_length <? elems then grow fuel' (u32 (new_length * 2)) elems
      else Some new_length
  end.

(** The inner loop of [Resize]: move the entries of one chain, from
    [h] on, to the front of their buckets in [new_list]. *)
Fixpoint rehash_chain (fuel : nat) (new_list : list (option Handle)) (new_length : Z)
    (m : gmap Handle Node) (h : option Handle) (count : Z)
    : option (list (option Handle) * gmap Handle Node * Z) :=
  match h with
  | None => Some (new_list, m, count)
  | Some x =>
      match fuel with
      | O => None
      | S fuel' =>
          n ← m !! x;
          let next := next_hash n in
          let i := bucket_of new_length (hash n) in
          head ← new_list !! i;
          let m := <[x := set_next_hash n head]> m in
          let new_list := <[i := Some x]> new_list in
          rehash_chain fuel' new_list new_length m next (u32 (count + 1))
      end
  end.

(** The [for] loop of [Resize], over the buckets of the old array. *)
Fixpoint rehash_buckets (buckets : list (option Handle)) (fuel : nat)
    (new_list : list (option Handle)) (new_length : Z) (m : gmap Handle Node) (count : Z)
    : option (list (option Handle) * gmap Handle Node * Z) :=
  match buckets with
  | [] => Some (new_list, m, count)
  | h :: rest =>
      '(new_list, m, count) ← rehash_chain fuel new_list new_length m h count;
      rehash_buckets rest fuel new_list new_length m count
  end.

(** [Resize()]: the table, the entries and [count], which the source
    asserts to be [elems_]. *)
Definition Resize (t : HandleTable) (m : gmap Handle Node) : option (HandleTable * gmap Handle Node * Z) :=
  new_length ← grow 32 4 (elems_ t);
  let new_list := replicate (Z.to_nat new_length) None in
  '(new_list, m, count) ←
    rehash_buckets (take (Z.to_nat (length_ t)) (list_ t)) (S (Z.to_nat (elems_ t)))
      new_list new_length m 0;
  Some ({| length_ := new_length; elems_ := elems_ t; list_ := new_list |}, m, count).

(** [HandleTable()]. *)
Definition new : option HandleTable :=
  '(t, _, _) ← Resize {| length_ := 0; elems_ := 0; list_ := [] |} ∅; Some t.

(** [Insert(h)]: the entry replaced, the table and the entries. *)
Definition Insert (t : HandleTable) (m : gmap Handle Node) (h : Handle)
    : option (option Handle * HandleTable * gmap Handle Node) :=
  n ← m !! h;
  ptr ← FindPointer t m (key n) (hash n);
  old ← load t m ptr;
  next ← match old with
         | None => Some None
         | Some o => no ← m !! o; Some (next_hash no)
         end;
  let m := <[h := set_next_hash n next]> m in
  '(t, m) ← store t m ptr (Some h);
  match old with
  | None =>
      let t := {| length_ := length_ t; elems_ := u32 (elems_ t + 1); list_ := list_ t |} in
      if length_ t <? elems_ t then
        (* Since each cache entry is fairly large, we aim for a small
           average linked list length (<= 1). *)
        '(t, m, _) ← Resize t m; Some (old, t, m)
      else Some (old, t, m)
  | Some _ => Some (old, t, m)
  end.

(** [Remove(key, hash)]. *)
Definition Remove (t : HandleTable) (m : gmap Handle Node) (k : list Z) (h : Z)
    : option (option Handle * HandleTable * gmap Handle Node) :=
  ptr ← FindPointer t m k h;
  result ← load t m ptr;
  match result with
  | Some r =>
      nr ← m !! r;
      '(t, m) ← store t m ptr (next_hash nr);
      Some (result,
            {| length_ := length_ t; elems_ := u32 (elems_ t - 1); list_ := list_ t |}, m)
  | None => Some (result, t, m)
  end.

Lemma new_eq : new = Some {| length_ := 4; elems_ := 0; list_ := replicate 4 None |}.
Proof. reflexivity. Qed.

(** *** Chains *)

(** [is_seg m s l e]: following [next_hash] from the pointer [s]
    visits the entries [l] and arrives at the pointer [e]. *)
Inductive is_seg (m : gmap Handle Node) : option Handle -> list Handle -> option Handle -> Prop :=
| seg_nil s : is_seg m s [] s
| seg_cons x n l e :
    m !! x = Some n -> is_seg m (next_hash n) l e -> is_seg m (Some x) (x :: l) e.

(** A chain: a segment that ends with the null pointer. *)
Definition is_chain (m : gmap Handle Node) (s : option Handle) (l : list Handle) : Prop :=
  is_seg m s l None.

Lemma seg_frame m m' s l e :
  is_seg m s l e -> (forall x, x ∈ l -> m' !! x = m !! x) -> is_seg m' s l e.
Proof.
  induction 1 as [|x n l e Hx Hseg IH]; intros Hsame; [constructor|].
  econstructor.
  - rewrite Hsame; [done|by left].
  - apply IH. intros y Hy. apply Hsame. by right.
Qed.

Lemma seg_app m s l1 l2 e :
  is_seg m s (l1 ++ l2) e <-> exists mid, is_seg m s l1 mid /\ is_seg m mid l2 e.
Proof.
  revert s. induction l1 as [|x l1 IH]; intros s; simpl.
  - split; [intros H; exists s; split; [constructor|done]|].
    intros (mid & H1 & H2). by inversion H1; subst.
  - split.
    + intros H. inversion H as [|? n ? ? Hx Hseg]; subst.
      apply IH in Hseg as (mid & H1 & H2). exists mid. split; [|done].
      by econstructor.
    + intros (mid & H1 & H2). inversion H1 as [|? n ? ? Hx Hseg]; subst.
      econstructor; [done|]. apply IH. by exists mid.
Qed.

Lemma seg_snoc m s l y e :
  is_seg m s (l ++ [y]) e <->
  is_seg m s l (Some y) /\ exists n, m !! y = Some n /\ next_hash n = e.
Proof.
  rewrite seg_app. split.
  - intros (mid & H1 & H2). inversion H2 as [|? n ? ? Hy Hnil]; subst.
    inversion Hnil; subst. split; [done|]. by exists n.
  - intros (H1 & n & Hy & <-). exists (Some y). split; [done|].
    econstructor; [done|constructor].
Qed.

Lemma seg_functional m s l e e' : is_seg m s l e -> is_seg m s l e' -> e = e'.
Proof.
  induction 1 as [|x n l e Hx Hseg IH]; intros H'; inversion H'; subst; [done|].
  apply IH. congruence.
Qed.

Lemma seg_dom m s l e x : is_seg m s l e -> x ∈ l -> is_Some (m !! x).
Proof.
  induction 1 as [|y n l e Hy Hseg IH]; intros Hx; [by apply elem_of_nil in Hx|].
  apply elem_of_cons in Hx as [->|Hx]; [by eexists|by apply IH].
Qed.

(** Writing the [next_hash] of the last entry of a segment redirects
    its end. *)
Lemma seg_set_last m s l y e n v :
  is_seg m s (l ++ [y]) e -> y ∉ l -> m !! y = Some n ->
  is_seg (<[y := set_next_hash n v]> m) s (l ++ [y]) v.
Proof.
  intros Hseg Hy Hn. apply seg_snoc in Hseg as (Hseg & _).
  apply seg_snoc. split.
  - apply (seg_frame m); [done|]. intros x Hx. rewrite lookup_insert_ne; [done|].
    intros <-. done.
  - exists (set_next_hash n v). by rewrite lookup_insert_eq.
Qed.

(** *** The search *)

Definition matches (k : list Z) (h : Z) (n : Node) : Prop := hash n = h /\ key n = k.

(** No entry of [l] has the key [k] and the hash [h]. *)
Definition none_match (m : gmap Handle Node) (k : list Z) (h : Z) (l : list Handle) : Prop :=
  forall y n, y ∈ l -> m !! y = Some n -> ~ matches k h n.

(** The pointer the search holds after it has passed the entries [l]
    from [ptr]. *)
Definition ptr_after (ptr : Ptr) (l : list Handle) : Ptr :=
  match last l with Some y => NextHash y | None => ptr end.

Lemma ptr_after_cons ptr x l : ptr_after ptr (x :: l) = ptr_after (NextHash x) l.
Proof.
  unfold ptr_after. destruct l as [|y l]; [done|]. cbn [last].
  destruct (last (y :: l)) eqn:E; [done|]. by apply last_None in E.
Qed.

Lemma FindPointer_loop_spec t m k h : forall fuel ptr cur l,
  load t m ptr = Some cur -> is_chain m cur l -> (length l < fuel)%nat ->
  (exists l1 x nx l2,
     l = l1 ++ x :: l2 /\ none_match m k h l1 /\ m !! x = Some nx /\ matches k h nx /\
     is_seg m cur l1 (Some x) /\ is_chain m (next_hash nx) l2 /\
     FindPointer_loop fuel t m k h ptr = Some (ptr_after ptr l1)) \/
  (none_match m k h l /\ FindPointer_loop fuel t m k h ptr = Some (ptr_after ptr l)).
Proof.
  induction fuel as [|fuel IH]; intros ptr cur l Hload Hchain Hfuel; [lia|].
  cbn [FindPointer_loop]. rewrite Hload. cbn [mbind option_bind].
  inversion Hchain as [|x n l' ? Hx Hrest]; subst.
  { right. split; [|done]. intros y n Hy. by apply elem_of_nil in Hy. }
  rewrite Hx. cbn [mbind option_bind].
  destruct (Z.eqb_spec (hash n) h) as [Hh|Hh]; cbn [negb orb].
  - destruct (bool_decide_reflect (k = key n)) as [Hk|Hk]; cbn [negb].
    + left. exists [], x, n, l'. split_and!; try done.
      * intros y n' Hy. by apply elem_of_nil in Hy.
      * constructor.
    + destruct (IH (NextHash x) (next_hash n) l') as
        [(l1 & x' & nx & l2 & -> & Hnone & Hx' & Hm & Hseg & Hl2 & Hfind)|[Hnone Hfind]].
      { simpl. by rewrite Hx. }
      { done. }
      { simpl in Hfuel. lia. }
      * left. exists (x :: l1), x', nx, l2. split_and!; try done.
        -- intros y n' Hy Hn'. apply elem_of_cons in Hy as [->|Hy]; [|by apply (Hnone y)].
           intros [_ Hk']. rewrite Hx in Hn'. injection Hn' as <-. done.
        -- by econstructor.
        -- by rewrite ptr_after_cons.
      * right. split; [|by rewrite ptr_after_cons].
        intros y n' Hy Hn'. apply elem_of_cons in Hy as [->|Hy]; [|by apply (Hnone y)].
        intros [_ Hk']. rewrite Hx in Hn'. injection Hn' as <-. done.
  - destruct (IH (NextHash x) (next_hash n) l') as
      [(l1 & x' & nx & l2 & -> & Hnone & Hx' & Hm & Hseg & Hl2 & Hfind)|[Hnone Hfind]].
    { simpl. by rewrite Hx. }
    { done. }
    { simpl in Hfuel. lia. }
    + left. exists (x :: l1), x', nx, l2. split_and!; try done.
      * intros y n' Hy Hn'. apply elem_of_cons in Hy as [->|Hy]; [|by apply (Hnone y)].
        intros [Hh' _]. rewrite Hx in Hn'. injection Hn' as <-. done.
      * by econstructor.
      * by rewrite ptr_after_cons.
    + right. split; [|by rewrite ptr_after_cons].
      intros y n' Hy Hn'. apply elem_of_cons in Hy as [->|Hy]; [|by apply (Hnone y)].
      intros [Hh' _]. rewrite Hx in Hn'. injection Hn' as <-. done.
Qed.

(** What [*ptr] is where the search stops. *)
Lemma load_ptr_after t m ptr cur l e :
  load t m ptr = Some cur -> is_seg m cur l e -> load t m (ptr_after ptr l) = Some e.
Proof.
  intros Hload Hseg. destruct l as [|x l] using rev_ind.
  - inversion Hseg; subst. done.
  - unfold ptr_after. rewrite last_snoc. apply seg_snoc in Hseg as (_ & n & Hn & <-).
    simpl. by rewrite Hn.
Qed.

(** *** The shape of a table *)

(** [chains] lists, bucket by bucket, the entries of the table in the
    order of their chain: [length_] is a power of two, every entry is
    on the chain of its hash, no entry is on two chains or twice on
    one, no two entries have the same key and hash, and [elems_] counts
    the entries. *)
Record wf (t : HandleTable) (m : gmap Handle Node) (chains : list (list Handle)) : Prop := {
  wf_pow2 : exists p : Z, 2 <= p <= 31 /\ length_ t = 2 ^ p;
  wf_length : Z.of_nat (length (list_ t)) = length_ t;
  wf_chains : Forall2 (is_chain m) (list_ t) chains;
  wf_nodup : NoDup (concat chains);
  wf_bucket : forall i l x n,
    chains !! i = Some l -> x ∈ l -> m !! x = Some n ->
    bucket_of (length_ t) (hash n) = i;
  wf_keys : forall x y nx ny,
    x ∈ concat chains -> y ∈ concat chains -> m !! x = Some nx -> m !! y = Some ny ->
    hash nx = hash ny -> key nx = key ny -> x = y;
  wf_elems : elems_ t = Z.of_nat (length (concat chains))
}.

(** The table holds the finite map [M] from (hash, key) to entries,
    in at most as many entries as it has buckets. *)
Definition represents (t : HandleTable) (m : gmap Handle Node)
    (M : gmap (Z * list Z) Handle) : Prop :=
  exists chains, wf t m chains /\ elems_ t <= length_ t /\
    forall hk x, M !! hk = Some x <->
      x ∈ concat chains /\ exists n, m !! x = Some n /\ hk = (hash n, key n).

(** The entries keep their keys and hashes. *)
Definition same_keys (m m' : gmap Handle Node) : Prop :=
  forall x, (fun n => (hash n, key n)) <$> m' !! x = (fun n => (hash n, key n)) <$> m !! x.

Lemma same_keys_refl m : same_keys m m.
Proof. done. Qed.

Lemma same_keys_trans m1 m2 m3 : same_keys m1 m2 -> same_keys m2 m3 -> same_keys m1 m3.
Proof. intros H1 H2 x. by rewrite H2, H1. Qed.

Lemma same_keys_insert m x n v :
  m !! x = Some n -> same_keys m (<[x := set_next_hash n v]> m).
Proof.
  intros Hx y. destruct (decide (x = y)) as [<-|Hne].
  - by rewrite lookup_insert_eq, Hx.
  - by rewrite lookup_insert_ne.
Qed.

Lemma same_keys_lookup m m' x n' :
  same_keys m m' -> m' !! x = Some n' ->
  exists n, m !! x = Some n /\ hash n = hash n' /\ key n = key n'.
Proof.
  intros Hsame Hx. specialize (Hsame x). rewrite Hx in Hsame.
  destruct (m !! x) as [n|]; [|done]. simpl in Hsame. injection Hsame as H1 H2.
  by exists n.
Qed.

Lemma elem_of_concat {A} (x : A) (ls : list (list A)) :
  x ∈ concat ls <-> exists i l, ls !! i = Some l /\ x ∈ l.
Proof.
  induction ls as [|l ls IH]; simpl.
  - split; [intros H; by apply elem_of_nil in H|by intros (i & l & H & _)].
  - rewrite elem_of_app, IH. split.
    + intros [Hx|(i & l' & Hi & Hx)]; [by exists 0%nat, l|by exists (S i), l'].
    + intros ([|i] & l' & Hi & Hx); simpl in Hi; [injection Hi as <-; by left|].
      right. by exists i, l'.
Qed.

Lemma bucket_of_pow2 (p h : Z) :
  0 <= p <= 31 -> Z.of_nat (bucket_of (2 ^ p) h) = h mod 2 ^ p.
Proof.
  intros Hp. unfold bucket_of, u32.
  assert (Hpow : 0 < 2 ^ p <= 2 ^ 31).
  { split; [apply Z.pow_pos_nonneg; lia|apply Z.pow_le_mono_r; lia]. }
  rewrite (Z.mod_small (2 ^ p - 1)) by lia.
  replace (2 ^ p - 1) with (Z.ones p) by (rewrite Z.ones_equiv; lia).
  rewrite Z.land_ones by lia.
  pose proof (Z.mod_pos_bound h (2 ^ p)). lia.
Qed.

Lemma bucket_of_lt t m chains h :
  wf t m chains -> (bucket_of (length_ t) h < length (list_ t))%nat.
Proof.
  intros Hwf. destruct (wf_pow2 _ _ _ Hwf) as (p & Hp & Hlen).
  pose proof (wf_length _ _ _ Hwf) as Hl. rewrite Hlen in *.
  pose proof (bucket_of_pow2 p h ltac:(lia)).
  pose proof (Z.mod_pos_bound h (2 ^ p) ltac:(apply Z.pow_pos_nonneg; lia)). lia.
Qed.

(** The chain of a bucket. *)
Lemma wf_chain t m chains i :
  wf t m chains -> (i < length (list_ t))%nat ->
  exists start l A B,
    list_ t !! i = Some start /\ chains = A ++ l :: B /\ length A = i /\
    is_chain m start l /\ (Z.of_nat (length l) <= elems_ t).
Proof.
  intros Hwf Hi. pose proof (wf_chains _ _ _ Hwf) as Hch.
  destruct (lookup_lt_is_Some_2 _ _ Hi) as [start Hstart].
  destruct (Forall2_lookup_l _ _ _ _ _ Hch Hstart) as (l & Hl & Hc).
  exists start, l, (take i chains), (drop (S i) chains).
  pose proof (lookup_lt_Some _ _ _ Hl) as Hlt.
  split_and!; try done.
  - symmetry. by apply take_drop_middle.
  - rewrite length_take. lia.
  - rewrite (wf_elems _ _ _ Hwf).
    rewrite <- (take_drop_middle chains i l Hl), concat_app. simpl.
    rewrite !length_app. lia.
Qed.

(** *** Lookup *)

Lemma Lookup_spec t m M k h :
  represents t m M -> Lookup t m k h = Some (M !! (h, k)).
Proof.
  intros (chains & Hwf & _ & HM).
  pose proof (bucket_of_lt t m chains h Hwf) as Hi.
  destruct (wf_chain t m chains _ Hwf Hi) as (start & l & A & B & Hstart & Hsplit & HA & Hc & Hlen).
  assert (Hl : chains !! bucket_of (length_ t) h = Some l).
  { rewrite Hsplit, <- HA. by apply list_lookup_middle. }
  unfold Lookup, FindPointer.
  destruct (FindPointer_loop_spec t m k h (S (Z.to_nat (elems_ t)))
              (Bucket (bucket_of (length_ t) h)) start l Hstart Hc ltac:(lia))
    as [(l1 & x & nx & l2 & -> & Hnone & Hx & [Hh Hk] & Hseg & Hl2 & Hfind)|[Hnone Hfind]];
    rewrite Hfind; cbn [mbind option_bind].
  - rewrite (load_ptr_after t m (Bucket (bucket_of (length_ t) h)) start l1 (Some x) Hstart Hseg). f_equal. symmetry.
    apply HM. split.
    + apply elem_of_concat. eexists _, _. split; [exact Hl|].
      apply elem_of_app. right. by left.
    + exists nx. by rewrite Hh, Hk.
  - rewrite (load_ptr_after t m (Bucket (bucket_of (length_ t) h)) start l None Hstart Hc). f_equal. symmetry.
    destruct (M !! (h, k)) as [x|] eqn:E; [|done]. exfalso.
    apply HM in E as (Hx & n & Hn & [= -> ->]).
    apply elem_of_concat in Hx as (i & l' & Hl' & Hxl').
    pose proof (wf_bucket _ _ _ Hwf i l' x n Hl' Hxl' Hn) as Hb.
    rewrite <- Hb in Hl'. rewrite Hl in Hl'. injection Hl' as <-.
    by apply (Hnone x n).
Qed.

(** *** Writing where the search stopped *)

Lemma store_spec t m i start l1 cur v :
  list_ t !! i = Some start -> is_seg m start l1 cur -> NoDup l1 ->
  exists t' m',
    store t m (ptr_after (Bucket i) l1) v = Some (t', m') /\
    length_ t' = length_ t /\ elems_ t' = elems_ t /\
    length (list_ t') = length (list_ t) /\
    (exists start', list_ t' !! i = Some start' /\ is_seg m' start' l1 v) /\
    (forall j, j <> i -> list_ t' !! j = list_ t !! j) /\
    (forall x, x ∉ l1 -> m' !! x = m !! x) /\
    same_keys m m'.
Proof.
  intros Hstart Hseg Hnd. destruct l1 as [|y l1 _] using rev_ind.
  - unfold ptr_after. simpl. pose proof (lookup_lt_Some _ _ _ Hstart) as Hlt.
    rewrite decide_True by done. eexists _, m. split; [done|]. simpl.
    split_and!; try done.
    + by rewrite length_insert.
    + exists v. split; [by apply list_lookup_insert_eq|constructor].
    + intros j Hj. by apply list_lookup_insert_ne.
  - unfold ptr_after. rewrite last_snoc. simpl.
    pose proof Hseg as Hseg'. apply seg_snoc in Hseg' as (_ & ny & Hy & _).
    rewrite Hy. simpl. eexists t, _. split; [done|].
    apply NoDup_app in Hnd as (_ & Hdis & _).
    assert (Hnotin : y ∉ l1).
    { intros Hin. apply (Hdis y Hin). by left. }
    split_and!; try done.
    + exists start. split; [done|]. by apply (seg_set_last m start l1 y cur).
    + intros x Hx. rewrite lookup_insert_ne; [done|]. intros <-. apply Hx.
      apply elem_of_app. right. by left.
    + by apply same_keys_insert.
Qed.

(** The table once the chain of one bucket has been rewritten. *)
Lemma wf_update t m chains t' m' A l B l' :
  wf t m chains -> chains = A ++ l :: B ->
  length_ t' = length_ t -> length (list_ t') = length (list_ t) ->
  (forall j, j <> length A -> list_ t' !! j = list_ t !! j) ->
  (exists start', list_ t' !! length A = Some start' /\ is_chain m' start' l') ->
  (forall x, x ∈ concat A ++ concat B -> m' !! x = m !! x) ->
  NoDup (concat A ++ l' ++ concat B) ->
  (forall x n', x ∈ l' -> m' !! x = Some n' ->
     bucket_of (length_ t) (hash n') = length A) ->
  (forall x y nx ny,
     x ∈ concat A ++ l' ++ concat B -> y ∈ concat A ++ l' ++ concat B ->
     m' !! x = Some nx -> m' !! y = Some ny ->
     hash nx = hash ny -> key nx = key ny -> x = y) ->
  elems_ t' = Z.of_nat (length (concat A ++ l' ++ concat B)) ->
  wf t' m' (A ++ l' :: B).
Proof.
  intros Hwf -> Hlen Hlist Hother (start' & Hstart' & Hchain') Hframe Hnd Hb Hk He.
  assert (Hconcat : forall l0, concat (A ++ l0 :: B) = concat A ++ l0 ++ concat B).
  { intros l0. by rewrite concat_app. }
  split.
  - rewrite Hlen. apply (wf_pow2 _ _ _ Hwf).
  - rewrite Hlist, Hlen. apply (wf_length _ _ _ Hwf).
  - apply Forall2_same_length_lookup_2.
    { rewrite Hlist. pose proof (Forall2_length _ _ _ (wf_chains _ _ _ Hwf)) as HL.
      rewrite HL, !length_app. done. }
    intros j s lj Hs Hlj. destruct (decide (j = length A)) as [->|Hne].
    + rewrite list_lookup_middle in Hlj by done. injection Hlj as <-.
      rewrite Hstart' in Hs. by injection Hs as <-.
    + rewrite Hother in Hs by done.
      assert (Hlj' : (A ++ l :: B) !! j = Some lj).
      { destruct (decide (j < length A)%nat).
        - rewrite lookup_app_l in Hlj |- * by done. done.
        - rewrite lookup_app_r in Hlj |- * by lia.
          destruct (j - length A)%nat as [|j'] eqn:Ej; [lia|]. done. }
      pose proof (Forall2_lookup_lr _ _ _ _ _ _ (wf_chains _ _ _ Hwf) Hs Hlj') as Hc.
      apply (seg_frame m); [done|]. intros x Hx. apply Hframe.
      destruct (decide (j < length A)%nat).
      * apply elem_of_app. left. apply elem_of_concat. exists j, lj.
        rewrite lookup_app_l in Hlj by done. done.
      * apply elem_of_app. right. apply elem_of_concat.
        rewrite lookup_app_r in Hlj by lia.
        destruct (j - length A)%nat as [|j'] eqn:Ej; [lia|]. by exists j', lj.
  - by rewrite Hconcat.
  - intros j lj x n' Hlj Hx Hn'. rewrite Hlen.
    destruct (decide (j = length A)) as [->|Hne].
    + rewrite list_lookup_middle in Hlj by done. injection Hlj as <-. by apply (Hb x).
    + assert (Hlj' : (A ++ l :: B) !! j = Some lj).
      { destruct (decide (j < length A)%nat).
        - rewrite lookup_app_l in Hlj |- * by done. done.
        - rewrite lookup_app_r in Hlj |- * by lia.
          destruct (j - length A)%nat as [|j'] eqn:Ej; [lia|]. done. }
      apply (wf_bucket _ _ _ Hwf j lj x n' Hlj' Hx). rewrite <- Hframe; [done|].
      destruct (decide (j < length A)%nat).
      * apply elem_of_app. left. apply elem_of_concat. exists j, lj.
        rewrite lookup_app_l in Hlj by done. done.
      * apply elem_of_app. right. apply elem_of_concat.
        rewrite lookup_app_r in Hlj by lia.
        destruct (j - length A)%nat as [|j'] eqn:Ej; [lia|]. by exists j', lj.
  - rewrite Hconcat. apply Hk.
  - by rewrite Hconcat.
Qed.

Lemma same_keys_sym m m' : same_keys m m' -> same_keys m' m.
Proof. intros H x. by rewrite H. Qed.

Lemma Permutation_chain_middle (a l1 l2 b : list Handle) x :
  a ++ (l1 ++ x :: l2) ++ b ≡ₚ x :: a ++ (l1 ++ l2) ++ b.
Proof.
  rewrite <- !app_assoc. rewrite (app_assoc a l1), (app_assoc a l1 (l2 ++ b)).
  simpl. by rewrite <- Permutation_middle.
Qed.

(** The search of a well-formed table: it stops at the entry with the
    key and the hash, or at the end of the chain when the table holds
    none. *)
Lemma FindPointer_spec t m chains k h :
  wf t m chains ->
  exists start l A B,
    list_ t !! bucket_of (length_ t) h = Some start /\ chains = A ++ l :: B /\
    length A = bucket_of (length_ t) h /\ is_chain m start l /\
    ((exists l1 x nx l2,
        l = l1 ++ x :: l2 /\ m !! x = Some nx /\ matches k h nx /\
        is_seg m start l1 (Some x) /\ is_chain m (next_hash nx) l2 /\
        FindPointer t m k h = Some (ptr_after (Bucket (bucket_of (length_ t) h)) l1) /\
        load t m (ptr_after (Bucket (bucket_of (length_ t) h)) l1) = Some (Some x)) \/
     (none_match m k h (concat chains) /\
      FindPointer t m k h = Some (ptr_after (Bucket (bucket_of (length_ t) h)) l) /\
      load t m (ptr_after (Bucket (bucket_of (length_ t) h)) l) = Some None)).
Proof.
  intros Hwf.
  pose proof (bucket_of_lt t m chains h Hwf) as Hi.
  destruct (wf_chain t m chains _ Hwf Hi) as (start & l & A & B & Hstart & Hsplit & HA & Hc & Hlen).
  assert (Hl : chains !! bucket_of (length_ t) h = Some l).
  { rewrite Hsplit, <- HA. by apply list_lookup_middle. }
  exists start, l, A, B. split_and!; try done.
  unfold FindPointer.
  destruct (FindPointer_loop_spec t m k h (S (Z.to_nat (elems_ t)))
              (Bucket (bucket_of (length_ t) h)) start l Hstart Hc ltac:(lia))
    as [(l1 & x & nx & l2 & -> & Hnone & Hx & Hm & Hseg & Hl2 & Hfind)|[Hnone Hfind]].
  - left. exists l1, x, nx, l2. split_and!; try done.
    by apply (load_ptr_after t m _ start l1 (Some x)).
  - right. split_and!; try done.
    + intros y n Hy Hn Hm. pose proof Hm as [Hh _].
      apply elem_of_concat in Hy as (i & l' & Hl' & Hyl').
      pose proof (wf_bucket _ _ _ Hwf i l' y n Hl' Hyl' Hn) as Hb.
      rewrite Hh in Hb. rewrite <- Hb in Hl'. rewrite Hl in Hl'. injection Hl' as <-.
      by apply (Hnone y n).
    + by apply (load_ptr_after t m _ start l None).
Qed.

(** What the finite map holds at a key the search found, or did not. *)
Lemma represents_found (m : gmap Handle Node) (chains : list (list Handle))
    (M : gmap (Z * list Z) Handle) k h x nx :
  (forall hk x, M !! hk = Some x <->
     x ∈ concat chains /\ exists n, m !! x = Some n /\ hk = (hash n, key n)) ->
  x ∈ concat chains -> m !! x = Some nx -> matches k h nx -> M !! (h, k) = Some x.
Proof.
  intros HM Hx Hnx [Hh Hk]. apply HM. split; [done|]. exists nx. by rewrite Hh, Hk.
Qed.

Lemma represents_missing (m : gmap Handle Node) (chains : list (list Handle))
    (M : gmap (Z * list Z) Handle) k h :
  (forall hk x, M !! hk = Some x <->
     x ∈ concat chains /\ exists n, m !! x = Some n /\ hk = (hash n, key n)) ->
  none_match m k h (concat chains) -> M !! (h, k) = None.
Proof.
  intros HM Hnone. destruct (M !! (h, k)) as [x|] eqn:E; [|done]. exfalso.
  apply HM in E as (Hx & n & Hn & [= -> ->]). by apply (Hnone x n).
Qed.

(** *** Remove *)

Lemma Remove_spec t m M k h :
  represents t m M ->
  exists t' m',
    Remove t m k h = Some (M !! (h, k), t', m') /\
    represents t' m' (delete (h, k) M) /\ same_keys m m' /\ length_ t' = length_ t.
Proof.
  intros (chains & Hwf & Hload & HM).
  destruct (FindPointer_spec t m chains k h Hwf)
    as (start & l & A & B & Hstart & Hsplit & HA & Hc & Hcases).
  unfold Remove.
  destruct Hcases as [(l1 & x & nx & l2 & -> & Hx & Hm & Hseg & Hl2 & Hfind & Hld)
                     |(Hnone & Hfind & Hld)];
    rewrite Hfind; cbn [mbind option_bind]; rewrite Hld; cbn [mbind option_bind].
  - rewrite Hx. cbn [mbind option_bind].
    pose proof (wf_nodup _ _ _ Hwf) as Hnd. rewrite Hsplit, concat_app in Hnd.
    cbn [concat] in Hnd.
    pose proof Hnd as Hnd'. rewrite Permutation_chain_middle in Hnd'.
    apply NoDup_cons in Hnd' as [Hxnot Hnd'].
    assert (Hnd1 : NoDup l1).
    { apply NoDup_app in Hnd as (_ & _ & Hnd). apply NoDup_app in Hnd as (Hnd & _).
      by apply NoDup_app in Hnd as (Hnd & _). }
    destruct (store_spec t m _ start l1 (Some x) (next_hash nx) Hstart Hseg Hnd1)
      as (t1 & m1 & Hstore & Hlen1 & Hel1 & Hlist1 & (start' & Hstart' & Hseg') & Hother & Hframe & Hsame).
    rewrite Hstore. cbn [mbind option_bind].
    assert (HMx : M !! (h, k) = Some x).
    { apply (represents_found m chains M k h x nx HM); [|done|done].
      rewrite Hsplit, concat_app. cbn [concat]. rewrite !elem_of_app.
      right. left. right. by left. }
    rewrite HMx. eexists _, m1. split; [done|].
    assert (Hsub : forall y, y ∈ concat A ++ (l1 ++ l2) ++ concat B ->
                     y ∈ concat chains /\ y <> x).
    { intros y Hy. split; [|by intros ->].
      rewrite Hsplit, concat_app. cbn [concat]. rewrite Permutation_chain_middle.
      by right. }
    assert (Hsup : forall y, y ∈ concat chains -> y <> x ->
                     y ∈ concat A ++ (l1 ++ l2) ++ concat B).
    { intros y Hy Hne. rewrite Hsplit, concat_app in Hy. cbn [concat] in Hy.
      rewrite Permutation_chain_middle in Hy. by apply elem_of_cons in Hy as [->|Hy]. }
    assert (Hcount : elems_ t = 1 + Z.of_nat (length (concat A ++ (l1 ++ l2) ++ concat B))).
    { rewrite (wf_elems _ _ _ Hwf), Hsplit, concat_app. cbn [concat].
      rewrite Permutation_chain_middle. cbn [length]. lia. }
    destruct (wf_pow2 _ _ _ Hwf) as (p & Hp & Hpow).
    assert (Hpow31 : length_ t <= 2 ^ 31).
    { rewrite Hpow. apply Z.pow_le_mono_r; lia. }
    assert (Hu : u32 (elems_ t - 1) = elems_ t - 1).
    { unfold u32. apply Z.mod_small. lia. }
    split_and!; [|done|by simpl].
    exists (A ++ (l1 ++ l2) :: B). split_and!.
    + apply (wf_update t m chains _ m1 A (l1 ++ x :: l2) B (l1 ++ l2) Hwf Hsplit).
      * by simpl.
      * by simpl.
      * simpl. intros j Hj. apply Hother. by rewrite <- HA.
      * exists start'. simpl. rewrite HA. split; [done|].
        apply seg_app. exists (next_hash nx). split; [done|].
        apply (seg_frame m); [done|]. intros y Hy. apply Hframe. intros Hy1.
        apply NoDup_app in Hnd' as (_ & _ & Hnd').
        apply NoDup_app in Hnd' as (Hnd' & _).
        apply NoDup_app in Hnd' as (_ & Hdis & _). by apply (Hdis y).
      * intros y Hy. apply Hframe. intros Hy1.
        apply NoDup_app in Hnd as (_ & HdA & Hnd).
        apply NoDup_app in Hnd as (_ & HdB & _).
        apply elem_of_app in Hy as [Hy|Hy].
        -- apply (HdA y Hy). rewrite !elem_of_app. left. by left.
        -- apply (HdB y); [|done]. rewrite elem_of_app. by left.
      * done.
      * intros y n' Hy Hn'.
        destruct (same_keys_lookup m m1 y n' Hsame Hn') as (n & Hn & Hhn & _).
        rewrite <- Hhn.
        apply (wf_bucket _ _ _ Hwf (length A) (l1 ++ x :: l2) y n); [|
          |done].
        -- rewrite Hsplit. by apply list_lookup_middle.
        -- apply elem_of_app in Hy as [Hy|Hy]; apply elem_of_app; [by left|].
           right. by right.
      * intros y z ny nz Hy Hz Hny Hnz Hhash Hkey.
        destruct (same_keys_lookup m m1 y ny Hsame Hny) as (ny0 & Hny0 & Hh1 & Hk1).
        destruct (same_keys_lookup m m1 z nz Hsame Hnz) as (nz0 & Hnz0 & Hh2 & Hk2).
        apply (wf_keys _ _ _ Hwf y z ny0 nz0); try done.
        -- by apply Hsub.
        -- by apply Hsub.
        -- congruence.
        -- congruence.
      * simpl. rewrite Hel1, Hu. lia.
    + simpl. rewrite Hel1, Hu, Hlen1. lia.
    + intros hk y. rewrite lookup_delete_Some, HM.
      rewrite concat_app. cbn [concat]. split.
      * intros (Hne & Hy & n & Hn & ->). split.
        -- apply Hsup; [done|]. intros ->. rewrite Hx in Hn. injection Hn as <-.
           destruct Hm as [Hh Hk]. apply Hne. by rewrite Hh, Hk.
        -- destruct (same_keys_lookup m1 m y n (same_keys_sym _ _ Hsame) Hn)
             as (n' & Hn' & Hh' & Hk').
           exists n'. split; [done|]. by rewrite Hh', Hk'.
      * intros (Hy & n' & Hn' & ->).
        destruct (Hsub y Hy) as [Hyc Hyx].
        destruct (same_keys_lookup m m1 y n' Hsame Hn') as (n & Hn & Hh' & Hk').
        split_and!; [|done|].
        -- intros [= Hh Hk]. apply Hyx.
           destruct Hm as [Hmh Hmk].
           apply (wf_keys _ _ _ Hwf y x n nx); try done; try congruence.
           rewrite Hsplit, concat_app. cbn [concat]. rewrite !elem_of_app.
           right. left. right. by left.
        -- exists n. split; [done|]. by rewrite Hh', Hk'.
  - rewrite (represents_missing m chains M k h HM Hnone).
    exists t, m. split; [done|]. split_and!; [|done|done].
    exists chains. split_and!; try done.
    intros hk y. rewrite lookup_delete_Some, HM. split; [by intros (_ & ?)|].
    intros (Hy & n & Hn & ->). split_and!; [|done|by exists n].
    intros [= -> ->]. by apply (Hnone y n).
Qed.

(** *** Resize *)

Lemma grow_spec elems :
  elems <= 2 ^ 31 ->
  forall fuel q, 2 <= q <= 31 -> 32 - q <= Z.of_nat fuel ->
  exists q', q <= q' <= 31 /\ grow fuel (2 ^ q) elems = Some (2 ^ q') /\
    elems <= 2 ^ q' /\ (q' = q \/ 2 ^ (q' - 1) < elems).
Proof.
  intros He. induction fuel as [|fuel IH]; intros q Hq Hfuel; [lia|].
  cbn [grow]. destruct (Z.ltb_spec (2 ^ q) elems) as [Hlt|Hge].
  - assert (q < 31).
    { destruct (decide (q = 31)) as [->|]; [lia|lia]. }
    assert (Hu : u32 (2 ^ q * 2) = 2 ^ (q + 1)).
    { rewrite Z.pow_add_r by lia. change (2 ^ 1) with 2. unfold u32.
      apply Z.mod_small. split; [pose proof (Z.pow_pos_nonneg 2 q); lia|].
      assert (2 ^ q <= 2 ^ 30) by (apply Z.pow_le_mono_r; lia). lia. }
    rewrite Hu. destruct (IH (q + 1)) as (q' & Hq' & Hg & Hle & Hmin); [lia|lia|].
    exists q'. split_and!; [lia|lia|done|done|].
    right. destruct Hmin as [->|Hmin]; [|done].
    by replace (q + 1 - 1) with q by lia.
  - exists q. split_and!; [lia|lia|done|done|by left].
Qed.

(** The new bucket array while [Resize] fills it. *)
Record pwf (L : Z) (nl : list (option Handle)) (m : gmap Handle Node)
    (nc : list (list Handle)) : Prop := {
  pwf_length : Z.of_nat (length nl) = L;
  pwf_chains : Forall2 (is_chain m) nl nc;
  pwf_bucket : forall i l x n,
    nc !! i = Some l -> x ∈ l -> m !! x = Some n -> bucket_of L (hash n) = i
}.

Lemma chains_frame m m' (nl : list (option Handle)) (nc : list (list Handle)) :
  Forall2 (is_chain m) nl nc -> (forall y, y ∈ concat nc -> m' !! y = m !! y) ->
  Forall2 (is_chain m') nl nc.
Proof.
  induction 1 as [|s l nl nc Hc Hrest IH]; intros Hsame; constructor.
  - apply (seg_frame m); [done|]. intros y Hy. apply Hsame. simpl.
    apply elem_of_app. by left.
  - apply IH. intros y Hy. apply Hsame. simpl. apply elem_of_app. by right.
Qed.

Lemma concat_insert_cons (nc : list (list Handle)) i c x :
  nc !! i = Some c -> concat (<[i := x :: c]> nc) ≡ₚ x :: concat nc.
Proof.
  intros Hc. pose proof (lookup_lt_Some _ _ _ Hc) as Hlt.
  rewrite insert_take_drop by done.
  rewrite <- (take_drop_middle nc i c Hc) at 3.
  rewrite !concat_app. cbn [concat]. simpl. by rewrite <- Permutation_middle.
Qed.

Lemma rehash_chain_spec L q :
  0 <= q <= 31 -> L = 2 ^ q ->
  forall l fuel nl m nc start count,
    pwf L nl m nc -> is_chain m start l -> NoDup (l ++ concat nc) ->
    (length l <= fuel)%nat -> 0 <= count -> count + Z.of_nat (length l) < 2 ^ 32 ->
    exists nl' m' nc',
      rehash_chain fuel nl L m start count =
        Some (nl', m', count + Z.of_nat (length l)) /\
      pwf L nl' m' nc' /\ concat nc' ≡ₚ l ++ concat nc /\ same_keys m m' /\
      (forall y, y ∉ l -> m' !! y = m !! y).
Proof.
  intros Hq HL. induction l as [|x l IH];
    intros fuel nl m nc start count Hp Hc Hnd Hfuel Hcount Hbound.
  - inversion Hc; subst. exists nl, m, nc. split_and!; try done.
    destruct fuel; simpl; by rewrite Z.add_0_r.
  - inversion Hc as [|? n ? ? Hx Hrest]; subst.
    destruct fuel as [|fuel]; [simpl in Hfuel; lia|].
    cbn [rehash_chain]. rewrite Hx. cbn [mbind option_bind].
    set (i := bucket_of (2 ^ q) (hash n)).
    assert (Hi : (i < length nl)%nat).
    { pose proof (pwf_length _ _ _ _ Hp) as Hlen.
      pose proof (bucket_of_pow2 q (hash n) Hq) as Hb. fold i in Hb.
      pose proof (Z.mod_pos_bound (hash n) (2 ^ q) ltac:(apply Z.pow_pos_nonneg; lia)).
      lia. }
    destruct (lookup_lt_is_Some_2 _ _ Hi) as [head Hhead].
    rewrite Hhead. cbn [mbind option_bind].
    destruct (Forall2_lookup_l _ _ _ _ _ (pwf_chains _ _ _ _ Hp) Hhead) as (c & Hci & Hchead).
    apply NoDup_cons in Hnd as [Hxnot Hnd]. rewrite elem_of_app in Hxnot.
    assert (Hu : u32 (count + 1) = count + 1).
    { unfold u32. apply Z.mod_small. cbn [length] in Hbound. lia. }
    rewrite Hu.
    set (m1 := <[x := set_next_hash n head]> m).
    assert (Hframe1 : forall y, y <> x -> m1 !! y = m !! y).
    { intros y Hy. unfold m1. by rewrite lookup_insert_ne. }
    assert (Hp1 : pwf (2 ^ q) (<[i := Some x]> nl) m1 (<[i := x :: c]> nc)).
    { split.
      - rewrite length_insert. apply (pwf_length _ _ _ _ Hp).
      - apply Forall2_insert.
        + apply (chains_frame m); [apply (pwf_chains _ _ _ _ Hp)|].
          intros y Hy. apply Hframe1. intros ->. apply Hxnot. by right.
        + econstructor; [unfold m1; by rewrite lookup_insert_eq|]. simpl.
          apply (seg_frame m); [done|]. intros y Hy. apply Hframe1. intros ->.
          apply Hxnot. right. apply elem_of_concat. by exists i, c.
      - intros j lj y n' Hlj Hy Hn'. destruct (decide (j = i)) as [->|Hne].
        + rewrite list_lookup_insert_eq in Hlj
            by (rewrite <- (Forall2_length _ _ _ (pwf_chains _ _ _ _ Hp)); done).
          injection Hlj as <-. apply elem_of_cons in Hy as [->|Hy].
          * unfold m1 in Hn'. rewrite lookup_insert_eq in Hn'. by injection Hn' as <-.
          * rewrite Hframe1 in Hn'.
            -- by apply (pwf_bucket _ _ _ _ Hp i c y n').
            -- intros ->. apply Hxnot. right. apply elem_of_concat. by exists i, c.
        + rewrite list_lookup_insert_ne in Hlj by done.
          rewrite Hframe1 in Hn'.
          * by apply (pwf_bucket _ _ _ _ Hp j lj y n').
          * intros ->. apply Hxnot. right. apply elem_of_concat. by exists j, lj. }
    destruct (IH fuel (<[i := Some x]> nl) m1 (<[i := x :: c]> nc) (next_hash n) (count + 1))
      as (nl' & m' & nc' & Hre & Hp' & Hperm & Hsame & Hframe).
    + done.
    + apply (seg_frame m); [done|]. intros y Hy. apply Hframe1. intros ->.
      apply Hxnot. by left.
    + rewrite (concat_insert_cons nc i c x Hci), <- Permutation_middle.
      apply NoDup_cons. by rewrite elem_of_app.
    + simpl in Hfuel. lia.
    + lia.
    + cbn [length] in Hbound. lia.
    + exists nl', m', nc'. split_and!.
      * rewrite Hre. do 2 f_equal. cbn [length]. lia.
      * done.
      * rewrite Hperm, (concat_insert_cons nc i c x Hci). simpl.
        by rewrite <- Permutation_middle.
      * apply (same_keys_trans m m1 m'); [|done]. by apply same_keys_insert.
      * intros y Hy. rewrite Hframe, Hframe1; [done| |].
        -- intros ->. apply Hy. by left.
        -- intros Hy'. apply Hy. by right.
Qed.

Lemma rehash_buckets_spec L q :
  0 <= q <= 31 -> L = 2 ^ q ->
  forall buckets cs fuel nl m nc count,
    pwf L nl m nc -> Forall2 (is_chain m) buckets cs -> NoDup (concat cs ++ concat nc) ->
    (length (concat cs) <= fuel)%nat -> 0 <= count ->
    count + Z.of_nat (length (concat cs)) < 2 ^ 32 ->
    exists nl' m' nc',
      rehash_buckets buckets fuel nl L m count =
        Some (nl', m', count + Z.of_nat (length (concat cs))) /\
      pwf L nl' m' nc' /\ concat nc' ≡ₚ concat cs ++ concat nc /\ same_keys m m' /\
      (forall y, y ∉ concat cs -> m' !! y = m !! y).
Proof.
  intros Hq HL. induction buckets as [|h rest IH];
    intros cs fuel nl m nc count Hp Hcs Hnd Hfuel Hcount Hbound.
  - apply Forall2_nil_inv_l in Hcs as ->. exists nl, m, nc.
    split_and!; try done. simpl. by rewrite Z.add_0_r.
  - apply Forall2_cons_inv_l in Hcs as (l & cs' & Hl & Hrest & ->).
    cbn [concat] in Hnd, Hfuel, Hbound. rewrite length_app in Hfuel, Hbound.
    rewrite <- app_assoc in Hnd.
    destruct (rehash_chain_spec L q Hq HL l fuel nl m nc h count Hp Hl)
      as (nl1 & m1 & nc1 & Hre1 & Hp1 & Hperm1 & Hsame1 & Hframe1).
    { apply NoDup_app in Hnd as (Hndl & Hdis & Hnd). apply NoDup_app in Hnd as (_ & _ & Hnc).
      apply NoDup_app. split_and!; [done| |done].
      intros y Hy Hy'. apply (Hdis y Hy). apply elem_of_app. by right. }
    { lia. }
    { done. }
    { lia. }
    cbn [rehash_buckets]. rewrite Hre1. cbn [mbind option_bind].
    destruct (IH cs' fuel nl1 m1 nc1 (count + Z.of_nat (length l)))
      as (nl' & m' & nc' & Hre & Hp' & Hperm & Hsame & Hframe).
    + done.
    + apply (chains_frame m); [done|]. intros y Hy. apply Hframe1. intros Hy'.
      apply NoDup_app in Hnd as (_ & Hdis & _). apply (Hdis y Hy').
      apply elem_of_app. by left.
    + rewrite Hperm1. rewrite (Permutation_app_comm l), app_assoc.
      rewrite (Permutation_app_comm _ l). by rewrite app_assoc in Hnd |- *.
    + lia.
    + lia.
    + lia.
    + exists nl', m', nc'. split_and!.
      * rewrite Hre. do 2 f_equal. cbn [concat]. rewrite length_app. lia.
      * done.
      * rewrite Hperm, Hperm1. cbn [concat]. rewrite <- !app_assoc.
        rewrite (app_assoc (concat cs')), (Permutation_app_comm (concat cs') l).
        by rewrite <- app_assoc.
      * by apply (same_keys_trans m m1 m').
      * intros y Hy. cbn [concat] in Hy. rewrite elem_of_app in Hy.
        rewrite Hframe, Hframe1; [done| |]; intros Hy'; apply Hy; first [by left|by right].
Qed.

Lemma concat_replicate_nil (n : nat) : concat (replicate n (@nil Handle)) = [].
Proof. induction n as [|n IH]; [done|]. simpl. exact IH. Qed.

Lemma Resize_spec t m chains :
  wf t m chains -> elems_ t <= 2 ^ 31 ->
  exists t' m' chains',
    Resize t m = Some (t', m', elems_ t) /\
    wf t' m' chains' /\ concat chains' ≡ₚ concat chains /\ same_keys m m' /\
    elems_ t' = elems_ t /\ elems_ t <= length_ t' /\
    (exists q, 2 <= q <= 31 /\ length_ t' = 2 ^ q /\ (q = 2 \/ 2 ^ (q - 1) < elems_ t)) /\
    (forall y, y ∉ concat chains -> m' !! y = m !! y).
Proof.
  intros Hwf He.
  destruct (grow_spec (elems_ t) He 32 2) as (q & Hq & Hg & Hle & Hmin); [lia|lia|].
  change (2 ^ 2) with 4 in Hg. unfold Resize. rewrite Hg. cbn [mbind option_bind].
  assert (Hpos : 0 < 2 ^ q) by (apply Z.pow_pos_nonneg; lia).
  assert (Htake : take (Z.to_nat (length_ t)) (list_ t) = list_ t).
  { apply take_ge. pose proof (wf_length _ _ _ Hwf). lia. }
  rewrite Htake.
  pose proof (wf_elems _ _ _ Hwf) as Hel.
  destruct (rehash_buckets_spec (2 ^ q) q ltac:(lia) eq_refl (list_ t) chains
              (S (Z.to_nat (elems_ t))) (replicate (Z.to_nat (2 ^ q)) None) m
              (replicate (Z.to_nat (2 ^ q)) []) 0)
    as (nl' & m' & nc' & Hre & Hp' & Hperm & Hsame & Hframe).
  - split.
    + rewrite length_replicate. lia.
    + apply Forall2_replicate. constructor.
    + intros i l x n Hl Hx. apply lookup_replicate in Hl as [-> _].
      by apply elem_of_nil in Hx.
  - apply (wf_chains _ _ _ Hwf).
  - rewrite concat_replicate_nil, app_nil_r. apply (wf_nodup _ _ _ Hwf).
  - lia.
  - lia.
  - lia.
  - rewrite Hre. cbn [mbind option_bind].
    rewrite concat_replicate_nil, app_nil_r in Hperm.
    eexists _, m', nc'. split; [by rewrite Z.add_0_l, <- Hel|].
    split_and!; try done.
    + split; simpl.
      * exists q. split; [lia|done].
      * apply (pwf_length _ _ _ _ Hp').
      * apply (pwf_chains _ _ _ _ Hp').
      * rewrite Hperm. apply (wf_nodup _ _ _ Hwf).
      * apply (pwf_bucket _ _ _ _ Hp').
      * intros x y nx ny Hx Hy Hnx Hny Hh Hk. rewrite Hperm in Hx, Hy.
        destruct (same_keys_lookup m m' x nx Hsame Hnx) as (nx0 & Hnx0 & Hh1 & Hk1).
        destruct (same_keys_lookup m m' y ny Hsame Hny) as (ny0 & Hny0 & Hh2 & Hk2).
        apply (wf_keys _ _ _ Hwf x y nx0 ny0); try done; congruence.
      * by rewrite Hperm.
    + exists q. split_and!; [lia|lia|done|].
      destruct Hmin as [->|Hmin]; [by left|by right].
Qed.

(** *** Insert *)

(** The finite map that the entries on the chains make. *)
Definition holds (m : gmap Handle Node) (chains : list (list Handle))
    (M : gmap (Z * list Z) Handle) : Prop :=
  forall hk x, M !! hk = Some x <->
    x ∈ concat chains /\ exists n, m !! x = Some n /\ hk = (hash n, key n).

Lemma holds_transfer m m' chains chains' M :
  holds m chains M -> concat chains' ≡ₚ concat chains -> same_keys m m' ->
  holds m' chains' M.
Proof.
  intros HM Hperm Hsame hk x. rewrite (HM hk x), Hperm. split.
  - intros (Hx & n & Hn & ->). split; [done|].
    destruct (same_keys_lookup m' m x n (same_keys_sym _ _ Hsame) Hn) as (n' & Hn' & Hh & Hk).
    exists n'. split; [done|]. by rewrite Hh, Hk.
  - intros (Hx & n' & Hn' & ->). split; [done|].
    destruct (same_keys_lookup m m' x n' Hsame Hn') as (n & Hn & Hh & Hk).
    exists n. split; [done|]. by rewrite Hh, Hk.
Qed.

Lemma Permutation_chain_old (a l1 old l2 b : list Handle) :
  a ++ (l1 ++ old ++ l2) ++ b ≡ₚ old ++ a ++ (l1 ++ l2) ++ b.
Proof.
  induction old as [|x old IH]; [done|]. simpl.
  by rewrite (Permutation_chain_middle a l1 (old ++ l2) b x), IH.
Qed.

(** Linking the new entry [e] in: the entries [old] that have its key
    and hash leave the chain, and [e] takes their place. *)
Lemma Insert_link t m chains M e ne A l1 old l2 B start cur next :
  wf t m chains -> holds m chains M ->
  chains = A ++ (l1 ++ old ++ l2) :: B -> length A = bucket_of (length_ t) (hash ne) ->
  list_ t !! length A = Some start -> is_seg m start l1 cur -> is_chain m next l2 ->
  m !! e = Some ne -> e ∉ concat chains ->
  none_match m (key ne) (hash ne) (concat A ++ (l1 ++ l2) ++ concat B) ->
  (forall y, y ∈ old -> exists ny, m !! y = Some ny /\ matches (key ne) (hash ne) ny) ->
  exists t1 m1,
    store t (<[e := set_next_hash ne next]> m) (ptr_after (Bucket (length A)) l1) (Some e)
      = Some (t1, m1) /\
    same_keys m m1 /\ length_ t1 = length_ t /\ elems_ t1 = elems_ t /\
    (forall t', length_ t' = length_ t -> list_ t' = list_ t1 ->
       elems_ t' = elems_ t + 1 - Z.of_nat (length old) ->
       wf t' m1 (A ++ (l1 ++ e :: l2) :: B)) /\
    holds m1 (A ++ (l1 ++ e :: l2) :: B) (<[(hash ne, key ne) := e]> M).
Proof.
  intros Hwf HM Hsplit HA Hstart Hseg Hl2 He Henot Hnone Hold.
  pose proof (wf_nodup _ _ _ Hwf) as Hnd. rewrite Hsplit, concat_app in Hnd.
  cbn [concat] in Hnd. rewrite Permutation_chain_old in Hnd.
  apply NoDup_app in Hnd as (_ & Hdis & Hnd).
  set (rest := concat A ++ (l1 ++ l2) ++ concat B) in *.
  assert (Hall : forall y, y ∈ concat chains <-> y ∈ old \/ y ∈ rest).
  { intros y. rewrite Hsplit, concat_app. cbn [concat].
    by rewrite Permutation_chain_old, elem_of_app. }
  assert (Hnew : forall y, y ∈ concat (A ++ (l1 ++ e :: l2) :: B) <-> y = e \/ y ∈ rest).
  { intros y. rewrite concat_app. cbn [concat].
    by rewrite Permutation_chain_middle, elem_of_cons. }
  assert (Herest : e ∉ rest).
  { intros H. apply Henot. apply Hall. by right. }
  assert (Hl1rest : forall y, y ∈ l1 -> y ∈ rest).
  { intros y Hy. unfold rest. rewrite !elem_of_app. right. left. by left. }
  assert (Hl2rest : forall y, y ∈ l2 -> y ∈ rest).
  { intros y Hy. unfold rest. rewrite !elem_of_app. right. left. by right. }
  assert (Hnd1 : NoDup l1 /\ forall y, y ∈ l1 -> y ∉ l2).
  { unfold rest in Hnd. apply NoDup_app in Hnd as (_ & _ & Hnd).
    apply NoDup_app in Hnd as (Hnd & _). by apply NoDup_app in Hnd as (? & ? & _). }
  destruct Hnd1 as [Hnd1 Hdis12].
  set (m2 := <[e := set_next_hash ne next]> m).
  assert (Hframe2 : forall y, y <> e -> m2 !! y = m !! y).
  { intros y Hy. unfold m2. by rewrite lookup_insert_ne. }
  assert (Hseg2 : is_seg m2 start l1 cur).
  { apply (seg_frame m); [done|]. intros y Hy. apply Hframe2. intros ->.
    by apply Herest, Hl1rest. }
  destruct (store_spec t m2 _ start l1 cur (Some e) Hstart Hseg2 Hnd1)
    as (t1 & m1 & Hstore & Hlen1 & Hel1 & Hlist1 & (start' & Hstart' & Hseg') & Hother & Hframe & Hsame21).
  assert (Hsame : same_keys m m1).
  { apply (same_keys_trans m m2 m1); [|done]. by apply same_keys_insert. }
  assert (He1 : m1 !! e = Some (set_next_hash ne next)).
  { rewrite Hframe; [unfold m2; by rewrite lookup_insert_eq|].
    intros H. by apply Herest, Hl1rest. }
  assert (Hframe1 : forall y, y ∉ l1 -> y <> e -> m1 !! y = m !! y).
  { intros y Hy Hye. rewrite Hframe by done. by apply Hframe2. }
  assert (Hkeys : forall y n', y ∈ rest -> m1 !! y = Some n' ->
                    ~ (hash n' = hash ne /\ key n' = key ne)).
  { intros y n' Hy Hn' [Hh Hk].
    destruct (same_keys_lookup m m1 y n' Hsame Hn') as (n & Hn & Hh' & Hk').
    apply (Hnone y n Hy Hn). split; congruence. }
  exists t1, m1. split_and!; try done.
  - intros t' Hlen' Hlist' Hel'.
    apply (wf_update t m chains t' m1 A (l1 ++ old ++ l2) B (l1 ++ e :: l2) Hwf Hsplit).
    + done.
    + by rewrite Hlist'.
    + intros j Hj. rewrite Hlist'. by apply Hother.
    + exists start'. rewrite Hlist'. split; [done|].
      apply seg_app. exists (Some e). split; [done|].
      econstructor; [exact He1|]. simpl.
      apply (seg_frame m); [done|]. intros y Hy. apply Hframe1.
      * intros Hy1. by apply (Hdis12 y).
      * intros ->. by apply Herest, Hl2rest.
    + intros y Hy. apply Hframe1.
      * intros Hy1. unfold rest in Hnd. apply NoDup_app in Hnd as (_ & HdA & Hnd).
        apply NoDup_app in Hnd as (_ & HdB & _).
        apply elem_of_app in Hy as [Hy|Hy].
        -- apply (HdA y Hy). rewrite !elem_of_app. left. by left.
        -- apply (HdB y); [|done]. rewrite elem_of_app. by left.
      * intros ->. apply Herest. unfold rest. apply elem_of_app in Hy as [Hy|Hy].
        -- apply elem_of_app. by left.
        -- apply elem_of_app. right. apply elem_of_app. by right.
    + rewrite Permutation_chain_middle. by apply NoDup_cons.
    + intros y n' Hy Hn'. rewrite elem_of_app, elem_of_cons in Hy.
      destruct (decide (y = e)) as [->|Hne].
      { rewrite He1 in Hn'. injection Hn' as <-. simpl. by rewrite HA. }
      destruct (same_keys_lookup m m1 y n' Hsame Hn') as (n & Hn & Hhn & _).
      rewrite <- Hhn.
      apply (wf_bucket _ _ _ Hwf (length A) (l1 ++ old ++ l2) y n); [| |done].
      * rewrite Hsplit. by apply list_lookup_middle.
      * rewrite !elem_of_app. destruct Hy as [Hy|[Hy|Hy]]; [by left|done|].
        right. by right.
    + intros y z ny nz Hy Hz Hny Hnz Hhash Hkey.
      rewrite Permutation_chain_middle in Hy, Hz.
      apply elem_of_cons in Hy as [->|Hy]; apply elem_of_cons in Hz as [->|Hz].
      * done.
      * exfalso. rewrite He1 in Hny. injection Hny as <-. simpl in Hhash, Hkey.
        by apply (Hkeys z nz).
      * exfalso. rewrite He1 in Hnz. injection Hnz as <-. simpl in Hhash, Hkey.
        by apply (Hkeys y ny).
      * destruct (same_keys_lookup m m1 y ny Hsame Hny) as (ny0 & Hny0 & Hh1 & Hk1).
        destruct (same_keys_lookup m m1 z nz Hsame Hnz) as (nz0 & Hnz0 & Hh2 & Hk2).
        apply (wf_keys _ _ _ Hwf y z ny0 nz0); try done.
        -- apply Hall. by right.
        -- apply Hall. by right.
        -- congruence.
        -- congruence.
    + rewrite Hel', (wf_elems _ _ _ Hwf), Hsplit, concat_app. cbn [concat].
      rewrite Permutation_chain_old, Permutation_chain_middle.
      rewrite length_app. cbn [length]. fold rest. lia.
  - intros hk y. rewrite lookup_insert_Some, (HM hk y), Hnew, Hall. split.
    + intros [[<- <-]|(Hne & [Hy|Hy] & n & Hn & ->)].
      * split; [by left|]. by eexists.
      * exfalso. destruct (Hold y Hy) as (ny & Hny & Hh & Hk).
        rewrite Hn in Hny. injection Hny as <-. apply Hne. by rewrite Hh, Hk.
      * split; [by right|].
        destruct (same_keys_lookup m1 m y n (same_keys_sym _ _ Hsame) Hn)
          as (n' & Hn' & Hh' & Hk').
        exists n'. split; [done|]. by rewrite Hh', Hk'.
    + intros ([->|Hy] & n' & Hn' & ->).
      * left. rewrite He1 in Hn'. by injection Hn' as <-.
      * right. destruct (same_keys_lookup m m1 y n' Hsame Hn') as (n & Hn & Hh' & Hk').
        split_and!.
        -- intros [= Hh Hk]. by apply (Hkeys y n').
        -- by right.
        -- exists n. split; [done|]. by rewrite Hh', Hk'.
Qed.

Lemma Insert_spec t m M e ne :
  represents t m M -> m !! e = Some ne -> (forall hk, M !! hk <> Some e) ->
  elems_ t < 2 ^ 31 ->
  exists t' m',
    Insert t m e = Some (M !! (hash ne, key ne), t', m') /\
    represents t' m' (<[(hash ne, key ne) := e]> M) /\ same_keys m m' /\
    (forall y, M !! (hash ne, key ne) = Some y -> length_ t' = length_ t).
Proof.
  intros (chains & Hwf & Hload & HM) He Hfresh Hlt.
  assert (Henot : e ∉ concat chains).
  { intros H. apply (Hfresh (hash ne, key ne)). apply HM. split; [done|]. by exists ne. }
  destruct (FindPointer_spec t m chains (key ne) (hash ne) Hwf)
    as (start & l & A & B & Hstart & Hsplit & HA & Hc & Hcases).
  rewrite <- HA in Hstart.
  unfold Insert. rewrite He. cbn [mbind option_bind].
  destruct Hcases as [(l1 & x & nx & l2 & -> & Hx & Hm & Hseg & Hl2 & Hfind & Hld)
                     |(Hnone & Hfind & Hld)];
    rewrite Hfind; cbn [mbind option_bind]; rewrite Hld; cbn [mbind option_bind].
  - rewrite Hx. cbn [mbind option_bind].
    pose proof (wf_nodup _ _ _ Hwf) as Hnd. rewrite Hsplit, concat_app in Hnd.
    cbn [concat] in Hnd. rewrite Permutation_chain_middle in Hnd.
    apply NoDup_cons in Hnd as [Hxnot Hnd].
    assert (Hxin : x ∈ concat chains).
    { rewrite Hsplit, concat_app. cbn [concat]. rewrite Permutation_chain_middle. by left. }
    destruct (Insert_link t m chains M e ne A l1 [x] l2 B start (Some x) (next_hash nx))
      as (t1 & m1 & Hstore & Hsame & Hlen1 & Hel1 & Hwf' & HM'); try done.
    { intros y n Hy Hn [Hh Hk]. destruct Hm as [Hmh Hmk].
      assert (y = x); [|by subst].
      apply (wf_keys _ _ _ Hwf y x n nx); try done; try congruence.
      rewrite Hsplit, concat_app. cbn [concat]. rewrite Permutation_chain_middle. by right. }
    { intros y Hy. apply list_elem_of_singleton in Hy as ->. by exists nx. }
    rewrite <- HA, Hstore. cbn [mbind option_bind].
    rewrite (represents_found m chains M (key ne) (hash ne) x nx HM Hxin Hx Hm).
    exists t1, m1. split; [done|]. split_and!; [|done|done].
    exists (A ++ (l1 ++ e :: l2) :: B). split_and!.
    + apply Hwf'; [done|done|]. cbn [length]. lia.
    + lia.
    + exact HM'.
  - destruct (Insert_link t m chains M e ne A l [] [] B start None None)
      as (t1 & m1 & Hstore & Hsame & Hlen1 & Hel1 & Hwf' & HM'); try done.
    { simpl. by rewrite app_nil_r. }
    { constructor. }
    { intros y n Hy. apply (Hnone y n). rewrite Hsplit, concat_app. cbn [concat].
      by rewrite app_nil_r in Hy. }
    { intros y Hy. by apply elem_of_nil in Hy. }
    rewrite <- HA, Hstore. cbn [mbind option_bind].
    rewrite (represents_missing m chains M (key ne) (hash ne) HM Hnone).
    destruct (wf_pow2 _ _ _ Hwf) as (p & Hp & Hpow).
    pose proof (wf_elems _ _ _ Hwf) as Hel.
    assert (Hu : u32 (elems_ t1 + 1) = elems_ t + 1).
    { rewrite Hel1. unfold u32. apply Z.mod_small. lia. }
    set (t2 := {| length_ := length_ t1; elems_ := u32 (elems_ t1 + 1); list_ := list_ t1 |}).
    assert (Hwf2 : wf t2 m1 (A ++ (l ++ [e]) :: B)).
    { apply Hwf'; [done|done|]. simpl. rewrite Hu. lia. }
    change (length_ t2) with (length_ t1).
    change (elems_ t2) with (u32 (elems_ t1 + 1)). rewrite Hu, Hlen1.
    destruct (Z.ltb_spec (length_ t) (elems_ t + 1)) as [Hgrow|Hfits].
    + destruct (Resize_spec t2 m1 _ Hwf2)
        as (t3 & m3 & chains3 & HR & Hwf3 & Hperm & Hsame3 & Hel3 & Hle3 & _ & _).
      { simpl. rewrite Hu. lia. }
      rewrite HR. cbn [mbind option_bind].
      exists t3, m3. split; [done|]. split_and!; [| |done].
      * exists chains3. split_and!; [done|lia|].
        by apply (holds_transfer m1 m3 (A ++ (l ++ [e]) :: B) chains3).
      * by apply (same_keys_trans m m1 m3).
    + exists t2, m1. split; [done|]. split_and!; [|done|done].
      exists (A ++ (l ++ [e]) :: B). split_and!; [done| |done].
      simpl. rewrite Hu, Hlen1. lia.
Qed.

(** *** The states of a table *)

Lemma chain_entries_allocated t m chains x :
  wf t m chains -> x ∈ concat chains -> is_Some (m !! x).
Proof.
  intros Hwf Hx. apply elem_of_concat in Hx as (i & l & Hl & Hx).
  destruct (Forall2_lookup_r _ _ _ _ _ (wf_chains _ _ _ Hwf) Hl) as (s & _ & Hc).
  by apply (seg_dom m s l None).
Qed.

(** Entries that are not on a chain can be allocated, written and
    freed without the table noticing. *)
Lemma represents_frame (t : HandleTable) (m m' : gmap Handle Node)
    (M : gmap (Z * list Z) Handle) :
  represents t m M -> (forall hk x, M !! hk = Some x -> m' !! x = m !! x) ->
  represents t m' M.
Proof.
  intros (chains & Hwf & Hload & HM) Hframe.
  assert (Hsame : forall x, x ∈ concat chains -> m' !! x = m !! x).
  { intros x Hx. destruct (chain_entries_allocated t m chains x Hwf Hx) as [n Hn].
    apply (Hframe (hash n, key n)). apply HM. split; [done|]. by exists n. }
  exists chains. split_and!; [|done|].
  - split.
    + apply (wf_pow2 _ _ _ Hwf).
    + apply (wf_length _ _ _ Hwf).
    + apply (chains_frame m); [apply (wf_chains _ _ _ Hwf)|done].
    + apply (wf_nodup _ _ _ Hwf).
    + intros i l x n Hl Hx Hn. apply (wf_bucket _ _ _ Hwf i l x n Hl Hx).
      rewrite <- Hsame; [done|]. apply elem_of_concat. by exists i, l.
    + intros x y nx ny Hx Hy Hnx Hny. apply (wf_keys _ _ _ Hwf x y nx ny Hx Hy).
      * by rewrite <- Hsame.
      * by rewrite <- Hsame.
    + apply (wf_elems _ _ _ Hwf).
  - intros hk x. rewrite (HM hk x). split.
    + intros (Hx & n & Hn & ->). split; [done|]. exists n. by rewrite Hsame.
    + intros (Hx & n & Hn & ->). split; [done|]. exists n. by rewrite <- Hsame.
Qed.

Lemma new_represents t m : new = Some t -> represents t m ∅.
Proof.
  rewrite new_eq. intros [= <-]. exists (replicate 4 []). split_and!.
  - split; simpl.
    + exists 2. split; [lia|done].
    + done.
    + repeat constructor.
    + constructor.
    + intros i l x n Hl Hx. apply (lookup_replicate 4 [] l i) in Hl as [-> _].
      by apply elem_of_nil in Hx.
    + intros x y nx ny Hx. by apply elem_of_nil in Hx.
    + done.
  - simpl. lia.
  - intros hk x. rewrite lookup_empty. split; [done|]. simpl.
    intros [Hx _]. by apply elem_of_nil in Hx.
Qed.

(** The table has as many entries as the finite map has keys. *)
Lemma represents_size (t : HandleTable) (m : gmap Handle Node)
    (chains : list (list Handle)) (M : gmap (Z * list Z) Handle) :
  wf t m chains -> holds m chains M -> elems_ t = Z.of_nat (size M).
Proof.
  intros Hwf HM. rewrite (wf_elems _ _ _ Hwf). f_equal.
  set (f := fun x : Handle =>
              (match m !! x with Some n => (hash n, key n) | None => (0, []) end, x)).
  assert (Hperm : map_to_list M ≡ₚ f <$> concat chains).
  { apply NoDup_Permutation.
    - apply NoDup_map_to_list.
    - apply NoDup_fmap_2; [|apply (wf_nodup _ _ _ Hwf)]. by intros x y [= _ ->].
    - intros [hk x]. rewrite elem_of_map_to_list, list_elem_of_fmap, (HM hk x). split.
      + intros (Hx & n & Hn & ->). exists x. split; [|done]. unfold f. by rewrite Hn.
      + intros (y & [= -> ->] & Hy). split; [done|].
        destruct (chain_entries_allocated t m chains y Hwf Hy) as [n Hn].
        exists n. by rewrite Hn. }
  by rewrite <- length_map_to_list, Hperm, length_fmap.
Qed.

(** The states that [HandleTable()], [Insert] and [Remove] make,
    while entries outside the table are allocated and freed.  [Insert]
    is given an allocated entry that is not in the table. *)
Inductive reachable : HandleTable -> gmap Handle Node -> gmap (Z * list Z) Handle -> Prop :=
| reach_new t m : new = Some t -> reachable t m ∅
| reach_alloc t m M e n :
    reachable t m M -> m !! e = None -> reachable t (<[e := n]> m) M
| reach_free t m M e :
    reachable t m M -> (forall hk, M !! hk <> Some e) -> reachable t (delete e m) M
| reach_Insert t m M e ne old t' m' :
    reachable t m M -> m !! e = Some ne -> (forall hk, M !! hk <> Some e) ->
    elems_ t < 2 ^ 31 -> Insert t m e = Some (old, t', m') ->
    reachable t' m' (<[(hash ne, key ne) := e]> M)
| reach_Remove t m M k h r t' m' :
    reachable t m M -> Remove t m k h = Some (r, t', m') ->
    reachable t' m' (delete (h, k) M).

Lemma reachable_represents t m M : reachable t m M -> represents t m M.
Proof.
  induction 1 as [t m Hnew|t m M e n _ IH He|t m M e _ IH He
                 |t m M e ne old t' m' _ IH He Hfresh Hlt Hins
                 |t m M k h r t' m' _ IH Hrem].
  - by apply new_represents.
  - apply (represents_frame t m); [done|]. intros hk x Hx.
    rewrite lookup_insert_ne; [done|]. intros <-.
    destruct IH as (chains & Hwf & _ & HM). apply HM in Hx as (_ & n' & Hn' & _).
    by rewrite He in Hn'.
  - apply (represents_frame t m); [done|]. intros hk x Hx.
    rewrite lookup_delete_ne; [done|]. intros <-. by apply (He hk).
  - destruct (Insert_spec t m M e ne IH He Hfresh Hlt) as (t1 & m1 & Hins' & Hrep & _).
    rewrite Hins in Hins'. by injection Hins' as _ -> ->.
  - destruct (Remove_spec t m M k h IH) as (t1 & m1 & Hrem' & Hrep & _).
    rewrite Hrem in Hrem'. by injection Hrem' as _ -> ->.
Qed.

(** The doubling loop of [Resize] once [elems_] is above [2^31]:
    [new_length] is a power of two or, after the wrap-around, 0, and
    stays below [elems_]. *)
Lemma grow_stuck elems :
  2 ^ 31 < elems ->
  forall fuel nl, (nl = 0 \/ exists q, 0 <= q <= 31 /\ nl = 2 ^ q) ->
  grow fuel nl elems = None.
Proof.
  intros He. induction fuel as [|fuel IH]; intros nl Hnl; [done|].
  cbn [grow].
  assert (Hlt : nl < elems).
  { destruct Hnl as [->|(q & Hq & ->)]; [lia|].
    assert (2 ^ q <= 2 ^ 31) by (apply Z.pow_le_mono_r; lia). lia. }
  destruct (Z.ltb_spec nl elems) as [_|?]; [|lia].
  apply IH. destruct Hnl as [->|(q & Hq & ->)]; [by left|].
  destruct (decide (q = 31)) as [->|Hne]; [by left|].
  right. exists (q + 1). split; [lia|].
  rewrite Z.pow_add_r by lia. change (2 ^ 1) with 2. unfold u32.
  apply Z.mod_small. split; [pose proof (Z.pow_pos_nonneg 2 q); lia|].
  assert (2 ^ q <= 2 ^ 30) by (apply Z.pow_le_mono_r; lia). lia.
Qed.

(** A table with one entry, of key [[1]] and hash 5. *)
Definition example_node : Node := {| key := [1]; hash := 5; next_hash := None |}.

Definition example_entries : gmap Handle Node := {[ 0%nat := example_node ]}.

Definition example_table : HandleTable :=
  {| length_ := 4; elems_ := 1; list_ := [None; Some 0%nat; None; None] |}.

Definition example_map : gmap (Z * list Z) Handle := {[ (5, [1]) := 0%nat ]}.

Lemma example_wf : wf example_table example_entries [[]; [0%nat]; []; []].
Proof.
  split; simpl.
  - exists 2. split; [lia|done].
  - done.
  - repeat constructor. econstructor; [done|constructor].
  - apply NoDup_singleton.
  - intros i l x n Hl Hx Hn.
    destruct i as [|[|[|[|i]]]]; simpl in Hl; try discriminate; injection Hl as <-;
      try by apply elem_of_nil in Hx.
    apply list_elem_of_singleton in Hx as ->. unfold example_entries in Hn.
    apply lookup_singleton_Some in Hn as [_ <-]. done.
  - intros x y nx ny Hx Hy _ _ _ _.
    apply list_elem_of_singleton in Hx as ->. by apply list_elem_of_singleton in Hy as ->.
  - done.
Qed.

Lemma example_represents : represents example_table example_entries example_map.
Proof.
  exists [[]; [0%nat]; []; []]. split_and!; [apply example_wf|simpl; lia|].
  intros hk x. unfold example_map. rewrite lookup_singleton_Some. simpl. split.
  - intros [<- <-]. split; [by apply list_elem_of_singleton|]. by exists example_node.
  - intros (Hx & n & Hn & ->). apply list_elem_of_singleton in Hx as ->.
    unfold example_entries in Hn. by apply lookup_singleton_Some in Hn as [_ <-].
Qed.

(** X21: on a table that holds the finite map [M], [Lookup(key, hash)]
    returns the entry that [M] has at (hash, key), and the null
    pointer when it has none: the bucket array with its [next_hash]
    chains is read as the finite map of the [Cache] model. *)
Theorem Lookup_refines_map t m M k h :
  represents t m M -> Lookup t m k h = Some (Cache.table_Lookup M k h).
Proof. apply Lookup_spec. Qed.

(** X22: [Insert(h)] of an allocated entry that is not yet in a table
    of fewer than [2^31] entries returns the entry that had the same
    key and hash (or the null pointer) and leaves a table that holds
    the finite map with the entry put at its key; no entry changes its
    key or hash.  When an entry is replaced the number of buckets
    stays. *)
Theorem Insert_refines_map t m M e ne :
  represents t m M -> m !! e = Some ne -> (forall hk, M !! hk <> Some e) ->
  elems_ t < 2 ^ 31 ->
  exists t' m',
    Insert t m e = Some ((Cache.table_Insert M e (key ne) (hash ne)).1, t', m') /\
    represents t' m' (Cache.table_Insert M e (key ne) (hash ne)).2 /\
    same_keys m m' /\
    (forall y, M !! (hash ne, key ne) = Some y -> length_ t' = length_ t).
Proof. apply Insert_spec. Qed.

(** X23: [Remove(key, hash)] returns the entry the table has at
    (hash, key), or the null pointer, and leaves a table that holds
    the finite map without that key, with the same number of buckets;
    no entry changes its key or hash. *)
Theorem Remove_refines_map t m M k h :
  represents t m M ->
  exists t' m',
    Remove t m k h = Some ((Cache.table_Remove M k h).1, t', m') /\
    represents t' m' (Cache.table_Remove M k h).2 /\
    same_keys m m' /\ length_ t' = length_ t.
Proof. apply Remove_spec. Qed.

(** X24: in every state that [HandleTable()], [Insert] and [Remove]
    reach, [length_] is a power of two between 4 and [2^31], [list_]
    has [length_] buckets, [elems_] is the number of keys in the table
    and is at most [length_], and [Lookup] finds exactly the keys of
    the finite map of the entries inserted and not removed. *)
Theorem reachable_invariants t m M :
  reachable t m M ->
  (exists p, 2 <= p <= 31 /\ length_ t = 2 ^ p) /\
  Z.of_nat (length (list_ t)) = length_ t /\
  elems_ t = Z.of_nat (size M) /\
  elems_ t <= length_ t /\
  forall k h, Lookup t m k h = Some (M !! (h, k)).
Proof.
  intros Hreach. pose proof (reachable_represents t m M Hreach) as Hrep.
  split_and!; [..|intros k h; by apply Lookup_spec];
    destruct Hrep as (chains & Hwf & Hload & HM).
  - apply (wf_pow2 _ _ _ Hwf).
  - apply (wf_length _ _ _ Hwf).
  - by apply (represents_size t m chains).
  - done.
Qed.

(** X25: on a table of at most [2^31] entries whose chains are in
    order, [Resize()] returns, and the [count] it asserts to be
    [elems_] is [elems_].  The new [length_] is the least power of two
    from 4 on that is at least [elems_]; the table holds the same
    entries with the same keys and hashes, each on the chain of the
    bucket [hash & (length_ - 1)], and [elems_] is unchanged. *)
Theorem Resize_rehashes t m chains :
  wf t m chains -> elems_ t <= 2 ^ 31 ->
  exists t' m' chains',
    Resize t m = Some (t', m', elems_ t) /\
    wf t' m' chains' /\ concat chains' ≡ₚ concat chains /\ same_keys m m' /\
    elems_ t' = elems_ t /\ elems_ t <= length_ t' /\
    exists q, 2 <= q <= 31 /\ length_ t' = 2 ^ q /\ (q = 2 \/ 2 ^ (q - 1) < elems_ t).
Proof.
  intros Hwf He.
  destruct (Resize_spec t m chains Hwf He)
    as (t' & m' & chains' & HR & Hwf' & Hperm & Hsame & Hel & Hle & Hq & _).
  by exists t', m', chains'.
Qed.

(** X26: when [elems_] is above [2^31] the first loop of [Resize()]
    does not end: doubling takes [new_length] from 4 through the
    powers of two to 0, all below [elems_]; so [Resize()] does not
    return. *)
Theorem Resize_never_returns t m :
  2 ^ 31 < elems_ t ->
  (forall fuel, grow fuel 4 (elems_ t) = None) /\ Resize t m = None.
Proof.
  intros He.
  assert (Hg : forall fuel, grow fuel 4 (elems_ t) = None).
  { intros fuel. apply grow_stuck; [done|]. right. exists 2. split; [lia|done]. }
  split; [done|]. unfold Resize. by rewrite Hg.
Qed.

Lemma Lookup_refines_map_witness :
  represents example_table example_entries example_map /\
  Lookup example_table example_entries [1] 5 =
    Some (Cache.table_Lookup example_map [1] 5).
Proof.
  split; [apply example_represents|].
  apply (Lookup_refines_map example_table example_entries example_map [1] 5).
  apply example_represents.
Defined.

Lemma Insert_refines_map_witness :
  represents {| length_ := 4; elems_ := 0; list_ := replicate 4 None |}
    example_entries ∅ /\
  example_entries !! 0%nat = Some example_node /\
  (forall hk, (∅ : gmap (Z * list Z) Handle) !! hk <> Some 0%nat) /\
  0 < 2 ^ 31 /\
  exists t' m',
    Insert {| length_ := 4; elems_ := 0; list_ := replicate 4 None |} example_entries 0%nat
      = Some ((Cache.table_Insert ∅ 0%nat [1] 5).1, t', m') /\
    represents t' m' (Cache.table_Insert ∅ 0%nat [1] 5).2 /\
    same_keys example_entries m' /\
    (forall y, (∅ : gmap (Z * list Z) Handle) !! (5, [1]) = Some y -> length_ t' = 4).
Proof.
  assert (Hrep : represents {| length_ := 4; elems_ := 0; list_ := replicate 4 None |}
                   example_entries ∅) by (apply new_represents, new_eq).
  assert (Hfresh : forall hk, (∅ : gmap (Z * list Z) Handle) !! hk <> Some 0%nat).
  { intros hk. by rewrite lookup_empty. }
  split_and!; [done|done|done|lia|].
  apply (Insert_refines_map _ example_entries ∅ 0%nat example_node Hrep); [done|done|].
  simpl. lia.
Defined.

Lemma Remove_refines_map_witness :
  represents example_table example_entries example_map /\
  exists t' m',
    Remove example_table example_entries [1] 5
      = Some ((Cache.table_Remove example_map [1] 5).1, t', m') /\
    represents t' m' (Cache.table_Remove example_map [1] 5).2 /\
    same_keys example_entries m' /\ length_ t' = length_ example_table.
Proof.
  split; [apply example_represents|].
  apply (Remove_refines_map example_table example_entries example_map [1] 5).
  apply example_represents.
Defined.

Lemma reachable_invariants_witness :
  reachable example_table example_entries (<[(5, [1]) := 0%nat]> ∅) /\
  (exists p, 2 <= p <= 31 /\ length_ example_table = 2 ^ p) /\
  Z.of_nat (length (list_ example_table)) = length_ example_table /\
  elems_ example_table = Z.of_nat (size (<[(5, [1]) := 0%nat]> (∅ : gmap (Z * list Z) Handle))) /\
  elems_ example_table <= length_ example_table /\
  forall k h, Lookup example_table example_entries k h
    = Some ((<[(5, [1]) := 0%nat]> (∅ : gmap (Z * list Z) Handle)) !! (h, k)).
Proof.
  assert (Hreach : reachable example_table example_entries (<[(5, [1]) := 0%nat]> ∅)).
  { apply (reach_Insert {| length_ := 4; elems_ := 0; list_ := replicate 4 None |}
             example_entries ∅ 0%nat example_node None).
    - apply reach_new, new_eq.
    - done.
    - intros hk. by rewrite lookup_empty.
    - simpl. lia.
    - by vm_compute. }
  split; [done|]. by apply (reachable_invariants example_table example_entries).
Defined.

Lemma Resize_rehashes_witness :
  wf example_table example_entries [[]; [0%nat]; []; []] /\
  elems_ example_table <= 2 ^ 31 /\
  exists t' m' chains',
    Resize example_table example_entries = Some (t', m', elems_ example_table) /\
    wf t' m' chains' /\ concat chains' ≡ₚ concat [[]; [0%nat]; []; []] /\
    same_keys example_entries m' /\
    elems_ t' = elems_ example_table /\ elems_ example_table <= length_ t' /\
    exists q, 2 <= q <= 31 /\ length_ t' = 2 ^ q /\
      (q = 2 \/ 2 ^ (q - 1) < elems_ example_table).
Proof.
  assert (He : elems_ example_table <= 2 ^ 31) by (simpl; lia).
  split_and!; [apply example_wf|done|].
  apply (Resize_rehashes example_table example_entries _ example_wf He).
Defined.

Lemma Resize_never_returns_witness :
  2 ^ 31 < elems_ {| length_ := 4; elems_ := 2 ^ 31 + 1; list_ := replicate 4 None |} /\
  (forall fuel, grow fuel 4 (2 ^ 31 + 1) = None) /\
  Resize {| length_ := 4; elems_ := 2 ^ 31 + 1; list_ := replicate 4 None |} ∅ = None.
Proof.
  assert (He : 2 ^ 31 <
    elems_ {| length_ := 4; elems_ := 2 ^ 31 + 1; list_ := replicate 4 None |})
    by (simpl; lia).
  split; [done|].
  apply (Resize_never_returns
           {| length_ := 4; elems_ := 2 ^ 31 + 1; list_ := replicate 4 None |} ∅ He).
Defined.

(** Five entries in a new table: the fifth makes it grow to eight
    buckets. *)
Example Insert_grows_example :
  let node k h := {| key := [k]; hash := h; next_hash := None |} in
  let entries : gmap Handle Node :=
    list_to_map [(0%nat, node 1 5); (1%nat, node 2 9); (2%nat, node 3 13);
                 (3%nat, node 4 2); (4%nat, node 5 6)] in
  let ins st e := '(t, m) ← st; '(_, t, m) ← Insert t m e; Some (t, m) in
  ((fun st => fst <$> st) (fold_left ins [0; 1; 2; 3]%nat (t ← new; Some (t, entries))),
   (fun st => fst <$> st) (fold_left ins [0; 1; 2; 3; 4]%nat (t ← new; Some (t, entries))))
  = (Some {| length_ := 4; elems_ := 4; list_ := [None; Some 0%nat; Some 3%nat; None] |},
     Some {| length_ := 8; elems_ := 5;
             list_ := [None; Some 1%nat; Some 3%nat; None; None; Some 2%nat; Some 4%nat;
                       None] |}).
Proof. by vm_compute. Qed.

End HandleTable.

(** ** db/skiplist.h *)

Module SkipList.

(** [enum { kMaxHeight = 12 }] and [kBranching] of [RandomHeight].
    Heights and levels are [int]s between 0 and [kMaxHeight]; they
    index the link arrays and are natural numbers here. *)
Definition kMaxHeight : nat := 12.
Definition kBranching : Z := 4.

Section SkipList.

Context {Key : Type}.

(** The comparator the list is built with, [Random::Next()] of
    util/random.h (the value drawn and the next seed), and the key 0 of
    the head node. *)
Variable compare_ : Key -> Key -> Z.
Variable Random_Next : Z -> Z * Z.
Variable key0 : Key.

(** [struct Node].  A [Node*] is [None] for NULL or the index of the
    node in the arena; [next_] has one link per level of the node. *)
Record Node : Type := {
  key : Key;
  next_ : list (option nat)
}.

(** [class SkipList]: the nodes allocated in the arena, in allocation
    order, with [head_] first. *)
Record SkipList : Type := {
  nodes : list Node;
  max_height_ : nat;
  rnd_ : Z
}.

Definition head_ : nat := 0%nat.

(** [NewNode(key, height)].  The links of a new node are not
    initialised; [Insert] and the constructor store all of them before
    any is read, and the model starts them as NULL. *)
Definition NewNode (k : Key) (height : nat) : Node :=
  {| key := k; next_ := replicate height None |}.

(** [SkipList::SkipList(cmp, arena)]. *)
Definition new : SkipList :=
  {| nodes := [NewNode key0 kMaxHeight]; max_height_ := 1%nat; rnd_ := 0xdeadbeef |}.

Definition GetMaxHeight (s : SkipList) : nat := max_height_ s.

(** [x->Next(n)] and [x->NoBarrier_Next(n)]: [None] when [x] is not a
    node or has no level [n], which the source leaves undefined. *)
Definition Next (s : SkipList) (x n : nat) : option (option nat) :=
  node ← nodes s !! x; next_ node !! n.

(** [x->SetNext(n, v)] and [x->NoBarrier_SetNext(n, v)]. *)
Definition SetNext (s : SkipList) (x n : nat) (v : option nat) : option SkipList :=
  node ← nodes s !! x;
  if decide (n < length (next_ node))%nat
  then Some {| nodes := <[x := {| key := key node; next_ := <[n := v]> (next_ node) |}]>
                          (nodes s);
               max_height_ := max_height_ s; rnd_ := rnd_ s |}
  else None.

(** [RandomHeight()]: the height and the next seed.  The loop runs at
    most [kMaxHeight - 1] times. *)
Fixpoint RandomHeight_loop (fuel : nat) (rnd : Z) (height : nat) : nat * Z :=
  match fuel with
  | O => (height, rnd)
  | S fuel' =>
      if (height <? kMaxHeight)%nat then
        let '(v, rnd') := Random_Next rnd in
        if v mod kBranching =? 0
        then RandomHeight_loop fuel' rnd' (height + 1)%nat
        else (height, rnd')
      else (height, rnd)
  end.

Definition RandomHeight (s : SkipList) : nat * Z :=
  RandomHeight_loop kMaxHeight (rnd_ s) 1%nat.

Definition Equal (a b : Key) : bool := compare_ a b =? 0.

(** [KeyIsAfterNode(key, n)]. *)
Definition KeyIsAfterNode (s : SkipList) (k : Key) (n : option nat) : option bool :=
  match n with
  | None => Some false
  | Some n => node ← nodes s !! n; Some (compare_ (key node) k <? 0)
  end.

(** [FindGreaterOrEqual(key, prev)]: the node found and the array
    [prev], which is [None] when the caller passes NULL; an element of
    the array that has not been stored is [None].  Every iteration of
    the loop moves to a later node or to a lower level, so the fuel is
    the number of nodes plus the height of the list. *)
Fixpoint FindGreaterOrEqual_loop (fuel : nat) (s : SkipList) (k : Key)
    (x level : nat) (prev : option (list (option nat)))
    : option (option nat * option (list (option nat))) :=
  match fuel with
  | O => None
  | S fuel' =>
      next ← Next s x level;
      after ← KeyIsAfterNode s k next;
      if after : bool then
        (* Keep searching in this list *)
        n ← next; FindGreaterOrEqual_loop fuel' s k n level prev
      else
        let prev := (fun p => <[level := Some x]> p) <$> prev in
        if (level =? 0)%nat then Some (next, prev)
        else (* Switch to next list *)
          FindGreaterOrEqual_loop fuel' s k x (level - 1)%nat prev
  end.

Definition FindGreaterOrEqual (s : SkipList) (k : Key) (prev : option (list (option nat)))
    : option (option nat * option (list (option nat))) :=
  FindGreaterOrEqual_loop (length (nodes s) + GetMaxHeight s) s k
    head_ (GetMaxHeight s - 1)%nat prev.

(** [FindLessThan(key)]. *)
Fixpoint FindLessThan_loop (fuel : nat) (s : SkipList) (k : Key) (x level : nat)
    : option nat :=
  match fuel with
  | O => None
  | S fuel' =>
      next ← Next s x level;
      stop ← match next with
             | None => Some true
             | Some n => node ← nodes s !! n; Some (0 <=? compare_ (key node) k)
             end;
      if stop : bool then
        if (level =? 0)%nat then Some x
        else (* Switch to next list *)
          FindLessThan_loop fuel' s k x (level - 1)%nat
      else
        n ← next; FindLessThan_loop fuel' s k n level
  end.

Definition FindLessThan (s : SkipList) (k : Key) : option nat :=
  FindLessThan_loop (length (nodes s) + GetMaxHeight s) s k head_ (GetMaxHeight s - 1)%nat.

(** [FindLast()]. *)
Fixpoint FindLast_loop (fuel : nat) (s : SkipList) (x level : nat) : option nat :=
  match fuel with
  | O => None
  | S fuel' =>
      next ← Next s x level;
      match next with
      | None =>
          if (level =? 0)%nat then Some x
          else (* Switch to next list *)
            FindLast_loop fuel' s x (level - 1)%nat
      | Some n => FindLast_loop fuel' s n level
      end
  end.

Definition FindLast (s : SkipList) : option nat :=
  FindLast_loop (length (nodes s) + GetMaxHeight s) s head_ (GetMaxHeight s - 1)%nat.

(** The second loop of [Insert], from level [i] for [n] levels: link
    the node [x] after [prev[i]]. *)
Fixpoint link_loop (n : nat) (i : nat) (s : SkipList) (x : nat) (prev : list (option nat))
    : option SkipList :=
  match n with
  | O => Some s
  | S n' =>
      p ← mjoin (prev !! i);
      nx ← Next s p i;
      s ← SetNext s x i nx;
      s ← SetNext s p i (Some x);
      link_loop n' (S i) s x prev
  end.

(** [Insert(key)].  The assertion that no equal key is in the list is
    the caller's obligation and is not checked. *)
Definition Insert (s : SkipList) (k : Key) : option SkipList :=
  '(_, prev) ← FindGreaterOrEqual s k (Some (replicate kMaxHeight None));
  prev ← prev;
  let '(height, rnd) := RandomHeight s in
  let '(prev, max_height) :=
    if (GetMaxHeight s <? height)%nat
    then (foldl (fun p i => <[i := Some head_]> p) prev
            (seq (GetMaxHeight s) (height - GetMaxHeight s)),
          height)
    else (prev, max_height_ s) in
  let x := length (nodes s) in
  let s := {| nodes := nodes s ++ [NewNode k height];
              max_height_ := max_height; rnd_ := rnd |} in
  link_loop height 0 s x prev.

(** [Contains(key)]. *)
Definition Contains (s : SkipList) (k : Key) : option bool :=
  '(x, _) ← FindGreaterOrEqual s k None;
  match x with
  | Some n => node ← nodes s !! n; Some (Equal k (key node))
  | None => Some false
  end.

(** [class Iterator]: [list_] points to the list, which the operations
    below take as it is when they are called. *)
Record Iterator : Type := { node_ : option nat }.

Definition Iterator_new : Iterator := {| node_ := None |}.

Definition Valid (it : Iterator) : bool :=
  match node_ it with Some _ => true | None => false end.

(** [Iterator::key()], which requires [Valid()]. *)
Definition Iterator_key (s : SkipList) (it : Iterator) : option Key :=
  n ← node_ it; node ← nodes s !! n; Some (key node).

Definition Iterator_Next (s : SkipList) (it : Iterator) : option Iterator :=
  n ← node_ it; nx ← Next s n 0; Some {| node_ := nx |}.

Definition Iterator_Prev (s : SkipList) (it : Iterator) : option Iterator :=
  n ← node_ it; node ← nodes s !! n;
  r ← FindLessThan s (key node);
  Some {| node_ := if (r =? head_)%nat then None else Some r |}.

Definition Seek (s : SkipList) (target : Key) : option Iterator :=
  '(r, _) ← FindGreaterOrEqual s target None; Some {| node_ := r |}.

Definition SeekToFirst (s : SkipList) : option Iterator :=
  nx ← Next s head_ 0; Some {| node_ := nx |}.

Definition SeekToLast (s : SkipList) : option Iterator :=
  r ← FindLast s;
  Some {| node_ := if (r =? head_)%nat then None else Some r |}.

(** The keys an iterator visits from its position by [Next] until it
    is no longer valid. *)
Fixpoint scan (fuel : nat) (s : SkipList) (it : Iterator) : option (list Key) :=
  match fuel with
  | O => None
  | S fuel' =>
      if Valid it then
        k ← Iterator_key s it;
        it' ← Iterator_Next s it;
        ks ← scan fuel' s it';
        Some (k :: ks)
      else Some []
  end.

(** Inserting the keys of a list, one after the other. *)
Definition InsertAll (keys : list Key) (s : SkipList) : option SkipList :=
  foldl (fun s k => s ← s; Insert s k) (Some s) keys.

(** *** The shape of a list *)

Definition height (s : SkipList) (x : nat) : nat :=
  from_option (fun n => length (next_ n)) 0%nat (nodes s !! x).

Definition keyof (s : SkipList) (x : nat) : Key :=
  from_option key key0 (nodes s !! x).

(** The last node of a prefix of the list, [head_] for the empty
    prefix. *)
Definition lastof (A : list nat) : nat := default head_ (last A).

(** The nodes of [B] that have a link at level [l]. *)
Definition tall (s : SkipList) (l : nat) (B : list nat) : list nat :=
  filter (fun y => (l < height s y)%nat) B.

(** [order] lists the nodes other than [head_] by ascending key, and
    each link of a node leads to the next node that is tall enough. *)
Record wf (s : SkipList) (order : list nat) : Prop := {
  wf_head : height s head_ = kMaxHeight;
  wf_max : (1 <= max_height_ s <= kMaxHeight)%nat;
  wf_nodes : order ≡ₚ seq 1 (length (nodes s) - 1);
  wf_height : forall x, x ∈ order -> (1 <= height s x <= max_height_ s)%nat;
  wf_sorted : StronglySorted (fun a b => compare_ (keyof s a) (keyof s b) < 0) order;
  wf_links : forall A B l, order = A ++ B -> (l < height s (lastof A))%nat ->
    Next s (lastof A) l = Some (head (tall s l B))
}.

Lemma lastof_snoc A y : lastof (A ++ [y]) = y.
Proof. unfold lastof. by rewrite last_snoc. Qed.

Lemma lastof_elem A : A <> [] -> lastof A ∈ A.
Proof.
  intros HA. apply last_is_Some in HA as [y Hy]. unfold lastof. rewrite Hy. simpl.
  by apply last_Some_elem_of.
Qed.

Lemma filter_head_split {A} (P : A -> Prop) `{forall x, Decision (P x)} (L : list A) y r :
  filter P L = y :: r ->
  exists a b, L = a ++ y :: b /\ filter P a = [] /\ P y.
Proof.
  induction L as [|z L IH]; [done|].
  rewrite filter_cons. destruct (decide (P z)) as [Hz|Hz].
  - intros [= -> _]. exists [], L. done.
  - intros HL. destruct (IH HL) as (a & b & -> & Ha & Hy).
    exists (z :: a), b. split_and!; try done.
    rewrite filter_cons. by rewrite decide_False.
Qed.

Lemma filter_ext_in {A} (P Q : A -> Prop) `{forall x, Decision (P x)}
    `{forall x, Decision (Q x)} (L : list A) :
  (forall y, y ∈ L -> P y <-> Q y) -> filter P L = filter Q L.
Proof.
  induction L as [|z L IH]; intros HPQ; [done|].
  rewrite !filter_cons.
  assert (Hz : P z <-> Q z) by (apply HPQ; by left).
  rewrite IH by (intros y Hy; apply HPQ; by right).
  destruct (decide (P z)), (decide (Q z)); tauto.
Qed.

Lemma filter_all {A} (P : A -> Prop) `{forall x, Decision (P x)} (L : list A) :
  (forall y, y ∈ L -> P y) -> filter P L = L.
Proof.
  induction L as [|z L IH]; intros HP; [done|].
  rewrite filter_cons, decide_True by (apply HP; by left).
  rewrite IH; [done|]. intros y Hy. apply HP. by right.
Qed.

Lemma filter_none {A} (P : A -> Prop) `{forall x, Decision (P x)} (L : list A) :
  (forall y, y ∈ L -> ~ P y) -> filter P L = [].
Proof.
  induction L as [|z L IH]; intros HP; [done|].
  rewrite filter_cons, decide_False by (apply HP; by left).
  apply IH. intros y Hy. apply HP. by right.
Qed.

(** Two prefixes of a duplicate-free list with the same last node. *)
Lemma prefix_by_last (L A A2 A' A2' : list nat) :
  NoDup (head_ :: L) -> L = A ++ A2 -> L = A' ++ A2' -> lastof A = lastof A' ->
  A = A'.
Proof.
  intros Hnd HA HA' Hlast.
  apply NoDup_cons in Hnd as [Hh Hnd].
  destruct (decide (A = [])) as [->|HAne]; destruct (decide (A' = [])) as [->|HA'ne];
    try done.
  - exfalso. apply Hh. rewrite HA'. apply elem_of_app. left.
    change head_ with (lastof []). rewrite Hlast. by apply lastof_elem.
  - exfalso. apply Hh. rewrite HA. apply elem_of_app. left.
    change head_ with (lastof []). rewrite <- Hlast. by apply lastof_elem.
  - apply last_is_Some in HAne as [y Hy]. apply last_is_Some in HA'ne as [y' Hy'].
    unfold lastof in Hlast. rewrite Hy, Hy' in Hlast. simpl in Hlast.
    assert (y' = y) as -> by done. clear Hlast.
    apply last_Some in Hy as [B ->]. apply last_Some in Hy' as [B' ->].
    rewrite <- !app_assoc in HA, HA'. simpl in HA, HA'. subst L.
    f_equal.
    assert (Hy : y ∈ B ++ y :: A2) by (apply elem_of_app; right; by left).
    apply NoDup_app in Hnd as Hnd1. destruct Hnd1 as (_ & Hd1 & Hd1').
    pose proof Hnd as Hnd2. rewrite HA' in Hnd2.
    apply NoDup_app in Hnd2 as (_ & Hd2 & Hd2').
    apply NoDup_cons in Hd1' as [HyA2 _]. apply NoDup_cons in Hd2' as [HyA2' _].
    apply app_eq_inv in HA' as [(K & HK1 & HK2)|(K & HK1 & HK2)].
    + destruct K as [|z K]; [by rewrite app_nil_r in HK1|].
      injection HK2 as <- HK2. exfalso. apply HyA2'. rewrite HK2.
      apply elem_of_app. right. by left.
    + destruct K as [|z K]; [by rewrite app_nil_r in HK1|].
      injection HK2 as <- HK2. exfalso. apply HyA2. rewrite HK2.
      apply elem_of_app. right. by left.
Qed.

(** *** The searches *)

(** The three searches walk the list in the same way: they move right
    while [adv] holds of the next node and down otherwise, and end at
    level 0 with the node reached, its successor and [prev]. *)
Fixpoint walk (adv : option nat -> option bool) (fuel : nat) (s : SkipList)
    (x level : nat) (prev : option (list (option nat)))
    : option (nat * option nat * option (list (option nat))) :=
  match fuel with
  | O => None
  | S fuel' =>
      next ← Next s x level;
      a ← adv next;
      if a : bool then n ← next; walk adv fuel' s n level prev
      else
        let prev := (fun p => <[level := Some x]> p) <$> prev in
        if (level =? 0)%nat then Some (x, next, prev)
        else walk adv fuel' s x (level - 1)%nat prev
  end.

Lemma FindGreaterOrEqual_loop_walk fuel s k : forall x level prev,
  FindGreaterOrEqual_loop fuel s k x level prev =
  (fun r => (r.1.2, r.2)) <$> walk (KeyIsAfterNode s k) fuel s x level prev.
Proof.
  induction fuel as [|fuel IH]; intros x level prev; [done|].
  simpl. destruct (Next s x level) as [next|]; [|done]. simpl.
  destruct (KeyIsAfterNode s k next) as [[]|]; simpl; try done.
  - destruct next as [n|]; simpl; [apply IH|done].
  - destruct (level =? 0)%nat; [done|apply IH].
Qed.

Lemma FindLessThan_loop_walk fuel s k : forall x level,
  FindLessThan_loop fuel s k x level =
  (fun r => r.1.1) <$> walk (KeyIsAfterNode s k) fuel s x level None.
Proof.
  induction fuel as [|fuel IH]; intros x level; [done|].
  simpl. destruct (Next s x level) as [[n|]|]; simpl; try done.
  - destruct (nodes s !! n) as [node|]; simpl; [|done].
    rewrite Z.leb_antisym. destruct (compare_ (key node) k <? 0); simpl.
    + apply IH.
    + destruct (level =? 0)%nat; [done|apply IH].
  - destruct (level =? 0)%nat; [done|apply IH].
Qed.

Definition not_null (n : option nat) : option bool :=
  Some (match n with Some _ => true | None => false end).

Lemma FindLast_loop_walk fuel s : forall x level,
  FindLast_loop fuel s x level = (fun r => r.1.1) <$> walk not_null fuel s x level None.
Proof.
  induction fuel as [|fuel IH]; intros x level; [done|].
  simpl. destruct (Next s x level) as [[n|]|]; simpl; try done.
  destruct (level =? 0)%nat; [done|apply IH].
Qed.

(** What [prev[l]] holds after a search that splits the list into the
    nodes [lo] it passes and the rest: the last node of [lo] with a
    link at level [l]. *)
Definition prev_ok (s : SkipList) (lo : list nat) (l : nat) (v : option (option nat)) : Prop :=
  exists a b, lo = a ++ b /\ v = Some (Some (lastof a)) /\ tall s l b = [] /\
              (l < height s (lastof a))%nat.

Lemma walk_spec s order adv lo hi :
  wf s order -> order = lo ++ hi ->
  (forall y, y ∈ lo -> adv (Some y) = Some true) ->
  (forall y, y ∈ hi -> adv (Some y) = Some false) ->
  adv None = Some false ->
  forall fuel level lo1 lo2 p,
    lo = lo1 ++ lo2 -> (level < height s (lastof lo1))%nat ->
    (length lo2 + level < fuel)%nat ->
    exists p',
      walk adv fuel s (lastof lo1) level (Some p) = Some (lastof lo, head hi, Some p') /\
      length p' = length p /\
      (forall l, (level < l)%nat -> p' !! l = p !! l) /\
      (forall l, (l <= level)%nat -> (l < length p)%nat -> prev_ok s lo l (p' !! l)).
Proof.
  intros Hwf Horder Hlo Hhi Hnull.
  induction fuel as [|fuel IH]; intros level lo1 lo2 p Hsplit Hlevel Hfuel; [lia|].
  simpl.
  assert (Hall : order = lo1 ++ lo2 ++ hi) by (by rewrite Horder, Hsplit, <- app_assoc).
  rewrite (wf_links _ _ Hwf lo1 (lo2 ++ hi) level Hall Hlevel).
  simpl. unfold tall. rewrite filter_app. fold (tall s level lo2) (tall s level hi).
  destruct (tall s level lo2) as [|y r] eqn:Htall.
  - (* nothing more to pass at this level *)
    simpl.
    assert (Hadv : adv (head (tall s level hi)) = Some false).
    { destruct (tall s level hi) as [|z r] eqn:Hz; [done|]. simpl.
      apply Hhi. assert (Hin : z ∈ tall s level hi) by (rewrite Hz; by left).
      unfold tall in Hin. by apply list_elem_of_filter in Hin as [_ Hin]. }
    rewrite Hadv. simpl.
    destruct level as [|level'].
    + simpl.
      assert (Hlo2 : lo2 = []).
      { destruct lo2 as [|z lo2]; [done|]. exfalso.
        assert (Hz : z ∈ order).
        { rewrite Horder, Hsplit. apply elem_of_app. left. apply elem_of_app. right. by left. }
        pose proof (wf_height _ _ Hwf z Hz) as Hh.
        unfold tall in Htall. rewrite filter_cons, decide_True in Htall by lia. done. }
      subst lo2. rewrite app_nil_r in Hsplit. subst lo1.
      exists (<[0%nat := Some (lastof lo)]> p). split_and!.
      * f_equal. f_equal. f_equal. f_equal. unfold tall. apply filter_all.
        intros z Hz.
        assert (Hz' : z ∈ order) by (rewrite Horder; apply elem_of_app; by right).
        pose proof (wf_height _ _ Hwf z Hz'). lia.
      * by rewrite length_insert.
      * intros l Hl. apply list_lookup_insert_ne. lia.
      * intros l Hl Hlen. assert (l = 0%nat) as -> by lia.
        exists lo, []. split_and!; try done.
        -- by rewrite app_nil_r.
        -- by rewrite list_lookup_insert_eq.
    + replace (S level' =? 0)%nat with false by done.
      replace (S level' - 1)%nat with level' by lia.
      destruct (IH level' lo1 lo2 (<[S level' := Some (lastof lo1)]> p) Hsplit
                  ltac:(lia) ltac:(lia)) as (p' & Hw & Hlen & Hhigh & Hlow).
      exists p'. rewrite length_insert in Hlen. split_and!; try done.
      * intros l Hl. rewrite Hhigh by lia. apply list_lookup_insert_ne. lia.
      * intros l Hl Hlt. destruct (decide (l = S level')) as [->|Hne].
        -- rewrite Hhigh by lia. rewrite list_lookup_insert_eq by done.
           exists lo1, lo2. done.
        -- apply Hlow; [lia|]. by rewrite length_insert.
  - (* move right *)
    simpl.
    unfold tall in Htall. apply filter_head_split in Htall as (a & b & -> & Ha & Hy).
    rewrite Hlo by (rewrite Hsplit; apply elem_of_app; right; apply elem_of_app; right; by left).
    simpl.
    destruct (IH level (lo1 ++ a ++ [y]) b p) as (p' & Hw & Hrest).
    + rewrite Hsplit. rewrite <- !app_assoc. done.
    + rewrite app_assoc, lastof_snoc. done.
    + rewrite length_app in Hfuel. simpl in Hfuel. lia.
    + exists p'. rewrite app_assoc, lastof_snoc in Hw. done.
Qed.

Lemma walk_prev_None adv fuel s p : forall x level,
  walk adv fuel s x level None =
  (fun r => (r.1, None)) <$> walk adv fuel s x level (Some p).
Proof.
  revert p. induction fuel as [|fuel IH]; intros p x level; [done|].
  simpl. destruct (Next s x level) as [next|]; [|done]. simpl.
  destruct (adv next) as [[]|]; simpl; try done.
  - destruct next as [n|]; simpl; [apply IH|done].
  - destruct (level =? 0)%nat; [done|apply IH].
Qed.

Lemma wf_length s order : wf s order -> length order = (length (nodes s) - 1)%nat.
Proof. intros Hwf. rewrite (wf_nodes _ _ Hwf). apply length_seq. Qed.

Lemma wf_elem s order x :
  wf s order -> x ∈ order <-> (1 <= x < length (nodes s))%nat.
Proof. intros Hwf. rewrite (wf_nodes _ _ Hwf), elem_of_seq. lia. Qed.

Lemma wf_nodup s order : wf s order -> NoDup (head_ :: order).
Proof.
  intros Hwf. apply NoDup_cons. split.
  - rewrite (wf_elem s order) by done. unfold head_. lia.
  - rewrite (wf_nodes _ _ Hwf). apply NoDup_seq.
Qed.

Lemma wf_node s order x :
  wf s order -> x ∈ order ->
  exists node, nodes s !! x = Some node /\ key node = keyof s x.
Proof.
  intros Hwf Hx. apply (wf_elem s order) in Hx; [|done].
  destruct (lookup_lt_is_Some_2 (nodes s) x ltac:(lia)) as [node Hnode].
  exists node. split; [done|]. unfold keyof. by rewrite Hnode.
Qed.

(** The walk of a whole search, from [head_] at the top level. *)
Lemma walk_from_head s order adv lo hi p :
  wf s order -> order = lo ++ hi ->
  (forall y, y ∈ lo -> adv (Some y) = Some true) ->
  (forall y, y ∈ hi -> adv (Some y) = Some false) ->
  adv None = Some false ->
  exists p',
    walk adv (length (nodes s) + GetMaxHeight s) s head_ (GetMaxHeight s - 1) (Some p) =
      Some (lastof lo, head hi, Some p') /\
    length p' = length p /\
    (forall l, (GetMaxHeight s <= l)%nat -> p' !! l = p !! l) /\
    (forall l, (l < GetMaxHeight s)%nat -> (l < length p)%nat -> prev_ok s lo l (p' !! l)).
Proof.
  intros Hwf Horder Hlo Hhi Hnull.
  pose proof (wf_max _ _ Hwf) as Hmax. pose proof (wf_length _ _ Hwf) as Hlen.
  unfold GetMaxHeight.
  destruct (walk_spec s order adv lo hi Hwf Horder Hlo Hhi Hnull
              (length (nodes s) + max_height_ s) (max_height_ s - 1) [] lo p)
    as (p' & Hw & Hl & Hhigh & Hlow).
  - done.
  - change (lastof []) with head_. rewrite (wf_head _ _ Hwf). lia.
  - rewrite Horder, length_app in Hlen. lia.
  - exists p'. split_and!; try done.
    + intros l Hl'. apply Hhigh. lia.
    + intros l Hl' Hp. apply Hlow; [lia|done].
Qed.

Lemma walk_from_head_None s order adv lo hi :
  wf s order -> order = lo ++ hi ->
  (forall y, y ∈ lo -> adv (Some y) = Some true) ->
  (forall y, y ∈ hi -> adv (Some y) = Some false) ->
  adv None = Some false ->
  walk adv (length (nodes s) + GetMaxHeight s) s head_ (GetMaxHeight s - 1) None =
    Some (lastof lo, head hi, None).
Proof.
  intros Hwf Horder Hlo Hhi Hnull.
  destruct (walk_from_head s order adv lo hi [] Hwf Horder Hlo Hhi Hnull)
    as (p' & Hw & _).
  rewrite (walk_prev_None _ _ _ []), Hw. done.
Qed.

(** *** The comparator *)

Hypothesis compare_ok : Comparators.TotalPreorder compare_.

Lemma compare_refl a : compare_ a a = 0.
Proof.
  destruct (Comparators.cmp_sign _ compare_ok a a) as [H1 _]. lia.
Qed.

Lemma compare_lt_le_trans a b c :
  compare_ a b < 0 -> compare_ b c <= 0 -> compare_ a c < 0.
Proof.
  intros Hab Hbc.
  pose proof (Comparators.cmp_trans _ compare_ok a b c ltac:(lia) Hbc) as Hac.
  destruct (Z.eq_dec (compare_ a c) 0) as [Heq|]; [|lia].
  apply (Comparators.cmp_sign _ compare_ok a c) in Heq.
  pose proof (Comparators.cmp_trans _ compare_ok b c a Hbc ltac:(lia)) as Hba.
  apply (Comparators.cmp_sign _ compare_ok a b) in Hab. lia.
Qed.

Lemma compare_lt_trans a b c :
  compare_ a b < 0 -> compare_ b c < 0 -> compare_ a c < 0.
Proof. intros Hab Hbc. apply (compare_lt_le_trans a b c); lia. Qed.

Lemma compare_gt a b : 0 <= compare_ a b -> compare_ a b <> 0 -> compare_ b a < 0.
Proof.
  intros H0 Hne. apply (Comparators.cmp_sign _ compare_ok b a). lia.
Qed.

(** A sorted list splits at any key into the nodes before it and the
    others. *)
Lemma split_at_key s order (k : Key) :
  StronglySorted (fun a b => compare_ (keyof s a) (keyof s b) < 0) order ->
  exists lo hi, order = lo ++ hi /\
    (forall y, y ∈ lo -> compare_ (keyof s y) k < 0) /\
    (forall y, y ∈ hi -> 0 <= compare_ (keyof s y) k).
Proof.
  induction order as [|x order IH]; intros Hs.
  - exists [], []. split_and!; [done|intros y Hy; by apply elem_of_nil in Hy..].
  - apply StronglySorted_cons in Hs as [Hx Hs].
    destruct (Z.lt_ge_cases (compare_ (keyof s x) k) 0) as [Hlt|Hge].
    + destruct (IH Hs) as (lo & hi & -> & Hlo & Hhi).
      exists (x :: lo), hi. split_and!; [done| |done].
      intros y Hy. apply elem_of_cons in Hy as [->|Hy]; [done|by apply Hlo].
    + exists [], (x :: order). split_and!; [done|intros y Hy; by apply elem_of_nil in Hy|].
      intros y Hy. apply elem_of_cons in Hy as [->|Hy]; [done|].
      rewrite Forall_forall in Hx. specialize (Hx y Hy).
      destruct (Z.lt_ge_cases (compare_ (keyof s y) k) 0) as [Hlt|]; [|done].
      pose proof (compare_lt_trans _ _ _ Hx Hlt). lia.
Qed.

Lemma KeyIsAfterNode_lo s order k y :
  wf s order -> y ∈ order -> compare_ (keyof s y) k < 0 ->
  KeyIsAfterNode s k (Some y) = Some true.
Proof.
  intros Hwf Hy Hlt. destruct (wf_node s order y Hwf Hy) as (node & Hnode & Hkey).
  simpl. rewrite Hnode. simpl. rewrite Hkey. f_equal. by apply Z.ltb_lt.
Qed.

Lemma KeyIsAfterNode_hi s order k y :
  wf s order -> y ∈ order -> 0 <= compare_ (keyof s y) k ->
  KeyIsAfterNode s k (Some y) = Some false.
Proof.
  intros Hwf Hy Hlt. destruct (wf_node s order y Hwf Hy) as (node & Hnode & Hkey).
  simpl. rewrite Hnode. simpl. rewrite Hkey. f_equal. by apply Z.ltb_ge.
Qed.

(** [FindGreaterOrEqual(key, NULL)] returns the first node whose key is
    not before [key], [FindLessThan(key)] the last node whose key is
    before it, and [FindLast()] the last node. *)
Lemma FindGreaterOrEqual_spec s order k lo hi :
  wf s order -> order = lo ++ hi ->
  (forall y, y ∈ lo -> compare_ (keyof s y) k < 0) ->
  (forall y, y ∈ hi -> 0 <= compare_ (keyof s y) k) ->
  FindGreaterOrEqual s k None = Some (head hi, None).
Proof.
  intros Hwf Horder Hlo Hhi. unfold FindGreaterOrEqual.
  rewrite FindGreaterOrEqual_loop_walk.
  rewrite (walk_from_head_None s order _ lo hi); try done.
  - intros y Hy. apply (KeyIsAfterNode_lo s order); [done| |by apply Hlo].
    rewrite Horder. apply elem_of_app. by left.
  - intros y Hy. apply (KeyIsAfterNode_hi s order); [done| |by apply Hhi].
    rewrite Horder. apply elem_of_app. by right.
Qed.

Lemma FindLessThan_spec s order k lo hi :
  wf s order -> order = lo ++ hi ->
  (forall y, y ∈ lo -> compare_ (keyof s y) k < 0) ->
  (forall y, y ∈ hi -> 0 <= compare_ (keyof s y) k) ->
  FindLessThan s k = Some (lastof lo).
Proof.
  intros Hwf Horder Hlo Hhi. unfold FindLessThan.
  rewrite FindLessThan_loop_walk.
  rewrite (walk_from_head_None s order _ lo hi); try done.
  - intros y Hy. apply (KeyIsAfterNode_lo s order); [done| |by apply Hlo].
    rewrite Horder. apply elem_of_app. by left.
  - intros y Hy. apply (KeyIsAfterNode_hi s order); [done| |by apply Hhi].
    rewrite Horder. apply elem_of_app. by right.
Qed.

Lemma FindLast_spec s order : wf s order -> FindLast s = Some (lastof order).
Proof.
  intros Hwf. unfold FindLast. rewrite FindLast_loop_walk.
  rewrite (walk_from_head_None s order _ order []); try done.
  - by rewrite app_nil_r.
  - intros y Hy. by apply elem_of_nil in Hy.
Qed.

(** *** Insert *)

(** Two lists with the same nodes, heights and keys. *)
Definition same_shape (s s' : SkipList) : Prop :=
  length (nodes s') = length (nodes s) /\ max_height_ s' = max_height_ s /\
  rnd_ s' = rnd_ s /\
  (forall y, height s' y = height s y) /\ (forall y, keyof s' y = keyof s y).

Lemma same_shape_refl s : same_shape s s.
Proof. by split_and!. Qed.

Lemma same_shape_trans s1 s2 s3 : same_shape s1 s2 -> same_shape s2 s3 -> same_shape s1 s3.
Proof.
  intros (H1 & H2 & H3 & H4 & H5) (G1 & G2 & G3 & G4 & G5).
  split_and!; congruence.
Qed.

Lemma Next_is_Some s y l : (l < height s y)%nat -> is_Some (Next s y l).
Proof.
  unfold height, Next. destruct (nodes s !! y) as [node|]; simpl; [|lia].
  apply lookup_lt_is_Some_2.
Qed.

Lemma SetNext_spec s x n v :
  (n < height s x)%nat ->
  exists s', SetNext s x n v = Some s' /\ same_shape s s' /\
    Next s' x n = Some v /\
    (forall y l, (y <> x \/ l <> n) -> Next s' y l = Next s y l).
Proof.
  unfold height, SetNext, Next.
  destruct (nodes s !! x) as [node|] eqn:Hnode; simpl; [|lia].
  intros Hn. rewrite decide_True by done.
  assert (Hx : (x < length (nodes s))%nat) by (by apply lookup_lt_Some in Hnode).
  eexists. split; [done|]. unfold same_shape, height, keyof. simpl. split_and!.
  - by rewrite length_insert.
  - done.
  - done.
  - intros y. destruct (decide (y = x)) as [->|Hne].
    + rewrite list_lookup_insert_eq by done. rewrite Hnode. simpl.
      by rewrite length_insert.
    + by rewrite list_lookup_insert_ne.
  - intros y. destruct (decide (y = x)) as [->|Hne].
    + rewrite list_lookup_insert_eq by done. by rewrite Hnode.
    + by rewrite list_lookup_insert_ne.
  - rewrite list_lookup_insert_eq by done. simpl. by rewrite list_lookup_insert_eq.
  - intros y l Hyl. destruct (decide (y = x)) as [->|Hne].
    + rewrite list_lookup_insert_eq by done. rewrite Hnode. simpl.
      apply list_lookup_insert_ne. destruct Hyl; [done|lia].
    + by rewrite list_lookup_insert_ne.
Qed.

Lemma link_loop_spec x prev : forall n i s,
  (forall l, (i <= l < i + n)%nat ->
     exists p, prev !! l = Some (Some p) /\ p <> x /\ (l < height s p)%nat) ->
  (i + n <= height s x)%nat ->
  exists s', link_loop n i s x prev = Some s' /\ same_shape s s' /\
    (forall y l, ~ (i <= l < i + n)%nat -> Next s' y l = Next s y l) /\
    (forall l p, (i <= l < i + n)%nat -> prev !! l = Some (Some p) ->
       Next s' x l = Next s p l /\ Next s' p l = Some (Some x) /\
       (forall y, y <> x -> y <> p -> Next s' y l = Next s y l)).
Proof.
  induction n as [|n IH]; intros i s Hprev Hx.
  - exists s. split_and!; [done|apply same_shape_refl|done|]. intros l p Hl. lia.
  - simpl. destruct (Hprev i ltac:(lia)) as (p & Hp & Hpx & Hph).
    rewrite Hp. simpl.
    destruct (Next_is_Some s p i Hph) as [nx Hnx]. rewrite Hnx. simpl.
    destruct (SetNext_spec s x i nx ltac:(lia)) as (sa & Hsa & Hshape_a & Hxa & Hothers_a).
    rewrite Hsa. simpl.
    destruct Hshape_a as (Ha1 & Ha2 & Ha3 & Ha4 & Ha5).
    destruct (SetNext_spec sa p i (Some x) ltac:(by rewrite Ha4))
      as (sb & Hsb & Hshape_b & Hpb & Hothers_b).
    rewrite Hsb. simpl.
    destruct Hshape_b as (Hb1 & Hb2 & Hb3 & Hb4 & Hb5).
    destruct (IH (S i) sb) as (s' & Hs' & Hshape & Hout & Hin).
    + intros l Hl. destruct (Hprev l ltac:(lia)) as (q & Hq & Hqx & Hqh).
      exists q. split_and!; [done|done|]. by rewrite Hb4, Ha4.
    + rewrite Hb4, Ha4. lia.
    + exists s'. split_and!.
      * done.
      * apply (same_shape_trans s sb s'); [|done].
        apply (same_shape_trans s sa sb); by split_and!.
      * intros y l Hl. rewrite Hout by lia.
        rewrite Hothers_b by (right; lia). apply Hothers_a. right. lia.
      * intros l q Hl Hq. destruct (decide (l = i)) as [->|Hne].
        -- assert (q = p) as -> by congruence.
           rewrite !Hout by lia. split_and!.
           ++ rewrite Hothers_b by (by left). by rewrite Hxa.
           ++ done.
           ++ intros y Hy1 Hy2. rewrite Hout by lia. rewrite Hothers_b by (by left).
              apply Hothers_a. by left.
        -- destruct (Hin l q ltac:(lia) Hq) as (H1 & H2 & H3). split_and!.
           ++ rewrite H1. rewrite Hothers_b by (right; lia). apply Hothers_a.
              right. lia.
           ++ done.
           ++ intros y Hy1 Hy2. rewrite H3 by done.
              rewrite Hothers_b by (right; lia). apply Hothers_a. right. lia.
Qed.

Lemma RandomHeight_loop_bound fuel : forall rnd h,
  (1 <= h <= kMaxHeight)%nat ->
  (1 <= (RandomHeight_loop fuel rnd h).1 <= kMaxHeight)%nat.
Proof.
  induction fuel as [|fuel IH]; intros rnd h Hh; [done|].
  simpl. destruct (Nat.ltb_spec h kMaxHeight) as [Hlt|Hge]; [|done].
  destruct (Random_Next rnd) as [v rnd'].
  destruct (v mod kBranching =? 0); [|done]. apply IH. lia.
Qed.

Lemma RandomHeight_bound s :
  (1 <= (RandomHeight s).1 <= kMaxHeight)%nat.
Proof. apply RandomHeight_loop_bound. unfold kMaxHeight. lia. Qed.

(** The first loop of [Insert]. *)
Lemma fill_prev_lookup n : forall a (p : list (option nat)) l,
  foldl (fun p i => <[i := Some head_]> p) p (seq a n) !! l =
  if decide ((a <= l < a + n)%nat /\ (l < length p)%nat) then Some (Some head_) else p !! l.
Proof.
  induction n as [|n IH]; intros a p l.
  - simpl. rewrite decide_False by lia. done.
  - simpl. rewrite IH. rewrite length_insert.
    destruct (decide (l = a)) as [->|Hne].
    + rewrite decide_False by lia.
      destruct (decide (a < length p)%nat).
      * rewrite decide_True by lia. by apply list_lookup_insert_eq.
      * rewrite decide_False by lia. rewrite list_insert_ge by lia. done.
    + rewrite list_lookup_insert_ne by done.
      destruct (decide ((S a <= l < S a + n)%nat /\ (l < length p)%nat)).
      * by rewrite decide_True by lia.
      * by rewrite decide_False by lia.
Qed.

Lemma lastof_app A K : K <> [] -> lastof (A ++ K) = lastof K.
Proof.
  intros HK. apply last_is_Some in HK as [y Hy]. unfold lastof.
  by rewrite last_app, Hy.
Qed.

Lemma tall_nil_elem s l b z : tall s l b = [] -> z ∈ b -> ~ (l < height s z)%nat.
Proof.
  intros Hb Hz Hl. revert Hz.
  apply (filter_nil_not_elem_of (fun y => (l < height s y)%nat)); done.
Qed.

(** At most one prefix of [lo] ends with a node that has a link at
    level [l] and is followed by none. *)
Lemma prev_unique s lo l A K a b :
  lo = A ++ K -> lo = a ++ b -> tall s l K = [] -> tall s l b = [] ->
  (l < height s (lastof A))%nat -> (l < height s (lastof a))%nat -> A = a.
Proof.
  intros HA Ha HK Hb HlA Hla. rewrite HA in Ha.
  apply app_eq_inv in Ha as [(K' & H1 & H2)|(K' & H1 & H2)].
  - destruct (decide (K' = [])) as [->|Hne]; [by rewrite app_nil_r in H1|].
    exfalso. apply (tall_nil_elem s l b (lastof A)); [done| |done].
    rewrite H2, H1, lastof_app by done. apply elem_of_app. left. by apply lastof_elem.
  - destruct (decide (K' = [])) as [->|Hne]; [by rewrite app_nil_r in H1|].
    exfalso. apply (tall_nil_elem s l K (lastof a)); [done| |done].
    rewrite H2, H1, lastof_app by done. apply elem_of_app. left. by apply lastof_elem.
Qed.

Lemma lastof_lt s order A B :
  wf s order -> order = A ++ B -> (lastof A < length (nodes s))%nat.
Proof.
  intros Hwf Horder. destruct (decide (A = [])) as [->|Hne].
  - unfold lastof, head_. simpl. pose proof (wf_head _ _ Hwf) as Hh.
    unfold height in Hh. destruct (nodes s !! head_) eqn:E; [|done].
    by apply lookup_lt_Some in E.
  - assert (Hin : lastof A ∈ order).
    { rewrite Horder. apply elem_of_app. left. by apply lastof_elem. }
    apply (wf_elem s order) in Hin; [lia|done].
Qed.

Lemma StronglySorted_ext_in {A} (R R' : A -> A -> Prop) (L : list A) :
  (forall a b, a ∈ L -> b ∈ L -> R a b -> R' a b) ->
  StronglySorted R L -> StronglySorted R' L.
Proof.
  induction L as [|x L IH]; intros HR Hs; [constructor|].
  apply StronglySorted_cons in Hs as [Hx Hs]. apply StronglySorted_cons. split.
  - rewrite Forall_forall in *. intros y Hy. apply HR; [by left|by right|by apply Hx].
  - apply IH; [|done]. intros a b Ha Hb. apply HR; by right.
Qed.

(** The list once a node of height [h] and key [k] has been allocated
    ([s1]) and linked after the nodes [lo] at each of its levels
    ([s2]). *)
Lemma linked_wf s order lo hi k h s1 s2 :
  wf s order -> order = lo ++ hi ->
  (forall y, y ∈ lo -> compare_ (keyof s y) k < 0) ->
  (forall y, y ∈ hi -> compare_ k (keyof s y) < 0) ->
  (1 <= h <= kMaxHeight)%nat ->
  nodes s1 = nodes s ++ [NewNode k h] ->
  max_height_ s1 = (if (max_height_ s <? h)%nat then h else max_height_ s) ->
  same_shape s1 s2 ->
  (forall y l, ~ (l < h)%nat -> Next s2 y l = Next s1 y l) ->
  (forall l, (l < h)%nat -> exists a b,
     lo = a ++ b /\ tall s l b = [] /\ (l < height s (lastof a))%nat /\
     Next s2 (length (nodes s)) l = Next s1 (lastof a) l /\
     Next s2 (lastof a) l = Some (Some (length (nodes s))) /\
     (forall y, y <> length (nodes s) -> y <> lastof a -> Next s2 y l = Next s1 y l)) ->
  wf s2 (lo ++ length (nodes s) :: hi).
Proof.
  intros Hwf Horder Hlo Hhi Hh Hnodes Hmax (Hs1 & Hs2 & Hs3 & Hs4 & Hs5) Hout Hin.
  set (x := length (nodes s)) in *.
  assert (Hold : forall y, (y < x)%nat -> nodes s1 !! y = nodes s !! y).
  { intros y Hy. rewrite Hnodes. by apply lookup_app_l. }
  assert (Hnew : nodes s1 !! x = Some (NewNode k h)).
  { rewrite Hnodes. rewrite lookup_app_r by done. by rewrite Nat.sub_diag. }
  assert (Hheight : forall y, (y < x)%nat -> height s2 y = height s y).
  { intros y Hy. rewrite Hs4. unfold height. by rewrite Hold. }
  assert (Hkeyof : forall y, (y < x)%nat -> keyof s2 y = keyof s y).
  { intros y Hy. rewrite Hs5. unfold keyof. by rewrite Hold. }
  assert (Hnext : forall y l, (y < x)%nat -> Next s1 y l = Next s y l).
  { intros y l Hy. unfold Next. by rewrite Hold. }
  assert (Hhx : height s2 x = h).
  { rewrite Hs4. unfold height. rewrite Hnew. simpl. by rewrite length_replicate. }
  assert (Hkx : keyof s2 x = k).
  { rewrite Hs5. unfold keyof. by rewrite Hnew. }
  assert (Hlt : forall y, y ∈ order -> (y < x)%nat).
  { intros y Hy. apply (wf_elem s order) in Hy; [lia|done]. }
  assert (Hlen1 : length (nodes s1) = S x).
  { rewrite Hnodes, length_app. simpl. lia. }
  assert (Htall : forall l B, (forall y, y ∈ B -> y ∈ order) -> tall s2 l B = tall s l B).
  { intros l B HB. unfold tall. apply filter_ext_in. intros y Hy.
    rewrite Hheight; [done|]. apply Hlt. by apply HB. }
  assert (Hlo_in : forall y, y ∈ lo -> y ∈ order).
  { intros y Hy. rewrite Horder. apply elem_of_app. by left. }
  assert (Hhi_in : forall y, y ∈ hi -> y ∈ order).
  { intros y Hy. rewrite Horder. apply elem_of_app. by right. }
  pose proof (wf_max _ _ Hwf) as Hmx.
  assert (Hmax2 : (max_height_ s <= max_height_ s2 /\ h <= max_height_ s2 /\
                   max_height_ s2 <= kMaxHeight)%nat).
  { rewrite Hs2, Hmax. destruct (Nat.ltb_spec (max_height_ s) h); lia. }
  pose proof (wf_nodup _ _ Hwf) as Hnd.
  split.
  - rewrite Hheight by (unfold x; pose proof (lastof_lt s order [] order Hwf eq_refl); done).
    apply (wf_head _ _ Hwf).
  - lia.
  - rewrite Hs1, Hlen1. replace (S x - 1)%nat with (S (x - 1)) by
      (pose proof (lastof_lt s order [] order Hwf eq_refl); unfold x; lia).
    pose proof (wf_nodes _ _ Hwf) as Hperm. fold x in Hperm.
    rewrite seq_S. rewrite <- Hperm, Horder.
    replace (1 + (x - 1))%nat with x by
      (pose proof (lastof_lt s order [] order Hwf eq_refl); unfold x; lia).
    rewrite <- app_assoc. apply Permutation_app_head.
    apply Permutation_cons_append.
  - intros y Hy. apply elem_of_app in Hy as [Hy|Hy].
    + rewrite Hheight by (by apply Hlt, Hlo_in).
      pose proof (wf_height _ _ Hwf y (Hlo_in y Hy)). lia.
    + apply elem_of_cons in Hy as [->|Hy]; [rewrite Hhx; lia|].
      rewrite Hheight by (by apply Hlt, Hhi_in).
      pose proof (wf_height _ _ Hwf y (Hhi_in y Hy)). lia.
  - pose proof (wf_sorted _ _ Hwf) as Hsorted. rewrite Horder in Hsorted.
    apply StronglySorted_app in Hsorted as (Hcross & Hslo & Hshi).
    apply StronglySorted_app. split_and!.
    + intros a b Ha Hb. rewrite (Hkeyof a) by (by apply Hlt, Hlo_in).
      apply elem_of_cons in Hb as [->|Hb].
      * rewrite Hkx. by apply Hlo.
      * rewrite (Hkeyof b) by (by apply Hlt, Hhi_in). by apply Hcross.
    + apply (StronglySorted_ext_in (fun a b => compare_ (keyof s a) (keyof s b) < 0));
        [|done].
      intros a b Ha Hb. rewrite !Hkeyof by (by apply Hlt, Hlo_in). done.
    + apply StronglySorted_cons. split.
      * rewrite Forall_forall. intros y Hy. rewrite Hkx.
        rewrite Hkeyof by (by apply Hlt, Hhi_in). by apply Hhi.
      * apply (StronglySorted_ext_in (fun a b => compare_ (keyof s a) (keyof s b) < 0));
          [|done].
        intros a b Ha Hb. rewrite !Hkeyof by (by apply Hlt, Hhi_in). done.
  - intros A B l Hsplit Hl.
    assert (Hcases : (exists K, lo = A ++ K /\ B = K ++ x :: hi) \/
                     (exists K, A = lo ++ x :: K /\ hi = K ++ B)).
    { apply app_eq_inv in Hsplit as [(K & H1 & H2)|(K & H1 & H2)].
      - left. by exists K.
      - destruct K as [|z K].
        + left. exists []. rewrite app_nil_r in H1. by rewrite app_nil_r.
        + injection H2 as <- H2. right. by exists K. }
    destruct Hcases as [(K & HloK & HB)|(K & HA & HhiK)].
    + (* the node is [head_] or one of [lo] *)
      assert (HyA : (lastof A < x)%nat).
      { apply (lastof_lt s order A (K ++ hi) Hwf).
        by rewrite Horder, HloK, <- app_assoc. }
      assert (HK_in : forall y, y ∈ K -> y ∈ order).
      { intros y Hy. apply Hlo_in. rewrite HloK. apply elem_of_app. by right. }
      rewrite Hheight in Hl by done.
      assert (Hold_link : Next s (lastof A) l = Some (head (tall s l (K ++ hi)))).
      { apply (wf_links _ _ Hwf); [|done]. by rewrite Horder, HloK, <- app_assoc. }
      rewrite HB. unfold tall at 1. rewrite filter_app.
      fold (tall s2 l K) (tall s2 l (x :: hi)). rewrite (Htall l K HK_in).
      unfold tall in Hold_link at 1. rewrite filter_app in Hold_link.
      fold (tall s l K) (tall s l hi) in Hold_link.
      destruct (decide (l < h)%nat) as [Hlh|Hlh].
      * destruct (Hin l Hlh) as (a & b & Hab & Hb & Hla & Hx1 & Hx2 & Hx3).
        destruct (tall s l K) as [|z r] eqn:HtK.
        -- assert (A = a) as -> by (by apply (prev_unique s lo l A K a b)).
           rewrite Hx2. simpl. unfold tall. rewrite filter_cons, decide_True by lia.
           done.
        -- assert (Hne : lastof A <> lastof a).
           { intros Heq.
             assert (A = a) as ->.
             { apply (prefix_by_last lo A K a b); try done.
               apply NoDup_cons in Hnd as [Hh0 Hnd]. rewrite Horder in Hh0, Hnd.
               apply NoDup_cons. split.
               - intros Hc. apply Hh0. apply elem_of_app. by left.
               - by apply NoDup_app in Hnd as (Hnd & _). }
             assert (K = b) as -> by (rewrite HloK in Hab; by apply app_inv_head in Hab).
             congruence. }
           rewrite Hx3 by (done || lia). rewrite Hnext by done. rewrite Hold_link. done.
      * rewrite Hout by done. rewrite Hnext by done. rewrite Hold_link.
        f_equal. f_equal. f_equal. unfold tall at 2.
        rewrite filter_cons, decide_False by lia.
        fold (tall s2 l hi). by rewrite (Htall l hi Hhi_in).
    + (* the node is the new one or one of [hi] *)
      assert (HB_in : forall y, y ∈ B -> y ∈ order).
      { intros y Hy. apply Hhi_in. rewrite HhiK. apply elem_of_app. by right. }
      rewrite (Htall l B HB_in).
      destruct (decide (K = [])) as [->|HKne].
      * rewrite HA in *. rewrite lastof_snoc in *. simpl in HhiK. subst B.
        rewrite Hhx in Hl. destruct (Hin l Hl) as (a & b & Hab & Hb & Hla & Hx1 & Hx2 & Hx3).
        rewrite Hx1. rewrite Hnext.
        -- rewrite (wf_links _ _ Hwf a (b ++ hi) l); [|by rewrite Horder, Hab, <- app_assoc|done].
           unfold tall at 1. rewrite filter_app. fold (tall s l b) (tall s l hi).
           by rewrite Hb.
        -- apply (lastof_lt s order a (b ++ hi) Hwf). by rewrite Horder, Hab, <- app_assoc.
      * assert (HlastA : lastof A = lastof K).
        { rewrite HA. rewrite (lastof_app lo (x :: K)) by done.
          change (x :: K) with ([x] ++ K). by apply lastof_app. }
        assert (HlastK : lastof K ∈ hi).
        { rewrite HhiK. apply elem_of_app. left. by apply lastof_elem. }
        rewrite HlastA in *.
        assert (Hyx : (lastof K < x)%nat) by (by apply Hlt, Hhi_in).
        rewrite Hheight in Hl by done.
        assert (Hold_link : Next s (lastof K) l = Some (head (tall s l B))).
        { rewrite <- (lastof_app lo K) by done. apply (wf_links _ _ Hwf).
          - by rewrite Horder, HhiK, app_assoc.
          - by rewrite lastof_app. }
        destruct (decide (l < h)%nat) as [Hlh|Hlh].
        -- destruct (Hin l Hlh) as (a & b & Hab & Hb & Hla & Hx1 & Hx2 & Hx3).
           rewrite Hx3; [by rewrite Hnext| lia |].
           intros Heq. apply NoDup_cons in Hnd as [Hh0 Hnd]. rewrite Horder in Hh0, Hnd.
           destruct (decide (a = [])) as [->|Hane].
           ++ apply Hh0. apply elem_of_app. right.
              change head_ with (lastof []). by rewrite <- Heq.
           ++ apply NoDup_app in Hnd as (_ & Hdisj & _).
              apply (Hdisj (lastof a)); [|by rewrite <- Heq].
              rewrite Hab. apply elem_of_app. left. by apply lastof_elem.
        -- rewrite Hout by done. by rewrite Hnext.
Qed.

(** [Insert] of a key that is not in the list returns, and puts the
    new node between the nodes with smaller keys and those with larger
    ones. *)
Lemma Insert_wf s order k lo hi :
  wf s order -> order = lo ++ hi ->
  (forall y, y ∈ lo -> compare_ (keyof s y) k < 0) ->
  (forall y, y ∈ hi -> compare_ k (keyof s y) < 0) ->
  exists s', Insert s k = Some s' /\
    wf s' (lo ++ length (nodes s) :: hi) /\
    keyof s' (length (nodes s)) = k /\
    (forall y, (y < length (nodes s))%nat -> keyof s' y = keyof s y).
Proof.
  intros Hwf Horder Hlo Hhi.
  pose proof (wf_max _ _ Hwf) as Hmx.
  assert (Hhi' : forall y, y ∈ hi -> 0 <= compare_ (keyof s y) k).
  { intros y Hy. apply Hhi in Hy.
    apply (Comparators.cmp_sign _ compare_ok) in Hy. lia. }
  assert (Hlo_in : forall y, y ∈ lo -> y ∈ order).
  { intros y Hy. rewrite Horder. apply elem_of_app. by left. }
  assert (Hhi_in : forall y, y ∈ hi -> y ∈ order).
  { intros y Hy. rewrite Horder. apply elem_of_app. by right. }
  unfold Insert, FindGreaterOrEqual. rewrite FindGreaterOrEqual_loop_walk.
  destruct (walk_from_head s order (KeyIsAfterNode s k) lo hi (replicate kMaxHeight None)
              Hwf Horder) as (p' & Hw & Hlen & Hhigh & Hlow).
  { intros y Hy. apply (KeyIsAfterNode_lo s order); auto. }
  { intros y Hy. apply (KeyIsAfterNode_hi s order); auto. }
  { done. }
  rewrite Hw. simpl. rewrite length_replicate in Hlen.
  pose proof (RandomHeight_bound s) as Hh.
  destruct (RandomHeight s) as [h rnd]. simpl in Hh.
  set (prev := if (GetMaxHeight s <? h)%nat
               then foldl (fun p i => <[i := Some head_]> p) p'
                      (seq (GetMaxHeight s) (h - GetMaxHeight s))
               else p').
  set (s1 := {| nodes := nodes s ++ [NewNode k h];
                max_height_ := if (GetMaxHeight s <? h)%nat then h else max_height_ s;
                rnd_ := rnd |}).
  assert (Heq : (let '(prev0, max_height) :=
                   if (GetMaxHeight s <? h)%nat
                   then (foldl (fun p i => <[i := Some head_]> p) p'
                           (seq (GetMaxHeight s) (h - GetMaxHeight s)), h)
                   else (p', max_height_ s) in
                 link_loop h 0
                   {| nodes := nodes s ++ [NewNode k h]; max_height_ := max_height;
                      rnd_ := rnd |} (length (nodes s)) prev0) =
                link_loop h 0 s1 (length (nodes s)) prev).
  { unfold prev, s1. by destruct (GetMaxHeight s <? h)%nat. }
  rewrite Heq. clear Heq.
  assert (Hprev : forall l, (l < h)%nat -> exists a b,
            lo = a ++ b /\ prev !! l = Some (Some (lastof a)) /\ tall s l b = [] /\
            (l < height s (lastof a))%nat).
  { intros l Hl. unfold prev, GetMaxHeight in *.
    destruct (Nat.ltb_spec (max_height_ s) h) as [Hlt|Hge].
    - rewrite fill_prev_lookup. destruct (decide (max_height_ s <= l)%nat) as [Hml|Hml].
      + rewrite decide_True by (unfold kMaxHeight in *; lia).
        exists [], lo. split_and!; try done.
        * apply filter_none. intros y Hy.
          pose proof (wf_height _ _ Hwf y (Hlo_in y Hy)). lia.
        * change (lastof []) with head_. rewrite (wf_head _ _ Hwf). lia.
      + rewrite decide_False by lia.
        destruct (Hlow l ltac:(lia) ltac:(rewrite length_replicate; lia))
          as (a & b & H1 & H2 & H3 & H4).
        exists a, b. done.
    - destruct (Hlow l ltac:(lia) ltac:(rewrite length_replicate; lia))
        as (a & b & H1 & H2 & H3 & H4).
      exists a, b. done. }
  assert (Hold : forall y, (y < length (nodes s))%nat -> nodes s1 !! y = nodes s !! y).
  { intros y Hy. unfold s1. simpl. by apply lookup_app_l. }
  assert (Hnew : nodes s1 !! length (nodes s) = Some (NewNode k h)).
  { unfold s1. simpl. rewrite lookup_app_r by done. by rewrite Nat.sub_diag. }
  destruct (link_loop_spec (length (nodes s)) prev h 0 s1) as (s2 & Hs2 & Hshape & Hout & Hin).
  { intros l Hl. destruct (Hprev l ltac:(lia)) as (a & b & H1 & H2 & H3 & H4).
    assert (Hlt : (lastof a < length (nodes s))%nat).
    { apply (lastof_lt s order a (b ++ hi) Hwf). by rewrite Horder, H1, <- app_assoc. }
    exists (lastof a). split_and!; [done|lia|].
    unfold height. rewrite Hold by done. done. }
  { unfold height. rewrite Hnew. simpl. rewrite length_replicate. lia. }
  exists s2. split; [done|].
  assert (Hwf2 : wf s2 (lo ++ length (nodes s) :: hi)).
  { apply (linked_wf s order lo hi k h s1 s2); try done.
    - intros y l Hl. apply Hout. lia.
    - intros l Hl. destruct (Hprev l Hl) as (a & b & H1 & H2 & H3 & H4).
      destruct (Hin l (lastof a) ltac:(lia) H2) as (G1 & G2 & G3).
      exists a, b. done. }
  split; [done|].
  destruct Hshape as (_ & _ & _ & _ & Hkeys). split.
  - rewrite Hkeys. unfold keyof. by rewrite Hnew.
  - intros y Hy. rewrite Hkeys. unfold keyof. by rewrite Hold.
Qed.

Lemma new_wf : wf new [].
Proof.
  split.
  - done.
  - simpl. unfold kMaxHeight. lia.
  - done.
  - intros x Hx. by apply elem_of_nil in Hx.
  - constructor.
  - intros A B l HAB. destruct A; [|done]. destruct B; [|done].
    change (lastof []) with head_. unfold height, Next. simpl.
    intros Hl. do 12 (destruct l as [|l]; [done|]). lia.
Qed.

(** Keys no two of which compare equal. *)
Fixpoint pairwise_distinct (keys : list Key) : Prop :=
  match keys with
  | [] => True
  | k :: keys' => Forall (fun k' => compare_ k k' <> 0) keys' /\ pairwise_distinct keys'
  end.

Lemma Insert_InsertAll k keys s : InsertAll (k :: keys) s = s' ← Insert s k; InsertAll keys s'.
Proof.
  unfold InsertAll. simpl. destruct (Insert s k) as [s'|]; [done|].
  simpl. induction keys as [|k' keys IH]; [done|]. simpl. apply IH.
Qed.

Lemma InsertAll_wf keys : forall s order,
  wf s order -> pairwise_distinct keys ->
  (forall y k, y ∈ order -> k ∈ keys -> compare_ (keyof s y) k <> 0) ->
  exists s' order', InsertAll keys s = Some s' /\ wf s' order' /\
    keyof s' <$> order' ≡ₚ (keyof s <$> order) ++ keys.
Proof.
  induction keys as [|k keys IH]; intros s order Hwf Hdist Hfresh.
  - exists s, order. split_and!; [done|done|]. by rewrite app_nil_r.
  - destruct Hdist as [Hk Hdist].
    destruct (split_at_key s order k (wf_sorted _ _ Hwf)) as (lo & hi & Horder & Hlo & Hhi).
    destruct (Insert_wf s order k lo hi Hwf Horder Hlo) as (s1 & Hs1 & Hwf1 & Hkx & Hkold).
    { intros y Hy. apply compare_gt; [by apply Hhi|].
      apply Hfresh; [|by left]. rewrite Horder. apply elem_of_app. by right. }
    assert (Hlt : forall y, y ∈ order -> (y < length (nodes s))%nat).
    { intros y Hy. apply (wf_elem s order) in Hy; [lia|done]. }
    destruct (IH s1 (lo ++ length (nodes s) :: hi) Hwf1 Hdist) as (s' & order' & Hs' & Hwf' & Hperm).
    { intros y k' Hy Hk'. rewrite Horder in Hlt.
      apply elem_of_app in Hy as [Hy|Hy]; [|apply elem_of_cons in Hy as [->|Hy]].
      - rewrite Hkold by (apply Hlt, elem_of_app; by left).
        apply Hfresh; [|by right]. rewrite Horder. apply elem_of_app. by left.
      - rewrite Hkx. rewrite Forall_forall in Hk. by apply Hk.
      - rewrite Hkold by (apply Hlt, elem_of_app; by right).
        apply Hfresh; [|by right]. rewrite Horder. apply elem_of_app. by right. }
    exists s', order'. rewrite Insert_InsertAll, Hs1. simpl. split_and!; [done|done|].
    rewrite Hperm. rewrite Horder, !fmap_app, fmap_cons, Hkx.
    rewrite (list_fmap_ext (keyof s1) (keyof s) lo).
    2:{ intros j y Hy. apply Hkold, Hlt. rewrite Horder. apply elem_of_app. left.
        by apply list_elem_of_lookup_2 in Hy. }
    rewrite (list_fmap_ext (keyof s1) (keyof s) hi).
    2:{ intros j y Hy. apply Hkold, Hlt. rewrite Horder. apply elem_of_app. right.
        by apply list_elem_of_lookup_2 in Hy. }
    rewrite <- !app_assoc. apply Permutation_app_head. simpl.
    rewrite (Permutation_middle (keyof s <$> hi) keys k). done.
Qed.

(** *** The iterator *)

Lemma tall_0 s order B :
  wf s order -> (forall y, y ∈ B -> y ∈ order) -> tall s 0 B = B.
Proof.
  intros Hwf HB. apply filter_all. intros y Hy.
  pose proof (wf_height _ _ Hwf y (HB y Hy)). lia.
Qed.

Lemma SeekToFirst_spec s order :
  wf s order -> SeekToFirst s = Some {| node_ := head order |}.
Proof.
  intros Hwf. unfold SeekToFirst.
  pose proof (wf_links _ _ Hwf [] order 0 eq_refl) as Hl.
  change (lastof []) with head_ in Hl. rewrite Hl.
  - simpl. by rewrite (tall_0 s order).
  - rewrite (wf_head _ _ Hwf). unfold kMaxHeight. lia.
Qed.

Lemma Iterator_Next_spec s order A y B :
  wf s order -> order = A ++ y :: B ->
  Iterator_Next s {| node_ := Some y |} = Some {| node_ := head B |}.
Proof.
  intros Hwf Horder. unfold Iterator_Next. simpl.
  assert (Hy : y ∈ order) by (rewrite Horder; apply elem_of_app; right; by left).
  pose proof (wf_links _ _ Hwf (A ++ [y]) B 0) as Hl. rewrite lastof_snoc in Hl.
  rewrite Hl.
  - simpl. rewrite (tall_0 s order); [done|done|].
    intros z Hz. rewrite Horder. apply elem_of_app. right. by right.
  - by rewrite Horder, <- app_assoc.
  - pose proof (wf_height _ _ Hwf y Hy). lia.
Qed.

Lemma Iterator_key_spec s order y :
  wf s order -> y ∈ order -> Iterator_key s {| node_ := Some y |} = Some (keyof s y).
Proof.
  intros Hwf Hy. destruct (wf_node s order y Hwf Hy) as (node & Hnode & Hkey).
  unfold Iterator_key. simpl. rewrite Hnode. simpl. by rewrite Hkey.
Qed.

Lemma scan_spec s order : forall B A fuel,
  wf s order -> order = A ++ B -> (length B < fuel)%nat ->
  scan fuel s {| node_ := head B |} = Some (keyof s <$> B).
Proof.
  induction B as [|y B IH]; intros A fuel Hwf Horder Hfuel.
  - destruct fuel; [simpl in Hfuel; lia|done].
  - destruct fuel as [|fuel]; [lia|]. simpl.
    rewrite (Iterator_key_spec s order) by
      (done || (rewrite Horder; apply elem_of_app; right; by left)).
    simpl. rewrite (Iterator_Next_spec s order A y B) by done. simpl.
    rewrite (IH (A ++ [y]) fuel); [done|done| |simpl in Hfuel; lia].
    by rewrite <- app_assoc.
Qed.

Lemma Seek_spec s order target lo hi :
  wf s order -> order = lo ++ hi ->
  (forall y, y ∈ lo -> compare_ (keyof s y) target < 0) ->
  (forall y, y ∈ hi -> 0 <= compare_ (keyof s y) target) ->
  Seek s target = Some {| node_ := head hi |}.
Proof.
  intros Hwf Horder Hlo Hhi. unfold Seek.
  by rewrite (FindGreaterOrEqual_spec s order target lo hi).
Qed.

Lemma Iterator_Prev_spec s order A y B it :
  wf s order -> order = A ++ y :: B -> Iterator_key s it = Some (keyof s y) ->
  Iterator_Prev s it = Some {| node_ := last A |}.
Proof.
  intros Hwf Horder Hit. unfold Iterator_Prev. unfold Iterator_key in Hit.
  destruct (node_ it) as [n|]; [|done]. simpl in *.
  destruct (nodes s !! n) as [node|]; [|done]. simpl in *. injection Hit as ->.
  pose proof (wf_sorted _ _ Hwf) as Hsorted. rewrite Horder in Hsorted.
  apply StronglySorted_app in Hsorted as (Hcross & _ & Hs).
  apply StronglySorted_cons in Hs as [HyB _]. rewrite Forall_forall in HyB.
  rewrite (FindLessThan_spec s order (keyof s y) A (y :: B)); try done.
  - simpl. f_equal. f_equal. destruct (decide (A = [])) as [->|Hne]; [done|].
    assert (Hin : lastof A ∈ order).
    { rewrite Horder. apply elem_of_app. left. by apply lastof_elem. }
    apply (wf_elem s order) in Hin; [|done].
    destruct (Nat.eqb_spec (lastof A) head_) as [Heq|_]; [unfold head_ in Heq; lia|].
    unfold lastof. apply last_is_Some in Hne as [z Hz]. by rewrite Hz.
  - intros z Hz. apply Hcross; [done|by left].
  - intros z Hz. apply elem_of_cons in Hz as [->|Hz]; [by rewrite compare_refl|].
    specialize (HyB z Hz). apply (Comparators.cmp_sign _ compare_ok) in HyB. lia.
Qed.

(** C8: for keys no two of which compare equal under a comparator
    that is a total preorder, and any random source, inserting them
    into a new list succeeds; iterating from [SeekToFirst] with [Next]
    visits exactly the inserted keys, each once, in strictly ascending
    order; [Seek(target)] lands on the first key that is not before
    [target], with the keys from there on still to be visited; and
    [Prev] from a key lands on the key just before it in the order,
    the greatest that is less, or leaves the iterator invalid when
    there is none. *)
Theorem iteration_sorted (keys : list Key) :
  pairwise_distinct keys ->
  exists s sorted,
    InsertAll keys new = Some s /\
    sorted ≡ₚ keys /\
    StronglySorted (fun a b => compare_ a b < 0) sorted /\
    (it ← SeekToFirst s; scan (length (nodes s)) s it) = Some sorted /\
    (forall target, exists lo hi it,
       sorted = lo ++ hi /\
       Forall (fun k => compare_ k target < 0) lo /\
       Forall (fun k => 0 <= compare_ k target) hi /\
       Seek s target = Some it /\ Iterator_key s it = head hi /\
       (hi = [] -> Valid it = false) /\
       scan (length (nodes s)) s it = Some hi) /\
    (forall A k B it, sorted = A ++ k :: B -> Iterator_key s it = Some k ->
       exists it', Iterator_Prev s it = Some it' /\ Iterator_key s it' = last A /\
                   (A = [] -> Valid it' = false)).
Proof.
  intros Hdist.
  destruct (InsertAll_wf keys new [] new_wf Hdist) as (s & order & Hs & Hwf & Hperm).
  { intros y k Hy. by apply elem_of_nil in Hy. }
  simpl in Hperm.
  assert (Hnodes : (length order < length (nodes s))%nat).
  { rewrite (wf_length _ _ Hwf). pose proof (lastof_lt s order [] order Hwf eq_refl). lia. }
  exists s, (keyof s <$> order). split_and!; try done.
  - apply (StronglySorted_fmap _ (fun a b => compare_ (keyof s a) (keyof s b) < 0));
      [done|apply (wf_sorted _ _ Hwf)].
  - rewrite (SeekToFirst_spec s order Hwf). simpl.
    by apply (scan_spec s order order []).
  - intros target.
    destruct (split_at_key s order target (wf_sorted _ _ Hwf)) as (lo & hi & Horder & Hlo & Hhi).
    exists (keyof s <$> lo), (keyof s <$> hi), {| node_ := head hi |}. split_and!.
    + by rewrite Horder, fmap_app.
    + rewrite Forall_fmap, Forall_forall. intros y Hy. by apply Hlo.
    + rewrite Forall_fmap, Forall_forall. intros y Hy. by apply Hhi.
    + by apply (Seek_spec s order target lo hi).
    + destruct hi as [|y hi]; [done|]. simpl.
      apply (Iterator_key_spec s order); [done|].
      rewrite Horder. apply elem_of_app. right. by left.
    + intros Hnil. apply fmap_nil_inv in Hnil. by subst hi.
    + apply (scan_spec s order hi lo); [done|done|].
      rewrite Horder, length_app in Hnodes. lia.
  - intros A k B it Hsplit Hit.
    apply fmap_app_inv in Hsplit as (A' & B' & -> & HB & Horder).
    symmetry in HB. apply fmap_cons_inv in HB as (y & B'' & -> & -> & ->).
    exists {| node_ := last A' |}. split_and!.
    + by apply (Iterator_Prev_spec s order A' y B'').
    + rewrite fmap_last. destruct (last A') as [z|] eqn:Hz; [|done]. simpl.
      apply (Iterator_key_spec s order); [done|].
      rewrite Horder. apply elem_of_app. left. by apply last_Some_elem_of.
    + intros Hnil. apply fmap_nil_inv in Hnil. by subst A'.
Qed.

(** *** Membership, backward iteration and iterators across inserts *)

(** The keys an iterator visits from its position by [Prev] until it
    is no longer valid. *)
Fixpoint scan_back (fuel : nat) (s : SkipList) (it : Iterator) : option (list Key) :=
  match fuel with
  | O => None
  | S fuel' =>
      if Valid it then
        k ← Iterator_key s it;
        it' ← Iterator_Prev s it;
        ks ← scan_back fuel' s it';
        Some (k :: ks)
      else Some []
  end.

Lemma compare_le_lt_trans a b c :
  compare_ a b <= 0 -> compare_ b c < 0 -> compare_ a c < 0.
Proof.
  intros Hab Hbc.
  pose proof (Comparators.cmp_trans _ compare_ok a b c Hab ltac:(lia)) as Hac.
  destruct (Z.eq_dec (compare_ a c) 0) as [Heq|]; [|lia].
  apply (Comparators.cmp_sign _ compare_ok a c) in Heq.
  pose proof (Comparators.cmp_trans _ compare_ok c a b ltac:(lia) Hab) as Hcb.
  apply (Comparators.cmp_sign _ compare_ok b c) in Hbc. lia.
Qed.

Lemma compare_ge_le a b : 0 <= compare_ a b -> compare_ b a <= 0.
Proof.
  intros H0. destruct (Comparators.cmp_sign _ compare_ok a b) as [H1 _]. lia.
Qed.

Lemma pairwise_distinct_snoc keys k :
  pairwise_distinct (keys ++ [k]) ->
  pairwise_distinct keys /\ Forall (fun k' => compare_ k' k <> 0) keys.
Proof.
  induction keys as [|k0 keys IH]; simpl; [done|].
  intros [Hall Hd]. apply Forall_app in Hall as [Hall Hk].
  destruct (IH Hd) as [Hd' Hk']. split_and!; try done.
  constructor; [|done]. by inversion Hk.
Qed.

Lemma SeekToLast_spec s order :
  wf s order -> SeekToLast s = Some {| node_ := last order |}.
Proof.
  intros Hwf. unfold SeekToLast. rewrite (FindLast_spec s order Hwf). simpl.
  f_equal. f_equal. destruct (decide (order = [])) as [->|Hne]; [done|].
  pose proof (lastof_elem order Hne) as Hin.
  apply (wf_elem s order) in Hin; [|done].
  destruct (Nat.eqb_spec (lastof order) head_) as [Heq|_]; [unfold head_ in Heq; lia|].
  unfold lastof. apply last_is_Some in Hne as [z Hz]. by rewrite Hz.
Qed.

Lemma scan_back_spec s order : forall A B fuel,
  wf s order -> order = A ++ B -> (length A < fuel)%nat ->
  scan_back fuel s {| node_ := last A |} = Some (keyof s <$> reverse A).
Proof.
  intros A. induction A as [|y A IH] using rev_ind; intros B fuel Hwf Horder Hfuel.
  - destruct fuel; [simpl in Hfuel; lia|done].
  - destruct fuel; [lia|]. rewrite length_app in Hfuel. simpl in Hfuel.
    rewrite <- app_assoc in Horder. simpl in Horder.
    assert (Hy : y ∈ order).
    { rewrite Horder. apply elem_of_app. right. by left. }
    rewrite last_snoc, reverse_snoc. cbn [scan_back Valid node_].
    rewrite (Iterator_key_spec s order y) by done. simpl.
    rewrite (Iterator_Prev_spec s order A y B); [|done|done|by apply (Iterator_key_spec s order)].
    simpl. rewrite (IH (y :: B) fuel); [done|done|done|lia].
Qed.

(** X4. After any keys no two of which compare equal have been
    inserted into a new list, [Contains(key)] answers true exactly
    when one of the inserted keys compares equal to [key]. *)
Theorem Contains_iff_inserted (keys : list Key) :
  pairwise_distinct keys ->
  exists s, InsertAll keys new = Some s /\
    forall k, exists b, Contains s k = Some b /\
      (b = true <-> exists k', k' ∈ keys /\ compare_ k k' = 0).
Proof.
  intros Hdist.
  destruct (InsertAll_wf keys new [] new_wf Hdist) as (s & order & Hs & Hwf & Hperm).
  { intros y k Hy. by apply elem_of_nil in Hy. }
  simpl in Hperm. exists s. split; [done|]. intros k.
  assert (Hkeys : forall k', k' ∈ keys <-> exists z, z ∈ order /\ k' = keyof s z).
  { intros k'. rewrite <- Hperm, list_elem_of_fmap.
    split; intros (z & ? & ?); by exists z. }
  destruct (split_at_key s order k (wf_sorted _ _ Hwf)) as (lo & hi & Horder & Hlo & Hhi).
  assert (Hnlo : forall z, z ∈ lo -> compare_ k (keyof s z) <> 0).
  { intros z Hz Heq. specialize (Hlo z Hz).
    apply (Comparators.cmp_sign _ compare_ok) in Heq. lia. }
  unfold Contains. rewrite (FindGreaterOrEqual_spec s order k lo hi) by done. simpl.
  destruct hi as [|y hi]; simpl.
  - exists false. split; [done|]. split; [done|]. intros (k' & Hk' & Heq).
    apply Hkeys in Hk' as (z & Hz & ->). rewrite Horder, app_nil_r in Hz.
    by destruct (Hnlo z Hz).
  - assert (Hy : y ∈ order).
    { rewrite Horder. apply elem_of_app. right. by left. }
    destruct (wf_node s order y Hwf Hy) as (node & Hn & Hkey). rewrite Hn. simpl.
    exists (Equal k (key node)). split; [done|]. unfold Equal. rewrite Hkey, Z.eqb_eq.
    split.
    + intros Heq. exists (keyof s y). split; [|done]. apply Hkeys. by exists y.
    + intros (k' & Hk' & Heq). apply Hkeys in Hk' as (z & Hz & ->).
      rewrite Horder in Hz. apply elem_of_app in Hz as [Hz|Hz]; [by destruct (Hnlo z Hz)|].
      apply elem_of_cons in Hz as [->|Hz]; [done|]. exfalso.
      pose proof (wf_sorted _ _ Hwf) as Hsorted. rewrite Horder in Hsorted.
      apply StronglySorted_app in Hsorted as (_ & _ & Hs').
      apply StronglySorted_cons in Hs' as [HyB _]. rewrite Forall_forall in HyB.
      specialize (HyB z Hz).
      assert (Hky : compare_ k (keyof s y) <= 0).
      { apply compare_ge_le. apply Hhi. by left. }
      pose proof (compare_le_lt_trans _ _ _ Hky HyB). lia.
Qed.

(** X5. After any keys no two of which compare equal have been
    inserted into a new list, [SeekToLast] lands on the greatest key,
    or leaves the iterator invalid when the list is empty, and
    iterating from there with [Prev] visits exactly the inserted keys,
    each once, in strictly descending order. *)
Theorem backward_iteration_sorted (keys : list Key) :
  pairwise_distinct keys ->
  exists s sorted,
    InsertAll keys new = Some s /\
    sorted ≡ₚ keys /\
    StronglySorted (fun a b => compare_ a b < 0) sorted /\
    (exists it, SeekToLast s = Some it /\ Iterator_key s it = last sorted /\
                (keys = [] -> Valid it = false)) /\
    (it ← SeekToLast s; scan_back (length (nodes s)) s it) = Some (reverse sorted).
Proof.
  intros Hdist.
  destruct (InsertAll_wf keys new [] new_wf Hdist) as (s & order & Hs & Hwf & Hperm).
  { intros y k Hy. by apply elem_of_nil in Hy. }
  simpl in Hperm.
  assert (Hnodes : (length order < length (nodes s))%nat).
  { rewrite (wf_length _ _ Hwf). pose proof (lastof_lt s order [] order Hwf eq_refl). lia. }
  exists s, (keyof s <$> order). split_and!; try done.
  - apply (StronglySorted_fmap _ (fun a b => compare_ (keyof s a) (keyof s b) < 0));
      [done|apply (wf_sorted _ _ Hwf)].
  - exists {| node_ := last order |}. split_and!.
    + by apply SeekToLast_spec.
    + rewrite fmap_last. destruct (last order) as [z|] eqn:Hz; [|done]. simpl.
      apply (Iterator_key_spec s order); [done|]. by apply last_Some_elem_of.
    + intros ->. apply Permutation_nil_r in Hperm. apply fmap_nil_inv in Hperm.
      by subst order.
  - rewrite (SeekToLast_spec s order Hwf). simpl.
    rewrite (scan_back_spec s order order []); [|done|by rewrite app_nil_r|done].
    by rewrite fmap_reverse.
Qed.

(** X6. Inserting a further key neither moves nor removes a node: an
    iterator positioned on a key before the insertion is positioned on
    the same key after it. *)
Theorem Insert_keeps_iterators (keys : list Key) (k : Key) :
  pairwise_distinct (keys ++ [k]) ->
  exists s s',
    InsertAll keys new = Some s /\ Insert s k = Some s' /\
    forall it k', Iterator_key s it = Some k' -> Iterator_key s' it = Some k'.
Proof.
  intros Hdist. apply pairwise_distinct_snoc in Hdist as [Hdist Hk].
  rewrite Forall_forall in Hk.
  destruct (InsertAll_wf keys new [] new_wf Hdist) as (s & order & Hs & Hwf & Hperm).
  { intros y k' Hy. by apply elem_of_nil in Hy. }
  simpl in Hperm.
  destruct (split_at_key s order k (wf_sorted _ _ Hwf)) as (lo & hi & Horder & Hlo & Hhi).
  destruct (Insert_wf s order k lo hi Hwf Horder Hlo) as (s' & Hs' & Hwf' & _ & Hkeep).
  { intros y Hy. apply compare_gt; [by apply Hhi|].
    apply Hk. rewrite <- Hperm. apply list_elem_of_fmap. exists y. split; [done|].
    rewrite Horder. apply elem_of_app. by right. }
  exists s, s'. split_and!; try done.
  intros it k' Hit. unfold Iterator_key in *.
  destruct (node_ it) as [n|]; [|done]. simpl in *.
  destruct (nodes s !! n) as [node|] eqn:Hn; [|done]. simpl in Hit. injection Hit as <-.
  pose proof (lookup_lt_Some _ _ _ Hn) as Hlt.
  specialize (Hkeep n Hlt). unfold keyof in Hkeep. rewrite Hn in Hkeep. simpl in Hkeep.
  pose proof (wf_length _ _ Hwf') as Hlen'. rewrite length_app in Hlen'. simpl in Hlen'.
  pose proof (wf_length _ _ Hwf) as Hlen. rewrite Horder, length_app in Hlen.
  destruct (nodes s' !! n) as [node'|] eqn:Hn'.
  - simpl in *. by rewrite Hkeep.
  - apply lookup_ge_None in Hn'. lia.
Qed.

End SkipList.

(** The keys of the example, under the bytewise order and with a
    Lehmer generator as the random source. *)
Definition example_keys : list (list Z) := bytes <$> ["b"; "d"; "f"; "a"; "c"]%string.

Definition example_random (seed : Z) : Z * Z :=
  let seed' := (seed * 16807) mod 2147483647 in (seed', seed').

Lemma iteration_sorted_witness :
  pairwise_distinct Comparators.Slice_compare example_keys /\
  exists s sorted,
    InsertAll Comparators.Slice_compare example_random example_keys (new []) = Some s /\
    sorted ≡ₚ example_keys /\
    StronglySorted (fun a b => Comparators.Slice_compare a b < 0) sorted /\
    (it ← SeekToFirst s; scan (length (nodes s)) s it) = Some sorted.
Proof.
  assert (Hd : pairwise_distinct Comparators.Slice_compare example_keys).
  { simpl. repeat (split || constructor); vm_compute; discriminate. }
  split; [exact Hd|].
  destruct (iteration_sorted Comparators.Slice_compare example_random []
              Comparators.Bytewise_TotalPreorder example_keys Hd)
    as (s & sorted & H1 & H2 & H3 & H4 & _).
  exists s, sorted. repeat split; assumption.
Defined.

(** The example run: the keys come out as "a", "b", "c", "d", "f";
    [Seek("c")] lands on "c" and [Seek("cc")] on "d", and [Prev] from
    "d" lands on "c". *)
Example iteration_example :
  exists s, InsertAll Comparators.Slice_compare example_random example_keys (new []) = Some s /\
    (it ← SeekToFirst s; scan (length (nodes s)) s it) =
      Some (bytes <$> ["a"; "b"; "c"; "d"; "f"]%string) /\
    (it ← Seek Comparators.Slice_compare s (bytes "c"); Iterator_key s it) = Some (bytes "c") /\
    (it ← Seek Comparators.Slice_compare s (bytes "cc"); Iterator_key s it) = Some (bytes "d") /\
    (it ← Seek Comparators.Slice_compare s (bytes "cc");
     it' ← Iterator_Prev Comparators.Slice_compare s it; Iterator_key s it') = Some (bytes "c").
Proof. eexists. split; [vm_compute; reflexivity|]. vm_compute. done. Qed.

Lemma Contains_iff_inserted_witness :
  pairwise_distinct Comparators.Slice_compare example_keys /\
  exists s,
    InsertAll Comparators.Slice_compare example_random example_keys (new []) = Some s /\
    forall k, exists b, Contains Comparators.Slice_compare s k = Some b /\
      (b = true <-> exists k', k' ∈ example_keys /\ Comparators.Slice_compare k k' = 0).
Proof.
  assert (Hd : pairwise_distinct Comparators.Slice_compare example_keys).
  { simpl. repeat (split || constructor); vm_compute; discriminate. }
  split; [exact Hd|].
  exact (Contains_iff_inserted Comparators.Slice_compare example_random []
           Comparators.Bytewise_TotalPreorder example_keys Hd).
Defined.

Lemma backward_iteration_sorted_witness :
  pairwise_distinct Comparators.Slice_compare example_keys /\
  exists s sorted,
    InsertAll Comparators.Slice_compare example_random example_keys (new []) = Some s /\
    sorted ≡ₚ example_keys /\
    StronglySorted (fun a b => Comparators.Slice_compare a b < 0) sorted /\
    (it ← SeekToLast s; scan_back Comparators.Slice_compare (length (nodes s)) s it) =
      Some (reverse sorted).
Proof.
  assert (Hd : pairwise_distinct Comparators.Slice_compare example_keys).
  { simpl. repeat (split || constructor); vm_compute; discriminate. }
  split; [exact Hd|].
  destruct (backward_iteration_sorted Comparators.Slice_compare example_random []
              Comparators.Bytewise_TotalPreorder example_keys Hd)
    as (s & sorted & H1 & H2 & H3 & _ & H5).
  exists s, sorted. repeat split; assumption.
Defined.

Lemma Insert_keeps_iterators_witness :
  pairwise_distinct Comparators.Slice_compare (example_keys ++ [bytes "e"]) /\
  exists s s',
    InsertAll Comparators.Slice_compare example_random example_keys (new []) = Some s /\
    Insert Comparators.Slice_compare example_random s (bytes "e") = Some s' /\
    forall it k', Iterator_key s it = Some k' -> Iterator_key s' it = Some k'.
Proof.
  assert (Hd : pairwise_distinct Comparators.Slice_compare (example_keys ++ [bytes "e"])).
  { simpl. repeat (split || constructor); vm_compute; discriminate. }
  split; [exact Hd|].
  exact (Insert_keeps_iterators Comparators.Slice_compare example_random []
           Comparators.Bytewise_TotalPreorder example_keys (bytes "e") Hd).
Defined.

(** The example run backwards: the keys come out as "f", "d", "c",
    "b", "a"; "c" is in the list and "cc" is not. *)
Example backward_iteration_example :
  exists s, InsertAll Comparators.Slice_compare example_random example_keys (new []) = Some s /\
    (it ← SeekToLast s; scan_back Comparators.Slice_compare (length (nodes s)) s it) =
      Some (bytes <$> ["f"; "d"; "c"; "b"; "a"]%string) /\
    Contains Comparators.Slice_compare s (bytes "c") = Some true /\
    Contains Comparators.Slice_compare s (bytes "cc") = Some false.
Proof. eexists. split; [vm_compute; reflexivity|]. vm_compute. done. Qed.

End SkipList.

(** ** db/memtable.cc *)

Module MemTable.

Import Coding DBFormat.

Section MemTable.

(** The user comparator of the [InternalKeyComparator] the table is
    built with, and the random source of its skiplist. *)
Variable user_comparator : list Z -> list Z -> Z.
Variable Random_Next : Z -> Z * Z.

(** The static [GetLengthPrefixedSlice(data)]: [data] points to a
    buffer, given by the bytes from there on.  The source assumes that
    the length prefix is well formed; the model returns the empty slice
    when it is not. *)
Definition GetLengthPrefixedSlice (data : list Z) : list Z :=
  match GetVarint32 data with
  | Some (len, p) => take (Z.to_nat len) p
  | None => []
  end.

(** [MemTable::KeyComparator::operator()(aptr, bptr)]. *)
Definition KeyComparator (aptr bptr : list Z) : Z :=
  (* Internal keys are encoded as length-prefixed strings. *)
  let a := GetLengthPrefixedSlice aptr in
  let b := GetLengthPrefixedSlice bptr in
  InternalKeyComparator_Compare user_comparator a b.

(** [typedef SkipList<const char*, KeyComparator> Table]: a key of the
    skiplist is the buffer it points to. *)
Definition Table : Type := @SkipList.SkipList (list Z).

Record MemTable : Type := {
  refs_ : Z;
  table_ : Table
}.

(** [MemTable::MemTable(cmp)].  The key of the head node of the
    skiplist is the null pointer, which is never read; the empty
    buffer stands for it. *)
Definition new : MemTable :=
  {| refs_ := 0; table_ := SkipList.new [] |}.

(** [MemTable::Add(s, type, key, value)]: the buffer allocated in the
    arena holds exactly the entry. *)
Definition Add (m : MemTable) (s : Z) (type : Z) (key value : list Z) : option MemTable :=
  let key_size := Z.of_nat (length key) in
  let val_size := Z.of_nat (length value) in
  let internal_key_size := key_size + 8 in
  let buf :=
    EncodeVarint32 internal_key_size ++ key ++
    EncodeFixed64 (Z.lor (Z.shiftl s 8 mod 2 ^ 64) type) ++
    EncodeVarint32 val_size ++ value in
  table ← SkipList.Insert KeyComparator Random_Next (table_ m) buf;
  Some {| refs_ := refs_ m; table_ := table |}.

(** [MemTable::Get(key, value, s)]: the result with the contents of
    [*value] and [*s] afterwards.  An entry whose length prefix is
    malformed or smaller than the 8 bytes of the tag is outside what
    the source defines. *)
Definition Get (m : MemTable) (key : LookupKey) (value : list Z) (s : Status)
    : option (bool * list Z * Status) :=
  let memkey := memtable_key key in
  iter ← SkipList.Seek KeyComparator (table_ m) memkey;
  if SkipList.Valid iter then
    entry ← SkipList.Iterator_key (table_ m) iter;
    '(key_length, key_ptr) ← GetVarint32 entry;
    if user_comparator (take (Z.to_nat ((key_length - 8) mod 2 ^ 32)) key_ptr)
         (user_key key) =? 0 then
      (* Correct user key *)
      let tag := DecodeFixed64 (drop (Z.to_nat (key_length - 8)) key_ptr) in
      let type := Z.land tag 255 in
      if type =? kTypeValue then
        let v := GetLengthPrefixedSlice (drop (Z.to_nat key_length) key_ptr) in
        Some (true, v, s)
      else if type =? kTypeDeletion then
        Some (true, value, NotFound EmptyString)
      else Some (false, value, s)
    else Some (false, value, s)
  else Some (false, value, s).

(** *** A table filled by a sequence of [Add] calls *)

Record entry : Type := {
  sequence : Z;
  type : Z;
  ukey : list Z;
  val : list Z
}.

Definition AddAll (entries : list entry) (m : MemTable) : option MemTable :=
  foldl (fun m e => m ← m; Add m (sequence e) (type e) (ukey e) (val e)) (Some m) entries.

(** The arguments [Add] is meant for: a 56-bit sequence number, one of
    the two value types, and sizes that fit the 32-bit length
    prefixes. *)
Definition valid_entry (e : entry) : Prop :=
  0 <= sequence e <= kMaxSequenceNumber /\
  (type e = kTypeValue \/ type e = kTypeDeletion) /\
  Z.of_nat (length (ukey e)) + 8 < 2 ^ 32 /\
  Z.of_nat (length (val e)) < 2 ^ 32.

(** No two entries have the same user key and the same sequence
    number. *)
Fixpoint unique_versions (entries : list entry) : Prop :=
  match entries with
  | [] => True
  | e :: entries' =>
      Forall (fun e' => user_comparator (ukey e) (ukey e') = 0 ->
                        sequence e <> sequence e') entries' /\
      unique_versions entries'
  end.

(** The entries for the user key [k] that the snapshot [S] sees, and
    the newest of them. *)
Definition visible (k : list Z) (S : Z) (e : entry) : Prop :=
  user_comparator (ukey e) k = 0 /\ sequence e <= S.

Definition newest (entries : list entry) (k : list Z) (S : Z) (e : entry) : Prop :=
  e ∈ entries /\ visible k S e /\
  forall e', e' ∈ entries -> visible k S e' -> sequence e' <= sequence e.

(** The entry as [Add] lays it out. *)
Definition encode (e : entry) : list Z :=
  EncodeVarint32 (Z.of_nat (length (ukey e)) + 8) ++ ukey e ++
  EncodeFixed64 (Z.lor (Z.shiftl (sequence e) 8 mod 2 ^ 64) (type e)) ++
  EncodeVarint32 (Z.of_nat (length (val e))) ++ val e.

(** *** The encoding *)

Lemma pack_eq (s t : Z) :
  0 <= s <= kMaxSequenceNumber -> t = kTypeValue \/ t = kTypeDeletion ->
  Z.lor (Z.shiftl s 8 mod 2 ^ 64) t = s * 256 + t.
Proof.
  unfold kMaxSequenceNumber, kTypeValue, kTypeDeletion. intros Hs Ht.
  rewrite Z.shiftl_mul_pow2 by lia. change (2 ^ 8) with 256.
  rewrite Z.mod_small by lia.
  destruct Ht as [->| ->]; [|by rewrite Z.lor_0_r, Z.add_0_r].
  assert (Hland : Z.land (s * 256) 1 = 0).
  { change 1 with (Z.ones 1). rewrite Z.land_ones by lia.
    change (2 ^ 1) with 2. replace (s * 256) with (s * 128 * 2) by lia.
    apply Z.mod_mul. lia. }
  pose proof (Z.sub_2lor_lxor (s * 256) 1) as H2.
  rewrite (Z.lxor_lor _ _ Hland) in H2. lia.
Qed.

(** The tag of an entry as a number. *)
Definition tag_of (e : entry) : Z := sequence e * 256 + type e.

Lemma tag_of_range e : valid_entry e -> 0 <= tag_of e < 2 ^ 64.
Proof.
  unfold valid_entry, tag_of, kMaxSequenceNumber, kTypeValue, kTypeDeletion.
  intros (Hs & Ht & _). lia.
Qed.

Lemma ExtractUserKey_app k t : ExtractUserKey (k ++ EncodeFixed64 t) = k.
Proof.
  unfold ExtractUserKey, EncodeFixed64. rewrite length_app, length_EncodeFixed.
  replace (length k + 8 - 8)%nat with (length k) by lia. by rewrite take_app_length.
Qed.

Lemma ExtractTag_app k t : 0 <= t < 2 ^ 64 -> ExtractTag (k ++ EncodeFixed64 t) = t.
Proof.
  intros Ht. unfold ExtractTag, EncodeFixed64, DecodeFixed64.
  rewrite length_app, length_EncodeFixed.
  replace (length k + 8 - 8)%nat with (length k) by lia. rewrite drop_app_length.
  rewrite <- (app_nil_r (EncodeFixed 8 _)), DecodeFixed_EncodeFixed.
  change (256 ^ Z.of_nat 8) with (2 ^ 64).
  rewrite (Z.mod_small t) by lia. by rewrite Z.mod_small by lia.
Qed.

Lemma GetLengthPrefixedSlice_internal k t rest :
  Z.of_nat (length k) + 8 < 2 ^ 32 ->
  GetLengthPrefixedSlice
    (EncodeVarint32 (Z.of_nat (length k) + 8) ++ k ++ EncodeFixed64 t ++ rest) =
  k ++ EncodeFixed64 t.
Proof.
  intros Hk. unfold GetLengthPrefixedSlice.
  rewrite GetVarint32_EncodeVarint32 by lia.
  rewrite app_assoc.
  replace (Z.to_nat (Z.of_nat (length k) + 8)) with (length (k ++ EncodeFixed64 t)).
  - by rewrite take_app_length.
  - rewrite length_app. unfold EncodeFixed64. rewrite length_EncodeFixed. lia.
Qed.

Lemma GetLengthPrefixedSlice_encode e :
  valid_entry e ->
  GetLengthPrefixedSlice (encode e) = ukey e ++ EncodeFixed64 (tag_of e).
Proof.
  intros He. pose proof He as (Hs & Ht & Hk & Hv). unfold encode.
  rewrite pack_eq by done. by apply GetLengthPrefixedSlice_internal.
Qed.

Lemma GetLengthPrefixedSlice_lookup k S :
  Z.of_nat (length k) + 8 < 2 ^ 32 -> 0 <= S <= kMaxSequenceNumber ->
  GetLengthPrefixedSlice (memtable_key (LookupKey_new k S)) =
  k ++ EncodeFixed64 (S * 256 + 1).
Proof.
  intros Hk HS. unfold LookupKey_new, PackSequenceAndType, kValueTypeForSeek. simpl.
  rewrite pack_eq by (done || by left).
  rewrite <- (app_nil_r (EncodeFixed64 _)) at 1.
  by apply GetLengthPrefixedSlice_internal.
Qed.

(** The order of two internal keys, by user key and then by
    descending tag. *)
Definition order_of (k1 : list Z) (t1 : Z) (k2 : list Z) (t2 : Z) : Z :=
  let r := user_comparator k1 k2 in
  if r =? 0 then if t2 <? t1 then -1 else if t1 <? t2 then 1 else 0 else r.

Lemma InternalKeyComparator_Compare_app k1 t1 k2 t2 :
  0 <= t1 < 2 ^ 64 -> 0 <= t2 < 2 ^ 64 ->
  InternalKeyComparator_Compare user_comparator
    (k1 ++ EncodeFixed64 t1) (k2 ++ EncodeFixed64 t2) = order_of k1 t1 k2 t2.
Proof.
  intros H1 H2. unfold InternalKeyComparator_Compare, order_of.
  by rewrite !ExtractUserKey_app, !ExtractTag_app.
Qed.

Lemma KeyComparator_encode a b :
  valid_entry a -> valid_entry b ->
  KeyComparator (encode a) (encode b) = order_of (ukey a) (tag_of a) (ukey b) (tag_of b).
Proof.
  intros Ha Hb. unfold KeyComparator. rewrite !GetLengthPrefixedSlice_encode by done.
  apply InternalKeyComparator_Compare_app; by apply tag_of_range.
Qed.

Lemma KeyComparator_lookup a k S :
  valid_entry a -> Z.of_nat (length k) + 8 < 2 ^ 32 -> 0 <= S <= kMaxSequenceNumber ->
  KeyComparator (encode a) (memtable_key (LookupKey_new k S)) =
  order_of (ukey a) (tag_of a) k (S * 256 + 1).
Proof.
  intros Ha Hk HS. unfold KeyComparator.
  rewrite GetLengthPrefixedSlice_encode, GetLengthPrefixedSlice_lookup by done.
  apply InternalKeyComparator_Compare_app; [by apply tag_of_range|].
  unfold kMaxSequenceNumber in HS. lia.
Qed.

(** *** The order of the entries *)

Hypothesis user_ok : Comparators.TotalPreorder user_comparator.

Lemma order_of_le k1 t1 k2 t2 :
  order_of k1 t1 k2 t2 <= 0 <->
  user_comparator k1 k2 < 0 \/ (user_comparator k1 k2 = 0 /\ t2 <= t1).
Proof.
  unfold order_of. destruct (Z.eqb_spec (user_comparator k1 k2) 0) as [->|Hne].
  - destruct (Z.ltb_spec t2 t1); [lia|]. destruct (Z.ltb_spec t1 t2); lia.
  - lia.
Qed.

Lemma order_of_lt k1 t1 k2 t2 :
  order_of k1 t1 k2 t2 < 0 <->
  user_comparator k1 k2 < 0 \/ (user_comparator k1 k2 = 0 /\ t2 < t1).
Proof.
  unfold order_of. destruct (Z.eqb_spec (user_comparator k1 k2) 0) as [->|Hne].
  - destruct (Z.ltb_spec t2 t1); [lia|]. destruct (Z.ltb_spec t1 t2); lia.
  - lia.
Qed.

Lemma order_of_eq k1 t1 k2 t2 :
  order_of k1 t1 k2 t2 = 0 <-> user_comparator k1 k2 = 0 /\ t1 = t2.
Proof.
  unfold order_of. destruct (Z.eqb_spec (user_comparator k1 k2) 0) as [->|Hne].
  - destruct (Z.ltb_spec t2 t1); [lia|]. destruct (Z.ltb_spec t1 t2); lia.
  - lia.
Qed.

Lemma order_of_gt k1 t1 k2 t2 :
  order_of k1 t1 k2 t2 > 0 <->
  user_comparator k1 k2 > 0 \/ (user_comparator k1 k2 = 0 /\ t1 < t2).
Proof.
  unfold order_of. destruct (Z.eqb_spec (user_comparator k1 k2) 0) as [->|Hne].
  - destruct (Z.ltb_spec t2 t1); [lia|]. destruct (Z.ltb_spec t1 t2); lia.
  - lia.
Qed.

Lemma user_le_lt_trans a b c :
  user_comparator a b <= 0 -> user_comparator b c < 0 -> user_comparator a c < 0.
Proof.
  intros Hab Hbc.
  pose proof (Comparators.cmp_trans _ user_ok a b c Hab ltac:(lia)) as Hac.
  destruct (Z.eq_dec (user_comparator a c) 0) as [Heq|]; [|lia].
  apply (Comparators.cmp_sign _ user_ok a c) in Heq.
  pose proof (Comparators.cmp_trans _ user_ok c a b ltac:(lia) Hab) as Hcb.
  apply (Comparators.cmp_sign _ user_ok b c) in Hbc. lia.
Qed.

Lemma user_eq_trans a b c :
  user_comparator a b = 0 -> user_comparator b c = 0 -> user_comparator a c = 0.
Proof.
  intros Hab Hbc.
  pose proof (Comparators.cmp_trans _ user_ok a b c ltac:(lia) ltac:(lia)) as Hac.
  apply (Comparators.cmp_sign _ user_ok a b) in Hab.
  apply (Comparators.cmp_sign _ user_ok b c) in Hbc.
  pose proof (Comparators.cmp_trans _ user_ok c b a ltac:(lia) ltac:(lia)) as Hca.
  destruct (Z.eq_dec (user_comparator a c) 0) as [Heq|Hne]; [done|].
  assert (Hlt : user_comparator a c < 0) by lia.
  apply (Comparators.cmp_sign _ user_ok a c) in Hlt. lia.
Qed.

Lemma user_eq_sym a b : user_comparator a b = 0 -> user_comparator b a = 0.
Proof. intros H. by apply (Comparators.cmp_sign _ user_ok a b). Qed.

Lemma order_of_TotalPreorder {A} (f : A -> list Z) (g : A -> Z) :
  Comparators.TotalPreorder (fun a b => order_of (f a) (g a) (f b) (g b)).
Proof.
  split.
  - intros a b. rewrite order_of_lt, order_of_gt, !order_of_eq.
    pose proof (Comparators.cmp_sign _ user_ok (f a) (f b)) as [H1 H2].
    split; split.
    + intros [Hlt|[Heq Ht]]; [left; by apply H1|right; split; [by apply H2|done]].
    + intros [Hgt|[Heq Ht]]; [left; by apply H1|right; split; [by apply H2|done]].
    + intros [Heq Ht]. split; [by apply H2|done].
    + intros [Heq Ht]. split; [by apply H2|done].
  - intros a b c. rewrite !order_of_le.
    intros [Hab|[Hab Htab]] [Hbc|[Hbc Htbc]].
    + left. apply (SkipList.compare_lt_le_trans _ user_ok _ (f b)); lia.
    + left. apply (SkipList.compare_lt_le_trans _ user_ok _ (f b)); lia.
    + left. apply (user_le_lt_trans _ (f b)); lia.
    + right. split; [by apply (user_eq_trans _ (f b))|lia].
Qed.

Lemma KeyComparator_TotalPreorder : Comparators.TotalPreorder KeyComparator.
Proof.
  apply (order_of_TotalPreorder
           (fun p => ExtractUserKey (GetLengthPrefixedSlice p))
           (fun p => ExtractTag (GetLengthPrefixedSlice p))).
Qed.

Lemma tag_of_le a b :
  valid_entry a -> valid_entry b -> tag_of a <= tag_of b -> sequence a <= sequence b.
Proof.
  unfold valid_entry, tag_of, kTypeValue, kTypeDeletion.
  intros (_ & Ha & _) (_ & Hb & _). lia.
Qed.

Lemma encode_distinct entries :
  Forall valid_entry entries -> unique_versions entries ->
  SkipList.pairwise_distinct KeyComparator (encode <$> entries).
Proof.
  induction entries as [|e entries IH]; intros Hvalid Huniq; [done|].
  apply Forall_cons in Hvalid as [He Hvalid]. destruct Huniq as [Hfresh Huniq].
  simpl. split; [|by apply IH].
  rewrite Forall_fmap, Forall_forall. intros e' He'. simpl.
  rewrite Forall_forall in Hvalid, Hfresh.
  rewrite KeyComparator_encode by auto. rewrite order_of_eq.
  intros [Hk Ht]. apply (Hfresh e' He' Hk).
  pose proof (tag_of_le e e' He (Hvalid e' He') ltac:(lia)).
  pose proof (tag_of_le e' e (Hvalid e' He') He ltac:(lia)). lia.
Qed.

Lemma unique_versions_lookup entries : forall i j a b,
  unique_versions entries -> entries !! i = Some a -> entries !! j = Some b ->
  i <> j -> user_comparator (ukey a) (ukey b) = 0 -> sequence a <> sequence b.
Proof.
  induction entries as [|e entries IH]; intros i j a b Huniq Hi Hj Hij Hk; [done|].
  destruct Huniq as [Hfresh Huniq]. rewrite Forall_forall in Hfresh.
  destruct i as [|i], j as [|j]; simpl in *; try done.
  - injection Hi as ->. apply Hfresh; [|done]. by apply list_elem_of_lookup_2 in Hj.
  - injection Hj as ->. intros Heq. apply (Hfresh a).
    + by apply list_elem_of_lookup_2 in Hi.
    + by apply user_eq_sym.
    + done.
  - apply (IH i j); try done. lia.
Qed.

Lemma foldl_Add_None entries :
  foldl (fun m e => m ← m; Add m (sequence e) (type e) (ukey e) (val e)) None entries = None.
Proof. induction entries as [|e entries IH]; [done|]. simpl. apply IH. Qed.

Lemma AddAll_InsertAll entries : forall m,
  AddAll entries m =
  t ← SkipList.InsertAll KeyComparator Random_Next (encode <$> entries) (table_ m);
  Some {| refs_ := refs_ m; table_ := t |}.
Proof.
  induction entries as [|e entries IH]; intros m.
  - simpl. by destruct m.
  - rewrite fmap_cons, SkipList.Insert_InsertAll.
    unfold AddAll. simpl. unfold Add at 2. fold (encode e).
    destruct (SkipList.Insert KeyComparator Random_Next (table_ m) (encode e)) as [t|]; simpl.
    + apply (IH {| refs_ := refs_ m; table_ := t |}).
    + apply foldl_Add_None.
Qed.

(** *** Get *)

(** What [Get] leaves when it lands on the entry [e]. *)
Definition found (e : entry) (value : list Z) (s : Status) : bool * list Z * Status :=
  if type e =? kTypeValue then (true, val e, s)
  else (true, value, NotFound EmptyString).

Lemma newest_unique entries k S a b :
  unique_versions entries -> newest entries k S a -> newest entries k S b -> a = b.
Proof.
  intros Huniq (Ha & Hva & Hna) (Hb & Hvb & Hnb).
  pose proof (Hna b Hb Hvb). pose proof (Hnb a Ha Hva).
  apply list_elem_of_lookup in Ha as [i Hi]. apply list_elem_of_lookup in Hb as [j Hj].
  destruct (decide (i = j)) as [->|Hne]; [congruence|].
  exfalso. apply (unique_versions_lookup entries i j a b); try done; [|lia].
  destruct Hva as [Hka _], Hvb as [Hkb _].
  apply (user_eq_trans _ k); [done|by apply user_eq_sym].
Qed.

Lemma Get_lands entries k S value s :
  Forall valid_entry entries -> unique_versions entries ->
  Z.of_nat (length k) + 8 < 2 ^ 32 -> 0 <= S <= kMaxSequenceNumber ->
  exists m, AddAll entries new = Some m /\
    (((forall e, e ∈ entries -> ~ visible k S e) /\
      Get m (LookupKey_new k S) value s = Some (false, value, s)) \/
     (exists e, newest entries k S e /\
        Get m (LookupKey_new k S) value s = Some (found e value s))).
Proof.
  intros Hvalid Huniq Hk HS. rewrite Forall_forall in Hvalid.
  pose proof KeyComparator_TotalPreorder as Hcmp.
  destruct (SkipList.InsertAll_wf KeyComparator Random_Next [] Hcmp (encode <$> entries)
              (SkipList.new []) [] (SkipList.new_wf _ _))
    as (t & order & Ht & Hwf & Hperm).
  { by apply encode_distinct; [apply Forall_forall|]. }
  { intros y k' Hy. by apply elem_of_nil in Hy. }
  simpl in Hperm.
  exists {| refs_ := 0; table_ := t |}. split.
  { rewrite AddAll_InsertAll. simpl. unfold Table in *. by rewrite Ht. }
  assert (Hnode : forall y, y ∈ order ->
            exists e, e ∈ entries /\ SkipList.keyof [] t y = encode e).
  { intros y Hy.
    assert (Hin : SkipList.keyof [] t y ∈ encode <$> entries).
    { rewrite <- Hperm. apply list_elem_of_fmap. by exists y. }
    apply list_elem_of_fmap in Hin as (e & He & Hin). by exists e. }
  assert (Hentry : forall e, e ∈ entries ->
            exists z, z ∈ order /\ SkipList.keyof [] t z = encode e).
  { intros e He.
    assert (Hin : encode e ∈ SkipList.keyof [] t <$> order).
    { rewrite Hperm. apply list_elem_of_fmap. by exists e. }
    apply list_elem_of_fmap in Hin as (z & Hz & Hin). by exists z. }
  set (key := LookupKey_new k S).
  destruct (SkipList.split_at_key KeyComparator [] Hcmp t order (memtable_key key)
              (SkipList.wf_sorted _ _ _ _ Hwf)) as (lo & hi & Horder & Hlo & Hhi).
  (* no visible entry is passed by the search *)
  assert (Hnot_lo : forall e z, e ∈ entries -> visible k S e ->
            SkipList.keyof [] t z = encode e -> z ∉ lo).
  { intros e z He [Hek HeS] Hz Hzlo. apply Hlo in Hzlo. rewrite Hz in Hzlo.
    unfold key in Hzlo. rewrite KeyComparator_lookup in Hzlo by auto.
    apply order_of_lt in Hzlo as [Hlt|[_ Hlt]]; [lia|].
    pose proof (Hvalid e He) as (_ & Hty & _).
    unfold tag_of, kTypeValue, kTypeDeletion in *. lia. }
  unfold Get. fold key. cbn [table_].
  rewrite (SkipList.Seek_spec KeyComparator [] t order (memtable_key key) lo hi) by done.
  simpl. destruct hi as [|y hi].
  - (* past the last entry *)
    left. split; [|done]. intros e He Hvis.
    destruct (Hentry e He) as (z & Hz & Hkz).
    apply (Hnot_lo e z He Hvis Hkz). rewrite Horder, app_nil_r in Hz. done.
  - assert (Hy : y ∈ order) by (rewrite Horder; apply elem_of_app; right; by left).
    destruct (Hnode y Hy) as (ey & Hey & Hky).
    pose proof (Hvalid ey Hey) as Hvy. pose proof Hvy as (Hsy & Hty & Hly & Hlv).
    (* every visible entry is at or after the one the search lands on *)
    assert (Hafter : forall e, e ∈ entries -> visible k S e ->
              order_of (ukey ey) (tag_of ey) (ukey e) (tag_of e) <= 0).
    { intros e He Hvis. destruct (Hentry e He) as (z & Hz & Hkz).
      rewrite <- KeyComparator_encode by auto. rewrite <- Hky, <- Hkz.
      rewrite Horder in Hz. apply elem_of_app in Hz as [Hz|Hz];
        [by apply (Hnot_lo e z He Hvis Hkz) in Hz|].
      apply elem_of_cons in Hz as [->|Hz].
      - rewrite (SkipList.compare_refl _ Hcmp). lia.
      - pose proof (SkipList.wf_sorted _ _ _ _ Hwf) as Hsorted. rewrite Horder in Hsorted.
        apply StronglySorted_app in Hsorted as (_ & _ & Hs).
        apply StronglySorted_cons in Hs as [Hs _]. rewrite Forall_forall in Hs.
        specialize (Hs z Hz). simpl in Hs. lia. }
    assert (Hland : 0 <= order_of (ukey ey) (tag_of ey) k (S * 256 + 1)).
    { rewrite <- KeyComparator_lookup by auto. rewrite <- Hky. apply Hhi. by left. }
    simpl.
    rewrite (SkipList.Iterator_key_spec KeyComparator [] t order y Hwf Hy). simpl.
    rewrite Hky. unfold encode. rewrite pack_eq by done. fold (tag_of ey).
    rewrite GetVarint32_EncodeVarint32 by lia. cbn [mbind option_bind].
    replace (Z.of_nat (length (ukey ey)) + 8 - 8) with (Z.of_nat (length (ukey ey))) by lia.
    rewrite Z.mod_small by lia. rewrite Nat2Z.id, take_app_length, drop_app_length.
    destruct (Z.eqb_spec (user_comparator (ukey ey) k) 0) as [Heq|Hne].
    + (* the entry is for the user key *)
      right. exists ey.
      assert (Hvis : visible k S ey).
      { split; [done|].
        destruct (Z.le_gt_cases (tag_of ey) (S * 256 + 1)) as [Hle|Hgt].
        - unfold tag_of, kTypeValue, kTypeDeletion in *. lia.
        - assert (Hlt : order_of (ukey ey) (tag_of ey) k (S * 256 + 1) < 0)
            by (apply order_of_lt; right; lia).
          lia. }
      split.
      * split_and!; [done|done|]. intros e' He' Hvis'.
        pose proof (Hafter e' He' Hvis') as Hle. apply order_of_le in Hle.
        assert (Hkk : user_comparator (ukey ey) (ukey e') = 0).
        { destruct Hvis' as [Hk' _]. apply (user_eq_trans _ k); [done|by apply user_eq_sym]. }
        destruct Hle as [Hlt|[_ Hle]]; [lia|].
        by apply tag_of_le; auto.
      * unfold DecodeFixed64, EncodeFixed64.
        rewrite DecodeFixed_EncodeFixed.
        change (256 ^ Z.of_nat 8) with (2 ^ 64).
        pose proof (tag_of_range ey Hvy) as Hrange.
        rewrite (Z.mod_small (tag_of ey)) by lia. rewrite (Z.mod_small (tag_of ey)) by lia.
        change 255 with (Z.ones 8). rewrite Z.land_ones by lia. change (2 ^ 8) with 256.
        assert (Hty' : tag_of ey mod 256 = type ey).
        { unfold tag_of. rewrite Z.add_comm, Z.mod_add by lia.
          apply Z.mod_small. unfold kTypeValue, kTypeDeletion in *. lia. }
        rewrite Hty'. unfold found.
        destruct (Z.eqb_spec (type ey) kTypeValue) as [Hv|Hv].
        -- f_equal. f_equal. f_equal.
           replace (Z.to_nat (Z.of_nat (length (ukey ey)) + 8))
             with (length (ukey ey ++ EncodeFixed 8 (tag_of ey)))
             by (rewrite length_app, length_EncodeFixed; lia).
           rewrite app_assoc, drop_app_length.
           unfold GetLengthPrefixedSlice.
           rewrite GetVarint32_EncodeVarint32 by lia.
           by rewrite Nat2Z.id, take_ge.
        -- destruct Hty as [Hty|Hty]; [done|].
           by rewrite (proj2 (Z.eqb_eq _ _) Hty).
    + (* the entry is for a later user key *)
      left. split; [|done]. intros e He Hvis.
      pose proof (Hafter e He Hvis) as Hle. apply order_of_le in Hle.
      destruct Hvis as [Hek _].
      assert (Hpos : 0 < user_comparator (ukey ey) k).
      { unfold order_of in Hland.
        destruct (Z.eqb_spec (user_comparator (ukey ey) k) 0); [done|lia]. }
      assert (Hle' : user_comparator (ukey ey) k <= 0); [|lia].
      apply (Comparators.cmp_trans _ user_ok _ (ukey e)); lia.
Qed.

(** C1, for entries no two of which have the same user key and the
    same sequence number: after any sequence of [Add] calls (56-bit
    sequence numbers, type VALUE or DELETION, sizes that fit the length
    prefixes), every [Add] returns, and [Get] with the lookup key of
    the user key [k] and the snapshot [S] returns true and stores the
    value of the entry for [k] with the highest sequence number at
    most [S] when that entry is a VALUE, returns true and stores a
    NotFound status when it is a DELETION, and returns false, leaving
    the value and the status as they were, when there is no entry for
    [k] with a sequence number at most [S]. *)
Theorem Get_newest_visible entries k S value s :
  Forall valid_entry entries -> unique_versions entries ->
  Z.of_nat (length k) + 8 < 2 ^ 32 -> 0 <= S <= kMaxSequenceNumber ->
  exists m, AddAll entries new = Some m /\
    (forall e, newest entries k S e -> type e = kTypeValue ->
       Get m (LookupKey_new k S) value s = Some (true, val e, s)) /\
    (forall e, newest entries k S e -> type e = kTypeDeletion ->
       Get m (LookupKey_new k S) value s = Some (true, value, NotFound EmptyString)) /\
    ((forall e, e ∈ entries -> ~ visible k S e) ->
       Get m (LookupKey_new k S) value s = Some (false, value, s)).
Proof.
  intros Hvalid Huniq Hk HS.
  destruct (Get_lands entries k S value s Hvalid Huniq Hk HS) as (m & Hm & Hget).
  exists m. split; [done|]. split_and!.
  - intros e Hnew Hty. destruct Hget as [[Hnone _]|(e' & Hnew' & Hget)].
    + destruct Hnew as (He & Hvis & _). by apply Hnone in Hvis.
    + rewrite Hget. rewrite (newest_unique entries k S e' e Huniq Hnew' Hnew).
      unfold found. by rewrite (proj2 (Z.eqb_eq _ _) Hty).
  - intros e Hnew Hty. destruct Hget as [[Hnone _]|(e' & Hnew' & Hget)].
    + destruct Hnew as (He & Hvis & _). by apply Hnone in Hvis.
    + rewrite Hget. rewrite (newest_unique entries k S e' e Huniq Hnew' Hnew).
      unfold found. rewrite Hty. done.
  - intros Hnone. destruct Hget as [[_ Hget]|(e' & Hnew' & Hget)]; [done|].
    destruct Hnew' as (He & Hvis & _). by apply Hnone in Hvis.
Qed.

(** *** The iterator over a table *)

(** [EncodeKey(scratch, target)]: the contents of [*scratch], to which
    the pointer returned points. *)
Definition EncodeKey (target : list Z) : list Z :=
  PutVarint32 [] (Z.of_nat (length target)) ++ target.

(** [class MemTableIterator]: [iter_] iterates over the table of the
    memtable, which the operations below take as it is when they are
    called; [tmp_] is scratch space for [EncodeKey]. *)
Record MemTableIterator : Type := { iter_ : SkipList.Iterator }.

(** [MemTable::NewIterator()]. *)
Definition NewIterator (m : MemTable) : MemTableIterator :=
  {| iter_ := SkipList.Iterator_new |}.

Definition MemTableIterator_Valid (it : MemTableIterator) : bool :=
  SkipList.Valid (iter_ it).

Definition MemTableIterator_Seek (m : MemTable) (it : MemTableIterator) (k : list Z)
    : option MemTableIterator :=
  i ← SkipList.Seek KeyComparator (table_ m) (EncodeKey k); Some {| iter_ := i |}.

Definition MemTableIterator_SeekToFirst (m : MemTable) (it : MemTableIterator)
    : option MemTableIterator :=
  i ← SkipList.SeekToFirst (table_ m); Some {| iter_ := i |}.

Definition MemTableIterator_SeekToLast (m : MemTable) (it : MemTableIterator)
    : option MemTableIterator :=
  i ← SkipList.SeekToLast (table_ m); Some {| iter_ := i |}.

Definition MemTableIterator_Next (m : MemTable) (it : MemTableIterator)
    : option MemTableIterator :=
  i ← SkipList.Iterator_Next (table_ m) (iter_ it); Some {| iter_ := i |}.

Definition MemTableIterator_Prev (m : MemTable) (it : MemTableIterator)
    : option MemTableIterator :=
  i ← SkipList.Iterator_Prev KeyComparator (table_ m) (iter_ it); Some {| iter_ := i |}.

(** [MemTableIterator::key()]. *)
Definition MemTableIterator_key (m : MemTable) (it : MemTableIterator) : option (list Z) :=
  entry ← SkipList.Iterator_key (table_ m) (iter_ it);
  Some (GetLengthPrefixedSlice entry).

(** [MemTableIterator::value()]: the length-prefixed slice that
    follows the key in the entry. *)
Definition MemTableIterator_value (m : MemTable) (it : MemTableIterator) : option (list Z) :=
  entry ← SkipList.Iterator_key (table_ m) (iter_ it);
  Some (match GetVarint32 entry with
        | Some (len, p) => GetLengthPrefixedSlice (drop (Z.to_nat len) p)
        | None => []
        end).

Definition MemTableIterator_status (it : MemTableIterator) : Status := OK.

(** The keys and values an iterator visits from its position by
    [Next] until it is no longer valid. *)
Fixpoint contents (fuel : nat) (m : MemTable) (it : MemTableIterator)
    : option (list (list Z * list Z)) :=
  match fuel with
  | O => None
  | S fuel' =>
      if MemTableIterator_Valid it then
        k ← MemTableIterator_key m it;
        v ← MemTableIterator_value m it;
        it' ← MemTableIterator_Next m it;
        rest ← contents fuel' m it';
        Some ((k, v) :: rest)
      else Some []
  end.

(** The internal key of an entry: the user key and the packed tag. *)
Definition internal_key (e : entry) : list Z := ukey e ++ EncodeFixed64 (tag_of e).

Lemma value_encode e :
  valid_entry e ->
  match GetVarint32 (encode e) with
  | Some (len, p) => GetLengthPrefixedSlice (drop (Z.to_nat len) p)
  | None => []
  end = val e.
Proof.
  intros (Hs & Ht & Hk & Hv). unfold encode.
  rewrite GetVarint32_EncodeVarint32 by lia.
  replace (Z.to_nat (Z.of_nat (length (ukey e)) + 8))
    with (length (ukey e ++ EncodeFixed64 (Z.lor (Z.shiftl (sequence e) 8 mod 2 ^ 64) (type e))))
    by (rewrite length_app; unfold EncodeFixed64; rewrite length_EncodeFixed; lia).
  rewrite app_assoc, drop_app_length. unfold GetLengthPrefixedSlice.
  rewrite GetVarint32_EncodeVarint32 by lia.
  by rewrite Nat2Z.id, take_ge.
Qed.

Lemma EncodeKey_lookup k S :
  EncodeKey (k ++ EncodeFixed64 (PackSequenceAndType S kValueTypeForSeek)) =
  memtable_key (LookupKey_new k S).
Proof.
  unfold EncodeKey, LookupKey_new, PutVarint32. cbn [memtable_key app].
  rewrite length_app. unfold EncodeFixed64 at 1. rewrite length_EncodeFixed.
  by replace (Z.of_nat (length k + 8)) with (Z.of_nat (length k) + 8) by lia.
Qed.

Lemma fmap_Permutation_inv {A B} (f : A -> B) (l1 : list B) (l2 : list A) :
  l1 ≡ₚ f <$> l2 -> exists l3, l1 = f <$> l3 /\ l3 ≡ₚ l2.
Proof.
  intros HP.
  assert (Hmap : forall l : list A, f <$> l = map f l).
  { induction l as [|x l IH]; [done|]. simpl. by rewrite <- IH. }
  rewrite Hmap in HP. apply Permutation_map_inv in HP as (l3 & -> & HP).
  exists l3. split; [symmetry; apply Hmap|by symmetry].
Qed.

Lemma StronglySorted_fmap_inv {A B} (f : A -> B) (R : B -> B -> Prop) (l : list A) :
  StronglySorted R (f <$> l) -> StronglySorted (fun x y => R (f x) (f y)) l.
Proof.
  induction l as [|x l IH]; intros Hs; [constructor|].
  rewrite fmap_cons in Hs. apply StronglySorted_cons in Hs as [Hx Hs].
  constructor; [by apply IH|]. by rewrite Forall_fmap in Hx.
Qed.

(** The table after [AddAll]: its nodes in order hold the entries in
    the order of their internal keys. *)
Lemma AddAll_sorted entries :
  Forall valid_entry entries -> unique_versions entries ->
  exists t order sorted,
    AddAll entries new = Some {| refs_ := 0; table_ := t |} /\
    SkipList.wf KeyComparator [] t order /\
    SkipList.keyof [] t <$> order = encode <$> sorted /\
    sorted ≡ₚ entries /\
    StronglySorted (fun a b => order_of (ukey a) (tag_of a) (ukey b) (tag_of b) < 0) sorted.
Proof.
  intros Hvalid Huniq.
  pose proof KeyComparator_TotalPreorder as Hcmp.
  destruct (SkipList.InsertAll_wf KeyComparator Random_Next [] Hcmp (encode <$> entries)
              (SkipList.new []) [] (SkipList.new_wf _ _))
    as (t & order & Ht & Hwf & Hperm).
  { by apply encode_distinct. }
  { intros y k' Hy. by apply elem_of_nil in Hy. }
  simpl in Hperm.
  apply fmap_Permutation_inv in Hperm as (sorted & Hkeys & Hperm).
  exists t, order, sorted. split_and!; try done.
  - rewrite AddAll_InsertAll. simpl. unfold Table in *. by rewrite Ht.
  - assert (Hv : Forall valid_entry sorted) by (by rewrite Hperm).
    rewrite Forall_forall in Hv.
    apply (SkipList.StronglySorted_ext_in
             (fun a b => KeyComparator (encode a) (encode b) < 0)).
    { intros a b Ha Hb. by rewrite KeyComparator_encode by auto. }
    apply (StronglySorted_fmap_inv encode (fun a b => KeyComparator a b < 0)).
    rewrite <- Hkeys.
    apply (StronglySorted_fmap _
             (fun a b => KeyComparator (SkipList.keyof [] t a) (SkipList.keyof [] t b) < 0));
      [done|apply (SkipList.wf_sorted _ _ _ _ Hwf)].
Qed.

Lemma contents_spec t order : forall B A sB fuel,
  SkipList.wf KeyComparator [] t order -> order = A ++ B ->
  SkipList.keyof [] t <$> B = encode <$> sB -> Forall valid_entry sB ->
  (length B < fuel)%nat ->
  contents fuel {| refs_ := 0; table_ := t |} {| iter_ := {| SkipList.node_ := head B |} |} =
  Some ((fun e => (internal_key e, val e)) <$> sB).
Proof.
  induction B as [|y B IH]; intros A sB fuel Hwf Horder Hkeys Hvalid Hfuel.
  - destruct fuel; [simpl in Hfuel; lia|]. symmetry in Hkeys.
    apply fmap_nil_inv in Hkeys. by subst sB.
  - destruct fuel; [lia|]. symmetry in Hkeys.
    apply fmap_cons_inv in Hkeys as (e & sB' & Hy & HB & ->). symmetry in HB.
    apply Forall_cons in Hvalid as [He Hvalid].
    assert (Hin : y ∈ order).
    { rewrite Horder. apply elem_of_app. right. by left. }
    cbn [contents MemTableIterator_Valid iter_ SkipList.Valid SkipList.node_ head].
    unfold MemTableIterator_key, MemTableIterator_value, MemTableIterator_Next.
    cbn [iter_ table_].
    rewrite (SkipList.Iterator_key_spec KeyComparator [] t order y Hwf Hin).
    rewrite (SkipList.Iterator_Next_spec KeyComparator [] t order A y B Hwf Horder).
    cbn [mbind option_bind]. rewrite Hy.
    rewrite GetLengthPrefixedSlice_encode, value_encode by done.
    assert (HB' : SkipList.keyof [] t <$> B = encode <$> sB') by (symmetry; exact HB).
    rewrite (IH (A ++ [y]) sB' fuel Hwf);
      [done|by rewrite <- app_assoc|done|done|simpl in Hfuel; lia].
Qed.

(** X19. After any [Add] calls with valid arguments, no two for the
    same user key and sequence number, an iterator over the memtable
    positioned by [SeekToFirst] and advanced by [Next] yields every
    entry added exactly once, ordered by ascending user key and, for
    the same user key, by descending sequence number; [key()] is the
    internal key of the entry (the user key followed by the 8-byte
    tag) and [value()] the value given to [Add].  [Seek] with the
    internal key of a user key and a sequence number lands on the
    first entry in that order that is not before it. *)
Theorem iterator_yields_entries (entries : list entry) :
  Forall valid_entry entries -> unique_versions entries ->
  exists m sorted,
    AddAll entries new = Some m /\
    sorted ≡ₚ entries /\
    StronglySorted (fun a b => order_of (ukey a) (tag_of a) (ukey b) (tag_of b) < 0) sorted /\
    (it ← MemTableIterator_SeekToFirst m (NewIterator m);
     contents (S (length entries)) m it) =
      Some ((fun e => (internal_key e, val e)) <$> sorted) /\
    (forall k S, Z.of_nat (length k) + 8 < 2 ^ 32 -> 0 <= S <= kMaxSequenceNumber ->
       exists lo hi it,
         sorted = lo ++ hi /\
         Forall (fun e => order_of (ukey e) (tag_of e) k (S * 256 + 1) < 0) lo /\
         Forall (fun e => 0 <= order_of (ukey e) (tag_of e) k (S * 256 + 1)) hi /\
         MemTableIterator_Seek m (NewIterator m)
           (k ++ EncodeFixed64 (PackSequenceAndType S kValueTypeForSeek)) = Some it /\
         MemTableIterator_key m it = internal_key <$> head hi /\
         MemTableIterator_value m it = val <$> head hi).
Proof.
  intros Hvalid Huniq.
  destruct (AddAll_sorted entries Hvalid Huniq)
    as (t & order & sorted & Hm & Hwf & Hkeys & Hperm & Hsorted).
  pose proof KeyComparator_TotalPreorder as Hcmp.
  assert (Hv : Forall valid_entry sorted) by (by rewrite Hperm).
  assert (Hlen : length order = length entries).
  { rewrite <- Hperm. apply (f_equal length) in Hkeys. by rewrite !length_fmap in Hkeys. }
  exists {| refs_ := 0; table_ := t |}, sorted. split_and!; try done.
  - unfold MemTableIterator_SeekToFirst. cbn [table_].
    rewrite (SkipList.SeekToFirst_spec KeyComparator [] t order Hwf).
    cbn [mbind option_bind].
    apply (contents_spec t order order []); try done. lia.
  - intros k S Hk HS.
    destruct (SkipList.split_at_key KeyComparator [] Hcmp t order
                (memtable_key (LookupKey_new k S)) (SkipList.wf_sorted _ _ _ _ Hwf))
      as (lo & hi & Horder & Hlo & Hhi).
    pose proof Hkeys as Hsplit. rewrite Horder, fmap_app in Hsplit. symmetry in Hsplit.
    apply fmap_app_inv in Hsplit as (slo & shi & Hklo & Hkhi & ->).
    apply Forall_app in Hv as [Hvlo Hvhi].
    exists slo, shi, {| iter_ := {| SkipList.node_ := head hi |} |}. split_and!.
    + done.
    + rewrite Forall_forall in Hvlo. apply Forall_forall. intros e He.
      rewrite <- KeyComparator_lookup by auto.
      assert (Hin : encode e ∈ SkipList.keyof [] t <$> lo).
      { rewrite Hklo. apply list_elem_of_fmap. by exists e. }
      apply list_elem_of_fmap in Hin as (y & -> & Hy). by apply Hlo.
    + rewrite Forall_forall in Hvhi. apply Forall_forall. intros e He.
      rewrite <- KeyComparator_lookup by auto.
      assert (Hin : encode e ∈ SkipList.keyof [] t <$> hi).
      { rewrite Hkhi. apply list_elem_of_fmap. by exists e. }
      apply list_elem_of_fmap in Hin as (y & -> & Hy). by apply Hhi.
    + unfold MemTableIterator_Seek. cbn [table_]. rewrite EncodeKey_lookup.
      by rewrite (SkipList.Seek_spec KeyComparator [] t order _ lo hi).
    + unfold MemTableIterator_key. cbn [iter_ table_].
      destruct hi as [|y hi]; [by destruct shi|].
      destruct shi as [|e shi]; [done|]. injection Hkhi as Hy _.
      apply Forall_cons in Hvhi as [He _]. cbn [head].
      rewrite (SkipList.Iterator_key_spec KeyComparator [] t order y Hwf)
        by (rewrite Horder; apply elem_of_app; right; by left).
      cbn [mbind option_bind fmap option_fmap option_map]. rewrite Hy.
      by rewrite GetLengthPrefixedSlice_encode.
    + unfold MemTableIterator_value. cbn [iter_ table_].
      destruct hi as [|y hi]; [by destruct shi|].
      destruct shi as [|e shi]; [done|]. injection Hkhi as Hy _.
      apply Forall_cons in Hvhi as [He _]. cbn [head].
      rewrite (SkipList.Iterator_key_spec KeyComparator [] t order y Hwf)
        by (rewrite Horder; apply elem_of_app; right; by left).
      cbn [mbind option_bind fmap option_fmap option_map]. rewrite Hy.
      by rewrite value_encode.
Qed.

End MemTable.

(** A table under the bytewise order: "a" is put at sequence 1, "b" at
    2, "a" is deleted at 3 and put again at 4.  The snapshot 3 sees the
    deletion. *)
Definition example_entries : list entry :=
  [ {| sequence := 1; type := kTypeValue; ukey := bytes "a"; val := bytes "x" |};
    {| sequence := 2; type := kTypeValue; ukey := bytes "b"; val := bytes "y" |};
    {| sequence := 3; type := kTypeDeletion; ukey := bytes "a"; val := [] |};
    {| sequence := 4; type := kTypeValue; ukey := bytes "a"; val := bytes "z" |} ].

Lemma Get_newest_visible_witness :
  exists m,
    AddAll Comparators.Slice_compare SkipList.example_random example_entries new = Some m /\
    Get Comparators.Slice_compare m (LookupKey_new (bytes "a") 3) [] OK =
      Some (true, [], NotFound EmptyString).
Proof.
  destruct (Get_newest_visible Comparators.Slice_compare SkipList.example_random
              Comparators.Bytewise_TotalPreorder example_entries (bytes "a") 3 [] OK)
    as (m & Hm & _ & Hdel & _).
  - unfold example_entries, valid_entry, kMaxSequenceNumber, kTypeValue, kTypeDeletion.
    repeat constructor; simpl; lia.
  - simpl. repeat (split || constructor); simpl; intros _; lia.
  - simpl. lia.
  - unfold kMaxSequenceNumber. lia.
  - exists m. split; [exact Hm|].
    apply (Hdel {| sequence := 3; type := kTypeDeletion; ukey := bytes "a"; val := [] |});
      [|reflexivity].
    split; [|split].
    + unfold example_entries. apply list_elem_of_In. simpl. tauto.
    + split; [reflexivity|simpl; lia].
    + intros e' He' [Hk' HS']. apply list_elem_of_In in He'. simpl in He'.
      destruct He' as [<-|[<-|[<-|[<-|[]]]]]; simpl in *; lia.
Defined.

(** A put and a deletion of "a" at the same sequence number 5: the two
    calls differ in their type, the deletion is an entry for "a" with
    the highest sequence number at most 5, and [Get] at the snapshot 5
    stores the value "x" and leaves the status as it was. *)
Definition example_put : entry :=
  {| sequence := 5; type := kTypeValue; ukey := bytes "a"; val := bytes "x" |}.

Definition example_deletion : entry :=
  {| sequence := 5; type := kTypeDeletion; ukey := bytes "a"; val := [] |}.

Lemma Get_same_sequence_both_types :
  (ukey example_put, sequence example_put, type example_put) <>
    (ukey example_deletion, sequence example_deletion, type example_deletion) /\
  ukey example_deletion = bytes "a" /\ sequence example_deletion = 5 /\
  sequence example_put = 5 /\ type example_deletion = kTypeDeletion /\
  (m ← AddAll Comparators.Slice_compare SkipList.example_random
         [example_put; example_deletion] new;
   Get Comparators.Slice_compare m (LookupKey_new (bytes "a") 5) [] OK) =
    Some (true, bytes "x", OK).
Proof.
  split_and!; try reflexivity.
  intros Heq. discriminate Heq.
Qed.

Lemma iterator_yields_entries_witness :
  exists m sorted,
    AddAll Comparators.Slice_compare SkipList.example_random example_entries new = Some m /\
    sorted ≡ₚ example_entries /\
    (it ← MemTableIterator_SeekToFirst m (NewIterator m);
     contents (S (length example_entries)) m it) =
      Some ((fun e => (internal_key e, val e)) <$> sorted).
Proof.
  destruct (iterator_yields_entries Comparators.Slice_compare SkipList.example_random
              Comparators.Bytewise_TotalPreorder example_entries)
    as (m & sorted & Hm & Hperm & _ & Hscan & _).
  - unfold example_entries, valid_entry, kMaxSequenceNumber, kTypeValue, kTypeDeletion.
    repeat constructor; simpl; lia.
  - simpl. repeat (split || constructor); simpl; intros _; lia.
  - exists m, sorted. split_and!; assumption.
Defined.

(** The example table read from the first entry: "a" at the sequence
    numbers 4, 3 and 1, then "b". *)
Example iterator_example :
  (m ← AddAll Comparators.Slice_compare SkipList.example_random example_entries new;
   it ← MemTableIterator_SeekToFirst m (NewIterator m);
   contents 5 m it) =
  Some [ (bytes "a" ++ EncodeFixed64 (4 * 256 + 1), bytes "z");
         (bytes "a" ++ EncodeFixed64 (3 * 256 + 0), []);
         (bytes "a" ++ EncodeFixed64 (1 * 256 + 1), bytes "x");
         (bytes "b" ++ EncodeFixed64 (2 * 256 + 1), bytes "y") ].
Proof. vm_compute. reflexivity. Qed.

End MemTable.

(** ** db/write_batch.cc: replaying a batch into a memtable *)

Module MemTableInserter.

Import Coding DBFormat.

Section Inserter.

(** The user comparator and the random source of the memtable. *)
Variable user_comparator : list Z -> list Z -> Z.
Variable Random_Next : Z -> Z * Z.

(** [class MemTableInserter]: [sequence_] is a [SequenceNumber], a
    [uint64_t]; [mem_] points to the memtable, which is [None] once an
    [Add] has left what the source defines. *)
Record MemTableInserter : Type := {
  sequence_ : Z;
  mem_ : option MemTable.MemTable
}.

Definition Put (h : MemTableInserter) (key value : list Z) : MemTableInserter :=
  {| mem_ := m ← mem_ h;
             MemTable.Add user_comparator Random_Next m (sequence_ h) kTypeValue key value;
     sequence_ := (sequence_ h + 1) mod 2 ^ 64 |}.

Definition Delete (h : MemTableInserter) (key : list Z) : MemTableInserter :=
  {| mem_ := m ← mem_ h;
             MemTable.Add user_comparator Random_Next m (sequence_ h) kTypeDeletion key [];
     sequence_ := (sequence_ h + 1) mod 2 ^ 64 |}.

(** [WriteBatchInternal::InsertInto(b, memtable)]: the status and the
    memtable afterwards. *)
Definition InsertInto (b : list Z) (memtable : MemTable.MemTable)
    : Status * option MemTable.MemTable :=
  let inserter := {| sequence_ := WriteBatch.Sequence b; mem_ := Some memtable |} in
  let '(s, inserter) := WriteBatch.Iterate Put Delete b inserter in
  (s, mem_ inserter).

(** *** What a batch leaves in the memtable *)

Definition record_key (r : WriteBatch.record) : list Z :=
  match r with WriteBatch.RValue key _ => key | WriteBatch.RDeletion key => key end.

(** The entry [MemTableInserter] adds for a record at the sequence
    number [seq]. *)
Definition to_entry (seq : Z) (r : WriteBatch.record) : MemTable.entry :=
  match r with
  | WriteBatch.RValue key value =>
      {| MemTable.sequence := seq; MemTable.type := kTypeValue;
         MemTable.ukey := key; MemTable.val := value |}
  | WriteBatch.RDeletion key =>
      {| MemTable.sequence := seq; MemTable.type := kTypeDeletion;
         MemTable.ukey := key; MemTable.val := [] |}
  end.

(** The entries for the records of a batch: consecutive sequence
    numbers from [seq] on. *)
Fixpoint entries_of (seq : Z) (ops : list WriteBatch.record) : list MemTable.entry :=
  match ops with
  | [] => []
  | r :: ops' => to_entry seq r :: entries_of (seq + 1) ops'
  end.

(** Keys and values that fit an entry of the memtable. *)
Definition insertable (r : WriteBatch.record) : Prop :=
  match r with
  | WriteBatch.RValue key value =>
      Z.of_nat (length key) + 8 < 2 ^ 32 /\ Z.of_nat (length value) < 2 ^ 32
  | WriteBatch.RDeletion key => Z.of_nat (length key) + 8 < 2 ^ 32
  end.

(** The last record of the batch that writes the user key [k]. *)
Definition last_write (k : list Z) (ops : list WriteBatch.record)
    : option WriteBatch.record :=
  last (filter (fun r => user_comparator (record_key r) k = 0) ops).

(** What a read of [k] is to give after the batch. *)
Definition read_after (k : list Z) (ops : list WriteBatch.record)
    (value : list Z) (s : Status) : bool * list Z * Status :=
  match last_write k ops with
  | Some (WriteBatch.RValue _ v) => (true, v, s)
  | Some (WriteBatch.RDeletion _) => (true, value, NotFound EmptyString)
  | None => (false, value, s)
  end.

Lemma length_entries_of ops : forall seq, length (entries_of seq ops) = length ops.
Proof. induction ops as [|r ops IH]; intros seq; simpl; [done|]. by rewrite IH. Qed.

Lemma entries_of_lookup ops : forall seq (i : nat) e,
  entries_of seq ops !! i = Some e ->
  exists r, ops !! i = Some r /\ e = to_entry (seq + Z.of_nat i) r.
Proof.
  induction ops as [|r ops IH]; intros seq i e Hi; [done|].
  destruct i as [|i]; simpl in Hi.
  - injection Hi as <-. exists r. split; [done|]. by rewrite Z.add_0_r.
  - apply IH in Hi as (r' & Hr' & ->). exists r'. split; [done|]. f_equal. lia.
Qed.

Lemma entries_of_lookup_Some ops : forall seq (i : nat) r,
  ops !! i = Some r -> entries_of seq ops !! i = Some (to_entry (seq + Z.of_nat i) r).
Proof.
  induction ops as [|r0 ops IH]; intros seq i r Hi; [done|].
  destruct i as [|i]; simpl in Hi |- *.
  - injection Hi as <-. by rewrite Z.add_0_r.
  - rewrite (IH _ _ _ Hi). do 2 f_equal. lia.
Qed.

Lemma sequence_to_entry seq r : MemTable.sequence (to_entry seq r) = seq.
Proof. by destruct r. Qed.

Lemma ukey_to_entry seq r : MemTable.ukey (to_entry seq r) = record_key r.
Proof. by destruct r. Qed.

Lemma entries_of_valid ops : forall seq,
  Forall insertable ops -> 0 <= seq ->
  seq + Z.of_nat (length ops) <= kMaxSequenceNumber + 1 ->
  Forall MemTable.valid_entry (entries_of seq ops).
Proof.
  induction ops as [|r ops IH]; intros seq Hops Hseq Hmax; [constructor|].
  apply Forall_cons in Hops as [Hr Hops]. simpl in Hmax |- *. constructor.
  - unfold MemTable.valid_entry. destruct r as [key value|key]; simpl in *.
    + split_and!; lia.
    + split_and!; lia.
  - apply IH; [done|lia|lia].
Qed.

Lemma entries_of_unique ops : forall seq,
  MemTable.unique_versions user_comparator (entries_of seq ops).
Proof.
  induction ops as [|r ops IH]; intros seq; [done|]. simpl. split; [|apply IH].
  apply Forall_forall. intros e He _.
  apply list_elem_of_lookup in He as [i Hi].
  apply entries_of_lookup in Hi as (r' & _ & ->).
  rewrite !sequence_to_entry. lia.
Qed.

(** The handler after the records of a batch. *)
Lemma fold_call ops : forall seq om,
  0 <= seq -> seq + Z.of_nat (length ops) < 2 ^ 64 ->
  fold_left (WriteBatch.call Put Delete) ops {| sequence_ := seq; mem_ := om |} =
  {| sequence_ := seq + Z.of_nat (length ops);
     mem_ := foldl (fun m e => m ← m;
                      MemTable.Add user_comparator Random_Next m
                        (MemTable.sequence e) (MemTable.type e)
                        (MemTable.ukey e) (MemTable.val e))
                   om (entries_of seq ops) |}.
Proof.
  induction ops as [|r ops IH]; intros seq om Hseq Hmax.
  - simpl. by rewrite Z.add_0_r.
  - cbn [fold_left entries_of foldl length] in *.
    assert (Hstep : WriteBatch.call Put Delete {| sequence_ := seq; mem_ := om |} r =
                    {| sequence_ := seq + 1;
                       mem_ := m ← om;
                         MemTable.Add user_comparator Random_Next m
                           (MemTable.sequence (to_entry seq r)) (MemTable.type (to_entry seq r))
                           (MemTable.ukey (to_entry seq r)) (MemTable.val (to_entry seq r)) |}).
    { destruct r as [key value|key]; simpl; unfold Put, Delete; simpl;
        by rewrite Z.mod_small by lia. }
    rewrite Hstep, IH by lia. f_equal. lia.
Qed.

Lemma last_filter_split {A} (P : A -> Prop) `{forall x, Decision (P x)} (l : list A) r :
  last (filter P l) = Some r ->
  exists l1 l2, l = l1 ++ r :: l2 /\ P r /\ Forall (fun x => ~ P x) l2.
Proof.
  induction l as [|x l IH] using rev_ind; [done|].
  rewrite filter_app, filter_cons, filter_nil.
  destruct (decide (P x)) as [Hx|Hx].
  - rewrite last_snoc. intros [= ->]. exists l, []. split_and!; [done|done|constructor].
  - rewrite app_nil_r. intros Hl. destruct (IH Hl) as (l1 & l2 & -> & Hr & Hl2).
    exists l1, (l2 ++ [x]). split_and!; [by rewrite <- app_assoc|done|].
    apply Forall_app. split; [done|]. by constructor.
Qed.

Lemma last_filter_None {A} (P : A -> Prop) `{forall x, Decision (P x)} (l : list A) :
  last (filter P l) = None -> Forall (fun x => ~ P x) l.
Proof.
  intros Hl. apply last_None in Hl. apply Forall_forall. intros x Hx HP.
  assert (Hin : x ∈ filter P l) by (by apply list_elem_of_filter).
  rewrite Hl in Hin. by apply elem_of_nil in Hin.
Qed.

Hypothesis user_ok : Comparators.TotalPreorder user_comparator.

(** X20. A batch built by [Put] and [Delete] calls and given the
    sequence number [seq] is replayed into a new memtable with
    consecutive sequence numbers from [seq] on, and a read of a user
    key at a snapshot that covers the batch sees the batch's last
    write to that key: the value of a [Put], a NotFound status for a
    [Delete], and a miss when the batch does not write the key. *)
Theorem InsertInto_then_Get (ops : list WriteBatch.record) (seq : Z)
    (k : list Z) (S : Z) (value : list Z) (s : Status) :
  Forall insertable ops ->
  Z.of_nat (length (WriteBatch.build ops)) < 2 ^ 31 ->
  0 <= seq -> seq + Z.of_nat (length ops) <= kMaxSequenceNumber + 1 ->
  Z.of_nat (length k) + 8 < 2 ^ 32 ->
  0 <= S -> seq + Z.of_nat (length ops) - 1 <= S <= kMaxSequenceNumber ->
  let b := WriteBatch.SetSequence (WriteBatch.build ops) seq in
  exists m,
    InsertInto b MemTable.new = (OK, Some m) /\
    MemTable.AddAll user_comparator Random_Next (entries_of seq ops) MemTable.new = Some m /\
    MemTable.Get user_comparator m (LookupKey_new k S) value s =
      Some (read_after k ops value s).
Proof.
  intros Hops Hlen Hseq Hmax Hk HS0 HS b.
  assert (Hrec : Forall WriteBatch.record_ok ops).
  { eapply Forall_impl; [exact Hops|]. intros [key v|key]; simpl; lia. }
  pose proof (WriteBatch.records_encode ops Hrec) as Hrs.
  pose proof (WriteBatch.records_length _ _ Hrs) as Hn.
  assert (Hsmall : Z.of_nat (length ops) < 2 ^ 31).
  { pose proof (WriteBatch.length_build ops). lia. }
  assert (Hb : b = EncodeFixed64 seq ++ EncodeFixed32 (Z.of_nat (length ops)) ++
                   concat (WriteBatch.encode_record <$> ops)).
  { subst b. unfold WriteBatch.SetSequence. rewrite WriteBatch.build_eq by done.
    by rewrite drop_app_length' by done. }
  assert (Hl8 : length (EncodeFixed64 seq) = 8%nat) by apply length_EncodeFixed.
  assert (Hsequence : WriteBatch.Sequence b = seq).
  { rewrite Hb. unfold WriteBatch.Sequence, DecodeFixed64, EncodeFixed64.
    rewrite DecodeFixed_EncodeFixed. change (256 ^ Z.of_nat 8) with (2 ^ 64).
    unfold kMaxSequenceNumber in *.
    rewrite (Z.mod_small seq) by lia. apply Z.mod_small. lia. }
  rewrite WriteBatch.build_eq in Hlen by done. rewrite !length_app in Hlen.
  (* the table the batch builds *)
  destruct (MemTable.Get_lands user_comparator Random_Next user_ok
              (entries_of seq ops) k S value s) as (m & Hm & Hget).
  { by apply entries_of_valid. }
  { apply entries_of_unique. }
  { done. }
  { unfold kMaxSequenceNumber in *. lia. }
  exists m. split_and!; [|done|].
  - unfold InsertInto. rewrite Hsequence, Hb.
    rewrite WriteBatch.Iterate_records by (done || lia).
    rewrite fold_call by (unfold kMaxSequenceNumber in *; lia).
    cbn [mem_]. f_equal. exact Hm.
  - (* the entry the read lands on *)
    assert (Hvis : forall (i : nat) r, ops !! i = Some r ->
              MemTable.visible user_comparator k S (to_entry (seq + Z.of_nat i) r) <->
              user_comparator (record_key r) k = 0).
    { intros i r Hi. unfold MemTable.visible.
      rewrite sequence_to_entry, ukey_to_entry.
      pose proof (lookup_lt_Some _ _ _ Hi). split; [by intros [? _]|]. intros ?. split; [done|lia]. }
    unfold read_after, last_write.
    destruct (last (filter (fun r => user_comparator (record_key r) k = 0) ops))
      as [r|] eqn:Hlast.
    + apply last_filter_split in Hlast as (l1 & l2 & Hsplit & Hr & Hl2).
      assert (Hi : ops !! length l1 = Some r) by (rewrite Hsplit; apply list_lookup_middle; done).
      set (e := to_entry (seq + Z.of_nat (length l1)) r).
      assert (Hnewest : MemTable.newest user_comparator (entries_of seq ops) k S e).
      { split_and!.
        - apply list_elem_of_lookup. exists (length l1). by apply entries_of_lookup_Some.
        - by apply (Hvis (length l1) r).
        - intros e' He' Hv'. apply list_elem_of_lookup in He' as [j Hj].
          apply entries_of_lookup in Hj as (r' & Hj & ->).
          apply (Hvis j r' Hj) in Hv'. subst e. rewrite !sequence_to_entry.
          destruct (decide (j <= length l1)%nat) as [Hle|Hgt]; [lia|]. exfalso.
          rewrite Hsplit in Hj. rewrite lookup_app_r in Hj by lia.
          destruct (j - length l1)%nat as [|j'] eqn:Ej; [lia|]. simpl in Hj.
          rewrite Forall_forall in Hl2. apply (Hl2 r'); [|done].
          by apply list_elem_of_lookup_2 in Hj. }
      destruct Hget as [[Hnone _]|(e' & Hnewest' & Hget)].
      * destruct Hnewest as (He & Hv & _). by destruct (Hnone e He).
      * rewrite Hget.
        rewrite (MemTable.newest_unique user_comparator user_ok _ _ _ _ _
                   (entries_of_unique ops seq) Hnewest' Hnewest).
        unfold MemTable.found. subst e. by destruct r.
    + apply last_filter_None in Hlast. rewrite Forall_forall in Hlast.
      destruct Hget as [[_ Hget]|(e' & (He' & Hv' & _) & _)]; [done|]. exfalso.
      apply list_elem_of_lookup in He' as [j Hj].
      apply entries_of_lookup in Hj as (r' & Hj & ->).
      apply (Hvis j r' Hj) in Hv'. apply (Hlast r'); [|done].
      by apply list_elem_of_lookup_2 in Hj.
Qed.

End Inserter.

(** The batch of the file comment, Put("key", "v1") then Delete("key"),
    inserted at sequence number 7 and read at the snapshot 8. *)
Lemma InsertInto_then_Get_witness :
  exists m,
    InsertInto Comparators.Slice_compare SkipList.example_random
      (WriteBatch.SetSequence
         (WriteBatch.build [WriteBatch.RValue (bytes "key") (bytes "v1");
                            WriteBatch.RDeletion (bytes "key")]) 7)
      MemTable.new = (OK, Some m) /\
    MemTable.Get Comparators.Slice_compare m (LookupKey_new (bytes "key") 8) [] OK =
      Some (true, [], NotFound EmptyString).
Proof.
  destruct (InsertInto_then_Get Comparators.Slice_compare SkipList.example_random
              Comparators.Bytewise_TotalPreorder
              [WriteBatch.RValue (bytes "key") (bytes "v1"); WriteBatch.RDeletion (bytes "key")]
              7 (bytes "key") 8 [] OK) as (m & H1 & _ & H3).
  - repeat constructor; simpl; lia.
  - vm_compute. reflexivity.
  - lia.
  - unfold kMaxSequenceNumber. simpl. lia.
  - simpl. lia.
  - lia.
  - unfold kMaxSequenceNumber. simpl. lia.
  - exists m. split; [exact H1|exact H3].
Defined.

End MemTableInserter.
